(** * UFOMap: Morton codes and the octree skeleton

    A shallow embedding of [ufo/map/code.h] and of the tree engine of
    [ufo/map/octree/octree_base.h].

    Conventions.
    - [code_t] is an unsigned 64-bit integer and [key_t] an unsigned 32-bit
      integer; both are embedded as [Z] with the wrap-around written out.
      A left shift is the mathematical shift reduced modulo the width, so a
      shift count of 64 or more (which C++ leaves undefined) yields zero.
    - [depth_t] is [uint8_t]; a tree depth is a [nat] where the code recurses
      on it and a [Z] where it is mixed with code arithmetic.
    - [IndexField] is [std::bitset<8>], embedded as a [Z] of which only the
      bits 0..7 are ever read. *)

From Stdlib Require Import String.
From Stdlib Require Import ZArith List Bool Lia.
From stdpp Require Import base option list.
Import ListNotations.
Local Open Scope Z_scope.

(** ** Fixed-width arithmetic *)

Definition wrap (w z : Z) : Z := z mod 2 ^ w.
Definition shl64 (a s : Z) : Z := wrap 64 (Z.shiftl a s).
Definition shl32 (a s : Z) : Z := wrap 32 (Z.shiftl a s).
Definition add64 (a b : Z) : Z := wrap 64 (a + b).

(** ** Keys *)

Module Key.

(** Modelled from the spec: [ufo/map/key.h] is not among the sources.  A key
    is a triple of unsigned lattice coordinates at a depth, each coordinate
    normalized so that its lowest [depth] bits are zero. *)
Record t : Type := mk { x : Z; y : Z; z : Z; depth : Z }.

Definition normalize (k d : Z) : Z := shl32 (Z.shiftr (wrap 32 k) d) d.

Definition make (kx ky kz d : Z) : t :=
  mk (normalize kx d) (normalize ky d) (normalize kz d) d.

(** [key[i]] *)
Definition get (k : t) (i : Z) : Z :=
  if i =? 0 then x k else if i =? 1 then y k else z k.

End Key.

(** ** Codes ([code.h]) *)

Module Code.

(** A [Code] is its private member [code_]. *)
Definition t : Type := Z.

(** [Code(code_t code, depth_t depth)].  The left shift is by
    [3 * depth + 5], which is below 64 for a depth up to 19.  For a depth of
    20 or more C++ leaves the shift undefined; the value below (all bits
    shifted out) is then not a value of the program, and statements about
    [make] at such depths are statements about this definition only. *)
Definition make (code depth : Z) : t :=
  Z.lor (shl64 (Z.shiftr code (3 * depth)) (3 * depth + 5)) depth.

(** [depth()] *)
Definition depth (c : t) : Z := Z.land c 0x1F.

(** [code()] *)
Definition code (c : t) : Z := Z.shiftr c 5.

(** The portable branch of [splitBy3]. *)
Definition splitBy3 (a : Z) : Z :=
  let code := Z.land a 0x1fffff in
  let code := Z.land (Z.lor code (shl64 code 32)) 0x1f00000000ffff in
  let code := Z.land (Z.lor code (shl64 code 16)) 0x1f0000ff0000ff in
  let code := Z.land (Z.lor code (shl64 code 8)) 0x100f00f00f00f00f in
  let code := Z.land (Z.lor code (shl64 code 4)) 0x10c30c30c30c30c3 in
  let code := Z.land (Z.lor code (shl64 code 2)) 0x1249249249249249 in
  code.

(** The portable branch of [get3Bits]; the result is cast to [key_t]. *)
Definition get3Bits (code : Z) : Z :=
  let a := Z.land code 0x1249249249249249 in
  let a := Z.land (Z.lxor a (Z.shiftr a 2)) 0x10c30c30c30c30c3 in
  let a := Z.land (Z.lxor a (Z.shiftr a 4)) 0x100f00f00f00f00f in
  let a := Z.land (Z.lxor a (Z.shiftr a 8)) 0x1f0000ff0000ff in
  let a := Z.land (Z.lxor a (Z.shiftr a 16)) 0x1f00000000ffff in
  let a := Z.land (Z.lxor a (Z.shiftr a 32)) 0x1fffff in
  wrap 32 a.

(** [static code_t toCode(Key key)], portable branch. *)
Definition toCode (key : Key.t) : Z :=
  Z.lor (Z.lor (splitBy3 (Key.get key 0)) (shl64 (splitBy3 (Key.get key 1)) 1))
        (shl64 (splitBy3 (Key.get key 2)) 2).

(** [Code(Key key)] *)
Definition ofKey (key : Key.t) : t :=
  Z.lor (shl64 (toCode key) 5) (Key.depth key).

(** [key_t toKey(std::size_t index) const] *)
Definition toKey (c : t) (index : Z) : Z := get3Bits (Z.shiftr c (index + 5)).

(** [operator Key() const], portable branch. *)
Definition key (c : t) : Key.t :=
  Key.make (toKey c 0) (toKey c 1) (toKey c 2) (depth c).

(** [index(depth_t depth)].  The right shift is by [3 * depth + 5], below 64
    for a depth up to 19.  For the depths 20 and 21, which are root depths
    of maps of 21 and 22 levels, C++ leaves the shift undefined; the value 0
    below is then not a value of the program.  What is stated of an index
    at the root depth is stated for root depths up to 19. *)
Definition index (c : t) (depth : Z) : Z :=
  Z.land (Z.shiftr c (3 * depth + 5)) 0x7.

(** [toDepth(depth_t depth)] *)
Definition toDepth (c : t) (depth : Z) : t := make (Z.shiftr c 5) depth.

(** The condition of the assertion at the head of [parent(depth_t)],
    [assert(parent_depth >= depth())]. *)
Definition parent_assert (c : t) (parent_depth : Z) : bool := depth c <=? parent_depth.

(** [parent(depth_t parent_depth)]: the value returned when [parent_assert]
    holds.  A build with assertions aborts when it fails; a build without
    them returns this value. *)
Definition parent (c : t) (parent_depth : Z) : t := make (Z.shiftr c 5) parent_depth.

(** [parent()], the overload without argument *)
Definition parent0 (c : t) : t := parent c (depth c + 1).

(** [child(std::size_t index)].  The shifts, the one of the constructor
    included, stay below 64 for a code of depth up to 20. *)
Definition child (c : t) (index : Z) : t :=
  let d := depth c in
  if d =? 0 then c
  else
    let cd := d - 1 in
    make (add64 (Z.shiftr c 5) (shl64 index (3 * cd))) cd.

(** [sibling(std::size_t index)].  The shifts, the one of the constructor
    included, stay below 64 for a code of depth up to 18. *)
Definition sibling (c : t) (index : Z) : t :=
  let d := depth c in
  let sc := shl64 (Z.shiftr c (5 + 3 * (d + 1))) (3 * (d + 1)) in
  make (add64 sc (shl64 index (3 * d))) d.

(** The values a [Code] object can hold: 64 bits, of which the interleaved
    bits below the code's own depth are zero.  Every constructor of the
    class establishes this. *)
Definition wf (c : t) : Prop :=
  0 <= c < 2 ^ 64 /\ Z.land (Z.shiftr c 5) (Z.ones (3 * depth c)) = 0.

End Code.

(** ** The BMI2 reference

    [_pdep_u64] and [_pext_u64] are processor instructions; their meaning is
    the one of the instruction set reference: the low bits of the source are
    deposited, in order, at the set positions of the mask (respectively the
    bits at the set positions of the mask are gathered into the low bits). *)

Fixpoint pdep_from (n : nat) (pos k src mask : Z) : Z :=
  match n with
  | O => 0
  | S n' =>
      if Z.testbit mask pos
      then Z.lor (if Z.testbit src k then 2 ^ pos else 0)
                 (pdep_from n' (pos + 1) (k + 1) src mask)
      else pdep_from n' (pos + 1) k src mask
  end.

Definition pdep_u64 (src mask : Z) : Z := pdep_from 64 0 0 src mask.

Fixpoint pext_from (n : nat) (pos k src mask : Z) : Z :=
  match n with
  | O => 0
  | S n' =>
      if Z.testbit mask pos
      then Z.lor (if Z.testbit src pos then 2 ^ k else 0)
                 (pext_from n' (pos + 1) (k + 1) src mask)
      else pext_from n' (pos + 1) k src mask
  end.

Definition pext_u64 (src mask : Z) : Z := pext_from 64 0 0 src mask.

(** The BMI2 branches of [splitBy3] and [get3Bits]. *)
Definition splitBy3_bmi2 (a : Z) : Z := pdep_u64 a 0x9249249249249249.
Definition get3Bits_bmi2 (code : Z) : Z := wrap 32 (pext_u64 code 0x9249249249249249).

(** The BMI2 branch of [toCode(Key key)], and [Code(Key key)] over it. *)
Definition toCode_bmi2 (key : Key.t) : Z :=
  Z.lor (Z.lor (pdep_u64 (Key.get key 0) 0x9249249249249249)
               (pdep_u64 (Key.get key 1) 0x2492492492492492))
        (pdep_u64 (Key.get key 2) 0x4924924924924924).

Definition ofKey_bmi2 (key : Key.t) : Code.t :=
  Z.lor (shl64 (toCode_bmi2 key) 5) (Key.depth key).

(** The BMI2 branch of [operator Key() const]. *)
Definition key_bmi2 (c : Code.t) : Key.t :=
  Key.make (pext_u64 c 0x4924924924924920) (pext_u64 c 0x9249249249249240)
           (pext_u64 c 0x2492492492492480) (Code.depth c).

(** ** A symbolic bit evaluator for shift-and-mask code

    The portable interleave is straight-line code over one input word.  Its
    expressions are reified, and each output bit is evaluated symbolically
    to a constant or to one bit of the input. *)

Inductive bexp : Type :=
| BVar
| BConst (z : Z)
| BAnd (a b : bexp)
| BOr (a b : bexp)
| BXor (a b : bexp)
| BShl (a : bexp) (s : Z)
| BShr (a : bexp) (s : Z)
| BWrap (w : Z) (a : bexp).

Fixpoint beval (x : Z) (e : bexp) : Z :=
  match e with
  | BVar => x
  | BConst z => z
  | BAnd a b => Z.land (beval x a) (beval x b)
  | BOr a b => Z.lor (beval x a) (beval x b)
  | BXor a b => Z.lxor (beval x a) (beval x b)
  | BShl a s => Z.shiftl (beval x a) s
  | BShr a s => Z.shiftr (beval x a) s
  | BWrap w a => wrap w (beval x a)
  end.

Inductive sym : Type := SFalse | STrue | SIn (j : Z).

Definition denote (x : Z) (s : sym) : bool :=
  match s with
  | SFalse => false
  | STrue => true
  | SIn j => Z.testbit x j
  end.

Definition sym_and (a b : option sym) : option sym :=
  match a, b with
  | Some SFalse, _ | _, Some SFalse => Some SFalse
  | Some STrue, s | s, Some STrue => s
  | Some (SIn i), Some (SIn j) => if i =? j then Some (SIn i) else None
  | _, _ => None
  end.

Definition sym_or (a b : option sym) : option sym :=
  match a, b with
  | Some STrue, _ | _, Some STrue => Some STrue
  | Some SFalse, s | s, Some SFalse => s
  | Some (SIn i), Some (SIn j) => if i =? j then Some (SIn i) else None
  | _, _ => None
  end.

Definition sym_xor (a b : option sym) : option sym :=
  match a, b with
  | Some SFalse, s | s, Some SFalse => s
  | Some STrue, Some STrue => Some SFalse
  | Some (SIn i), Some (SIn j) => if i =? j then Some SFalse else None
  | _, _ => None
  end.

(** Bit [n] of [e], for [0 <= n]. *)
Fixpoint symbit (e : bexp) (n : Z) : option sym :=
  match e with
  | BVar => Some (SIn n)
  | BConst z => Some (if Z.testbit z n then STrue else SFalse)
  | BAnd a b => sym_and (symbit a n) (symbit b n)
  | BOr a b => sym_or (symbit a n) (symbit b n)
  | BXor a b => sym_xor (symbit a n) (symbit b n)
  | BShl a s => if n - s <? 0 then Some SFalse else symbit a (n - s)
  | BShr a s => if s <? 0 then None else symbit a (n + s)
  | BWrap w a => if w <? 0 then None else if n <? w then symbit a n else Some SFalse
  end.

Definition sym_eqb (a : option sym) (b : sym) : bool :=
  match a, b with
  | Some SFalse, SFalse | Some STrue, STrue => true
  | Some (SIn i), SIn j => i =? j
  | _, _ => false
  end.

(** The positions [lo, lo+1, ..., lo+len-1]. *)
Fixpoint zrange (lo : Z) (len : nat) : list Z :=
  match len with
  | O => []
  | S len' => lo :: zrange (lo + 1) len'
  end.

Definition symcheck (e : bexp) (spec : Z -> sym) (len : nat) : bool :=
  forallb (fun n => sym_eqb (symbit e n) (spec n)) (zrange 0 len).

Definition bshl64 (a : bexp) (s : Z) : bexp := BWrap 64 (BShl a s).

Definition splitBy3_exp : bexp :=
  let code := BAnd BVar (BConst 0x1fffff) in
  let code := BAnd (BOr code (bshl64 code 32)) (BConst 0x1f00000000ffff) in
  let code := BAnd (BOr code (bshl64 code 16)) (BConst 0x1f0000ff0000ff) in
  let code := BAnd (BOr code (bshl64 code 8)) (BConst 0x100f00f00f00f00f) in
  let code := BAnd (BOr code (bshl64 code 4)) (BConst 0x10c30c30c30c30c3) in
  let code := BAnd (BOr code (bshl64 code 2)) (BConst 0x1249249249249249) in
  code.

Definition get3Bits_exp : bexp :=
  let a := BAnd BVar (BConst 0x1249249249249249) in
  let a := BAnd (BXor a (BShr a 2)) (BConst 0x10c30c30c30c30c3) in
  let a := BAnd (BXor a (BShr a 4)) (BConst 0x100f00f00f00f00f) in
  let a := BAnd (BXor a (BShr a 8)) (BConst 0x1f0000ff0000ff) in
  let a := BAnd (BXor a (BShr a 16)) (BConst 0x1f00000000ffff) in
  let a := BAnd (BXor a (BShr a 32)) (BConst 0x1fffff) in
  BWrap 32 a.

(** What the interleave is meant to compute, bit by bit. *)
Definition splitBy3_spec (n : Z) : sym :=
  if (n mod 3 =? 0) && (n / 3 <? 21) then SIn (n / 3) else SFalse.

Definition get3Bits_spec (j : Z) : sym :=
  if j <? 21 then SIn (3 * j) else SFalse.

(** ** Index fields ([IndexField = std::bitset<8>]) *)

Module IndexField.

Definition t : Type := Z.

(** The loop range [for (index_t i = 0; 8 != i; ++i)]. *)
Definition indices : list Z := [0; 1; 2; 3; 4; 5; 6; 7].

(** [f[i]], read *)
Definition test (f : t) (i : Z) : bool := Z.testbit f i.

(** [f[i] = b] *)
Definition assign (f : t) (i : Z) (b : bool) : t :=
  if b then Z.setbit f i else Z.clearbit f i.

(** [set()], [reset()] and the default-constructed field *)
Definition full : t := 0xFF.
Definition empty : t := 0.

Definition all (f : t) : bool := forallb (test f) indices.
Definition any (f : t) : bool := existsb (test f) indices.
Definition none (f : t) : bool := negb (any f).

(** [~f], [f & g], [f | g] *)
Definition compl (f : t) : t := Z.lxor f 0xFF.
Definition inter (f g : t) : t := Z.land f g.
Definition union (f g : t) : t := Z.lor f g.

(** [IndexField indices; indices[i] = true;] *)
Definition single (i : Z) : t := assign empty i true.

End IndexField.

(** [for (i = 0; 8 != i; ++i) if (sel[i]) body(i)], threading the state the
    body mutates; [None] is undefined behaviour met in the body. *)
Definition forIndicesOn {S : Type} (l : list Z) (sel : IndexField.t)
    (body : Z -> S -> option S) (s : S) : option S :=
  fold_left (fun acc i => s' ← acc; if IndexField.test sel i then body i s' else Some s')
            l (Some s).

Definition forIndices {S : Type} (sel : IndexField.t)
    (body : Z -> S -> option S) (s : S) : option S :=
  forIndicesOn IndexField.indices sel body s.

(** ** The payload contract

    The octree is generic in the payload of a block of eight slots (the
    [Data] base class of a node) and reaches it only through these hooks of
    the derived map. *)
Class Payload (Data : Type) : Type := {
  (** payload of a value-initialised node *)
  dataDefault : Data;
  (** [Data::fill(parent, index)], called on the child *)
  dataFill : Data -> Data -> Z -> Data;
  (** [Data::clear()] *)
  dataClear : Data -> Data;
  (** [derived().updateNode(node, i, children[i])]: the new payload of [node] *)
  dataUpdate : Data -> Z -> Data -> Data;
  (** [Data::isCollapsible()] *)
  dataCollapsible : Data -> bool
}.

(** ** Nodes

    Modelled from the spec: [ufo/map/octree/octree_node.h] is not among the
    sources.  The members are the ones [octree_base.h] reads and writes
    ([node.modified], [node.leaf], [node.leaf_children],
    [node.inner_children], [leafChildren(node)[i]]): a node is a block of
    eight sibling slots.  A leaf block carries the payload and the
    [modified] field; an inner block carries in addition the [leaf] field
    and one owning pointer to the block of its eight child nodes (one child
    node per slot), null while all eight slots are leaves.  The member
    functions [fill], [clear] and [isCollapsible] follow the spec: [fill]
    seeds a child from the state of its parent's slot, [isCollapsible] of an
    inner node requires all its slots to be leaves. *)

Section Nodes.

Context {Data : Type} `{Payload Data}.

Record LeafNode : Type := mkLeaf {
  data : Data;
  modified : IndexField.t
}.

Record InnerNode (C : Type) : Type := mkInner {
  base : LeafNode;                (* the [LeafNode] base class *)
  leaf : IndexField.t;
  children : option (list C)      (* [inner_children] / [leaf_children] *)
}.

Global Arguments mkInner {C} _ _ _.
Global Arguments base {C} _.
Global Arguments leaf {C} _.
Global Arguments children {C} _.

(** The nodes that hold the slots of depth [d]: leaf nodes at depth 0, inner
    nodes above. *)
Fixpoint NodeAt (d : nat) : Type :=
  match d with
  | O => LeafNode
  | S d' => InnerNode (NodeAt d')
  end.

(** [static_cast<LeafNode&>(node)] *)
Definition asLeaf (d : nat) : NodeAt d -> LeafNode :=
  match d with
  | O => fun n => n
  | S _ => fun n => base n
  end.

Definition setModifiedField (l : LeafNode) (m : IndexField.t) : LeafNode :=
  mkLeaf (data l) m.

Definition setData (l : LeafNode) (x : Data) : LeafNode :=
  mkLeaf x (modified l).

Definition withBase {C : Type} (n : InnerNode C) (l : LeafNode) : InnerNode C :=
  mkInner l (leaf n) (children n).

Definition withLeafField {C : Type} (n : InnerNode C) (f : IndexField.t) : InnerNode C :=
  mkInner (base n) f (children n).

Definition withChildren {C : Type} (n : InnerNode C) (c : option (list C)) : InnerNode C :=
  mkInner (base n) (leaf n) c.

(** [node.modified[index] = b] *)
Definition markModified {C : Type} (n : InnerNode C) (index : Z) (b : bool) : InnerNode C :=
  withBase n (setModifiedField (base n) (IndexField.assign (modified (base n)) index b)).

(** [node.modified.set()] / [node.modified.reset()] on an inner node *)
Definition markAllInner {C : Type} (n : InnerNode C) (m : IndexField.t) : InnerNode C :=
  withBase n (setModifiedField (base n) m).

(** [LeafNode::fill(parent, index)] *)
Definition LeafNode_fill (self parent : LeafNode) (index : Z) : LeafNode :=
  mkLeaf (dataFill (data self) (data parent) index)
         (if IndexField.test (modified parent) index
          then IndexField.full else IndexField.empty).

(** [InnerNode::fill(parent, index)]: a filled node has no children of its
    own; the block it may still point to is kept for later use. *)
Definition InnerNode_fill {C : Type} (self : InnerNode C) (parent : LeafNode) (index : Z)
  : InnerNode C :=
  mkInner (LeafNode_fill (base self) parent index) IndexField.full (children self).

Definition fillAt (d : nat) : NodeAt d -> LeafNode -> Z -> NodeAt d :=
  match d with
  | O => LeafNode_fill
  | S _ => InnerNode_fill
  end.

(** [clear()] releases the payload. *)
Definition LeafNode_clear (n : LeafNode) : LeafNode :=
  mkLeaf (dataClear (data n)) (modified n).

Definition InnerNode_clear {C : Type} (n : InnerNode C) : InnerNode C :=
  withBase n (LeafNode_clear (base n)).

(** [isCollapsible()] *)
Definition collapsibleAt (d : nat) : NodeAt d -> bool :=
  match d with
  | O => fun n => dataCollapsible (data n)
  | S _ => fun n => IndexField.all (leaf n) && dataCollapsible (data (base n))
  end.

(** A value-initialised node, as in [new LeafNodeBlock()] and
    [new InnerNodeBlock()]. *)
Definition defaultLeaf : LeafNode := mkLeaf dataDefault IndexField.empty.

Definition defaultAt (d : nat) : NodeAt d :=
  match d with
  | O => defaultLeaf
  | S _ => mkInner defaultLeaf IndexField.empty None
  end.

(** [innerChild(parent, i)] and [leafChild(parent, i)]: [None] when the
    block pointer is null. *)
Definition getChild {C : Type} (n : InnerNode C) (i : Z) : option C :=
  l ← children n; l !! Z.to_nat i.

Definition setChild {C : Type} (n : InnerNode C) (i : Z) (c : C) : InnerNode C :=
  withChildren n (fmap (fun l => <[Z.to_nat i := c]> l) (children n)).

(** Run [g] on the children selected by [sel], in index order. *)
Definition forChildren {C : Type} (sel : IndexField.t) (g : C -> option C)
    (n : InnerNode C) : option (InnerNode C) :=
  forIndices sel (fun i n => c ← getChild n i; c' ← g c; Some (setChild n i c')) n.

End Nodes.

Global Arguments LeafNode Data : clear implicits.
Global Arguments InnerNode Data C : clear implicits.
Global Arguments NodeAt Data d : clear implicits.

(** ** Node handles

    Modelled from the spec: [ufo/map/node.h] is not among the sources.  A
    [Node] handle is a pointer to the block that holds the node's data, the
    code asked for and the depth of that block.  A pointer to a block is the
    list of slot indices leading to it from the root block; [None] is the
    null pointer of the default-constructed handle. *)
Record Node : Type := mkNode {
  node_data : option (list Z);
  node_code : Code.t;
  node_dataDepth : Z
}.

(** [Node()] *)
Definition nullNode : Node := mkNode None 0 0.

(** [node.depth()] and [node.isActualData()] *)
Definition node_depth (n : Node) : Z := Code.depth (node_code n).
Definition isActualData (n : Node) : bool := node_depth n =? node_dataDepth n.

(** ** Outcomes of the public entry points *)
Inductive exn : Type :=
| out_of_range (what : string).

Inductive outcome (A : Type) : Type :=
| Return (a : A)
| Raise (e : exn)
| Undefined.

Global Arguments Return {A} _.
Global Arguments Raise {A} _.
Global Arguments Undefined {A}.

Definition lift {A : Type} (o : option A) : outcome A :=
  match o with
  | Some a => Return a
  | None => Undefined
  end.

(** ** The octree ([octree_base.h])

    The embedding is the single-threaded instance with the default
    [ReuseNodes = false]: locks are no-ops, a released block is either
    deleted or kept in place, and the informational counters are left out.
    A tree of root depth [S r] has [depth_levels = r + 2]. *)

Section Octree.

Context {Data : Type} `{Payload Data}.

Local Abbreviation Leaf := (LeafNode Data).
Local Abbreviation Inner d := (InnerNode Data (NodeAt Data d)).

Record Map (r : nat) : Type := mkMap {
  automatic_prune : bool;
  root : Inner r
}.

Global Arguments mkMap {r} _ _.
Global Arguments automatic_prune {r} _.
Global Arguments root {r} _.

Definition rootDepth (r : nat) : nat := S r.
Definition depthLevels (r : nat) : nat := S (S r).
Definition rootIndex : Z := 0.
Definition maxDepthLevels : nat := 22.
Definition minDepthLevels : nat := 3.

(** [setAutomaticPruning()] and [resetAutomaticPruning()] *)
Definition setAutomaticPruning {r : nat} (m : Map r) : Map r := mkMap true (root m).
Definition resetAutomaticPruning {r : nat} (m : Map r) : Map r := mkMap false (root m).

(** [rootCode()] *)
Definition rootCode (r : nat) : Code.t :=
  Code.make (shl64 rootIndex (3 * Z.of_nat (rootDepth r))) (Z.of_nat (rootDepth r)).

(** [isRoot(Code)] and [isRoot(Node)] *)
Definition isRootCode (r : nat) (c : Code.t) : bool := rootCode r =? c.
Definition isRoot (r : nat) (n : Node) : bool := isRootCode r (node_code n).

(** *** Create and delete *)

(** [allocateInnerChildren] / [allocateLeafChildren] *)
Definition allocateChildren (d : nat) (node : Inner d) : Inner d :=
  withChildren node (Some (replicate 8 (defaultAt d))).

(** [createInnerChildren(node, index, depth)] and
    [createLeafChildren(node, index)] *)
Definition createChildren (d : nat) (node : Inner d) (index : Z) : option (Inner d) :=
  if IndexField.test (leaf node) index then
    let node := match children node with
                | None => allocateChildren d node
                | Some _ => node
                end in
    c ← getChild node index;
    let node := setChild node index (fillAt d c (base node) index) in
    Some (withLeafField node (IndexField.assign (leaf node) index false))
  else Some node.

(** [deallocateInnerChildren(node, prune)] / [deallocateLeafChildren] *)
Definition deallocateChildren {C : Type} (node : InnerNode Data C) (prune : bool)
  : InnerNode Data C :=
  if prune then withChildren node None else node.

(** [deleteChildren(node, indices, depth, manual_pruning)], which at depth 1
    is [deleteLeafChildren(node, indices, manual_pruning)]; [prune] is
    [manual_pruning || automaticPruning()].  The recursive call
    [deleteChildren(child, depth - 1, manual_pruning)] selects [~child.leaf]. *)
Fixpoint deleteChildren (prune : bool) (d : nat) : Inner d -> IndexField.t -> option (Inner d) :=
  match d return Inner d -> IndexField.t -> option (Inner d) with
  | O => fun node indices =>
      let new_leaf := IndexField.inter indices (IndexField.compl (leaf node)) in
      if IndexField.none new_leaf then Some node
      else
        let node := withLeafField node (IndexField.union (leaf node) indices) in
        node ← forChildren new_leaf (fun child => Some (LeafNode_clear child)) node;
        Some (if IndexField.all (leaf node) then deallocateChildren node prune else node)
  | S d' => fun node indices =>
      let new_leaf := IndexField.inter indices (IndexField.compl (leaf node)) in
      if IndexField.none new_leaf then Some node
      else
        let node := withLeafField node (IndexField.union (leaf node) indices) in
        node ← forChildren new_leaf
                 (fun child =>
                    child ← deleteChildren prune d' child (IndexField.compl (leaf child));
                    Some (InnerNode_clear child)) node;
        Some (if IndexField.all (leaf node) then deallocateChildren node prune else node)
  end.

(** *** Prune *)

(** [isCollapsible(node, indices, depth)] *)
Definition isCollapsible (d : nat) (node : Inner d) (indices : IndexField.t)
  : option IndexField.t :=
  forIndices indices
    (fun i collapsible =>
       c ← getChild node i;
       Some (IndexField.assign collapsible i (collapsibleAt d c)))
    IndexField.empty.

(** [prune(node, indices, depth)] *)
Definition prune (ap : bool) (d : nat) (node : Inner d) (indices : IndexField.t)
  : option (Inner d) :=
  indices ← isCollapsible d node indices;
  if IndexField.any indices then deleteChildren ap d node indices else Some node.

(** *** Propagate *)

(** [updateNode(node, indices, depth)]; the branch for [indices.all()] runs
    the same calls. *)
Definition updateNode (ap : bool) (d : nat) (node : Inner d) (indices : IndexField.t)
  : option (Inner d) :=
  node ← forIndices indices
           (fun i node =>
              c ← getChild node i;
              Some (withBase node
                      (setData (base node)
                         (dataUpdate (data (base node)) i (data (asLeaf d c))))))
           node;
  prune ap d node indices.

(** The tail of [propagateModifiedRecurs]. *)
Definition propagateFinish (ap keep : bool) (max_depth : nat) (d : nat)
    (node : Inner d) (modified_parent : IndexField.t) : option (Inner d) :=
  if (S d <=? max_depth)%nat then
    node ← updateNode ap d node modified_parent;
    Some (if keep then node else markAllInner node IndexField.empty)
  else Some node.

(** [propagateModifiedRecurs<KeepModified>(node, depth, max_depth)] with
    [depth = S d]. *)
Fixpoint propagateModifiedRecurs (ap keep : bool) (max_depth : nat) (d : nat)
  : Inner d -> option (Inner d) :=
  match d return Inner d -> option (Inner d) with
  | O => fun node =>
      let modified_parent :=
        IndexField.inter (modified (base node)) (IndexField.compl (leaf node)) in
      if IndexField.none modified_parent then
        Some (if negb keep && (1 <=? max_depth)%nat
              then markAllInner node IndexField.empty else node)
      else
        node ← (if keep then Some node
                else forChildren modified_parent
                       (fun child => Some (setModifiedField child IndexField.empty)) node);
        propagateFinish ap keep max_depth 0 node modified_parent
  | S d' => fun node =>
      let modified_parent :=
        IndexField.inter (modified (base node)) (IndexField.compl (leaf node)) in
      if IndexField.none modified_parent then
        Some (if negb keep && (S (S d') <=? max_depth)%nat
              then markAllInner node IndexField.empty else node)
      else
        node ← forChildren modified_parent
                 (propagateModifiedRecurs ap keep max_depth d') node;
        propagateFinish ap keep max_depth (S d') node modified_parent
  end.

(** [propagateModified(InnerNode& node, index, depth, keep_modified, max_depth)] *)
Definition propagateModifiedAt (ap keep : bool) (max_depth : nat) (d : nat)
    (node : Inner d) (index : Z) : option (Inner d) :=
  if negb (IndexField.test (modified (base node)) index) then Some node
  else
    node ← match d return Inner d -> option (Inner d) with
           | O => fun node =>
               if keep then Some node
               else c ← getChild node index;
                    Some (setChild node index (setModifiedField c IndexField.empty))
           | S d' => fun node =>
               c ← getChild node index;
               c ← propagateModifiedRecurs ap keep max_depth d' c;
               Some (setChild node index c)
           end node;
    if (S d <=? max_depth)%nat then
      node ← updateNode ap d node (IndexField.single index);
      Some (if keep then node else markModified node index false)
    else Some node.

(** [propagateModified(bool keep_modified, depth_t max_depth)] *)
Definition propagateModified {r : nat} (keep : bool) (max_depth : nat) (m : Map r)
  : option (Map r) :=
  root' ← propagateModifiedAt (automatic_prune m) keep max_depth r (root m) rootIndex;
  Some (mkMap (automatic_prune m) root').

(** *** Apply *)

Section Apply.

(** [f(node, index)] writes the payload of one slot, [f2(children)] the
    payload of a whole block. *)
Variable f : Data -> Z -> Data.
Variable f2 : Data -> Data.

Definition callF (n : Leaf) (index : Z) : Leaf := setData n (f (data n) index).

Definition callF2 (n : Leaf) : Leaf := setData n (f2 (data n)).

(** The same calls on an inner node, which is passed as its leaf-node base. *)
Definition callFInner {C : Type} (n : InnerNode Data C) (index : Z) : InnerNode Data C :=
  withBase n (callF (base n) index).

Definition callF2Inner {C : Type} (n : InnerNode Data C) : InnerNode Data C :=
  withBase n (callF2 (base n)).

(** [applyAllRecurs(node, indices, depth, f, f2)] with [depth = S d] *)
Fixpoint applyAllRecurs (d : nat) : Inner d -> IndexField.t -> option (Inner d) :=
  match d return Inner d -> IndexField.t -> option (Inner d) with
  | O => fun node indices =>
      forChildren indices
        (fun children => Some (setModifiedField (callF2 children) IndexField.full)) node
  | S d' => fun node indices =>
      forChildren indices
        (fun children =>
           children ←
             (if IndexField.all (leaf children) then Some (callF2Inner children)
              else
                children ←
                  (if IndexField.any (leaf children)
                   then forIndices (leaf children)
                          (fun j ch => Some (callFInner ch j)) children
                   else Some children);
                applyAllRecurs d' children (IndexField.compl (leaf children)));
           Some (markAllInner children IndexField.full)) node
  end.

Variable code : Code.t.

Definition min_depth : nat := Nat.max (Z.to_nat (Code.depth code)) 1.

(** The part of [apply(InnerNode&, depth, code, f, f2)] after the loop, for
    a target that is not at depth 0; returns the block and its depth. *)
Definition applyTarget (d : nat) (cur : Inner d) : option (Inner d * nat) :=
  let index := Code.index code (Z.of_nat (S d)) in
  cur ← (if IndexField.test (leaf cur) index then Some (callFInner cur index)
         else applyAllRecurs d cur (IndexField.single index));
  Some (markModified cur index true, S d).

(** [apply(InnerNode& node, depth, code, f, f2)] with [depth = S d]; the
    loop is the recursion, and the result carries the depth of the block the
    returned handle points to. *)
Fixpoint applyAt (d : nat) : Inner d -> option (Inner d * nat) :=
  match d return Inner d -> option (Inner d * nat) with
  | O => fun cur =>
      if (min_depth =? 1)%nat then
        if Code.depth code =? 0 then
          let index := Code.index code 1 in
          cur ← createChildren 0 cur index;
          let cur := markModified cur index true in
          child ← getChild cur index;
          let child_index := Code.index code 0 in
          let child := callF child child_index in
          let child := setModifiedField child
                         (IndexField.assign (modified child) child_index true) in
          Some (setChild cur index child, O)
        else applyTarget 0 cur
      else None
  | S d' => fun cur =>
      if (min_depth =? S (S d'))%nat then applyTarget (S d') cur
      else
        let index := Code.index code (Z.of_nat (S (S d'))) in
        cur ← createChildren (S d') cur index;
        let cur := markModified cur index true in
        child ← getChild cur index;
        '(child, depth) ← applyAt d' child;
        Some (setChild cur index child, depth)
  end.

End Apply.

(** The pointer to the block of depth [depth] on the way to [code]. *)
Definition blockPath (r : nat) (code : Code.t) (depth : nat) : list Z :=
  map (fun k => Code.index code (Z.of_nat (S r) - Z.of_nat k)) (seq 0 (S r - depth)).

(** [apply(Code code, f, f2, propagate)] *)
Definition apply {r : nat} (m : Map r) (code : Code.t) (f : Data -> Z -> Data)
    (f2 : Data -> Data) (propagate : bool) : outcome (Node * Map r) :=
  if Z.of_nat (rootDepth r) <? Code.depth code then Return (nullNode, m)
  else
    lift ('(root', depth) ← applyAt f f2 code r (root m);
          let m := mkMap (automatic_prune m) root' in
          m ← (if propagate then propagateModified false maxDepthLevels m else Some m);
          Some (mkNode (Some (blockPath r code depth)) code (Z.of_nat depth), m)).

(** *** Modified flags *)

(** [setModifiedRecurs(node, depth, min_depth)] with [depth = S d]; at depth
    1 all eight leaf nodes of the block are marked.  The child of slot [i],
    which the source writes [innerNode(node, i)], is [innerChild(node, i)]. *)
Fixpoint setModifiedRecurs (min_depth : nat) (d : nat) : Inner d -> option (Inner d) :=
  match d return Inner d -> option (Inner d) with
  | O => fun node =>
      let node := markAllInner node IndexField.full in
      if IndexField.all (leaf node) || (1 =? min_depth)%nat then Some node
      else forChildren IndexField.full
             (fun child => Some (setModifiedField child IndexField.full)) node
  | S d' => fun node =>
      let node := markAllInner node IndexField.full in
      if IndexField.all (leaf node) || (S (S d') =? min_depth)%nat then Some node
      else forChildren (IndexField.compl (leaf node)) (setModifiedRecurs min_depth d') node
  end.

(** [setModified(InnerNode& node, index, depth, min_depth)] *)
Definition setModifiedAt (min_depth : nat) (d : nat) (node : Inner d) (index : Z)
  : option (Inner d) :=
  let node := if (min_depth <=? S d)%nat then markModified node index true else node in
  if (min_depth <? S d)%nat then
    match d return Inner d -> option (Inner d) with
    | O => fun node =>
        c ← getChild node index;
        Some (setChild node index (setModifiedField c IndexField.full))
    | S d' => fun node =>
        c ← getChild node index;
        c ← setModifiedRecurs min_depth d' c;
        Some (setChild node index c)
    end node
  else Some node.

(** [setModified(depth_t min_depth)] *)
Definition setModified {r : nat} (min_depth : nat) (m : Map r) : option (Map r) :=
  if (min_depth <=? rootDepth r)%nat then
    root' ← setModifiedAt min_depth r (root m) rootIndex;
    Some (mkMap (automatic_prune m) root')
  else Some m.

(** [setModifiedParentsRecurs(node, depth, code)] with [depth = S d]; the
    test [code.depth() < depth - 1] fails at depth 1. *)
Fixpoint setModifiedParentsRecurs (code : Code.t) (d : nat) : Inner d -> option (Inner d) :=
  match d return Inner d -> option (Inner d) with
  | O => fun node => Some (markModified node (Code.index code 1) true)
  | S d' => fun node =>
      let index := Code.index code (Z.of_nat (S (S d'))) in
      let node := markModified node index true in
      if (Code.depth code <? Z.of_nat (S (S d')) - 1)
         && negb (IndexField.test (leaf node) index)
      then
        c ← getChild node index;
        c ← setModifiedParentsRecurs code d' c;
        Some (setChild node index c)
      else Some node
  end.

(** [setModifiedParents(Code code)] *)
Definition setModifiedParents {r : nat} (m : Map r) (code : Code.t) : option (Map r) :=
  root' ← setModifiedParentsRecurs code r (root m);
  Some (mkMap (automatic_prune m) root').

(** [resetModifiedRecurs(node, depth, max_depth)] with [depth = S d] *)
Fixpoint resetModifiedRecurs (max_depth : nat) (d : nat) : Inner d -> option (Inner d) :=
  match d return Inner d -> option (Inner d) with
  | O => fun node =>
      let modified_parents :=
        IndexField.inter (modified (base node)) (IndexField.compl (leaf node)) in
      if IndexField.none modified_parents then
        Some (if (1 <=? max_depth)%nat then markAllInner node IndexField.empty else node)
      else
        node ← forChildren IndexField.full
                 (fun child => Some (setModifiedField child IndexField.empty)) node;
        Some (if (1 <=? max_depth)%nat then markAllInner node IndexField.empty else node)
  | S d' => fun node =>
      let modified_parents :=
        IndexField.inter (modified (base node)) (IndexField.compl (leaf node)) in
      if IndexField.none modified_parents then
        Some (if (S (S d') <=? max_depth)%nat
              then markAllInner node IndexField.empty else node)
      else
        node ← forChildren modified_parents (resetModifiedRecurs max_depth d') node;
        Some (if (S (S d') <=? max_depth)%nat
              then markAllInner node IndexField.empty else node)
  end.

(** [resetModified(InnerNode& node, index, depth, max_depth)] *)
Definition resetModifiedAt (max_depth : nat) (d : nat) (node : Inner d) (index : Z)
  : option (Inner d) :=
  if IndexField.test (leaf node) index || negb (IndexField.test (modified (base node)) index)
  then Some (if (S d <=? max_depth)%nat then markModified node index false else node)
  else
    node ← match d return Inner d -> option (Inner d) with
           | O => fun node =>
               c ← getChild node index;
               Some (setChild node index (setModifiedField c IndexField.empty))
           | S d' => fun node =>
               c ← getChild node index;
               c ← resetModifiedRecurs max_depth d' c;
               Some (setChild node index c)
           end node;
    Some (if (S d <=? max_depth)%nat then markModified node index false else node).

(** [resetModified(depth_t max_depth)] *)
Definition resetModified {r : nat} (max_depth : nat) (m : Map r) : option (Map r) :=
  root' ← resetModifiedAt max_depth r (root m) rootIndex;
  Some (mkMap (automatic_prune m) root').

(** *** Construction and [clear] *)

(** [initRoot()]: the payload of the root is set by the derived map. *)
Definition initRoot {r : nat} (rootData : Data) (node : Inner r) : Inner r :=
  mkInner (mkLeaf rootData IndexField.empty) IndexField.full (children node).

(** The map after construction. *)
Definition newMap (r : nat) (auto_prune : bool) (rootData : Data) : Map r :=
  mkMap auto_prune (initRoot rootData (defaultAt (S r))).

(** [clear(bool prune)] with unchanged leaf size and depth levels *)
Definition clear {r : nat} (rootData : Data) (prune : bool) (m : Map r) : option (Map r) :=
  root' ← deleteChildren (prune || automatic_prune m) r (root m)
             (IndexField.compl (leaf (root m)));
  Some (mkMap (automatic_prune m) (initRoot rootData root')).

(** *** Lookup *)

(** The loop and the return of [leafNodeAndDepth(code)], started at a block
    of depth [S d] reached through [path]: the pointer to the block found,
    the block seen as a leaf node, and its depth. *)
Fixpoint findFrom (code : Code.t) (min_depth : nat) (d : nat) (path : list Z)
  : Inner d -> option (list Z * Leaf * nat) :=
  match d return Inner d -> option (list Z * Leaf * nat) with
  | O => fun node =>
      let index := Code.index code 1 in
      if negb (min_depth =? 1)%nat && negb (IndexField.test (leaf node) index) then None
      else if (Code.depth code =? 0) && negb (IndexField.test (leaf node) index) then
        c ← getChild node index; Some (path ++ [index], c, O)
      else Some (path, base node, 1%nat)
  | S d' => fun node =>
      let index := Code.index code (Z.of_nat (S (S d'))) in
      if negb (min_depth =? S (S d'))%nat && negb (IndexField.test (leaf node) index) then
        c ← getChild node index;
        findFrom code min_depth d' (path ++ [index]) c
      else if (Code.depth code =? 0) && negb (IndexField.test (leaf node) index) then None
      else Some (path, base node, S (S d'))
  end.

(** [leafNodeAndDepth(Code code)] *)
Definition leafNodeAndDepth {r : nat} (m : Map r) (code : Code.t)
  : option (list Z * Leaf * nat) :=
  findFrom code (Nat.max (Z.to_nat (Code.depth code)) 1) r [] (root m).

(** [operator()(Code code)] *)
Definition find {r : nat} (m : Map r) (code : Code.t) : option Node :=
  '(ptr, _, depth) ← leafNodeAndDepth m code;
  Some (mkNode (Some ptr) code (Z.of_nat depth)).

(** [isModified(Code code)] *)
Definition isModified {r : nat} (m : Map r) (code : Code.t) : option bool :=
  '(_, node, depth) ← leafNodeAndDepth m code;
  Some (IndexField.test (modified node) (Code.index code (Z.of_nat depth))).

(** [isModified()], the overload without argument *)
Definition isModifiedRoot {r : nat} (m : Map r) : bool :=
  IndexField.test (modified (base (root m))) rootIndex.

(** [isPureLeaf(Code code)] *)
Definition isPureLeaf (code : Code.t) : bool := 0 =? Code.depth code.

(** [exists(Code code)] *)
Definition exists_ {r : nat} (m : Map r) (code : Code.t) : option bool :=
  '(_, _, depth) ← leafNodeAndDepth m code;
  Some (Z.of_nat depth =? Code.depth code).

(** [at(Code code)]; the inner [None] is [std::nullopt]. *)
Definition at_ {r : nat} (m : Map r) (code : Code.t) : option (option Node) :=
  if Code.depth code <=? Z.of_nat (rootDepth r)
  then n ← find m code; Some (Some n)
  else Some None.

(** [rootNode()] *)
Definition rootNode (r : nat) : Node :=
  mkNode (Some []) (rootCode r) (Z.of_nat (rootDepth r)).

(** The loop of [innerNodeAndDepth(code)], started at a block of depth
    [S d] reached through [path].  The statement [auto index =
    code.index(depth)] in the loop body declares a new variable, so that the
    test and the descent use [index], the index at the root depth, at every
    level.  The result is the pointer to the block found, its leaf-node part
    with its leaf field, and its depth. *)
Fixpoint innerFrom (min_depth : nat) (index : Z) (d : nat) (path : list Z)
  : Inner d -> option (list Z * (Leaf * IndexField.t) * nat) :=
  match d return Inner d -> option (list Z * (Leaf * IndexField.t) * nat) with
  | O => fun node =>
      if negb (min_depth =? 1)%nat && negb (IndexField.test (leaf node) index) then None
      else Some (path, (base node, leaf node), 1%nat)
  | S d' => fun node =>
      if negb (min_depth =? S (S d'))%nat && negb (IndexField.test (leaf node) index) then
        c ← getChild node index;
        innerFrom min_depth index d' (path ++ [index]) c
      else Some (path, (base node, leaf node), S (S d'))
  end.

(** [innerNodeAndDepth(Code code)] *)
Definition innerNodeAndDepth {r : nat} (m : Map r) (code : Code.t)
  : option (list Z * (Leaf * IndexField.t) * nat) :=
  innerFrom (Nat.max (Z.to_nat (Code.depth code)) 1)
    (Code.index code (Z.of_nat (rootDepth r))) r [] (root m).

(** [isLeaf(Code code)] *)
Definition isLeaf {r : nat} (m : Map r) (code : Code.t) : option bool :=
  if isPureLeaf code then Some true
  else
    '(_, (_, lf), depth) ← innerNodeAndDepth m code;
    Some (IndexField.test lf (Code.index code (Z.of_nat depth))).

(** [isParent(Code code)] *)
Definition isParent {r : nat} (m : Map r) (code : Code.t) : option bool :=
  negb <$> isLeaf m code.

(** Follow a block pointer from a block of depth [S d], then run the loop
    of [operator()(Node)] from the block it designates. *)
Fixpoint findFromPointer (code : Code.t) (min_depth : nat) (d : nat)
    (walked ptr : list Z) : Inner d -> option (list Z * Leaf * nat) :=
  match ptr with
  | [] => findFrom code min_depth d walked
  | i :: ptr' =>
      match d return Inner d -> option (list Z * Leaf * nat) with
      | O => fun _ => None
      | S d' => fun node =>
          c ← getChild node i;
          findFromPointer code min_depth d' (walked ++ [i]) ptr' c
      end
  end.

(** [operator()(Node node)] *)
Definition findNode {r : nat} (m : Map r) (node : Node) : option Node :=
  if isActualData node then Some node
  else
    ptr ← node_data node;
    if negb (Z.of_nat (S r) - Z.of_nat (List.length ptr) =? node_dataDepth node) then None
    else
      '(ptr', _, depth) ←
        findFromPointer (node_code node)
          (Nat.max (Z.to_nat (node_depth node)) 1) r [] ptr (root m);
      Some (mkNode (Some ptr') (node_code node) (Z.of_nat depth)).

(** [sibling(Node node, index_t sibling_index)] *)
Definition sibling {r : nat} (m : Map r) (node : Node) (sibling_index : Z) : option Node :=
  node ← findNode m node;
  Some (mkNode (node_data node) (Code.sibling (node_code node) sibling_index)
          (node_dataDepth node)).

(** [siblingChecked(Node const& node, index_t sibling_index)] *)
Definition siblingChecked {r : nat} (m : Map r) (node : Node) (sibling_index : Z)
  : outcome Node :=
  if negb (isRoot r node) then Raise (out_of_range "Node has no siblings"%string)
  else if 7 <? sibling_index then Raise (out_of_range "sibling_index out of range"%string)
  else lift (sibling m node sibling_index).

(** [parent(Node node)] *)
Definition parent {r : nat} (m : Map r) (node : Node) : option Node :=
  if node_depth node =? node_dataDepth node
  then find m (Code.parent0 (node_code node))
  else Some (mkNode (node_data node) (Code.parent0 (node_code node))
               (node_dataDepth node)).

(** [parentChecked(Node const& node)] *)
Definition parentChecked {r : nat} (m : Map r) (node : Node) : outcome Node :=
  if Z.of_nat (rootDepth r) <=? node_depth node
  then Raise (out_of_range "Node has no parent"%string)
  else lift (parent m node).

End Octree.

(** ** Tree predicates used in the statements *)

Section Predicates.

Context {Data : Type} `{Payload Data}.

Local Abbreviation Leaf := (LeafNode Data).
Local Abbreviation Inner d := (InnerNode Data (NodeAt Data d)).

(** A slot index. *)
Definition isIndex (i : Z) : Prop := 0 <= i < 8.

(** Slot [i] of [n] has children. *)
Definition isParentSlot {C : Type} (n : InnerNode Data C) (i : Z) : Prop :=
  IndexField.test (leaf n) i = false.

(** Every slot without the leaf bit has its child node in place, all the
    way down. *)
Fixpoint WF (d : nat) : NodeAt Data d -> Prop :=
  match d return NodeAt Data d -> Prop with
  | O => fun _ => True
  | S d' => fun n =>
      forall i, isIndex i -> isParentSlot n i ->
      exists c, getChild n i = Some c /\ WF d' c
  end.

(** [P] holds of every inner node of the tree below [n], [n] included. *)
Fixpoint ForallInner (P : forall d, Inner d -> Prop) (d : nat) : Inner d -> Prop :=
  match d return Inner d -> Prop with
  | O => fun n => P O n
  | S d' => fun n =>
      P (S d') n
      /\ forall i c, isIndex i -> isParentSlot n i -> getChild n i = Some c ->
         ForallInner P d' c
  end.

(** The modified bit of the slot reached from the block [n] through the
    slot indices [path]; [None] when there is no such node in the tree. *)
Fixpoint slotModified (d : nat) (path : list Z) : NodeAt Data d -> option bool :=
  match path with
  | [] => fun _ => None
  | [i] => fun n =>
      if (0 <=? i) && (i <? 8)
      then Some (IndexField.test (modified (asLeaf d n)) i) else None
  | i :: path' =>
      match d return NodeAt Data d -> option bool with
      | O => fun _ => None
      | S d' => fun n =>
          if (0 <=? i) && (i <? 8) && negb (IndexField.test (leaf n) i)
          then c ← getChild n i; slotModified d' path' c
          else None
      end
  end.

(** No modified bit is set in the block [n] nor in the tree below it. *)
Fixpoint Clean (d : nat) : NodeAt Data d -> Prop :=
  match d return NodeAt Data d -> Prop with
  | O => fun n => forall i, isIndex i -> IndexField.test (modified n) i = false
  | S d' => fun n =>
      (forall i, isIndex i -> IndexField.test (modified (base n)) i = false)
      /\ forall i c, isIndex i -> isParentSlot n i -> getChild n i = Some c ->
         Clean d' c
  end.

(** Every modified bit is set in the block [n] and in the tree below it. *)
Fixpoint FullyModified (d : nat) : NodeAt Data d -> Prop :=
  match d return NodeAt Data d -> Prop with
  | O => fun n => forall i, isIndex i -> IndexField.test (modified n) i = true
  | S d' => fun n =>
      (forall i, isIndex i -> IndexField.test (modified (base n)) i = true)
      /\ forall i, isIndex i -> isParentSlot n i ->
         exists c, getChild n i = Some c /\ FullyModified d' c
  end.

(** The payload of slot [i] of [n] is what [updateNode] computes from the
    child node [c]. *)
Definition Aggregated (d : nat) (n : Inner d) (i : Z) (c : NodeAt Data d) : Prop :=
  data (base n) = dataUpdate (data (base n)) i (data (asLeaf d c)).

(** The invariant of the two-phase write model: the tree is well formed,
    below a slot that is not modified nothing is modified, and (when [pay]
    is set) the payload of such a slot is the aggregate of its children. *)
Fixpoint Inv (pay : bool) (d : nat) : NodeAt Data d -> Prop :=
  match d return NodeAt Data d -> Prop with
  | O => fun _ => True
  | S d' => fun n =>
      forall i, isIndex i -> isParentSlot n i ->
      exists c, getChild n i = Some c /\ Inv pay d' c
        /\ (IndexField.test (modified (base n)) i = false ->
            Clean d' c /\ (pay = true -> Aggregated d' n i c))
  end.

(** The payload hooks behave slot-wise: [updateNode] on a slot is
    idempotent and independent of the other slots. *)
Definition UpdateSlotwise : Prop :=
  (forall x i c, isIndex i -> dataUpdate (dataUpdate x i c) i c = dataUpdate x i c)
  /\ (forall x i c j c', isIndex i -> isIndex j -> i <> j ->
        dataUpdate (dataUpdate x i c) j c' = dataUpdate (dataUpdate x j c') i c).

(** [f(node, i)] writes slot [i] only. *)
Definition SlotLocal (f : Data -> Z -> Data) : Prop :=
  forall x i j c, isIndex i -> isIndex j -> i <> j ->
  dataUpdate (f x i) j c = f (dataUpdate x j c) i.

(** The map states reached from a new map through the modelled interface.
    With [pay] set, [resetModified] is left out and the functions handed to
    [apply] are slot-local. *)
Inductive reachable (pay : bool) {r : nat} : Map r -> Prop :=
| reach_new auto_prune rootData :
    reachable pay (newMap r auto_prune rootData)
| reach_setAutomaticPruning m :
    reachable pay m -> reachable pay (setAutomaticPruning m)
| reach_resetAutomaticPruning m :
    reachable pay m -> reachable pay (resetAutomaticPruning m)
| reach_clear m m' rootData prune :
    reachable pay m -> clear rootData prune m = Some m' -> reachable pay m'
| reach_apply m m' code f f2 propagate node :
    reachable pay m -> (pay = true -> SlotLocal f) ->
    apply m code f f2 propagate = Return (node, m') -> reachable pay m'
| reach_propagateModified m m' keep max_depth :
    reachable pay m -> propagateModified keep max_depth m = Some m' -> reachable pay m'
| reach_setModified m m' min_depth :
    reachable pay m -> setModified min_depth m = Some m' -> reachable pay m'
| reach_resetModified m m' max_depth :
    reachable pay m -> pay = false -> resetModified max_depth m = Some m' ->
    reachable pay m'.

(** The leaf view of the block a pointer designates. *)
Fixpoint blockAt (d : nat) (ptr : list Z) : Inner d -> option Leaf :=
  match ptr with
  | [] => fun n => Some (base n)
  | i :: ptr' =>
      match d return Inner d -> option Leaf with
      | O => fun n =>
          match ptr' with
          | [] => getChild n i
          | _ => None
          end
      | S d' => fun n => c ← getChild n i; blockAt d' ptr' c
      end
  end.

End Predicates.

(** * Definitions used in the statements and in the proofs *)

(** ** The bit-deposit instruction, symbolically

    The source bit that [pdep_from] deposits at position [m]. *)
Fixpoint pdep_sym (n : nat) (pos k mask m : Z) : sym :=
  match n with
  | O => SFalse
  | S n' =>
      if Z.testbit mask pos
      then if pos =? m then SIn k else pdep_sym n' (pos + 1) (k + 1) mask m
      else pdep_sym n' (pos + 1) k mask m
  end.

(** The deposit under the mask [0x9249249249249249]: every third position. *)
Definition pdep_spec (n : Z) : sym := if n mod 3 =? 0 then SIn (n / 3) else SFalse.

(** ** Paths *)

(** The slot indices from a block of depth [S d] down to the block of depth
    [depth] on the way to [code]. *)
Definition pathFrom (d : nat) (code : Code.t) (depth : nat) : list Z :=
  map (fun k => Code.index code (Z.of_nat (S d) - Z.of_nat k)) (seq 0 (S d - depth)).

(** The slot indices from the block of depth [n] down to the slot that
    [code] designates. *)
Fixpoint targetPath (code : Code.t) (n : nat) : list Z :=
  Code.index code (Z.of_nat n) ::
  match n with
  | O => []
  | S n' => if Z.of_nat n =? Code.depth code then [] else targetPath code n'
  end.

(** Two slots of which one is the other or lies above it. *)
Definition comparable (p q : list Z) : Prop := p `prefix_of` q \/ q `prefix_of` p.

(** ** Parts of the tree operations and relations between trees *)

Section Support.

Context {Data : Type} `{Payload Data}.

Local Abbreviation Leaf := (LeafNode Data).
Local Abbreviation Inner d := (InnerNode Data (NodeAt Data d)).

(** The body of [forChildren]. *)
Definition childStep {C : Type} (g : C -> option C) (i : Z) (n : InnerNode Data C)
  : option (InnerNode Data C) :=
  c ← getChild n i; c' ← g c; Some (setChild n i c').

(** What [applyAllRecurs] does to one selected child. *)
Definition applyAllChild (f : Data -> Z -> Data) (f2 : Data -> Data) (d : nat)
    (children : Inner d) : option (Inner d) :=
  children ←
    (if IndexField.all (leaf children) then Some (callF2Inner f2 children)
     else
       children ←
         (if IndexField.any (leaf children)
          then forIndices (leaf children)
                 (fun j (ch : Inner d) => Some (callFInner f ch j)) children
          else Some children);
       applyAllRecurs f f2 d children (IndexField.compl (leaf children)));
  Some (markAllInner children IndexField.full).

(** The common body of [deleteChildren] and [deleteLeafChildren]. *)
Definition deleteBody {C : Type} (prune : bool) (g : C -> option C)
    (node : InnerNode Data C) (indices : IndexField.t) : option (InnerNode Data C) :=
  let new_leaf := IndexField.inter indices (IndexField.compl (leaf node)) in
  if IndexField.none new_leaf then Some node
  else
    let node := withLeafField node (IndexField.union (leaf node) indices) in
    node ← forChildren new_leaf g node;
    Some (if IndexField.all (leaf node) then deallocateChildren node prune else node).

(** What [deleteChildren] does to one child that becomes a leaf. *)
Definition deleteChild (prune : bool) (d : nat) (child : Inner d) : option (Inner d) :=
  child ← deleteChildren prune d child (IndexField.compl (leaf child));
  Some (InnerNode_clear child).

(** The body of the loop of [updateNode]. *)
Definition updateStep (d : nat) (i : Z) (node : Inner d) : option (Inner d) :=
  c ← getChild node i;
  Some (withBase node
          (setData (base node) (dataUpdate (data (base node)) i (data (asLeaf d c))))).

(** The first half of [propagateModified(InnerNode&, index, ...)]: the
    children of slot [index] are propagated. *)
Definition propagateChild (ap keep : bool) (max_depth : nat) (d : nat)
    (node : Inner d) (index : Z) : option (Inner d) :=
  match d return Inner d -> option (Inner d) with
  | O => fun node =>
      if keep then Some node
      else c ← getChild node index;
           Some (setChild node index (setModifiedField c IndexField.empty))
  | S d' => fun node =>
      c ← getChild node index;
      c ← propagateModifiedRecurs ap keep max_depth d' c;
      Some (setChild node index c)
  end node.

(** [n'] is [n] with some parent slots turned into leaves: the payload and
    the modified bits are those of [n], and so are the children of the
    slots that are still parents. *)
Definition Pruned {C : Type} (n n' : InnerNode Data C) : Prop :=
  base n' = base n
  /\ forall i, isIndex i -> isParentSlot n' i ->
     isParentSlot n i /\ getChild n' i = getChild n i.

(** [node1] is [node] with the children of the selected parent slots
    replaced by children that satisfy the invariant. *)
Definition Processed (pay : bool) (d : nat) (sel : IndexField.t) (node node1 : Inner d) : Prop :=
  base node1 = base node /\ leaf node1 = leaf node
  /\ (forall j, isIndex j -> IndexField.test sel j = true -> isParentSlot node j ->
        exists c', getChild node1 j = Some c' /\ Inv pay d c')
  /\ (forall j, isIndex j -> IndexField.test sel j = false ->
        getChild node1 j = getChild node j).

(** Slot [i] of [n] and everything below it is not modified. *)
Definition CleanSlot (d : nat) (n : Inner d) (i : Z) : Prop :=
  IndexField.test (modified (base n)) i = false
  /\ forall c, isParentSlot n i -> getChild n i = Some c -> Clean d c.

(** Every slot of [n'] is a slot of [n] with the same modified bit. *)
Fixpoint SameModified (d : nat) : NodeAt Data d -> NodeAt Data d -> Prop :=
  match d return NodeAt Data d -> NodeAt Data d -> Prop with
  | O => fun n n' => modified n' = modified n
  | S d' => fun n n' =>
      modified (base n') = modified (base n)
      /\ forall i c', isIndex i -> isParentSlot n' i -> getChild n' i = Some c' ->
         isParentSlot n i /\ exists c, getChild n i = Some c /\ SameModified d' c c'
  end.

(** A block of children, when allocated, has its eight nodes. *)
Definition SizedBlock {C : Type} (P : C -> Prop) (n : InnerNode Data C) : Prop :=
  match children n with
  | None => True
  | Some l => length l = 8%nat /\ Forall P l
  end.

(** Every block of the tree, kept blocks of leaf slots included, has its
    eight nodes. *)
Fixpoint Sized (d : nat) : NodeAt Data d -> Prop :=
  match d return NodeAt Data d -> Prop with
  | O => fun _ => True
  | S d' => fun n => SizedBlock (Sized d') n
  end.

(** The payload of every slot with children, in the block [n] and below,
    is what [updateNode] computes from the children. *)
Fixpoint AllAggregated (d : nat) : NodeAt Data d -> Prop :=
  match d return NodeAt Data d -> Prop with
  | O => fun _ => True
  | S d' => fun n =>
      forall i c, isIndex i -> isParentSlot n i -> getChild n i = Some c ->
      Aggregated d' n i c /\ AllAggregated d' c
  end.

(** A decision procedure for [Clean]. *)
Fixpoint Cleanb (d : nat) : NodeAt Data d -> bool :=
  match d return NodeAt Data d -> bool with
  | O => fun n => IndexField.none (modified n)
  | S d' => fun n =>
      IndexField.none (modified (base n))
      && forallb (fun i => IndexField.test (leaf n) i
                           || match getChild n i with
                              | Some c => Cleanb d' c
                              | None => true
                              end) IndexField.indices
  end.

End Support.

(** ** An example payload

    One occupancy value per slot; the value of a slot with children is the
    maximum over its child block, and a block whose eight values agree can
    be collapsed. *)
Module Occupancy.

Definition occMax (l : list Z) : Z := fold_right Z.max 0 l.

Definition payload : Payload (list Z) := {|
  dataDefault := replicate 8 0;
  dataFill := fun _ parent i => replicate 8 (nth (Z.to_nat i) parent 0);
  dataClear := fun d => d;
  dataUpdate := fun parent i child => <[Z.to_nat i := occMax child]> parent;
  dataCollapsible := fun child => forallb (Z.eqb (nth 0 child 0)) child
|}.

#[local] Existing Instance payload.

(** The functions handed to [apply]: mark one slot, or a whole block, as
    occupied. *)
Definition hit (d : list Z) (i : Z) : list Z := <[Z.to_nat i := 5]> d.
Definition hitAll (_ : list Z) : list Z := replicate 8 5.

(** The map an operation leaves behind. *)
Definition resultMap {r : nat} (o : outcome (Node * @Map (list Z) r))
    (dflt : @Map (list Z) r) : @Map (list Z) r :=
  match o with
  | Return (_, m) => m
  | _ => dflt
  end.

(** A map of three depth levels, and the code of its first cell. *)
Definition map0 : Map 1 := newMap 1 false (replicate 8 0).
Definition cell : Code.t := Code.make 0 0.

(** The map after a write to [cell], without and with propagation. *)
Definition map1 : Map 1 := resultMap (apply map0 cell hit hitAll false) map0.
Definition map2 : Map 1 := resultMap (apply map0 cell hit hitAll true) map0.

(** After the write, the modified flags are reset by hand. *)
Definition mapReset : Map 1 :=
  match resetModified maxDepthLevels map1 with
  | Some m => m
  | None => map0
  end.

(** A second write, to the block of depth 1 above [cell]. *)
Definition map3 : Map 1 := resultMap (apply map2 (Code.make 0 1) hit hitAll false) map2.

End Occupancy.

(** ** The bit-extract instruction, symbolically

    The source bit that [pext_from] gathers into position [j]. *)
Fixpoint pext_sym (n : nat) (pos k mask j : Z) : sym :=
  match n with
  | O => SFalse
  | S n' =>
      if Z.testbit mask pos
      then if k =? j then SIn pos else pext_sym n' (pos + 1) (k + 1) mask j
      else pext_sym n' (pos + 1) k mask j
  end.

(** The deposit under a mask of every third position, from position [i]
    on, and the extraction of the [len] positions [3 * j + s]. *)
Definition pdep3_spec (i n : Z) : sym :=
  if (n - i) mod 3 =? 0 then SIn ((n - i) / 3) else SFalse.

Definition pext3_spec (len s j : Z) : sym :=
  if j <? len then SIn (3 * j + s) else SFalse.

(** ** Relations between trees, continued *)

Section SupportMore.

Context {Data : Type} `{Payload Data}.

(** [n'] is [n] up to the modified bits: the same payload, the same leaf
    bits and the same child blocks, slot by slot, all the way down. *)
Fixpoint SameData (d : nat) : NodeAt Data d -> NodeAt Data d -> Prop :=
  match d return NodeAt Data d -> NodeAt Data d -> Prop with
  | O => fun n n' => data n' = data n
  | S d' => fun n n' =>
      data (base n') = data (base n) /\ leaf n' = leaf n
      /\ (children n' = None <-> children n = None)
      /\ forall i c, isIndex i -> getChild n i = Some c ->
         exists c', getChild n' i = Some c' /\ SameData d' c c'
  end.

(** The leaf node of a cell after [apply] has written it through [f]. *)
Definition written (f : Data -> Z -> Data) (code : Code.t) (blk : LeafNode Data)
  : LeafNode Data :=
  setModifiedField (callF f blk (Code.index code 0))
    (IndexField.assign (modified blk) (Code.index code 0) true).

End SupportMore.

(** ** Paths, continued *)

(** The slots that [setModifiedParentsRecurs] is to mark from a block of
    depth [n] on: the slot on the way to [code] at depth [n] and at every
    depth below, down to the depth above the depth of [code]. *)
Fixpoint parentsPath (code : Code.t) (n : nat) : list Z :=
  Code.index code (Z.of_nat n) ::
  match n with
  | O => []
  | S n' => if Code.depth code <? Z.of_nat n' then parentsPath code n' else []
  end.

(** ** Further example maps *)

Module OccupancyMore.

Import Occupancy.

#[local] Existing Instance Occupancy.payload.

(** The handle of [cell] after the write to it. *)
Definition node1 : Node := mkNode (Some [0; 0]) cell 0.

(** The leaf node that holds [cell] in [map1]. *)
Definition leaf1 : LeafNode (list Z) :=
  match leafNodeAndDepth map1 cell with
  | Some (_, blk, _) => blk
  | None => defaultLeaf
  end.

(** A second write to [cell]. *)
Definition map4 : Map 1 := resultMap (apply map1 cell hit hitAll false) map1.

(** The code of the block of depth 1 above [cell], and the block that
    [innerNodeAndDepth] finds for it in [map1]. *)
Definition above : Code.t := Code.make 0 1.

Definition inner1 : LeafNode (list Z) * IndexField.t :=
  match innerNodeAndDepth map1 above with
  | Some (_, v, _) => v
  | None => (defaultLeaf, IndexField.empty)
  end.

(** The root of [map1] after [prune] on its first slot. *)
Definition pruned1 : InnerNode (list Z) (NodeAt (list Z) 1) :=
  match prune false 1 (root map1) (IndexField.single 0) with
  | Some n => n
  | None => root map1
  end.

End OccupancyMore.

(** ** Proof automation *)

(** Bring the node types to the form the operations are written in. *)
Ltac norm_nodes :=
  repeat (progress change (NodeAt ?D (S ?d)) with (InnerNode D (NodeAt D d)) in * );
  repeat (progress change (NodeAt ?D O) with (LeafNode D) in * ).

(** Project the record updates of the node operations. *)
Ltac nsimpl :=
  cbn [markModified markAllInner withBase withLeafField withChildren
       setModifiedField setData base leaf children data modified] in *.

(** Case analysis on the first computation of a sequence in the option
    monad that is known to succeed. *)
Ltac bind_case Hrun x Heq :=
  match type of Hrun with
  | mbind _ ?o = Some _ =>
      destruct o as [x|] eqn:Heq; cbn [mbind option_bind] in Hrun; [|discriminate]
  end.

(** Case analysis on the integer comparisons of a goal about single bits. *)
Ltac bit_cases :=
  repeat match goal with
  | |- context [?a <? ?b] => destruct (Z.ltb_spec a b)
  | |- context [?a <=? ?b] => destruct (Z.leb_spec a b)
  | |- context [?a =? ?b] => destruct (Z.eqb_spec a b)
  end;
  cbn [andb orb negb denote];
  rewrite ?andb_false_r, ?andb_true_r, ?orb_false_r;
  try reflexivity; try (exfalso; Z.div_mod_to_equations; lia).

(** Two reads of the same bit, written with different index expressions. *)
Ltac same_bit := f_equal; Z.div_mod_to_equations; lia.

(** * Codes: the bit-level facts *)

Lemma testbit_wrap w z n : 0 <= w -> Z.testbit (wrap w z) n = (n <? w) && Z.testbit z n.
Proof. intros Hw. unfold wrap. apply Z.testbit_mod_pow2. exact Hw. Qed.

Lemma sym_and_sound x a b s sa sb :
  (forall t, a = Some t -> sa = denote x t) ->
  (forall t, b = Some t -> sb = denote x t) ->
  sym_and a b = Some s -> sa && sb = denote x s.
Proof.
  intros Ha Hb H.
  destruct a as [[| |i]|], b as [[| |j]|]; simpl in H;
    try discriminate;
    try (injection H as <-);
    repeat match goal with
      | H : forall t, Some ?u = Some t -> _ |- _ => specialize (H u eq_refl); subst
      end; simpl; rewrite ?andb_false_r, ?andb_true_r; try reflexivity.
  destruct (Z.eqb_spec i j); [|discriminate]. injection H as <-. subst.
  simpl. apply andb_diag.
Qed.

Lemma sym_or_sound x a b s sa sb :
  (forall t, a = Some t -> sa = denote x t) ->
  (forall t, b = Some t -> sb = denote x t) ->
  sym_or a b = Some s -> sa || sb = denote x s.
Proof.
  intros Ha Hb H.
  destruct a as [[| |i]|], b as [[| |j]|]; simpl in H;
    try discriminate;
    try (injection H as <-);
    repeat match goal with
      | H : forall t, Some ?u = Some t -> _ |- _ => specialize (H u eq_refl); subst
      end; simpl; rewrite ?orb_false_r, ?orb_true_r; try reflexivity.
  destruct (Z.eqb_spec i j); [|discriminate]. injection H as <-. subst.
  simpl. apply orb_diag.
Qed.

Lemma sym_xor_sound x a b s sa sb :
  (forall t, a = Some t -> sa = denote x t) ->
  (forall t, b = Some t -> sb = denote x t) ->
  sym_xor a b = Some s -> xorb sa sb = denote x s.
Proof.
  intros Ha Hb H.
  destruct a as [[| |i]|], b as [[| |j]|]; simpl in H;
    try discriminate;
    try (injection H as <-);
    repeat match goal with
      | H : forall t, Some ?u = Some t -> _ |- _ => specialize (H u eq_refl); subst
      end; simpl; rewrite ?xorb_false_r, ?xorb_true_r; try reflexivity.
  destruct (Z.eqb_spec i j); [|discriminate]. injection H as <-. subst.
  simpl. apply xorb_nilpotent.
Qed.

Lemma symbit_sound x e : forall n s,
  0 <= n -> symbit e n = Some s -> Z.testbit (beval x e) n = denote x s.
Proof.
  induction e as [|z|a IHa b IHb|a IHa b IHb|a IHa b IHb|a IHa k|a IHa k|w a IHa];
    intros n s Hn H; simpl in *.
  - injection H as <-. reflexivity.
  - injection H as <-. destruct (Z.testbit z n); reflexivity.
  - rewrite Z.land_spec. eapply sym_and_sound; [| |exact H]; intros t Ht; auto.
  - rewrite Z.lor_spec. eapply sym_or_sound; [| |exact H]; intros t Ht; auto.
  - rewrite Z.lxor_spec. eapply sym_xor_sound; [| |exact H]; intros t Ht; auto.
  - rewrite Z.shiftl_spec by exact Hn.
    destruct (Z.ltb_spec (n - k) 0).
    + injection H as <-. apply Z.testbit_neg_r. assumption.
    + apply IHa; assumption.
  - destruct (Z.ltb_spec k 0); [discriminate|].
    rewrite Z.shiftr_spec by exact Hn. apply IHa; [lia|assumption].
  - destruct (Z.ltb_spec w 0); [discriminate|].
    rewrite testbit_wrap by assumption.
    destruct (Z.ltb_spec n w); simpl.
    + apply IHa; assumption.
    + injection H as <-. reflexivity.
Qed.

Lemma zrange_In lo len n : lo <= n < lo + Z.of_nat len -> In n (zrange lo len).
Proof.
  revert lo. induction len as [|len IH]; intros lo H; simpl.
  - lia.
  - destruct (Z.eq_dec lo n); [left; assumption|right; apply IH; lia].
Qed.

Lemma sym_eqb_eq a b : sym_eqb a b = true -> a = Some b.
Proof.
  destruct a as [[| |i]|], b as [| |j]; simpl; try discriminate; try reflexivity.
  intros H. apply Z.eqb_eq in H. subst. reflexivity.
Qed.

Lemma symcheck_sound e spec len :
  symcheck e spec len = true ->
  forall x n, 0 <= n < Z.of_nat len -> Z.testbit (beval x e) n = denote x (spec n).
Proof.
  unfold symcheck. intros H x n Hn.
  rewrite forallb_forall in H.
  apply symbit_sound; [lia|]. apply sym_eqb_eq, H, zrange_In. lia.
Qed.

Lemma testbit_high z b n : 0 <= z < 2 ^ b -> 0 <= b <= n -> Z.testbit z n = false.
Proof.
  intros Hz Hb. rewrite <- (Z.mod_small z (2 ^ b)) by exact Hz.
  apply Z.mod_pow2_bits_high. exact Hb.
Qed.

Lemma land_mask_bound a m : 0 <= m -> 0 <= Z.land a m <= m.
Proof.
  intros Hm. split.
  - apply Z.land_nonneg. right. exact Hm.
  - destruct (Z.eq_dec m 0) as [->|]. { rewrite Z.land_0_r. lia. }
    assert (H : Z.land a m = Z.land (Z.land a m) m).
    { rewrite <- Z.land_assoc, Z.land_diag. reflexivity. }
    assert (Hsub: Z.ldiff (Z.land a m) m = 0).
    { apply Z.bits_inj'. intros k Hk. rewrite Z.ldiff_spec, Z.land_spec, Z.bits_0.
      destruct (Z.testbit a k), (Z.testbit m k); reflexivity. }
    pose proof (Z.sub_nocarry_ldiff m (Z.land a m)) as Hs.
    assert (Z.ldiff (Z.land a m) m = 0) by exact Hsub.
    specialize (Hs H0).
    assert (0 <= Z.ldiff m (Z.land a m)).
    { apply Z.ldiff_nonneg. left. exact Hm. }
    lia.
Qed.

Lemma splitBy3_range a : 0 <= Code.splitBy3 a <= 0x1249249249249249.
Proof. unfold Code.splitBy3. apply land_mask_bound. discriminate. Qed.

Lemma land_mask_lt a m b : 0 <= m < b -> 0 <= Z.land a m < b.
Proof. intros H. pose proof (land_mask_bound a m ltac:(lia)). lia. Qed.

Lemma wrap_small w z : 0 <= z < 2 ^ w -> wrap w z = z.
Proof. intros H. apply Z.mod_small. exact H. Qed.

Lemma get3Bits_range c : 0 <= Code.get3Bits c < 2 ^ 21.
Proof.
  unfold Code.get3Bits. cbv zeta.
  rewrite wrap_small.
  - apply land_mask_lt. split; [discriminate|reflexivity].
  - apply land_mask_lt. split; [discriminate|reflexivity].
Qed.

Lemma splitBy3_reify a : Code.splitBy3 a = beval a splitBy3_exp.
Proof. cbv [Code.splitBy3 splitBy3_exp bshl64 beval shl64]. reflexivity. Qed.

Lemma get3Bits_reify c : Code.get3Bits c = beval c get3Bits_exp.
Proof. cbv [Code.get3Bits get3Bits_exp beval]. reflexivity. Qed.

(** Bit-level characterisation of the portable interleave. *)
Lemma splitBy3_bit a n : 0 <= n ->
  Z.testbit (Code.splitBy3 a) n = (n mod 3 =? 0) && (n / 3 <? 21) && Z.testbit a (n / 3).
Proof.
  intros Hn.
  destruct (Z.ltb_spec n 64) as [Hlt|Hge].
  - rewrite splitBy3_reify.
    rewrite (symcheck_sound splitBy3_exp splitBy3_spec 64) by (try (vm_compute; reflexivity); lia).
    unfold splitBy3_spec. destruct ((n mod 3 =? 0) && (n / 3 <? 21)); reflexivity.
  - assert (Hq : 21 <= n / 3) by (apply Z.div_le_lower_bound; lia).
    replace (n / 3 <? 21) with false by (symmetry; apply Z.ltb_ge; exact Hq).
    rewrite andb_false_r. simpl.
    pose proof (splitBy3_range a) as Hr.
    apply (testbit_high (Code.splitBy3 a) 64 n); lia.
Qed.

Lemma get3Bits_bit c j : 0 <= j ->
  Z.testbit (Code.get3Bits c) j = (j <? 21) && Z.testbit c (3 * j).
Proof.
  intros Hj.
  destruct (Z.ltb_spec j 21) as [Hlt|Hge].
  - rewrite get3Bits_reify.
    rewrite (symcheck_sound get3Bits_exp get3Bits_spec 21) by (try (vm_compute; reflexivity); lia).
    unfold get3Bits_spec. destruct (Z.ltb_spec j 21); [reflexivity|lia].
  - simpl. pose proof (get3Bits_range c) as Hr.
    apply (testbit_high (Code.get3Bits c) 21 j); lia.
Qed.

(** *** The BMI2 reference, bit by bit *)

Lemma pdep_from_low n : forall pos k src mask m,
  0 <= m < pos -> Z.testbit (pdep_from n pos k src mask) m = false.
Proof.
  induction n as [|n IH]; intros pos k src mask m Hm; simpl.
  - apply Z.bits_0.
  - destruct (Z.testbit mask pos).
    + rewrite Z.lor_spec, IH by lia.
      destruct (Z.testbit src k); [|rewrite Z.bits_0; reflexivity].
      rewrite Z.pow2_bits_eqb by lia.
      destruct (Z.eqb_spec pos m); [lia|reflexivity].
    + apply IH. lia.
Qed.

Lemma pdep_from_high n : forall pos k src mask m,
  0 <= pos -> pos + Z.of_nat n <= m -> Z.testbit (pdep_from n pos k src mask) m = false.
Proof.
  induction n as [|n IH]; intros pos k src mask m Hp Hm; simpl.
  - apply Z.bits_0.
  - destruct (Z.testbit mask pos).
    + rewrite Z.lor_spec, IH by lia.
      destruct (Z.testbit src k); [|rewrite Z.bits_0; reflexivity].
      rewrite Z.pow2_bits_eqb by lia.
      destruct (Z.eqb_spec pos m); [lia|reflexivity].
    + apply IH; lia.
Qed.

Lemma pdep_from_sym n : forall pos k src mask m,
  0 <= pos -> 0 <= m ->
  Z.testbit (pdep_from n pos k src mask) m = denote src (pdep_sym n pos k mask m).
Proof.
  induction n as [|n IH]; intros pos k src mask m Hp Hm; simpl.
  - apply Z.bits_0.
  - destruct (Z.testbit mask pos).
    + rewrite Z.lor_spec. destruct (Z.eqb_spec pos m) as [->|Hne].
      * rewrite pdep_from_low by lia. rewrite orb_false_r. simpl.
        destruct (Z.testbit src k); [|apply Z.bits_0].
        rewrite Z.pow2_bits_eqb by lia. apply Z.eqb_refl.
      * rewrite IH by lia.
        destruct (Z.testbit src k); [|rewrite Z.bits_0; reflexivity].
        rewrite Z.pow2_bits_eqb by lia.
        destruct (Z.eqb_spec pos m); [contradiction|reflexivity].
    + apply IH; lia.
Qed.

Lemma splitBy3_bmi2_bit a n : 0 <= n ->
  Z.testbit (splitBy3_bmi2 a) n = (n <? 64) && (n mod 3 =? 0) && Z.testbit a (n / 3).
Proof.
  intros Hn. unfold splitBy3_bmi2, pdep_u64.
  destruct (Z.ltb_spec n 64) as [Hlt|Hge]; cbn [andb].
  - rewrite pdep_from_sym by lia.
    assert (Hc : forallb (fun m => sym_eqb (Some (pdep_sym 64 0 0 0x9249249249249249 m)) (pdep_spec m))
                   (zrange 0 64) = true) by (vm_compute; reflexivity).
    rewrite forallb_forall in Hc.
    specialize (Hc n (zrange_In 0 64 n ltac:(lia))).
    apply sym_eqb_eq in Hc. apply (inj Some) in Hc. rewrite Hc.
    unfold pdep_spec. destruct (n mod 3 =? 0); reflexivity.
  - apply pdep_from_high; lia.
Qed.

(** Claim C7.  For a key component [k] below [2^21] the portable interleave
    [splitBy3] yields the value of the BMI2 bit deposit under the mask
    [0x9249249249249249]: bit [j] of [k] stands at bit [3 * j] and all other
    bits are zero; the portable extraction [get3Bits] is its inverse. *)
Theorem splitBy3_fallback_matches_bmi2 (k : Z) :
  0 <= k < 2 ^ 21 ->
  Code.splitBy3 k = splitBy3_bmi2 k
  /\ (forall n, 0 <= n ->
        Z.testbit (Code.splitBy3 k) n = (n mod 3 =? 0) && Z.testbit k (n / 3))
  /\ Code.get3Bits (Code.splitBy3 k) = k.
Proof.
  intros Hk.
  assert (Hhigh : forall j, 21 <= j -> Z.testbit k j = false).
  { intros j Hj. apply (testbit_high k 21); lia. }
  assert (Hbit : forall n, 0 <= n ->
            Z.testbit (Code.splitBy3 k) n = (n mod 3 =? 0) && Z.testbit k (n / 3)).
  { intros n Hn. rewrite splitBy3_bit by exact Hn.
    destruct (Z.ltb_spec (n / 3) 21) as [Hlt|Hge].
    - rewrite andb_true_r. reflexivity.
    - rewrite (Hhigh _ Hge), !andb_false_r. reflexivity. }
  split; [|split].
  - apply Z.bits_inj'. intros n Hn.
    rewrite Hbit, splitBy3_bmi2_bit by exact Hn.
    destruct (Z.ltb_spec n 64) as [Hlt|Hge]; [reflexivity|].
    rewrite Hhigh, andb_false_r; [reflexivity|].
    apply Z.div_le_lower_bound; lia.
  - exact Hbit.
  - apply Z.bits_inj'. intros j Hj.
    rewrite get3Bits_bit, Hbit by lia.
    replace (3 * j mod 3) with 0 by (rewrite Z.mul_comm, Z.mod_mul; lia).
    replace (3 * j / 3) with j by (rewrite Z.mul_comm, Z.div_mul; lia).
    destruct (Z.ltb_spec j 21); [reflexivity|].
    rewrite Hhigh by assumption. reflexivity.
Qed.

(** The interleave of the key component [0x155555], whose even bits are set. *)
Lemma splitBy3_fallback_matches_bmi2_witness :
  0 <= 0x155555 < 2 ^ 21
  /\ Code.splitBy3 0x155555 = splitBy3_bmi2 0x155555
  /\ (forall n, 0 <= n ->
        Z.testbit (Code.splitBy3 0x155555) n
        = (n mod 3 =? 0) && Z.testbit 0x155555 (n / 3))
  /\ Code.get3Bits (Code.splitBy3 0x155555) = 0x155555.
Proof.
  assert (H : 0 <= 0x155555 < 2 ^ 21) by (split; [discriminate|reflexivity]).
  exact (conj H (splitBy3_fallback_matches_bmi2 0x155555 H)).
Defined.

(** *** Codes and keys *)

Lemma testbit_shl64 a s n : 0 <= n ->
  Z.testbit (shl64 a s) n = (n <? 64) && Z.testbit a (n - s).
Proof.
  intros Hn. unfold shl64. rewrite testbit_wrap by lia.
  rewrite Z.shiftl_spec by exact Hn. reflexivity.
Qed.

Lemma testbit_shl32 a s n : 0 <= n ->
  Z.testbit (shl32 a s) n = (n <? 32) && Z.testbit a (n - s).
Proof.
  intros Hn. unfold shl32. rewrite testbit_wrap by lia.
  rewrite Z.shiftl_spec by exact Hn. reflexivity.
Qed.

Lemma depth_range c : 0 <= Code.depth c < 32.
Proof. unfold Code.depth. apply land_mask_lt. split; [discriminate|reflexivity]. Qed.

Lemma testbit_31 n : 0 <= n -> Z.testbit 0x1F n = (n <? 5).
Proof. intros Hn. change 0x1F with (Z.ones 5). apply Z.testbit_ones_nonneg; lia. Qed.

Lemma depth_bit c n : 0 <= n -> Z.testbit (Code.depth c) n = (n <? 5) && Z.testbit c n.
Proof.
  intros Hn. unfold Code.depth. rewrite Z.land_spec, testbit_31 by exact Hn.
  apply andb_comm.
Qed.

Lemma normalize_bit k d j : 0 <= d -> 0 <= j ->
  Z.testbit (Key.normalize k d) j = (d <=? j) && (j <? 32) && Z.testbit k j.
Proof.
  intros Hd Hj. unfold Key.normalize.
  rewrite testbit_shl32 by exact Hj.
  destruct (Z.leb_spec d j) as [Hle|Hlt].
  - rewrite Z.shiftr_spec by lia. rewrite testbit_wrap by lia.
    replace (j - d + d) with j by lia.
    destruct (j <? 32); reflexivity.
  - rewrite Z.testbit_neg_r by lia. rewrite andb_false_r. reflexivity.
Qed.

Lemma toKey_bit c i j : 0 <= i -> 0 <= j ->
  Z.testbit (Code.toKey c i) j = (j <? 21) && Z.testbit c (3 * j + i + 5).
Proof.
  intros Hi Hj. unfold Code.toKey. rewrite get3Bits_bit by exact Hj.
  rewrite Z.shiftr_spec by lia. f_equal. f_equal. lia.
Qed.

Lemma wf_low_bits c m : Code.wf c -> 0 <= m < 3 * Code.depth c ->
  Z.testbit c (m + 5) = false.
Proof.
  intros [_ Hz] Hm.
  assert (H : Z.testbit (Z.land (Z.shiftr c 5) (Z.ones (3 * Code.depth c))) m = false)
    by (rewrite Hz; apply Z.bits_0).
  rewrite Z.land_spec, Z.shiftr_spec, Z.testbit_ones_nonneg in H by lia.
  destruct (Z.ltb_spec m (3 * Code.depth c)); [|lia].
  rewrite andb_true_r in H. exact H.
Qed.

(** A key component read back from a well-formed code is already normalized. *)
Lemma key_component_bit c i j : Code.wf c -> 0 <= i <= 2 -> 0 <= j ->
  Z.testbit (Key.normalize (Code.toKey c i) (Code.depth c)) j
  = (j <? 21) && Z.testbit c (3 * j + i + 5).
Proof.
  intros Hwf Hi Hj. pose proof (depth_range c) as Hd.
  rewrite normalize_bit, toKey_bit by lia.
  destruct (Z.leb_spec (Code.depth c) j) as [Hle|Hlt]; cbn [andb].
  - destruct (Z.ltb_spec j 32), (Z.ltb_spec j 21); try reflexivity; lia.
  - replace (3 * j + i + 5) with ((3 * j + i) + 5) by lia.
    rewrite (wf_low_bits c (3 * j + i)) by (try assumption; lia).
    rewrite andb_false_r. reflexivity.
Qed.

Lemma splitBy3_shifted_bit k i m : 0 <= i -> 0 <= m ->
  Z.testbit (shl64 (Code.splitBy3 k) i) m
  = (m <? 64) && (i <=? m) && ((m - i) mod 3 =? 0) && ((m - i) / 3 <? 21)
    && Z.testbit k ((m - i) / 3).
Proof.
  intros Hi Hm. rewrite testbit_shl64 by exact Hm.
  destruct (Z.leb_spec i m) as [Hle|Hlt].
  - rewrite splitBy3_bit by lia. rewrite !andb_true_r, !andb_assoc. reflexivity.
  - rewrite Z.testbit_neg_r by lia. rewrite andb_false_r. reflexivity.
Qed.

Lemma key_component_shifted_bit c i m : Code.wf c -> 0 <= i <= 2 -> 0 <= m < 59 ->
  Z.testbit (shl64 (Code.splitBy3 (Key.normalize (Code.toKey c i) (Code.depth c))) i) m
  = ((m - i) mod 3 =? 0) && Z.testbit c (m + 5).
Proof.
  intros Hwf Hi Hm. rewrite splitBy3_shifted_bit by lia.
  replace (m <? 64) with true by (symmetry; apply Z.ltb_lt; lia).
  destruct (Z.eqb_spec ((m - i) mod 3) 0) as [Hc|Hc].
  - assert (Hq : 0 <= (m - i) / 3 < 21 /\ 3 * ((m - i) / 3) + i = m)
      by (Z.div_mod_to_equations; lia).
    destruct Hq as [Hq Hmq].
    rewrite key_component_bit by (try assumption; lia).
    replace (i <=? m) with true by (symmetry; apply Z.leb_le; lia).
    replace ((m - i) / 3 <? 21) with true by (symmetry; apply Z.ltb_lt; lia).
    cbn [andb]. f_equal. lia.
  - rewrite andb_false_r. reflexivity.
Qed.

Lemma shl64_0 a : 0 <= a < 2 ^ 64 -> shl64 a 0 = a.
Proof. intros H. unfold shl64. rewrite Z.shiftl_0_r. apply wrap_small. exact H. Qed.

Lemma splitBy3_range64 a : 0 <= Code.splitBy3 a < 2 ^ 64.
Proof.
  pose proof (splitBy3_range a) as H. split; [lia|].
  eapply Z.le_lt_trans; [apply H|reflexivity].
Qed.

Lemma toCode_key_bit c m : Code.wf c -> 0 <= m < 59 ->
  Z.testbit (Code.toCode (Code.key c)) m = Z.testbit c (m + 5).
Proof.
  intros Hwf Hm. unfold Code.toCode, Code.key, Key.make, Key.get. cbn.
  rewrite <- (shl64_0 (Code.splitBy3 (Key.normalize (Code.toKey c 0) (Code.depth c))))
    by apply splitBy3_range64.
  rewrite !Z.lor_spec, !key_component_shifted_bit by (try assumption; lia).
  assert (Hc : (m - 0) mod 3 = 0 \/ (m - 1) mod 3 = 0 \/ (m - 2) mod 3 = 0)
    by (Z.div_mod_to_equations; lia).
  destruct (Z.eqb_spec ((m - 0) mod 3) 0), (Z.eqb_spec ((m - 1) mod 3) 0),
    (Z.eqb_spec ((m - 2) mod 3) 0); cbn [andb orb];
    rewrite ?orb_false_r, ?orb_diag; try reflexivity;
    exfalso; Z.div_mod_to_equations; lia.
Qed.

(** Claim C2.  Converting a code to its key and the key back to a code
    yields the code again, [Code(Key(c)) == c]: for every value [c] that a
    [Code] object can hold, whatever its depth, so in particular for the
    codes of depth at most [rootDepth()]. *)
Theorem code_key_roundtrip (c : Code.t) :
  Code.wf c ->
  Code.ofKey (Code.key c) = c.
Proof.
  intros Hwf. pose proof Hwf as [Hr _].
  apply Z.bits_inj'. intros n Hn. unfold Code.ofKey.
  rewrite Z.lor_spec, testbit_shl64 by exact Hn.
  change (Key.depth (Code.key c)) with (Code.depth c).
  rewrite depth_bit by exact Hn.
  destruct (Z.ltb_spec n 5) as [H5|H5].
  - rewrite Z.testbit_neg_r by lia. rewrite andb_false_r. reflexivity.
  - rewrite orb_false_r. destruct (Z.ltb_spec n 64) as [H64|H64]; cbn [andb].
    + rewrite toCode_key_bit by (try assumption; lia). f_equal. lia.
    + symmetry. apply (testbit_high c 64); lia.
Qed.

(** The round trip of a code of depth 3. *)
Lemma code_key_roundtrip_witness :
  Code.wf (Code.make 0x123456789ABCDEF 3)
  /\ Code.ofKey (Code.key (Code.make 0x123456789ABCDEF 3))
     = Code.make 0x123456789ABCDEF 3.
Proof.
  assert (Hwf : Code.wf (Code.make 0x123456789ABCDEF 3))
    by (vm_compute; repeat split; discriminate).
  exact (conj Hwf (code_key_roundtrip _ Hwf)).
Defined.

(** *** Constructor, depth, index *)

Lemma testbit_small z b n : 0 <= z < 2 ^ b -> 0 <= b -> 0 <= n ->
  Z.testbit z n = (n <? b) && Z.testbit z n.
Proof.
  intros Hz Hb Hn. destruct (Z.ltb_spec n b); [reflexivity|].
  apply (testbit_high z b); lia.
Qed.

Lemma make_bit x d n : 0 <= d -> 0 <= n ->
  Z.testbit (Code.make x d) n
  = (n <? 64) && (3 * d + 5 <=? n) && Z.testbit x (n - 5) || Z.testbit d n.
Proof.
  intros Hd Hn. unfold Code.make.
  rewrite Z.lor_spec, testbit_shl64 by exact Hn. f_equal.
  destruct (Z.leb_spec (3 * d + 5) n) as [Hle|Hlt].
  - rewrite Z.shiftr_spec by lia. rewrite andb_true_r. do 2 f_equal. lia.
  - rewrite Z.testbit_neg_r by lia. rewrite !andb_false_r. reflexivity.
Qed.

Lemma depth_make x d : 0 <= d < 32 -> Code.depth (Code.make x d) = d.
Proof.
  intros Hd. apply Z.bits_inj'. intros n Hn.
  rewrite depth_bit, make_bit by lia.
  rewrite (testbit_small d 5 n) by (try lia; change (2 ^ 5) with 32; lia).
  destruct (Z.ltb_spec n 5), (Z.leb_spec (3 * d + 5) n); cbn [andb orb];
    rewrite ?andb_false_r; try reflexivity; lia.
Qed.

Lemma bits_range64 z :
  (forall n, 64 <= n -> Z.testbit z n = false) -> 0 <= z -> 0 <= z < 2 ^ 64.
Proof.
  intros H Hz. split; [exact Hz|].
  destruct (Z.eq_dec z 0) as [->|Hne]; [reflexivity|].
  apply Z.log2_lt_pow2; [lia|].
  destruct (Z.lt_ge_cases (Z.log2 z) 64) as [Hl|Hl]; [exact Hl|].
  pose proof (Z.bit_log2 z ltac:(lia)) as Hb.
  rewrite H in Hb by exact Hl. discriminate.
Qed.

Lemma make_nonneg x d : 0 <= d -> 0 <= Code.make x d.
Proof.
  intros Hd. unfold Code.make. apply Z.lor_nonneg. split; [|exact Hd].
  unfold shl64, wrap. apply Z.mod_pos_bound. reflexivity.
Qed.

Lemma make_wf x d : 0 <= d < 32 -> Code.wf (Code.make x d).
Proof.
  intros Hd. split.
  - apply bits_range64; [|apply make_nonneg; lia].
    intros n Hn. rewrite make_bit by lia.
    replace (n <? 64) with false by (symmetry; apply Z.ltb_ge; lia).
    apply (testbit_high d 5); [change (2 ^ 5) with 32|]; lia.
  - rewrite depth_make by exact Hd.
    apply Z.bits_inj'. intros n Hn.
    rewrite Z.land_spec, Z.shiftr_spec, Z.testbit_ones_nonneg, Z.bits_0 by lia.
    rewrite make_bit by lia.
    destruct (Z.ltb_spec n (3 * d)); [|apply andb_false_r].
    replace (3 * d + 5 <=? n + 5) with false by (symmetry; apply Z.leb_gt; lia).
    rewrite andb_false_r, andb_true_r. cbn [orb].
    apply (testbit_high d 5); [change (2 ^ 5) with 32|]; lia.
Qed.

Lemma index_bit c d j : 0 <= d -> 0 <= j ->
  Z.testbit (Code.index c d) j = (j <? 3) && Z.testbit c (j + 3 * d + 5).
Proof.
  intros Hd Hj. unfold Code.index.
  rewrite Z.land_spec, Z.shiftr_spec by exact Hj.
  change 7 with (Z.ones 3). rewrite Z.testbit_ones_nonneg by lia.
  rewrite andb_comm. do 2 f_equal. lia.
Qed.

Lemma index_range c d : 0 <= Code.index c d < 8.
Proof. unfold Code.index. apply land_mask_lt. split; [discriminate|reflexivity]. Qed.

(** The argument of [make] in [child]: no carry and no wrap-around. *)
Lemma child_sum_bit c i m : Code.wf c -> 0 <= i < 8 -> 0 < Code.depth c -> 0 <= m ->
  Z.testbit (add64 (Z.shiftr c 5) (shl64 i (3 * (Code.depth c - 1)))) m
  = (m <? 64) && (Z.testbit c (m + 5) || Z.testbit i (m - 3 * (Code.depth c - 1))).
Proof.
  intros Hwf Hi Hd Hm. pose proof (depth_range c) as Hdr.
  set (cd := Code.depth c - 1) in *.
  assert (Hdisj : Z.land (Z.shiftr c 5) (shl64 i (3 * cd)) = 0).
  { apply Z.bits_inj'. intros n Hn.
    rewrite Z.land_spec, Z.shiftr_spec, testbit_shl64, Z.bits_0 by lia.
    destruct (Z.ltb_spec n (3 * Code.depth c)) as [Hlt|Hge].
    - rewrite (wf_low_bits c n) by (try assumption; lia). reflexivity.
    - rewrite (testbit_high i 3 (n - 3 * cd)) by (try (change (2 ^ 3) with 8); subst cd; lia).
      rewrite !andb_false_r. reflexivity. }
  unfold add64. rewrite Z.add_nocarry_lxor, Z.lxor_lor by exact Hdisj.
  rewrite testbit_wrap, Z.lor_spec, Z.shiftr_spec, testbit_shl64 by lia.
  destruct (m <? 64); reflexivity.
Qed.

(** Extra X25.  [child(i)] of a code of depth 0 is the code itself, for
    every [i].  For a code of depth [d] with [0 < d <= 19] and a slot index
    [i] in 0..7 it is the code of depth [d - 1] whose index at that depth is
    [i] and whose parent at depth [d] is the code it was taken from. *)
Theorem child_one_level_deeper (c : Code.t) (i : Z) :
  (Code.depth c = 0 -> Code.child c i = c)
  /\ (Code.wf c -> 0 <= i < 8 -> 0 < Code.depth c <= 19 ->
      Code.depth (Code.child c i) = Code.depth c - 1
      /\ Code.index (Code.child c i) (Code.depth c - 1) = i
      /\ Code.parent (Code.child c i) (Code.depth c) = c).
Proof.
  split.
  - intros H0. unfold Code.child. rewrite H0. reflexivity.
  - intros Hwf Hi Hd. pose proof Hwf as [Hr _].
    assert (Hch : Code.child c i
                  = Code.make (add64 (Z.shiftr c 5) (shl64 i (3 * (Code.depth c - 1))))
                      (Code.depth c - 1)).
    { unfold Code.child. destruct (Z.eqb_spec (Code.depth c) 0); [lia|reflexivity]. }
    rewrite Hch. set (cd := Code.depth c - 1) in *.
    assert (Hcd5 : forall n, 5 <= n -> Z.testbit cd n = false).
    { intros n Hn. apply (testbit_high cd 5); [change (2 ^ 5) with 32|]; lia. }
    assert (Hd5 : forall n, 5 <= n -> Z.testbit (Code.depth c) n = false).
    { intros n Hn. apply (testbit_high (Code.depth c) 5); [change (2 ^ 5) with 32|]; lia. }
    split; [|split].
    + apply depth_make. lia.
    + apply Z.bits_inj'. intros j Hj.
      rewrite index_bit, make_bit by lia.
      rewrite Hcd5, orb_false_r by lia.
      destruct (Z.ltb_spec j 3) as [Hj3|Hj3]; cbn [andb].
      * replace (j + 3 * cd + 5 - 5) with (j + 3 * cd) by lia.
        unfold cd at 3. rewrite child_sum_bit by (try assumption; lia). fold cd.
        replace (j + 3 * cd + 5 <? 64) with true by (symmetry; apply Z.ltb_lt; lia).
        replace (3 * cd + 5 <=? j + 3 * cd + 5) with true by (symmetry; apply Z.leb_le; lia).
        replace (j + 3 * cd <? 64) with true by (symmetry; apply Z.ltb_lt; lia).
        cbn [andb]. rewrite (wf_low_bits c (j + 3 * cd)) by (try assumption; lia).
        cbn [orb]. f_equal. lia.
      * symmetry. apply (testbit_high i 3); [change (2 ^ 3) with 8|]; lia.
    + apply Z.bits_inj'. intros n Hn. unfold Code.parent.
      rewrite make_bit by lia.
      destruct (Z.leb_spec (3 * Code.depth c + 5) n) as [Hle|Hlt].
      * rewrite Hd5, orb_false_r by lia.
        rewrite Z.shiftr_spec by lia. replace (n - 5 + 5) with n by lia.
        rewrite make_bit by lia. rewrite Hcd5, orb_false_r by lia.
        unfold cd at 2. rewrite child_sum_bit by (try assumption; lia). fold cd.
        rewrite (testbit_high i 3 (n - 5 - 3 * cd)) by (try (change (2 ^ 3) with 8); lia).
        rewrite orb_false_r. replace (n - 5 + 5) with n by lia.
        replace (3 * cd + 5 <=? n) with true by (symmetry; apply Z.leb_le; lia).
        destruct (Z.ltb_spec n 64) as [H64|H64]; cbn [andb].
        -- destruct (Z.ltb_spec (n - 5) 64); [reflexivity|lia].
        -- symmetry. apply (testbit_high c 64); lia.
      * rewrite andb_false_r, andb_false_l. cbn [orb].
        destruct (Z.ltb_spec n 5) as [H5|H5].
        -- pose proof (depth_bit c n Hn) as Hb.
           replace (n <? 5) with true in Hb by (symmetry; apply Z.ltb_lt; lia).
           exact Hb.
        -- rewrite Hd5 by lia. symmetry.
           replace n with ((n - 5) + 5) by lia. apply wf_low_bits; [assumption|lia].
Qed.

(** Child 5 of the code of depth 2 whose index at depth 2 is 7. *)
Lemma child_one_level_deeper_witness :
  Code.wf (Code.make 0x1C0 2)
  /\ 0 <= 5 < 8
  /\ 0 < Code.depth (Code.make 0x1C0 2) <= 19
  /\ Code.depth (Code.child (Code.make 0x1C0 2) 5) = Code.depth (Code.make 0x1C0 2) - 1
  /\ Code.index (Code.child (Code.make 0x1C0 2) 5) (Code.depth (Code.make 0x1C0 2) - 1) = 5
  /\ Code.parent (Code.child (Code.make 0x1C0 2) 5) (Code.depth (Code.make 0x1C0 2))
     = Code.make 0x1C0 2.
Proof.
  pose proof (make_wf 0x1C0 2 ltac:(lia)) as Hwf.
  assert (Hi : 0 <= 5 < 8) by lia.
  assert (Hd : 0 < Code.depth (Code.make 0x1C0 2) <= 19)
    by (vm_compute; split; [reflexivity|discriminate]).
  exact (conj Hwf (conj Hi (conj Hd
           (proj2 (child_one_level_deeper (Code.make 0x1C0 2) 5) Hwf Hi Hd)))).
Defined.

(** Claim C9, where [child] departs from it.  A map of 21 or 22 depth
    levels has codes of depth 20; the one with index 0 at depth 20, which
    [Code(Key(0, 0, 0, 20))] builds, is the word 20.  Its [child(4)] is a
    code of depth 19 whose index at depth 19 is not 4: the constructor
    shifts the three index bits to the bits 62..64 of the 64-bit [code_],
    the top one falls off, and child 4 is child 0. *)
Lemma child_depth20_index_lost :
  Code.ofKey (Key.make 0 0 0 20) = 20
  /\ Code.wf 20 /\ Code.depth 20 = 20 /\ 0 <= 4 < 8
  /\ Code.depth (Code.child 20 4) = 19
  /\ Code.index (Code.child 20 4) 19 <> 4
  /\ Code.child 20 4 = Code.child 20 0.
Proof. vm_compute. repeat split; discriminate. Qed.

(** * Index fields, loops over the slots, children *)

(** ** Index fields *)

Module IndexFieldFacts.
Import IndexField.

Lemma In_indices i : In i indices <-> 0 <= i < 8.
Proof.
  unfold indices. simpl. split.
  - intros H. repeat destruct H as [<-|H]; try lia.
  - intros H.
    assert (i = 0 \/ i = 1 \/ i = 2 \/ i = 3 \/ i = 4 \/ i = 5 \/ i = 6 \/ i = 7) by lia.
    intuition auto.
Qed.

Lemma NoDup_indices : List.NoDup indices.
Proof. unfold indices. repeat constructor; simpl; intuition lia. Qed.

Lemma test_assign f i b j : 0 <= i ->
  test (assign f i b) j = if i =? j then b else test f j.
Proof.
  intros Hi. unfold test, assign. destruct b.
  - rewrite Z.setbit_eqb by exact Hi. destruct (i =? j); reflexivity.
  - rewrite Z.clearbit_eqb. destruct (i =? j); simpl; [apply andb_false_r|apply andb_true_r].
Qed.

Lemma test_assign_eq f i b : 0 <= i -> test (assign f i b) i = b.
Proof. intros Hi. rewrite test_assign by exact Hi. rewrite Z.eqb_refl. reflexivity. Qed.

Lemma test_assign_ne f i b j : 0 <= i -> i <> j -> test (assign f i b) j = test f j.
Proof.
  intros Hi Hne. rewrite test_assign by exact Hi.
  destruct (Z.eqb_spec i j); [contradiction|reflexivity].
Qed.

Lemma test_empty i : test empty i = false.
Proof. apply Z.bits_0. Qed.

Lemma test_full i : test full i = (0 <=? i) && (i <? 8).
Proof. unfold test, full. change 255 with (Z.ones 8). apply Z.testbit_ones. lia. Qed.

Lemma test_full_index i : 0 <= i < 8 -> test full i = true.
Proof.
  intros Hi. rewrite test_full.
  destruct (Z.leb_spec 0 i), (Z.ltb_spec i 8); try lia; reflexivity.
Qed.

Lemma test_compl f i : 0 <= i < 8 -> test (compl f) i = negb (test f i).
Proof.
  intros Hi. unfold test, compl. rewrite Z.lxor_spec.
  change (Z.testbit 255 i) with (test full i). rewrite test_full_index by exact Hi.
  apply xorb_true_r.
Qed.

Lemma test_inter f g i : test (inter f g) i = test f i && test g i.
Proof. apply Z.land_spec. Qed.

Lemma test_union f g i : test (union f g) i = test f i || test g i.
Proof. apply Z.lor_spec. Qed.

Lemma test_single i j : 0 <= i -> test (single i) j = (i =? j).
Proof.
  intros Hi. unfold single. rewrite test_assign by exact Hi.
  rewrite test_empty. destruct (i =? j); reflexivity.
Qed.

Lemma all_spec f : all f = true <-> forall i, 0 <= i < 8 -> test f i = true.
Proof.
  unfold all. rewrite forallb_forall. split; intros Hf i Hi; apply Hf, In_indices, Hi.
Qed.

Lemma all_false f : all f = false <-> exists i, 0 <= i < 8 /\ test f i = false.
Proof.
  split.
  - intros Hf. unfold all in Hf.
    assert (He : existsb (fun i => negb (test f i)) indices = true).
    { clear -Hf. induction indices as [|a l IH]; simpl in *; [discriminate|].
      destruct (test f a); simpl in *; [apply IH, Hf|reflexivity]. }
    apply existsb_exists in He. destruct He as (i & Hin & Hi).
    exists i. split; [apply In_indices, Hin|]. destruct (test f i); [discriminate|reflexivity].
  - intros (i & Hi & Ht). destruct (all f) eqn:Ha; [|reflexivity].
    rewrite all_spec in Ha. rewrite Ha in Ht by exact Hi. discriminate.
Qed.

Lemma any_spec f : any f = true <-> exists i, 0 <= i < 8 /\ test f i = true.
Proof.
  unfold any. rewrite existsb_exists. split; intros (i & Hi & Ht); exists i; split;
    try assumption; apply In_indices, Hi.
Qed.

Lemma none_spec f : none f = true <-> forall i, 0 <= i < 8 -> test f i = false.
Proof.
  unfold none. rewrite negb_true_iff. split.
  - intros Hf i Hi. destruct (test f i) eqn:Ht; [|reflexivity].
    assert (any f = true) by (apply any_spec; eauto). congruence.
  - intros Hf. destruct (any f) eqn:Ha; [|reflexivity].
    apply any_spec in Ha. destruct Ha as (i & Hi & Ht). rewrite Hf in Ht by exact Hi.
    discriminate.
Qed.

Lemma none_false f : none f = false <-> exists i, 0 <= i < 8 /\ test f i = true.
Proof. unfold none. rewrite negb_false_iff. apply any_spec. Qed.

End IndexFieldFacts.
Import IndexFieldFacts.

(** ** Loops over the eight indices *)

Lemma fold_left_bind_None {S : Type} (step : Z -> S -> option S) l :
  fold_left (fun acc i => s' ← acc; step i s') l None = None.
Proof. induction l as [|a l IH]; simpl; [reflexivity|exact IH]. Qed.

Lemma forIndicesOn_nil {S : Type} sel (body : Z -> S -> option S) s :
  forIndicesOn [] sel body s = Some s.
Proof. reflexivity. Qed.

Lemma forIndicesOn_cons {S : Type} i l sel (body : Z -> S -> option S) s :
  forIndicesOn (i :: l) sel body s
  = if IndexField.test sel i then s' ← body i s; forIndicesOn l sel body s'
    else forIndicesOn l sel body s.
Proof.
  unfold forIndicesOn. simpl. destruct (IndexField.test sel i); [|reflexivity].
  destruct (body i s) as [s'|]; simpl; [reflexivity|].
  apply (fold_left_bind_None (fun i s' => if IndexField.test sel i then body i s' else Some s')).
Qed.

(** A property kept by every step is kept by the loop. *)
Lemma forIndicesOn_preserve {S : Type} (P : S -> Prop) l sel (body : Z -> S -> option S) :
  (forall i s s1, In i l -> IndexField.test sel i = true -> P s -> body i s = Some s1 -> P s1) ->
  forall s s', P s -> forIndicesOn l sel body s = Some s' -> P s'.
Proof.
  induction l as [|a l IH]; intros Hstep s s' Hs Hrun.
  - rewrite forIndicesOn_nil in Hrun. injection Hrun as <-. exact Hs.
  - rewrite forIndicesOn_cons in Hrun.
    destruct (IndexField.test sel a) eqn:Ha.
    + destruct (body a s) as [s1|] eqn:Hb; [|discriminate]. simpl in Hrun.
      eapply IH; [|eapply Hstep; eauto; left; reflexivity|exact Hrun].
      intros i t t1 Hi. apply Hstep. right. exact Hi.
    + eapply IH; [|exact Hs|exact Hrun].
      intros i t t1 Hi. apply Hstep. right. exact Hi.
Qed.

(** Indexed properties: under a loop invariant [Q], the step at [i]
    establishes [P i] and keeps [P j] for the other indices. *)
Lemma forIndicesOn_establish {S : Type} (Q : S -> Prop) (P : Z -> S -> Prop) l sel
    (body : Z -> S -> option S) :
  List.NoDup l ->
  (forall i s s1, In i l -> IndexField.test sel i = true -> Q s -> body i s = Some s1 ->
     Q s1 /\ P i s1 /\ forall j, j <> i -> P j s -> P j s1) ->
  forall s s', Q s -> forIndicesOn l sel body s = Some s' ->
  Q s' /\ forall j, (In j l /\ IndexField.test sel j = true) \/ P j s -> P j s'.
Proof.
  induction l as [|a l IH]; intros Hnd Hstep s s' HQ Hrun.
  - rewrite forIndicesOn_nil in Hrun. injection Hrun as <-. split; [exact HQ|].
    intros j Hj. destruct Hj as [[[] _]|Hj]. exact Hj.
  - inversion Hnd as [|? ? Hnotin Hnd']; subst.
    assert (Hstep' : forall i s s1, In i l -> IndexField.test sel i = true -> Q s ->
              body i s = Some s1 -> Q s1 /\ P i s1 /\ forall j, j <> i -> P j s -> P j s1).
    { intros i t t1 Hi. apply Hstep. right. exact Hi. }
    rewrite forIndicesOn_cons in Hrun.
    destruct (IndexField.test sel a) eqn:Ha.
    + destruct (body a s) as [s1|] eqn:Hb; [|discriminate]. simpl in Hrun.
      destruct (Hstep a s s1 (or_introl eq_refl) Ha HQ Hb) as (HQ1 & Hest & Hkeep).
      destruct (IH Hnd' Hstep' s1 s' HQ1 Hrun) as [HQ' HP']. split; [exact HQ'|].
      intros j Hj. apply HP'.
      destruct Hj as [[[->|Hin] Hsel]|Hj].
      * right. exact Hest.
      * left. split; assumption.
      * destruct (Z.eq_dec j a) as [->|Hne]; [right; exact Hest|].
        right. apply Hkeep; assumption.
    + destruct (IH Hnd' Hstep' s s' HQ Hrun) as [HQ' HP']. split; [exact HQ'|].
      intros j Hj. apply HP'.
      destruct Hj as [[[->|Hin] Hsel]|Hj]; [congruence|left; split; assumption|right; exact Hj].
Qed.

(** The loop runs to its end when every selected step does. *)
Lemma forIndicesOn_total {S : Type} (P : S -> Prop) l sel (body : Z -> S -> option S) :
  (forall i s, In i l -> IndexField.test sel i = true -> P s ->
     exists s1, body i s = Some s1 /\ P s1) ->
  forall s, P s -> exists s', forIndicesOn l sel body s = Some s' /\ P s'.
Proof.
  induction l as [|a l IH]; intros Hstep s Hs.
  - exists s. split; [reflexivity|exact Hs].
  - rewrite forIndicesOn_cons.
    assert (Hstep' : forall i s, In i l -> IndexField.test sel i = true -> P s ->
              exists s1, body i s = Some s1 /\ P s1).
    { intros i t Hi. apply Hstep. right. exact Hi. }
    destruct (IndexField.test sel a) eqn:Ha.
    + destruct (Hstep a s (or_introl eq_refl) Ha Hs) as (s1 & Hb & Hs1).
      rewrite Hb. simpl. apply IH; assumption.
    + apply IH; assumption.
Qed.

(** ** Child access *)

Section ChildFacts.

Context {Data : Type} `{Payload Data} {C : Type}.
Implicit Types n : InnerNode Data C.

Lemma getChild_setChild_eq n i c c0 :
  getChild n i = Some c0 -> getChild (setChild n i c) i = Some c.
Proof.
  unfold getChild, setChild. simpl. destruct (children n) as [l|]; simpl; [|discriminate].
  intros Hl. apply list_lookup_insert_eq. apply lookup_lt_Some in Hl. exact Hl.
Qed.

Lemma getChild_setChild_ne n i j c :
  0 <= i -> 0 <= j -> i <> j -> getChild (setChild n i c) j = getChild n j.
Proof.
  intros Hi Hj Hne. unfold getChild, setChild. simpl.
  destruct (children n) as [l|]; simpl; [|reflexivity].
  apply list_lookup_insert_ne. lia.
Qed.

Lemma getChild_setChild_None n i j c :
  getChild n j = None -> getChild (setChild n i c) j = None.
Proof.
  unfold getChild, setChild. simpl. destruct (children n) as [l|]; simpl; [|reflexivity].
  intros Hl. apply lookup_ge_None in Hl. apply lookup_ge_None.
  rewrite length_insert. exact Hl.
Qed.

Lemma base_setChild n i c : base (setChild n i c) = base n.
Proof. reflexivity. Qed.

Lemma leaf_setChild n i c : leaf (setChild n i c) = leaf n.
Proof. reflexivity. Qed.

Lemma getChild_withBase n l i : getChild (withBase n l) i = getChild n i.
Proof. reflexivity. Qed.

Lemma getChild_withLeafField n f i : getChild (withLeafField n f) i = getChild n i.
Proof. reflexivity. Qed.

Lemma getChild_markModified n k b i : getChild (markModified n k b) i = getChild n i.
Proof. reflexivity. Qed.

Lemma children_setChild_None n i c : children (setChild n i c) = None <-> children n = None.
Proof. unfold setChild. simpl. destruct (children n); simpl; split; congruence. Qed.

Lemma forChildren_unfold sel g n :
  forChildren sel g n = forIndicesOn IndexField.indices sel (childStep g) n.
Proof. reflexivity. Qed.

Lemma forChildrenOn_spec g sel l :
  List.NoDup l -> (forall i, In i l -> 0 <= i) ->
  forall n n', forIndicesOn l sel (childStep g) n = Some n' ->
  base n' = base n /\ leaf n' = leaf n
  /\ (children n' = None <-> children n = None)
  /\ (forall j, In j l -> IndexField.test sel j = true ->
        exists c c', getChild n j = Some c /\ g c = Some c' /\ getChild n' j = Some c')
  /\ (forall j, 0 <= j -> ~ (In j l /\ IndexField.test sel j = true) ->
        getChild n' j = getChild n j).
Proof.
  induction l as [|a l IH]; intros Hnd Hpos n n' Hrun.
  - rewrite forIndicesOn_nil in Hrun. injection Hrun as <-.
    repeat split; try tauto. intros j [].
  - inversion Hnd as [|? ? Hnotin Hnd']; subst.
    assert (Ha0 : 0 <= a) by (apply Hpos; left; reflexivity).
    assert (Hpos' : forall i, In i l -> 0 <= i) by (intros i Hi; apply Hpos; right; exact Hi).
    rewrite forIndicesOn_cons in Hrun.
    destruct (IndexField.test sel a) eqn:Ha.
    + destruct (childStep g a n) as [n1|] eqn:Hstep; simpl in Hrun; [|discriminate].
      unfold childStep in Hstep.
      destruct (getChild n a) as [c|] eqn:Hc; simpl in Hstep; [|discriminate].
      destruct (g c) as [c'|] eqn:Hg; simpl in Hstep; [|discriminate].
      injection Hstep as <-.
      destruct (IH Hnd' Hpos' _ _ Hrun) as (Hb & Hl & Hn & Hsel & Hrest).
      split; [rewrite Hb; reflexivity|]. split; [rewrite Hl; reflexivity|].
      split; [rewrite Hn; apply children_setChild_None|]. split.
      * intros j [<-|Hin] Hj.
        -- exists c, c'. repeat split; try assumption.
           rewrite Hrest; [eapply getChild_setChild_eq; exact Hc|exact Ha0|intros [Hin' _]; contradiction].
        -- destruct (Hsel j Hin Hj) as (c1 & c1' & H1 & H2 & H3).
           exists c1, c1'. repeat split; try assumption.
           rewrite <- H1. symmetry. apply getChild_setChild_ne; [exact Ha0|auto|].
           intros ->. contradiction.
      * intros j Hj Hnot. rewrite Hrest; [|exact Hj|intros [Hin' Hs']; apply Hnot; split; [right; exact Hin'|exact Hs']].
        apply getChild_setChild_ne; [exact Ha0|exact Hj|].
        intros ->. apply Hnot. split; [left; reflexivity|exact Ha].
    + destruct (IH Hnd' Hpos' _ _ Hrun) as (Hb & Hl & Hn & Hsel & Hrest).
      repeat split; try assumption; try tauto.
      * intros j [<-|Hin] Hj; [congruence|]. apply Hsel; assumption.
      * intros j Hj Hnot. apply Hrest; [exact Hj|]. intros [Hin Hs]. apply Hnot.
        split; [right; exact Hin|exact Hs].
Qed.

Lemma forChildren_spec g sel n n' :
  forChildren sel g n = Some n' ->
  base n' = base n /\ leaf n' = leaf n
  /\ (children n' = None <-> children n = None)
  /\ (forall j, isIndex j -> IndexField.test sel j = true ->
        exists c c', getChild n j = Some c /\ g c = Some c' /\ getChild n' j = Some c')
  /\ (forall j, 0 <= j -> (isIndex j -> IndexField.test sel j = false) ->
        getChild n' j = getChild n j).
Proof.
  rewrite forChildren_unfold. intros Hrun.
  destruct (forChildrenOn_spec g sel IndexField.indices NoDup_indices
              (fun i Hi => proj1 (proj1 (In_indices i) Hi)) n n' Hrun)
    as (Hb & Hl & Hn & Hsel & Hrest).
  repeat split; try assumption; try tauto.
  - intros j Hj. apply Hsel. apply In_indices. exact Hj.
  - intros j Hj Hnot. apply Hrest; [exact Hj|].
    intros [Hin Hs]. apply In_indices in Hin. rewrite Hnot in Hs by exact Hin. discriminate.
Qed.

Lemma forChildrenOn_total g sel l :
  List.NoDup l -> (forall i, In i l -> 0 <= i) ->
  forall n,
  (forall j, In j l -> IndexField.test sel j = true ->
     exists c c', getChild n j = Some c /\ g c = Some c') ->
  exists n', forIndicesOn l sel (childStep g) n = Some n'.
Proof.
  induction l as [|a l IH]; intros Hnd Hpos n Hall.
  - exists n. reflexivity.
  - inversion Hnd as [|? ? Hnotin Hnd']; subst.
    assert (Ha0 : 0 <= a) by (apply Hpos; left; reflexivity).
    assert (Hpos' : forall i, In i l -> 0 <= i) by (intros i Hi; apply Hpos; right; exact Hi).
    rewrite forIndicesOn_cons.
    destruct (IndexField.test sel a) eqn:Ha.
    + destruct (Hall a (or_introl eq_refl) Ha) as (c & c' & Hc & Hg).
      assert (Hstep : childStep g a n = Some (setChild n a c')).
      { unfold childStep. rewrite Hc. simpl. rewrite Hg. reflexivity. }
      rewrite Hstep. simpl.
      apply IH; try assumption.
      intros j Hin Hj. destruct (Hall j (or_intror Hin) Hj) as (c1 & c1' & H1 & H2).
      exists c1, c1'. split; [|exact H2].
      rewrite <- H1. apply getChild_setChild_ne; [exact Ha0|auto|].
      intros ->. contradiction.
    + apply IH; try assumption.
      intros j Hin Hj. apply Hall; [right; exact Hin|exact Hj].
Qed.

Lemma forChildren_total g sel n :
  (forall j, isIndex j -> IndexField.test sel j = true ->
     exists c c', getChild n j = Some c /\ g c = Some c') ->
  exists n', forChildren sel g n = Some n'.
Proof.
  intros Hall. rewrite forChildren_unfold.
  apply forChildrenOn_total; [apply NoDup_indices| |].
  - intros i Hi. apply In_indices in Hi. lia.
  - intros j Hin. apply Hall. apply In_indices. exact Hin.
Qed.

End ChildFacts.

(** ** Unfolding the tree predicates *)

Section PredicateFacts.

Context {Data : Type} `{Payload Data}.

Lemma WF_S d (n : InnerNode Data (NodeAt Data d)) :
  WF (S d) n <->
  forall i, isIndex i -> isParentSlot n i ->
  exists c : NodeAt Data d, getChild n i = Some c /\ WF d c.
Proof. reflexivity. Qed.

Lemma Clean_O (n : LeafNode Data) :
  Clean O n <-> forall i, isIndex i -> IndexField.test (modified n) i = false.
Proof. reflexivity. Qed.

Lemma Clean_S d (n : InnerNode Data (NodeAt Data d)) :
  Clean (S d) n <->
  (forall i, isIndex i -> IndexField.test (modified (base n)) i = false)
  /\ forall i (c : NodeAt Data d), isIndex i -> isParentSlot n i -> getChild n i = Some c ->
     Clean d c.
Proof. reflexivity. Qed.

Lemma FullyModified_O (n : LeafNode Data) :
  FullyModified O n <-> forall i, isIndex i -> IndexField.test (modified n) i = true.
Proof. reflexivity. Qed.

Lemma FullyModified_S d (n : InnerNode Data (NodeAt Data d)) :
  FullyModified (S d) n <->
  (forall i, isIndex i -> IndexField.test (modified (base n)) i = true)
  /\ forall i, isIndex i -> isParentSlot n i ->
     exists c : NodeAt Data d, getChild n i = Some c /\ FullyModified d c.
Proof. reflexivity. Qed.

Lemma Inv_S pay d (n : InnerNode Data (NodeAt Data d)) :
  Inv pay (S d) n <->
  forall i, isIndex i -> isParentSlot n i ->
  exists c : NodeAt Data d, getChild n i = Some c /\ Inv pay d c
    /\ (IndexField.test (modified (base n)) i = false ->
        Clean d c /\ (pay = true -> Aggregated d n i c)).
Proof. reflexivity. Qed.

End PredicateFacts.

(** * Lookup *)

Section FindFacts.

Context {Data : Type} `{Payload Data}.

Lemma pathFrom_self d code : pathFrom d code (S d) = [].
Proof. unfold pathFrom. replace (S d - S d)%nat with O by lia. reflexivity. Qed.

Lemma pathFrom_step d code depth : (depth <= S d)%nat ->
  pathFrom (S d) code depth = Code.index code (Z.of_nat (S (S d))) :: pathFrom d code depth.
Proof.
  intros Hle. unfold pathFrom.
  replace (S (S d) - depth)%nat with (S (S d - depth)) by lia.
  rewrite <- cons_seq. cbn [map].
  replace (Z.of_nat (S (S d)) - Z.of_nat 0) with (Z.of_nat (S (S d))) by lia.
  apply (f_equal (cons _)).
  rewrite <- seq_shift, map_map. apply map_ext. intros k. f_equal. lia.
Qed.

Lemma blockPath_pathFrom r code depth : blockPath r code depth = pathFrom r code depth.
Proof. reflexivity. Qed.

Lemma blockAt_cons d i ptr (n : InnerNode Data (InnerNode Data (NodeAt Data d))) :
  blockAt (S d) (i :: ptr) n = c ← getChild n i; blockAt d ptr c.
Proof. reflexivity. Qed.

Lemma findFrom_spec code min_depth : forall d path (node : InnerNode Data (NodeAt Data d)),
  WF (S d) node ->
  min_depth = Nat.max (Z.to_nat (Code.depth code)) 1 ->
  (min_depth <= S d)%nat ->
  exists blk depth,
    findFrom code min_depth d path node = Some (path ++ pathFrom d code depth, blk, depth)
    /\ (Z.to_nat (Code.depth code) <= depth <= S d)%nat
    /\ blockAt d (pathFrom d code depth) node = Some blk.
Proof.
  induction d as [|d IH]; intros path node Hwf Hmin Hle.
  - norm_nodes. assert (Hm1 : min_depth = 1%nat) by lia.
    cbn [findFrom]; norm_nodes. rewrite Hm1. cbn [Nat.eqb negb andb].
    destruct ((Code.depth code =? 0) && negb (IndexField.test (leaf node) (Code.index code 1)))
      eqn:Hc.
    + apply andb_prop in Hc. destruct Hc as [Hd0 Hl].
      apply Z.eqb_eq in Hd0. apply negb_true_iff in Hl.
      rewrite WF_S in Hwf.
      destruct (Hwf (Code.index code 1) (index_range code 1) Hl) as (c & Hc & _).
      norm_nodes.
      rewrite Hc. simpl. exists c, O. split; [|split].
      * reflexivity.
      * rewrite Hd0. simpl. lia.
      * unfold pathFrom. simpl. exact Hc.
    + exists (base node), 1%nat. rewrite pathFrom_self, app_nil_r.
      split; [reflexivity|]. split; [lia|reflexivity].
  - norm_nodes.
    destruct (negb (min_depth =? S (S d))%nat
              && negb (IndexField.test (leaf node) (Code.index code (Z.of_nat (S (S d))))))
      eqn:Hcond.
    + pose proof Hcond as Hc. apply andb_prop in Hc. destruct Hc as [Hne Hl].
      apply negb_true_iff in Hne, Hl. apply Nat.eqb_neq in Hne.
      rewrite WF_S in Hwf.
      destruct (Hwf _ (index_range code _) Hl) as (c & Hc & Hwfc).
      norm_nodes.
      destruct (IH (path ++ [Code.index code (Z.of_nat (S (S d)))]) c Hwfc Hmin ltac:(lia))
        as (blk & depth & Hf & Hr & Hb).
      exists blk, depth. split; [|split].
      * cbn [findFrom]; norm_nodes. rewrite Hcond, Hc. cbn [mbind option_bind].
        rewrite Hf. rewrite pathFrom_step by lia. rewrite <- app_assoc. reflexivity.
      * lia.
      * rewrite pathFrom_step by lia. rewrite blockAt_cons, Hc. exact Hb.
    + assert (Hstop : (Code.depth code =? 0)
                      && negb (IndexField.test (leaf node) (Code.index code (Z.of_nat (S (S d)))))
                      = false).
      { apply andb_false_iff in Hcond. destruct Hcond as [Hc|Hc].
        - apply negb_false_iff, Nat.eqb_eq in Hc.
          destruct (Z.eqb_spec (Code.depth code) 0) as [H0|H0]; [|reflexivity].
          rewrite H0 in Hmin. simpl in Hmin. lia.
        - rewrite Hc. apply andb_false_r. }
      exists (base node), (S (S d)). rewrite pathFrom_self, app_nil_r.
      split; [|split; [lia|reflexivity]].
      cbn [findFrom]; norm_nodes. rewrite Hcond, Hstop. reflexivity.
Qed.

End FindFacts.

(** Claim C6.  On a well-formed tree the lookup of a code [c] of depth at
    most [rootDepth()] returns a node handle that carries the code [c] and
    points to a block of the tree: the block of the depth at which the
    descent stopped, which is never below the depth of [c] and never above
    the root depth.  On a map of root depth up to 19, where the index of
    [c] at every depth of the tree is defined, that block is the one on the
    path from the root towards [c]. *)
Theorem find_stops_at_or_above {Data : Type} `{Payload Data} (r : nat) (m : @Map Data r)
    (c : Code.t) :
  WF (S r) (root m) ->
  Code.depth c <= Z.of_nat (rootDepth r) ->
  exists (ptr : list Z) (blk : LeafNode Data) (depth : nat),
    leafNodeAndDepth m c = Some (ptr, blk, depth)
    /\ find m c = Some (mkNode (Some ptr) c (Z.of_nat depth))
    /\ Code.depth c <= Z.of_nat depth <= Z.of_nat (rootDepth r)
    /\ blockAt r ptr (root m) = Some blk
    /\ (Z.of_nat (rootDepth r) <= 19 -> ptr = blockPath r c depth).
Proof.
  intros Hwf Hd. pose proof (depth_range c) as Hr.
  destruct (findFrom_spec c (Nat.max (Z.to_nat (Code.depth c)) 1) r [] (root m) Hwf eq_refl)
    as (blk & depth & Hf & Hrange & Hb).
  { unfold rootDepth in Hd. lia. }
  exists (pathFrom r c depth), blk, depth.
  assert (Hl : leafNodeAndDepth m c = Some (pathFrom r c depth, blk, depth)).
  { unfold leafNodeAndDepth. rewrite Hf. reflexivity. }
  split; [exact Hl|]. split; [unfold find; rewrite Hl; reflexivity|].
  split; [unfold rootDepth; lia|]. split; [exact Hb|reflexivity].
Qed.

(** * The invariant *)

Section InvFacts.

Context {Data : Type} `{Payload Data}.

Local Abbreviation Leaf := (LeafNode Data).
Local Abbreviation Inner d := (InnerNode Data (NodeAt Data d)).

Lemma isParentSlot_dec {C} (n : InnerNode Data C) i : isParentSlot n i \/ ~ isParentSlot n i.
Proof. unfold isParentSlot. destruct (IndexField.test (leaf n) i); [right|left]; congruence. Qed.

Lemma not_isParentSlot {C} (n : InnerNode Data C) i :
  ~ isParentSlot n i <-> IndexField.test (leaf n) i = true.
Proof. unfold isParentSlot. destruct (IndexField.test (leaf n) i); split; congruence. Qed.

(** *** Basic facts on the predicates *)

Lemma FullyModified_WF d : forall n : NodeAt Data d, FullyModified d n -> WF d n.
Proof.
  induction d as [|d IH]; intros n Hn; [exact I|].
  rewrite FullyModified_S in Hn. destruct Hn as [_ Hc]. rewrite WF_S.
  intros i Hi Hp. destruct (Hc i Hi Hp) as (c & Hg & Hf). eauto.
Qed.

Lemma FullyModified_Inv pay d : forall n : NodeAt Data d, FullyModified d n -> Inv pay d n.
Proof.
  induction d as [|d IH]; intros n Hn; [exact I|].
  rewrite FullyModified_S in Hn. destruct Hn as [Hm Hc]. rewrite Inv_S.
  intros i Hi Hp. destruct (Hc i Hi Hp) as (c & Hg & Hf).
  exists c. split; [exact Hg|]. split; [apply IH, Hf|].
  intros Hu. rewrite Hm in Hu by exact Hi. discriminate.
Qed.

Lemma Inv_WF pay d : forall n : NodeAt Data d, Inv pay d n -> WF d n.
Proof.
  induction d as [|d IH]; intros n Hn; [exact I|].
  rewrite Inv_S in Hn. rewrite WF_S.
  intros i Hi Hp. destruct (Hn i Hi Hp) as (c & Hg & Hc & _). eauto.
Qed.

(** A node all of whose slots are leaves. *)
Lemma Inv_all_leaf pay d (n : Inner d) :
  (forall i, isIndex i -> IndexField.test (leaf n) i = true) -> Inv pay (S d) n.
Proof.
  intros Hl. rewrite Inv_S. intros i Hi Hp. unfold isParentSlot in Hp.
  rewrite Hl in Hp by exact Hi. discriminate.
Qed.

Lemma WF_all_leaf d (n : Inner d) :
  (forall i, isIndex i -> IndexField.test (leaf n) i = true) -> WF (S d) n.
Proof.
  intros Hl. rewrite WF_S. intros i Hi Hp. unfold isParentSlot in Hp.
  rewrite Hl in Hp by exact Hi. discriminate.
Qed.

(** The invariant reads the leaf field, the payload, the children of the
    parent slots and the modified bits; fewer clear bits ask for less. *)
Lemma Inv_weaken pay d (n n' : Inner d) :
  leaf n' = leaf n ->
  data (base n') = data (base n) ->
  (forall i, isIndex i -> isParentSlot n i -> getChild n' i = getChild n i) ->
  (forall i, isIndex i -> IndexField.test (modified (base n')) i = false ->
     IndexField.test (modified (base n)) i = false) ->
  Inv pay (S d) n -> Inv pay (S d) n'.
Proof.
  intros Hl Hd Hc Hm Hn. rewrite Inv_S in *. intros i Hi Hp.
  assert (Hp' : isParentSlot n i) by (unfold isParentSlot in *; rewrite <- Hl; exact Hp).
  destruct (Hn i Hi Hp') as (c & Hg & Hic & Hu).
  exists c. split; [rewrite Hc by assumption; exact Hg|]. split; [exact Hic|].
  intros Hu'. destruct (Hu (Hm i Hi Hu')) as [Hcl Hag]. split; [exact Hcl|].
  intros Hpay. unfold Aggregated in *. rewrite Hd. apply Hag, Hpay.
Qed.

Lemma WF_weaken d (n n' : Inner d) :
  leaf n' = leaf n ->
  (forall i, isIndex i -> isParentSlot n i -> getChild n' i = getChild n i) ->
  WF (S d) n -> WF (S d) n'.
Proof.
  intros Hl Hc Hn. rewrite WF_S in *. intros i Hi Hp.
  assert (Hp' : isParentSlot n i) by (unfold isParentSlot in *; rewrite <- Hl; exact Hp).
  destruct (Hn i Hi Hp') as (c & Hg & Hic).
  exists c. split; [rewrite Hc by assumption; exact Hg|exact Hic].
Qed.

Lemma Inv_markModified_true pay d (n : Inner d) k :
  0 <= k -> Inv pay (S d) n -> Inv pay (S d) (markModified n k true).
Proof.
  intros Hk. apply Inv_weaken; try reflexivity.
  intros i Hi. nsimpl. rewrite test_assign by exact Hk.
  destruct (k =? i); [discriminate|tauto].
Qed.

(** Replacing the child of a modified parent slot, or of a leaf slot. *)
Lemma Inv_setChild pay d (n : Inner d) k (c : NodeAt Data d) :
  0 <= k ->
  (isParentSlot n k ->
     Inv pay d c /\ (IndexField.test (modified (base n)) k = false ->
                     Clean d c /\ (pay = true -> Aggregated d n k c))) ->
  (isParentSlot n k -> exists c0, getChild n k = Some c0) ->
  Inv pay (S d) n -> Inv pay (S d) (setChild n k c).
Proof.
  intros Hk Hc Hex Hn. rewrite Inv_S in *. intros i Hi Hp.
  change (isParentSlot n i) in Hp.
  destruct (Z.eq_dec i k) as [->|Hne].
  - destruct (Hex Hp) as (c0 & Hc0). exists c.
    split; [eapply getChild_setChild_eq; exact Hc0|].
    destruct (Hc Hp) as [Hic Hu]. split; [exact Hic|exact Hu].
  - destruct (Hn i Hi Hp) as (c1 & Hg & Hic & Hu). exists c1.
    split; [|split; assumption].
    rewrite getChild_setChild_ne; [exact Hg|exact Hk|apply Hi|congruence].
Qed.

Lemma WF_setChild d (n : Inner d) k (c : NodeAt Data d) :
  0 <= k ->
  (isParentSlot n k -> WF d c) ->
  (isParentSlot n k -> exists c0, getChild n k = Some c0) ->
  WF (S d) n -> WF (S d) (setChild n k c).
Proof.
  intros Hk Hc Hex Hn. rewrite WF_S in *. intros i Hi Hp.
  change (isParentSlot n i) in Hp.
  destruct (Z.eq_dec i k) as [->|Hne].
  - destruct (Hex Hp) as (c0 & Hc0). exists c.
    split; [eapply getChild_setChild_eq; exact Hc0|apply Hc, Hp].
  - destruct (Hn i Hi Hp) as (c1 & Hg & Hic). exists c1.
    split; [|assumption].
    rewrite getChild_setChild_ne; [exact Hg|exact Hk|apply Hi|congruence].
Qed.

Lemma getChild_markAllInner {C} (n : InnerNode Data C) m i :
  getChild (markAllInner n m) i = getChild n i.
Proof. reflexivity. Qed.

Lemma isParentSlot_markAllInner {C} (n : InnerNode Data C) m i :
  isParentSlot (markAllInner n m) i <-> isParentSlot n i.
Proof. reflexivity. Qed.

(** *** Creating children *)

Lemma fillAt_Inv pay d (c0 : NodeAt Data d) parent index :
  Inv pay d (fillAt d c0 parent index).
Proof.
  destruct d as [|d]; [exact I|]. apply Inv_all_leaf. intros i Hi.
  cbn [fillAt InnerNode_fill leaf]. apply test_full_index, Hi.
Qed.

Lemma fillAt_Clean d (c0 : NodeAt Data d) (parent : Leaf) index :
  IndexField.test (modified parent) index = false ->
  Clean d (fillAt d c0 parent index).
Proof.
  intros Hm. destruct d as [|d].
  - rewrite Clean_O. intros i Hi. cbn [fillAt LeafNode_fill modified].
    rewrite Hm. apply test_empty.
  - rewrite Clean_S. split.
    + intros i Hi. cbn [fillAt InnerNode_fill LeafNode_fill base modified].
      rewrite Hm. apply test_empty.
    + intros i c Hi Hp. unfold isParentSlot in Hp.
      cbn [fillAt InnerNode_fill leaf] in Hp.
      rewrite test_full_index in Hp by exact Hi. discriminate.
Qed.

Lemma createChildren_parent d (node : Inner d) index :
  isParentSlot node index -> createChildren d node index = Some node.
Proof. intros Hp. unfold createChildren. rewrite Hp. reflexivity. Qed.

Lemma createChildren_leaf d (node node' : Inner d) index :
  isIndex index ->
  IndexField.test (leaf node) index = true ->
  createChildren d node index = Some node' ->
  base node' = base node
  /\ leaf node' = IndexField.assign (leaf node) index false
  /\ (exists c0, getChild node' index = Some (fillAt d c0 (base node) index))
  /\ (forall j c, 0 <= j -> j <> index -> getChild node j = Some c ->
        getChild node' j = Some c).
Proof.
  intros Hi Hl Hrun. unfold createChildren in Hrun. rewrite Hl in Hrun.
  set (node1 := match children node with
                | Some _ => node
                | None => allocateChildren d node
                end) in *.
  assert (Hb1 : base node1 = base node) by (subst node1; destruct (children node); reflexivity).
  assert (Hl1 : leaf node1 = leaf node) by (subst node1; destruct (children node); reflexivity).
  assert (Hc1 : forall j c, getChild node j = Some c -> getChild node1 j = Some c).
  { intros j c Hj. subst node1.
    destruct (children node) eqn:Hcn; [exact Hj|].
    unfold getChild in Hj. rewrite Hcn in Hj. discriminate. }
  destruct (getChild node1 index) as [c0|] eqn:Hc0; simpl in Hrun; [|discriminate].
  injection Hrun as <-. nsimpl.
  split; [exact Hb1|]. split; [rewrite Hl1; reflexivity|]. split.
  - exists c0. rewrite getChild_withLeafField, <- Hb1.
    eapply getChild_setChild_eq. exact Hc0.
  - intros j c Hj Hne Hg. rewrite getChild_withLeafField.
    rewrite getChild_setChild_ne; [apply Hc1, Hg|apply Hi|exact Hj|congruence].
Qed.

(** After [createChildren] and [modified[index] = true] the slot is a
    modified parent whose child satisfies the invariant. *)
Lemma createChildren_Inv pay d (node node1 : Inner d) index :
  isIndex index ->
  Inv pay (S d) node ->
  createChildren d node index = Some node1 ->
  Inv pay (S d) (markModified node1 index true)
  /\ isParentSlot node1 index
  /\ exists c, getChild node1 index = Some c /\ Inv pay d c.
Proof.
  intros Hi Hn Hrun. destruct (isParentSlot_dec node index) as [Hp|Hp].
  - rewrite createChildren_parent in Hrun by exact Hp. injection Hrun as <-.
    split; [apply Inv_markModified_true; [apply Hi|exact Hn]|]. split; [exact Hp|].
    rewrite Inv_S in Hn. destruct (Hn index Hi Hp) as (c & Hg & Hc & _). eauto.
  - apply not_isParentSlot in Hp.
    destruct (createChildren_leaf d node node1 index Hi Hp Hrun)
      as (Hb & Hl & (c0 & Hc0) & Hoth).
    assert (Hp1 : isParentSlot node1 index).
    { unfold isParentSlot. rewrite Hl. apply test_assign_eq, Hi. }
    split; [|split; [exact Hp1|]].
    + rewrite Inv_S in *. intros i Hi' Hpi. change (isParentSlot node1 i) in Hpi.
      rewrite getChild_markModified.
      destruct (Z.eq_dec i index) as [->|Hne].
      * eexists. split; [exact Hc0|]. split; [apply fillAt_Inv|].
        intros Hu. nsimpl. rewrite test_assign_eq in Hu by apply Hi. discriminate.
      * assert (Hpn : isParentSlot node i).
        { unfold isParentSlot in *. rewrite Hl in Hpi.
          rewrite test_assign_ne in Hpi by (try apply Hi; congruence). exact Hpi. }
        destruct (Hn i Hi' Hpn) as (c & Hg & Hc & Hu).
        exists c. split; [apply Hoth; [apply Hi'|exact Hne|exact Hg]|]. split; [exact Hc|].
        intros Hu'. nsimpl. rewrite test_assign_ne in Hu' by (try apply Hi; congruence).
        rewrite Hb in Hu'. destruct (Hu Hu') as [Hcl Hag]. split; [exact Hcl|].
        intros Hpay. unfold Aggregated in *. nsimpl. rewrite Hb. apply Hag, Hpay.
    + eexists. split; [exact Hc0|apply fillAt_Inv].
Qed.

End InvFacts.

(** * [apply] *)

Section ApplyFacts.

Context {Data : Type} `{Payload Data}.
Variable f : Data -> Z -> Data.
Variable f2 : Data -> Data.

Local Abbreviation Leaf := (LeafNode Data).
Local Abbreviation Inner d := (InnerNode Data (NodeAt Data d)).

Lemma applyAllRecurs_O (node : Inner 0) indices :
  applyAllRecurs f f2 0 node indices
  = forChildren indices
      (fun children : Leaf => Some (setModifiedField (callF2 f2 children) IndexField.full))
      node.
Proof. reflexivity. Qed.

Lemma applyAllRecurs_S d (node : Inner (S d)) indices :
  applyAllRecurs f f2 (S d) node indices = forChildren indices (applyAllChild f f2 d) node.
Proof. reflexivity. Qed.

(** The calls of [f] on the leaf slots of a block change its payload only. *)
Lemma callF_loop {C} (n : InnerNode Data C) sel :
  exists n', forIndices sel (fun j (ch : InnerNode Data C) => Some (callFInner f ch j)) n
             = Some n'
    /\ leaf n' = leaf n /\ children n' = children n
    /\ modified (base n') = modified (base n).
Proof.
  destruct (forIndicesOn_total
              (fun s : InnerNode Data C => leaf s = leaf n /\ children s = children n
                                  /\ modified (base s) = modified (base n))
              IndexField.indices sel
              (fun j (ch : InnerNode Data C) => Some (callFInner f ch j))) with (s := n)
    as (n' & Hrun & Hn').
  - intros i s _ _ (Hl & Hc & Hm). eexists. split; [reflexivity|]. nsimpl. auto.
  - auto.
  - exists n'. split; [exact Hrun|exact Hn'].
Qed.

Lemma applyAllRecurs_spec : forall d (node : Inner d) indices,
  WF (S d) node ->
  (forall i, isIndex i -> IndexField.test indices i = true -> isParentSlot node i) ->
  exists node',
    applyAllRecurs f f2 d node indices = Some node'
    /\ base node' = base node /\ leaf node' = leaf node
    /\ (forall j, isIndex j -> IndexField.test indices j = true ->
          exists c', getChild node' j = Some c' /\ FullyModified d c')
    /\ (forall j, 0 <= j -> (isIndex j -> IndexField.test indices j = false) ->
          getChild node' j = getChild node j).
Proof.
  induction d as [|d IH]; intros node indices Hwf Hsub; rewrite WF_S in Hwf.
  - rewrite applyAllRecurs_O.
    destruct (forChildren_total
                (fun children : Leaf =>
                   Some (setModifiedField (callF2 f2 children) IndexField.full)) indices node)
      as (node' & Hrun).
    { intros j Hj Hs. destruct (Hwf j Hj (Hsub j Hj Hs)) as (c & Hc & _). eauto. }
    exists node'. split; [exact Hrun|].
    destruct (forChildren_spec _ _ _ _ Hrun) as (Hb & Hl & _ & Hsel & Hrest).
    repeat split; try assumption.
    intros j Hj Hs. destruct (Hsel j Hj Hs) as (c & c' & _ & Hg & Hc').
    exists c'. split; [exact Hc'|]. injection Hg as <-.
    rewrite FullyModified_O. intros i Hi. nsimpl. apply test_full_index, Hi.
  - rewrite applyAllRecurs_S.
    assert (Hchild : forall c : Inner d, WF (S d) c ->
              exists c', applyAllChild f f2 d c = Some c' /\ FullyModified (S d) c').
    { intros c Hc. unfold applyAllChild.
      destruct (IndexField.all (leaf c)) eqn:Hall.
      - eexists. split; [reflexivity|]. rewrite FullyModified_S. split.
        + intros i Hi. nsimpl. apply test_full_index, Hi.
        + intros i Hi Hp. unfold isParentSlot in Hp. nsimpl.
          rewrite all_spec in Hall. rewrite Hall in Hp by exact Hi. discriminate.
      - assert (Hc1 : exists c1,
                  (if IndexField.any (leaf c)
                   then forIndices (leaf c) (fun j (ch : Inner d) => Some (callFInner f ch j)) c
                   else Some c) = Some c1
                  /\ leaf c1 = leaf c /\ children c1 = children c).
        { destruct (IndexField.any (leaf c)).
          - destruct (callF_loop c (leaf c)) as (c1 & Hr & Hl & Hcc & _). eauto.
          - eauto. }
        destruct Hc1 as (c1 & Hr1 & Hl1 & Hcc1). rewrite Hr1. cbn [mbind option_bind].
        assert (Hwf1 : WF (S d) c1).
        { eapply WF_weaken; [exact Hl1| |exact Hc].
          intros i _ _. unfold getChild. rewrite Hcc1. reflexivity. }
        destruct (IH c1 (IndexField.compl (leaf c1)) Hwf1) as (c2 & Hr2 & Hb2 & Hl2 & Hsel2 & _).
        { intros i Hi Ht. rewrite test_compl in Ht by exact Hi.
          unfold isParentSlot. apply negb_true_iff, Ht. }
        rewrite Hr2. cbn [mbind option_bind]. eexists. split; [reflexivity|].
        rewrite FullyModified_S. split.
        + intros i Hi. nsimpl. apply test_full_index, Hi.
        + intros i Hi Hp. unfold isParentSlot in Hp. nsimpl.
          rewrite getChild_markAllInner. rewrite Hl2 in Hp.
          destruct (Hsel2 i Hi) as (c' & Hg & Hf).
          { rewrite test_compl by exact Hi. rewrite Hp. reflexivity. }
          exists c'. split; [exact Hg|exact Hf]. }
    destruct (forChildren_total (applyAllChild f f2 d) indices node) as (node' & Hrun).
    { intros j Hj Hs. destruct (Hwf j Hj (Hsub j Hj Hs)) as (c & Hc & Hwc).
      destruct (Hchild c Hwc) as (c' & Hc' & _). eauto. }
    exists node'. split; [exact Hrun|].
    destruct (forChildren_spec _ _ _ _ Hrun) as (Hb & Hl & _ & Hsel & Hrest).
    repeat split; try assumption.
    intros j Hj Hs. destruct (Hsel j Hj Hs) as (c & c' & Hgc & Hg & Hc').
    exists c'. split; [exact Hc'|].
    destruct (Hwf j Hj (Hsub j Hj Hs)) as (c0 & Hc0 & Hwc).
    norm_nodes. rewrite Hgc in Hc0. injection Hc0 as <-.
    destruct (Hchild c Hwc) as (c'' & Hc'' & Hf). rewrite Hg in Hc''. injection Hc'' as <-.
    exact Hf.
Qed.

(** *** [apply] keeps the invariant *)

Variable code : Code.t.

Lemma applyAt_O (cur : Inner 0) :
  applyAt f f2 code 0 cur
  = if (min_depth code =? 1)%nat then
      if Code.depth code =? 0 then
        let index := Code.index code 1 in
        cur ← createChildren 0 cur index;
        let cur := markModified cur index true in
        child ← getChild cur index;
        let child_index := Code.index code 0 in
        let child := callF f child child_index in
        let child := setModifiedField child
                       (IndexField.assign (modified child) child_index true) in
        Some (setChild cur index child, O)
      else applyTarget f f2 code 0 cur
    else None.
Proof. reflexivity. Qed.

Lemma applyAt_S d (cur : Inner (S d)) :
  applyAt f f2 code (S d) cur
  = if (min_depth code =? S (S d))%nat then applyTarget f f2 code (S d) cur
    else
      let index := Code.index code (Z.of_nat (S (S d))) in
      cur ← createChildren (S d) cur index;
      let cur := markModified cur index true in
      child ← getChild cur index;
      '(child, depth) ← applyAt f f2 code d child;
      Some (setChild cur index child, depth).
Proof. reflexivity. Qed.

Lemma modified_markModified {C} (n : InnerNode Data C) k b :
  modified (base (markModified n k b)) = IndexField.assign (modified (base n)) k b.
Proof. reflexivity. Qed.

Lemma applyTarget_Inv pay d (cur cur' : Inner d) dd :
  (pay = true -> SlotLocal f) ->
  Inv pay (S d) cur ->
  applyTarget f f2 code d cur = Some (cur', dd) ->
  Inv pay (S d) cur'.
Proof.
  intros Hf Hn Hrun. unfold applyTarget in Hrun.
  set (index := Code.index code (Z.of_nat (S d))) in *.
  assert (Hi : isIndex index) by apply index_range.
  destruct (IndexField.test (leaf cur) index) eqn:Hl; cbn [mbind option_bind] in Hrun.
  - injection Hrun as <- <-. rewrite Inv_S in *. intros i Hi' Hp.
    change (isParentSlot cur i) in Hp.
    assert (Hne : index <> i) by (intros ->; unfold isParentSlot in Hp; congruence).
    destruct (Hn i Hi' Hp) as (c & Hg & Hc & Hu). exists c.
    split; [exact Hg|]. split; [exact Hc|]. intros Hu'. nsimpl.
    rewrite test_assign_ne in Hu' by (try apply Hi; exact Hne).
    destruct (Hu Hu') as [Hcl Hag]. split; [exact Hcl|]. intros Hpay.
    unfold Aggregated in *. unfold callFInner, callF. nsimpl.
    rewrite (Hf Hpay) by assumption. rewrite <- (Hag Hpay). reflexivity.
  - destruct (applyAllRecurs_spec d cur (IndexField.single index) (Inv_WF pay _ _ Hn))
      as (cur1 & Hr & Hb & Hlf & Hsel & Hrest).
    { intros i Hi' Ht. rewrite test_single in Ht by apply Hi.
      apply Z.eqb_eq in Ht. subst i. exact Hl. }
    rewrite Hr in Hrun. cbn [mbind option_bind] in Hrun. injection Hrun as <- <-.
    rewrite Inv_S in *. intros i Hi' Hp. change (isParentSlot cur1 i) in Hp.
    rewrite getChild_markModified.
    destruct (Z.eq_dec i index) as [->|Hne].
    + destruct (Hsel index Hi) as (c' & Hg & Hfm).
      { rewrite test_single by apply Hi. apply Z.eqb_refl. }
      exists c'. split; [exact Hg|]. split; [apply FullyModified_Inv, Hfm|].
      intros Hu. nsimpl. rewrite test_assign_eq in Hu by apply Hi. discriminate.
    + assert (Hpc : isParentSlot cur i) by (unfold isParentSlot in *; rewrite <- Hlf; exact Hp).
      destruct (Hn i Hi' Hpc) as (c & Hg & Hc & Hu). exists c.
      split.
      { rewrite Hrest; [exact Hg|apply Hi'|].
        intros _. rewrite test_single by apply Hi.
        apply Z.eqb_neq. congruence. }
      split; [exact Hc|]. intros Hu'. nsimpl.
      rewrite test_assign_ne in Hu' by (try apply Hi; congruence).
      rewrite Hb in Hu'. destruct (Hu Hu') as [Hcl Hag]. split; [exact Hcl|].
      intros Hpay. unfold Aggregated in *. nsimpl. rewrite Hb. apply Hag, Hpay.
Qed.

Lemma applyAt_Inv pay : forall d (cur cur' : Inner d) dd,
  (pay = true -> SlotLocal f) ->
  Inv pay (S d) cur ->
  applyAt f f2 code d cur = Some (cur', dd) ->
  Inv pay (S d) cur'.
Proof.
  induction d as [|d IH]; intros cur cur' dd Hf Hn Hrun.
  - rewrite applyAt_O in Hrun.
    destruct (min_depth code =? 1)%nat; [|discriminate].
    destruct (Code.depth code =? 0); [|eapply applyTarget_Inv; eassumption].
    cbv zeta in Hrun.
    set (index := Code.index code 1) in *.
    assert (Hi : isIndex index) by apply index_range.
    destruct (createChildren 0 cur index) as [cur1|] eqn:Hc1;
      cbn [mbind option_bind] in Hrun; [|discriminate].
    destruct (createChildren_Inv pay 0 cur cur1 index Hi Hn Hc1) as (Hn1 & Hp1 & c & Hgc & _).
    rewrite getChild_markModified in Hrun. norm_nodes. rewrite Hgc in Hrun.
    cbn [mbind option_bind] in Hrun. injection Hrun as <- <-.
    apply (Inv_setChild pay 0); [apply Hi| | |exact Hn1].
    + intros _. split; [exact I|]. intros Hu. nsimpl.
      rewrite test_assign_eq in Hu by apply Hi. discriminate.
    + intros _. rewrite getChild_markModified. eauto.
  - rewrite applyAt_S in Hrun.
    destruct (min_depth code =? S (S d))%nat; [eapply applyTarget_Inv; eassumption|].
    cbv zeta in Hrun.
    set (index := Code.index code (Z.of_nat (S (S d)))) in *.
    assert (Hi : isIndex index) by apply index_range.
    destruct (createChildren (S d) cur index) as [cur1|] eqn:Hc1;
      cbn [mbind option_bind] in Hrun; [|discriminate].
    destruct (createChildren_Inv pay (S d) cur cur1 index Hi Hn Hc1)
      as (Hn1 & Hp1 & c & Hgc & Hic).
    rewrite getChild_markModified in Hrun. norm_nodes. rewrite Hgc in Hrun.
    cbn [mbind option_bind] in Hrun.
    destruct (applyAt f f2 code d c) as [[c' dd']|] eqn:Hrec;
      cbn [mbind option_bind] in Hrun; [|discriminate].
    injection Hrun as <- <-.
    apply (Inv_setChild pay (S d)); [apply Hi| | |exact Hn1].
    + intros _. split; [eapply IH; eassumption|]. intros Hu. nsimpl.
      rewrite test_assign_eq in Hu by apply Hi. discriminate.
    + intros _. rewrite getChild_markModified. eauto.
Qed.

End ApplyFacts.

(** * Deleting and pruning *)

Section PruneFacts.

Context {Data : Type} `{Payload Data}.

Local Abbreviation Leaf := (LeafNode Data).
Local Abbreviation Inner d := (InnerNode Data (NodeAt Data d)).

Lemma Pruned_refl {C} (n : InnerNode Data C) : Pruned n n.
Proof. split; [reflexivity|]. intros i _ Hp. split; [exact Hp|reflexivity]. Qed.

Lemma Pruned_trans {C} (n1 n2 n3 : InnerNode Data C) :
  Pruned n1 n2 -> Pruned n2 n3 -> Pruned n1 n3.
Proof.
  intros [Hb1 H1] [Hb2 H2]. split; [congruence|].
  intros i Hi Hp. destruct (H2 i Hi Hp) as [Hp2 Hg2]. destruct (H1 i Hi Hp2) as [Hp1 Hg1].
  split; [exact Hp1|congruence].
Qed.

Lemma Pruned_Inv pay d (n n' : Inner d) : Pruned n n' -> Inv pay (S d) n -> Inv pay (S d) n'.
Proof.
  intros [Hb Hc] Hn. rewrite Inv_S in *. intros i Hi Hp.
  destruct (Hc i Hi Hp) as [Hp' Hg]. destruct (Hn i Hi Hp') as (c & Hgc & Hic & Hu).
  exists c. split; [congruence|]. split; [exact Hic|].
  rewrite Hb. unfold Aggregated in *. rewrite Hb. exact Hu.
Qed.

Lemma Pruned_WF d (n n' : Inner d) : Pruned n n' -> WF (S d) n -> WF (S d) n'.
Proof.
  intros [Hb Hc] Hn. rewrite WF_S in *. intros i Hi Hp.
  destruct (Hc i Hi Hp) as [Hp' Hg]. destruct (Hn i Hi Hp') as (c & Hgc & Hic).
  exists c. split; [congruence|exact Hic].
Qed.

Lemma deleteChildren_O prune (node : Inner 0) indices :
  deleteChildren prune 0 node indices
  = deleteBody prune (fun child : Leaf => Some (LeafNode_clear child)) node indices.
Proof. reflexivity. Qed.

Lemma deleteChildren_S prune d (node : Inner (S d)) indices :
  deleteChildren prune (S d) node indices
  = deleteBody prune (deleteChild prune d) node indices.
Proof. reflexivity. Qed.

Lemma deleteBody_spec {C} prune (g : C -> option C) (node node' : InnerNode Data C) indices :
  deleteBody prune g node indices = Some node' ->
  Pruned node node'
  /\ forall i, isIndex i -> IndexField.test indices i = true ->
       IndexField.test (leaf node') i = true.
Proof.
  unfold deleteBody. intros Hrun.
  destruct (IndexField.none (IndexField.inter indices (IndexField.compl (leaf node)))) eqn:Hnone.
  - injection Hrun as <-. split; [apply Pruned_refl|].
    intros i Hi Ht. rewrite none_spec in Hnone. specialize (Hnone i Hi).
    rewrite test_inter, test_compl, Ht in Hnone by exact Hi.
    destruct (IndexField.test (leaf node) i); [reflexivity|discriminate].
  - cbv zeta in Hrun.
    destruct (forChildren _ g _) as [node1|] eqn:Hfc; cbn [mbind option_bind] in Hrun;
      [|discriminate].
    destruct (forChildren_spec _ _ _ _ Hfc) as (Hb & Hl & _ & _ & Hrest). nsimpl.
    assert (Hl' : leaf node' = IndexField.union (leaf node) indices).
    { injection Hrun as <-. destruct (IndexField.all (leaf node1)); [destruct prune|]; exact Hl. }
    assert (Hb' : base node' = base node).
    { injection Hrun as <-. destruct (IndexField.all (leaf node1)); [destruct prune|]; exact Hb. }
    split; [split; [exact Hb'|]|].
    + intros i Hi Hp. unfold isParentSlot in Hp. rewrite Hl', test_union in Hp.
      apply orb_false_iff in Hp. destruct Hp as [Hpl Hpi].
      split; [exact Hpl|].
      assert (Hg1 : getChild node1 i = getChild node i).
      { rewrite Hrest; [reflexivity|apply Hi|]. intros _. rewrite test_inter, Hpi. reflexivity. }
      injection Hrun as <-. destruct (IndexField.all (leaf node1)) eqn:Hall; [|exact Hg1].
      rewrite all_spec in Hall. specialize (Hall i Hi).
      rewrite Hl, test_union, Hpl, Hpi in Hall. discriminate.
    + intros i Hi Ht. rewrite Hl', test_union, Ht. apply orb_true_r.
Qed.

Lemma deleteChildren_spec prune d (node node' : Inner d) indices :
  deleteChildren prune d node indices = Some node' ->
  Pruned node node'
  /\ forall i, isIndex i -> IndexField.test indices i = true ->
       IndexField.test (leaf node') i = true.
Proof.
  destruct d as [|d].
  - rewrite deleteChildren_O. apply deleteBody_spec.
  - rewrite deleteChildren_S. apply deleteBody_spec.
Qed.

Lemma deleteBody_total {C} prune (g : C -> option C) (node : InnerNode Data C) indices :
  (forall i, isIndex i -> isParentSlot node i ->
     exists c c', getChild node i = Some c /\ g c = Some c') ->
  exists node', deleteBody prune g node indices = Some node'.
Proof.
  intros Hg. unfold deleteBody.
  destruct (IndexField.none _); [eauto|]. cbv zeta.
  destruct (forChildren_total g (IndexField.inter indices (IndexField.compl (leaf node)))
              (withLeafField node (IndexField.union (leaf node) indices))) as (node1 & Hr).
  - intros j Hj Ht. rewrite test_inter, test_compl in Ht by exact Hj.
    apply andb_prop in Ht. destruct Ht as [_ Ht]. apply negb_true_iff in Ht.
    rewrite getChild_withLeafField. apply Hg; assumption.
  - rewrite Hr. cbn [mbind option_bind]. eauto.
Qed.

Lemma deleteChildren_total prune : forall d (node : Inner d) indices,
  WF (S d) node -> exists node', deleteChildren prune d node indices = Some node'.
Proof.
  induction d as [|d IH]; intros node indices Hwf; rewrite WF_S in Hwf.
  - rewrite deleteChildren_O. apply deleteBody_total.
    intros i Hi Hp. destruct (Hwf i Hi Hp) as (c & Hc & _). eauto.
  - rewrite deleteChildren_S. apply deleteBody_total.
    intros i Hi Hp. destruct (Hwf i Hi Hp) as (c & Hc & Hwc). norm_nodes.
    destruct (IH c (IndexField.compl (leaf c)) Hwc) as (c' & Hc').
    exists c. eexists. split; [exact Hc|]. unfold deleteChild.
    rewrite Hc'. reflexivity.
Qed.

(** *** [isCollapsible] and [prune] *)

Lemma isCollapsible_total d (node : Inner d) indices :
  (forall i, isIndex i -> IndexField.test indices i = true ->
     exists c, getChild node i = Some c) ->
  exists r, isCollapsible d node indices = Some r.
Proof.
  intros Hc. unfold isCollapsible, forIndices.
  destruct (forIndicesOn_total (fun _ : IndexField.t => True) IndexField.indices indices
              (fun i collapsible =>
                 c ← getChild node i;
                 Some (IndexField.assign collapsible i (collapsibleAt d c))))
    with (s := IndexField.empty) as (r & Hr & _).
  - intros i s Hin Ht _. apply In_indices in Hin. destruct (Hc i Hin Ht) as (c & Hgc).
    rewrite Hgc. cbn [mbind option_bind]. eauto.
  - exact I.
  - eauto.
Qed.

Lemma prune_spec ap d (node node' : Inner d) indices :
  prune ap d node indices = Some node' -> Pruned node node'.
Proof.
  unfold prune. intros Hrun.
  destruct (isCollapsible d node indices) as [r|]; cbn [mbind option_bind] in Hrun;
    [|discriminate].
  destruct (IndexField.any r).
  - apply deleteChildren_spec in Hrun. apply Hrun.
  - injection Hrun as <-. apply Pruned_refl.
Qed.

Lemma prune_total ap d (node : Inner d) indices :
  WF (S d) node ->
  (forall i, isIndex i -> IndexField.test indices i = true -> isParentSlot node i) ->
  exists node', prune ap d node indices = Some node'.
Proof.
  intros Hwf Hsub. unfold prune.
  destruct (isCollapsible_total d node indices) as (r & Hr).
  - intros i Hi Ht. rewrite WF_S in Hwf. destruct (Hwf i Hi (Hsub i Hi Ht)) as (c & Hc & _).
    eauto.
  - rewrite Hr. cbn [mbind option_bind].
    destruct (IndexField.any r); [apply deleteChildren_total, Hwf|eauto].
Qed.

End PruneFacts.

(** * Propagation *)

Section PropagateFacts.

Context {Data : Type} `{Payload Data}.

Local Abbreviation Leaf := (LeafNode Data).
Local Abbreviation Inner d := (InnerNode Data (NodeAt Data d)).

(** *** [updateNode] *)

Lemma updateNode_unfold ap d (node : Inner d) indices :
  updateNode ap d node indices
  = node1 ← forIndicesOn IndexField.indices indices (updateStep d) node;
    prune ap d node1 indices.
Proof. reflexivity. Qed.

Lemma updateLoop_spec d (node node1 : Inner d) indices :
  forIndicesOn IndexField.indices indices (updateStep d) node = Some node1 ->
  leaf node1 = leaf node /\ children node1 = children node
  /\ modified (base node1) = modified (base node)
  /\ (UpdateSlotwise ->
      forall j c, isIndex j -> getChild node j = Some c ->
        IndexField.test indices j = true \/ Aggregated d node j c ->
        Aggregated d node1 j c).
Proof.
  intros Hrun.
  destruct (forIndicesOn_establish
              (fun s : Inner d => leaf s = leaf node /\ children s = children node
                                  /\ modified (base s) = modified (base node))
              (fun j (s : Inner d) =>
                 UpdateSlotwise -> isIndex j ->
                 forall c, getChild node j = Some c -> Aggregated d s j c)
              IndexField.indices indices (updateStep d) NoDup_indices) with (s := node) (s' := node1)
    as [(Hl & Hc & Hm) HP]; try assumption; [|auto|].
  - intros i s s1 Hin Ht (Hl & Hc & Hm) Hstep. unfold updateStep in Hstep.
    destruct (getChild s i) as [ci|] eqn:Hci; cbn [mbind option_bind] in Hstep; [|discriminate].
    injection Hstep as <-. nsimpl. split; [auto|]. split.
    + intros [U1 _] Hi c Hgc. unfold Aggregated. nsimpl.
      assert (ci = c) as ->.
      { unfold getChild in Hci, Hgc. rewrite Hc in Hci. congruence. }
      symmetry. apply U1, Hi.
    + intros j Hne Hj [U1 U2] Hj' c Hgc. specialize (Hj (conj U1 U2) Hj' c Hgc).
      unfold Aggregated in *. nsimpl.
      rewrite U2; [|apply In_indices; exact Hin|exact Hj'|congruence].
      rewrite <- Hj. reflexivity.
  - split; [exact Hl|]. split; [exact Hc|]. split; [exact Hm|].
    intros HU j c Hj Hgc Hor. apply HP; try assumption.
    destruct Hor as [Ht|Hag]; [left; split; [apply In_indices, Hj|exact Ht]|].
    right. intros _ _ c' Hgc'. rewrite Hgc in Hgc'. injection Hgc' as <-. exact Hag.
Qed.

Lemma updateNode_spec ap d (node node' : Inner d) indices :
  updateNode ap d node indices = Some node' ->
  modified (base node') = modified (base node)
  /\ (forall i, isIndex i -> isParentSlot node' i ->
        isParentSlot node i /\ getChild node' i = getChild node i)
  /\ (UpdateSlotwise ->
      forall j c, isIndex j -> getChild node j = Some c ->
        IndexField.test indices j = true \/ Aggregated d node j c ->
        Aggregated d node' j c).
Proof.
  rewrite updateNode_unfold. intros Hrun.
  destruct (forIndicesOn _ _ _ _) as [node1|] eqn:Hloop; cbn [mbind option_bind] in Hrun;
    [|discriminate].
  destruct (updateLoop_spec d node node1 indices Hloop) as (Hl & Hc & Hm & Hag).
  destruct (prune_spec ap d node1 node' indices Hrun) as [Hb Hp].
  split; [rewrite Hb; exact Hm|]. split.
  - intros i Hi Hp'. destruct (Hp i Hi Hp') as [Hp1 Hg1].
    split; [unfold isParentSlot in *; rewrite <- Hl; exact Hp1|].
    rewrite Hg1. unfold getChild. rewrite Hc. reflexivity.
  - intros HU j c Hj Hgc Hor. unfold Aggregated. rewrite Hb. apply Hag; assumption.
Qed.

Lemma updateNode_total ap d (node : Inner d) indices :
  WF (S d) node ->
  (forall i, isIndex i -> IndexField.test indices i = true -> isParentSlot node i) ->
  exists node', updateNode ap d node indices = Some node'.
Proof.
  intros Hwf Hsub. rewrite updateNode_unfold.
  destruct (forIndicesOn_total
              (fun s : Inner d => leaf s = leaf node /\ children s = children node)
              IndexField.indices indices (updateStep d)) with (s := node) as (node1 & Hr & Hl & Hc).
  - intros i s Hin Ht [Hl Hc]. apply In_indices in Hin.
    pose proof Hwf as Hwf'. rewrite WF_S in Hwf'.
    destruct (Hwf' i Hin (Hsub i Hin Ht)) as (c & Hgc & _).
    unfold updateStep. unfold getChild in *. rewrite Hc, Hgc. cbn [mbind option_bind].
    eexists. split; [reflexivity|]. nsimpl. auto.
  - auto.
  - rewrite Hr. cbn [mbind option_bind]. apply prune_total.
    + eapply WF_weaken; [exact Hl| |exact Hwf].
      intros i _ _. unfold getChild. rewrite Hc. reflexivity.
    + intros i Hi Ht. unfold isParentSlot. rewrite Hl. apply Hsub; assumption.
Qed.

(** *** The invariant through one level of propagation *)

Lemma Processed_Inv pay d sel (node node1 : Inner d) :
  (forall j, isIndex j -> IndexField.test sel j = true ->
     IndexField.test (modified (base node)) j = true) ->
  Inv pay (S d) node -> Processed pay d sel node node1 -> Inv pay (S d) node1.
Proof.
  intros Hsel Hn (Hb & Hl & Hp & Hrest). rewrite Inv_S in *. intros i Hi Hpi.
  assert (Hpn : isParentSlot node i) by (unfold isParentSlot in *; rewrite <- Hl; exact Hpi).
  destruct (IndexField.test sel i) eqn:Hs.
  - destruct (Hp i Hi Hs Hpn) as (c' & Hg & Hc'). exists c'.
    split; [exact Hg|]. split; [exact Hc'|].
    intros Hu. rewrite Hb, Hsel in Hu by assumption. discriminate.
  - destruct (Hn i Hi Hpn) as (c & Hg & Hc & Hu). exists c.
    split; [rewrite Hrest by assumption; exact Hg|]. split; [exact Hc|].
    rewrite Hb. unfold Aggregated in *. rewrite Hb. exact Hu.
Qed.

(** After [updateNode] on the selected slots the modified field may be
    replaced by any field [m'] that clears only bits of selected slots whose
    new children are clean. *)
Lemma finish_Inv pay ap d sel (node node1 node2 : Inner d) m' :
  (pay = true -> UpdateSlotwise) ->
  (forall j, isIndex j -> IndexField.test sel j = true ->
     IndexField.test (modified (base node)) j = true) ->
  Inv pay (S d) node -> Processed pay d sel node node1 ->
  updateNode ap d node1 sel = Some node2 ->
  (forall i, isIndex i -> isParentSlot node i -> IndexField.test m' i = false ->
     IndexField.test (modified (base node)) i = true ->
     IndexField.test sel i = true
     /\ forall c', getChild node1 i = Some c' -> Clean d c') ->
  Inv pay (S d) (markAllInner node2 m').
Proof.
  intros HU Hsel Hn (Hb & Hl & Hp & Hrest) Hup Hm'.
  destruct (updateNode_spec ap d node1 node2 sel Hup) as (Hm2 & Hp2 & Hag2).
  rewrite Inv_S in *. intros i Hi Hpi. rewrite isParentSlot_markAllInner in Hpi.
  rewrite getChild_markAllInner.
  destruct (Hp2 i Hi Hpi) as [Hp1 Hg2].
  assert (Hpn : isParentSlot node i) by (unfold isParentSlot in *; rewrite <- Hl; exact Hp1).
  destruct (Hn i Hi Hpn) as (c & Hg & Hc & Hu).
  destruct (IndexField.test sel i) eqn:Hs.
  - destruct (Hp i Hi Hs Hpn) as (c' & Hg' & Hc'). exists c'.
    split; [rewrite Hg2; exact Hg'|]. split; [exact Hc'|].
    intros Hu'. nsimpl.
    destruct (Hm' i Hi Hpn Hu' (Hsel i Hi Hs)) as [_ Hcl].
    split; [apply Hcl, Hg'|].
    intros Hpay. unfold Aggregated. nsimpl.
    apply (Hag2 (HU Hpay) i c' Hi Hg'). left. exact Hs.
  - exists c. split; [rewrite Hg2, Hrest by assumption; exact Hg|]. split; [exact Hc|].
    intros Hu'. nsimpl.
    destruct (IndexField.test (modified (base node)) i) eqn:Hmi.
    + destruct (Hm' i Hi Hpn Hu' Hmi) as [Hs' _]. congruence.
    + destruct (Hu eq_refl) as [Hcl Hag]. split; [exact Hcl|].
      intros Hpay. unfold Aggregated. nsimpl.
      apply (Hag2 (HU Hpay) i c Hi); [rewrite Hrest by assumption; exact Hg|].
      right. unfold Aggregated in *. rewrite Hb. apply Hag, Hpay.
Qed.

Lemma markAllInner_same pay d (n : Inner d) :
  Inv pay (S d) (markAllInner n (modified (base n))) -> Inv pay (S d) n.
Proof. apply Inv_weaken; try reflexivity. intros i _ Hm. exact Hm. Qed.

(** Resetting the modified field of a node whose children are clean. *)
Lemma Clean_markAllInner d (n : Inner d) :
  (forall i c, isIndex i -> isParentSlot n i -> getChild n i = Some c -> Clean d c) ->
  Clean (S d) (markAllInner n IndexField.empty).
Proof.
  intros Hc. rewrite Clean_S. split.
  - intros i Hi. nsimpl. apply test_empty.
  - intros i c Hi Hp Hg. rewrite isParentSlot_markAllInner in Hp.
    rewrite getChild_markAllInner in Hg. eapply Hc; eassumption.
Qed.

(** [propagateFinish] after the children of the modified parents have been
    propagated. *)
Lemma propagateFinish_Inv pay ap keep max_depth d (node node1 node' : Inner d) :
  (pay = true -> UpdateSlotwise) ->
  Inv pay (S d) node ->
  let mp := IndexField.inter (modified (base node)) (IndexField.compl (leaf node)) in
  Processed pay d mp node node1 ->
  (keep = false -> (S d <= max_depth)%nat ->
     forall j c', isIndex j -> IndexField.test mp j = true -> getChild node1 j = Some c' ->
       Clean d c') ->
  propagateFinish ap keep max_depth d node1 mp = Some node' ->
  Inv pay (S d) node'
  /\ (keep = false -> (S d <= max_depth)%nat -> Clean (S d) node').
Proof.
  intros HU Hn mp Hproc Hcl Hrun.
  assert (Hsel : forall j, isIndex j -> IndexField.test mp j = true ->
            IndexField.test (modified (base node)) j = true).
  { intros j Hj Ht. unfold mp in Ht. rewrite test_inter in Ht.
    apply andb_prop in Ht. apply Ht. }
  assert (Hmp : forall j, isIndex j -> isParentSlot node j ->
            IndexField.test mp j = IndexField.test (modified (base node)) j).
  { intros j Hj Hpj. unfold mp. rewrite test_inter, test_compl by exact Hj.
    unfold isParentSlot in Hpj. rewrite Hpj. apply andb_true_r. }
  unfold propagateFinish in Hrun.
  destruct (Nat.leb_spec (S d) max_depth) as [Hle|Hgt].
  - destruct (updateNode ap d node1 mp) as [node2|] eqn:Hup;
      cbn [mbind option_bind] in Hrun; [|discriminate].
    destruct (updateNode_spec ap d node1 node2 mp Hup) as (Hm2 & Hp2 & _).
    destruct Hproc as (Hb & Hl & Hp & Hrest).
    destruct keep; injection Hrun as <-.
    + split; [|discriminate]. apply markAllInner_same.
      eapply finish_Inv; try eassumption; [repeat split; assumption|].
      intros i Hi Hpi Hu Hmi. rewrite Hm2, Hb in Hu. congruence.
    + split.
      * eapply finish_Inv; try eassumption; [repeat split; assumption|].
        intros i Hi Hpi _ Hmi. split; [rewrite Hmp; assumption|].
        intros c' Hg. eapply Hcl; try eassumption; try reflexivity.
        rewrite Hmp; assumption.
      * intros _ _. apply Clean_markAllInner. intros i c Hi Hpi Hg.
        destruct (Hp2 i Hi Hpi) as [Hp1 Hg2].
        assert (Hpn : isParentSlot node i)
          by (unfold isParentSlot in *; rewrite <- Hl; exact Hp1).
        rewrite Hg2 in Hg.
        destruct (IndexField.test mp i) eqn:Hs.
        -- eapply Hcl; try eassumption; reflexivity.
        -- rewrite Hrest in Hg by assumption. rewrite Inv_S in Hn.
           destruct (Hn i Hi Hpn) as (c0 & Hg0 & _ & Hu).
           rewrite Hg in Hg0. injection Hg0 as <-.
           apply Hu. rewrite <- Hmp; assumption.
  - injection Hrun as <-. split; [eapply Processed_Inv; eassumption|].
    intros _ Hle. lia.
Qed.

(** Nothing to propagate below this node. *)
Lemma propagateNone_Inv pay d (node : Inner d) (reset : bool) :
  Inv pay (S d) node ->
  IndexField.none (IndexField.inter (modified (base node)) (IndexField.compl (leaf node)))
  = true ->
  Inv pay (S d) (if reset then markAllInner node IndexField.empty else node)
  /\ (reset = true -> Clean (S d) (markAllInner node IndexField.empty)).
Proof.
  intros Hn Hnone. rewrite none_spec in Hnone.
  assert (Hun : forall i, isIndex i -> isParentSlot node i ->
            IndexField.test (modified (base node)) i = false).
  { intros i Hi Hp. specialize (Hnone i Hi).
    rewrite test_inter, test_compl in Hnone by exact Hi.
    unfold isParentSlot in Hp. rewrite Hp, andb_true_r in Hnone. exact Hnone. }
  split.
  - destruct reset; [|exact Hn]. rewrite Inv_S in *. intros i Hi Hp.
    destruct (Hn i Hi Hp) as (c & Hg & Hc & Hu). exists c.
    split; [exact Hg|]. split; [exact Hc|]. intros _. apply Hu, Hun; assumption.
  - intros _. apply Clean_markAllInner. intros i c Hi Hp Hg. rewrite Inv_S in Hn.
    destruct (Hn i Hi Hp) as (c0 & Hg0 & _ & Hu). rewrite Hg in Hg0. injection Hg0 as <-.
    apply Hu, Hun; assumption.
Qed.

(** *** [propagateModifiedRecurs] *)

Lemma propagateModifiedRecurs_O ap keep max_depth (node : Inner 0) :
  propagateModifiedRecurs ap keep max_depth 0 node
  = let modified_parent :=
      IndexField.inter (modified (base node)) (IndexField.compl (leaf node)) in
    if IndexField.none modified_parent then
      Some (if negb keep && (1 <=? max_depth)%nat
            then markAllInner node IndexField.empty else node)
    else
      node1 ← (if keep then Some node
               else forChildren modified_parent
                      (fun child : Leaf => Some (setModifiedField child IndexField.empty))
                      node);
      propagateFinish ap keep max_depth 0 node1 modified_parent.
Proof. reflexivity. Qed.

Lemma propagateModifiedRecurs_S ap keep max_depth d (node : Inner (S d)) :
  propagateModifiedRecurs ap keep max_depth (S d) node
  = let modified_parent :=
      IndexField.inter (modified (base node)) (IndexField.compl (leaf node)) in
    if IndexField.none modified_parent then
      Some (if negb keep && (S (S d) <=? max_depth)%nat
            then markAllInner node IndexField.empty else node)
    else
      node1 ← forChildren modified_parent
                (propagateModifiedRecurs ap keep max_depth d) node;
      propagateFinish ap keep max_depth (S d) node1 modified_parent.
Proof. reflexivity. Qed.

Lemma selected_parent {C} (node : InnerNode Data C) j :
  isIndex j ->
  IndexField.test (IndexField.inter (modified (base node)) (IndexField.compl (leaf node))) j
  = true ->
  isParentSlot node j /\ IndexField.test (modified (base node)) j = true.
Proof.
  intros Hj Ht. rewrite test_inter, test_compl in Ht by exact Hj.
  apply andb_prop in Ht. destruct Ht as [Hm Hl]. apply negb_true_iff in Hl. auto.
Qed.

Lemma propagateNone_case pay keep max_depth d (node : Inner d) :
  Inv pay (S d) node ->
  IndexField.none (IndexField.inter (modified (base node)) (IndexField.compl (leaf node)))
  = true ->
  let node' := if negb keep && (S d <=? max_depth)%nat
               then markAllInner node IndexField.empty else node in
  Inv pay (S d) node'
  /\ (keep = false -> (S d <= max_depth)%nat -> Clean (S d) node').
Proof.
  intros Hn Hnone node'.
  destruct (propagateNone_Inv pay d node (negb keep && (S d <=? max_depth)%nat) Hn Hnone)
    as [Hi Hc].
  split; [exact Hi|]. intros -> Hle. subst node'.
  apply Nat.leb_le in Hle. rewrite Hle. cbn [negb andb]. apply Hc.
  rewrite Hle. reflexivity.
Qed.

Lemma propagateModifiedRecurs_Inv pay ap keep max_depth :
  (pay = true -> UpdateSlotwise) ->
  forall d (node node' : Inner d),
  Inv pay (S d) node ->
  propagateModifiedRecurs ap keep max_depth d node = Some node' ->
  Inv pay (S d) node'
  /\ (keep = false -> (S d <= max_depth)%nat -> Clean (S d) node').
Proof.
  intros HU. induction d as [|d IH]; intros node node' Hn Hrun.
  - rewrite propagateModifiedRecurs_O in Hrun. cbv zeta in Hrun.
    set (mp := IndexField.inter (modified (base node)) (IndexField.compl (leaf node))) in *.
    destruct (IndexField.none mp) eqn:Hnone.
    + injection Hrun as <-. apply (propagateNone_case pay keep max_depth 0 node Hn Hnone).
    + destruct keep.
      * cbn [mbind option_bind] in Hrun.
        eapply propagateFinish_Inv; try eassumption; [|discriminate].
        split; [reflexivity|]. split; [reflexivity|]. split; [|reflexivity].
        intros j Hj Ht Hp. rewrite Inv_S in Hn. destruct (Hn j Hj Hp) as (c & Hg & _).
        exists c. split; [exact Hg|exact I].
      * bind_case Hrun node1 Hfc.
        destruct (forChildren_spec _ _ _ _ Hfc) as (Hb & Hl & _ & Hsel & Hrest).
        eapply propagateFinish_Inv; try eassumption.
        -- split; [exact Hb|]. split; [exact Hl|]. split.
           ++ intros j Hj Ht _. destruct (Hsel j Hj Ht) as (c & c' & _ & _ & Hg').
              exists c'. split; [exact Hg'|exact I].
           ++ intros j Hj Ht. apply Hrest; [apply Hj|]. intros _. exact Ht.
        -- intros _ _ j c' Hj Ht Hg'. destruct (Hsel j Hj Ht) as (c & c1 & _ & Hc1 & Hg1).
           norm_nodes. rewrite Hg' in Hg1. injection Hg1 as <-. injection Hc1 as <-.
           rewrite Clean_O. intros i Hi. nsimpl. apply test_empty.
  - rewrite propagateModifiedRecurs_S in Hrun. cbv zeta in Hrun.
    set (mp := IndexField.inter (modified (base node)) (IndexField.compl (leaf node))) in *.
    destruct (IndexField.none mp) eqn:Hnone.
    + injection Hrun as <-. apply (propagateNone_case pay keep max_depth (S d) node Hn Hnone).
    + bind_case Hrun node1 Hfc.
      destruct (forChildren_spec _ _ _ _ Hfc) as (Hb & Hl & _ & Hsel & Hrest).
      assert (Hchild : forall j, isIndex j -> IndexField.test mp j = true ->
                exists c', getChild node1 j = Some c' /\ Inv pay (S d) c'
                  /\ (keep = false -> (S d <= max_depth)%nat -> Clean (S d) c')).
      { intros j Hj Ht. destruct (Hsel j Hj Ht) as (c & c' & Hg & Hc' & Hg').
        destruct (selected_parent node j Hj Ht) as [Hp _].
        pose proof Hn as Hn'. rewrite Inv_S in Hn'.
        destruct (Hn' j Hj Hp) as (c0 & Hg0 & Hc0 & _). norm_nodes.
        rewrite Hg in Hg0. injection Hg0 as <-.
        destruct (IH c c' Hc0 Hc') as [Hi' Hcl']. exists c'. auto. }
      eapply propagateFinish_Inv; try eassumption.
      * split; [exact Hb|]. split; [exact Hl|]. split.
        -- intros j Hj Ht _. destruct (Hchild j Hj Ht) as (c' & Hg' & Hc' & _). eauto.
        -- intros j Hj Ht. apply Hrest; [apply Hj|]. intros _. exact Ht.
      * intros Hk Hle j c' Hj Ht Hg'. destruct (Hchild j Hj Ht) as (c1 & Hg1 & _ & Hcl).
        norm_nodes. rewrite Hg' in Hg1. injection Hg1 as <-. apply Hcl; [exact Hk|lia].
Qed.

(** *** [propagateModified] from the root *)

Lemma propagateModifiedAt_unfold ap keep max_depth d (node : Inner d) index :
  propagateModifiedAt ap keep max_depth d node index
  = if negb (IndexField.test (modified (base node)) index) then Some node
    else
      node1 ← propagateChild ap keep max_depth d node index;
      if (S d <=? max_depth)%nat then
        node2 ← updateNode ap d node1 (IndexField.single index);
        Some (if keep then node2 else markModified node2 index false)
      else Some node1.
Proof. destruct d; reflexivity. Qed.

Lemma propagateChild_spec pay ap keep max_depth d (node node1 : Inner d) index :
  (pay = true -> UpdateSlotwise) ->
  isIndex index ->
  Inv pay (S d) node ->
  propagateChild ap keep max_depth d node index = Some node1 ->
  Processed pay d (IndexField.single index) node node1
  /\ (keep = false -> (S d <= max_depth)%nat -> isParentSlot node index ->
      forall c', getChild node1 index = Some c' -> Clean d c').
Proof.
  intros HU Hi Hn Hrun.
  assert (Hsingle : forall j, isIndex j ->
            IndexField.test (IndexField.single index) j = true -> j = index).
  { intros j Hj Ht. rewrite test_single in Ht by apply Hi. apply Z.eqb_eq in Ht. auto. }
  assert (Hother : forall (c : NodeAt Data d) j, isIndex j ->
            IndexField.test (IndexField.single index) j = false ->
            getChild (setChild node index c) j = getChild node j).
  { intros c j Hj Ht. rewrite test_single in Ht by apply Hi. apply Z.eqb_neq in Ht.
    apply getChild_setChild_ne; [apply Hi|apply Hj|exact Ht]. }
  destruct d as [|d]; cbn [propagateChild] in Hrun.
  - destruct keep.
    + injection Hrun as <-. split; [|discriminate].
      split; [reflexivity|]. split; [reflexivity|]. split; [|reflexivity].
      intros j Hj Ht Hp. rewrite Inv_S in Hn. destruct (Hn j Hj Hp) as (c & Hg & _).
      exists c. split; [exact Hg|exact I].
    + bind_case Hrun c Hg. injection Hrun as <-. split.
      * split; [reflexivity|]. split; [reflexivity|]. split; [|apply Hother].
        intros j Hj Ht _. apply Hsingle in Ht; [subst j|exact Hj].
        eexists. split; [eapply getChild_setChild_eq; exact Hg|exact I].
      * intros _ _ _ c' Hg'. rewrite (getChild_setChild_eq _ _ _ _ Hg) in Hg'.
        injection Hg' as <-. rewrite Clean_O. intros i _. nsimpl. apply test_empty.
  - bind_case Hrun c Hg. bind_case Hrun c' Hrec. injection Hrun as <-. split.
    + split; [reflexivity|]. split; [reflexivity|]. split; [|apply Hother].
      intros j Hj Ht Hp. apply Hsingle in Ht; [subst j|exact Hj].
      rewrite Inv_S in Hn. destruct (Hn index Hi Hp) as (c0 & Hg0 & Hc0 & _).
      norm_nodes. rewrite Hg in Hg0. injection Hg0 as <-.
      destruct (propagateModifiedRecurs_Inv pay ap keep max_depth HU d c c' Hc0 Hrec) as [Hc' _].
      exists c'. split; [eapply getChild_setChild_eq; exact Hg|exact Hc'].
    + intros Hk Hle Hp c1 Hg1. rewrite (getChild_setChild_eq _ _ _ _ Hg) in Hg1.
      injection Hg1 as <-.
      rewrite Inv_S in Hn. destruct (Hn index Hi Hp) as (c0 & Hg0 & Hc0 & _).
      norm_nodes. rewrite Hg in Hg0. injection Hg0 as <-.
      destruct (propagateModifiedRecurs_Inv pay ap keep max_depth HU d c c' Hc0 Hrec) as [_ Hcl].
      apply Hcl; [exact Hk|lia].
Qed.

Lemma propagateModifiedAt_Inv pay ap keep max_depth d (node node' : Inner d) index :
  (pay = true -> UpdateSlotwise) ->
  isIndex index ->
  Inv pay (S d) node ->
  propagateModifiedAt ap keep max_depth d node index = Some node' ->
  Inv pay (S d) node'
  /\ (keep = false -> (S d <= max_depth)%nat -> CleanSlot d node' index).
Proof.
  intros HU Hi Hn Hrun. rewrite propagateModifiedAt_unfold in Hrun.
  destruct (IndexField.test (modified (base node)) index) eqn:Hm; cbn [negb] in Hrun.
  2:{ injection Hrun as <-. split; [exact Hn|]. intros _ _. split; [exact Hm|].
      intros c Hp Hg. rewrite Inv_S in Hn. destruct (Hn index Hi Hp) as (c0 & Hg0 & _ & Hu).
      rewrite Hg in Hg0. injection Hg0 as <-. apply Hu, Hm. }
  bind_case Hrun node1 Hch.
  destruct (propagateChild_spec pay ap keep max_depth d node node1 index HU Hi Hn Hch)
    as [Hproc Hcl].
  assert (Hsel : forall j, isIndex j -> IndexField.test (IndexField.single index) j = true ->
            IndexField.test (modified (base node)) j = true).
  { intros j Hj Ht. rewrite test_single in Ht by apply Hi. apply Z.eqb_eq in Ht.
    subst j. exact Hm. }
  destruct (Nat.leb_spec (S d) max_depth) as [Hle|Hgt].
  2:{ injection Hrun as <-. split; [eapply Processed_Inv; eassumption|]. intros _ ?. lia. }
  bind_case Hrun node2 Hup.
  destruct (updateNode_spec ap d node1 node2 _ Hup) as (Hm2 & Hp2 & _).
  pose proof Hproc as (Hb & Hl & Hp & Hrest).
  destruct keep; injection Hrun as <-.
  - split; [|discriminate]. apply markAllInner_same.
    eapply finish_Inv; try eassumption.
    intros i Hi' Hpi Hu Hmi. rewrite Hm2, Hb in Hu. congruence.
  - change (markModified node2 index false)
      with (markAllInner node2 (IndexField.assign (modified (base node2)) index false)).
    split.
    + eapply finish_Inv; try eassumption.
      intros i Hi' Hpi Hu Hmi. rewrite Hm2, Hb in Hu.
      destruct (Z.eq_dec index i) as [<-|Hne].
      * split; [rewrite test_single by apply Hi; apply Z.eqb_refl|].
        intros c' Hg'. eapply Hcl; try eassumption; reflexivity.
      * rewrite test_assign_ne in Hu by (try apply Hi; exact Hne). congruence.
    + intros _ _. split.
      * nsimpl. apply test_assign_eq, Hi.
      * intros c Hpi Hg. rewrite isParentSlot_markAllInner in Hpi.
        rewrite getChild_markAllInner in Hg.
        destruct (Hp2 index Hi Hpi) as [Hp1 Hg2]. rewrite Hg2 in Hg.
        eapply Hcl; try eassumption; try reflexivity.
        unfold isParentSlot in *. rewrite <- Hl. exact Hp1.
Qed.

End PropagateFacts.

(** * Propagation returns; propagation that keeps the flags *)

Section KeepFacts.

Context {Data : Type} `{Payload Data}.

Local Abbreviation Leaf := (LeafNode Data).
Local Abbreviation Inner d := (InnerNode Data (NodeAt Data d)).

(** *** Propagation returns *)

Lemma propagateFinish_total ap keep max_depth d (node1 : Inner d) mp :
  WF (S d) node1 ->
  (forall i, isIndex i -> IndexField.test mp i = true -> isParentSlot node1 i) ->
  exists node', propagateFinish ap keep max_depth d node1 mp = Some node'.
Proof.
  intros Hwf Hsub. unfold propagateFinish.
  destruct (S d <=? max_depth)%nat; [|eauto].
  destruct (updateNode_total ap d node1 mp Hwf Hsub) as (node2 & ->).
  cbn [mbind option_bind]. eauto.
Qed.

Lemma propagateModifiedRecurs_total pay ap keep max_depth :
  (pay = true -> UpdateSlotwise) ->
  forall d (node : Inner d),
  Inv pay (S d) node ->
  exists node', propagateModifiedRecurs ap keep max_depth d node = Some node'.
Proof.
  intros HU. induction d as [|d IH]; intros node Hn.
  - rewrite propagateModifiedRecurs_O. cbv zeta.
    set (mp := IndexField.inter (modified (base node)) (IndexField.compl (leaf node))).
    destruct (IndexField.none mp); [eauto|].
    assert (Hmp : forall i, isIndex i -> IndexField.test mp i = true -> isParentSlot node i).
    { intros i Hi Ht. apply (selected_parent node i Hi Ht). }
    destruct keep.
    + cbn [mbind option_bind]. apply propagateFinish_total; [eapply Inv_WF; exact Hn|exact Hmp].
    + destruct (forChildren_total
                  (fun child : Leaf => Some (setModifiedField child IndexField.empty)) mp node)
        as (node1 & Hfc).
      { intros j Hj Ht. pose proof Hn as Hn'. rewrite Inv_S in Hn'.
        destruct (Hn' j Hj (Hmp j Hj Ht)) as (c & Hg & _). eauto. }
      rewrite Hfc. cbn [mbind option_bind].
      destruct (forChildren_spec _ _ _ _ Hfc) as (Hb & Hl & _ & Hsel & Hrest).
      apply propagateFinish_total.
      * rewrite WF_S. norm_nodes. intros i Hi Hp.
        assert (Hpn : isParentSlot node i)
          by (unfold isParentSlot in *; rewrite <- Hl; exact Hp).
        destruct (IndexField.test mp i) eqn:Ht.
        -- destruct (Hsel i Hi Ht) as (c & c' & _ & _ & Hg'). exists c'. split; [exact Hg'|exact I].
        -- rewrite Hrest by (try apply Hi; intros _; exact Ht).
           pose proof Hn as Hn'. rewrite Inv_S in Hn'.
           destruct (Hn' i Hi Hpn) as (c & Hg & _). exists c. split; [exact Hg|exact I].
      * intros i Hi Ht. unfold isParentSlot. norm_nodes. rewrite Hl. apply Hmp; assumption.
  - rewrite propagateModifiedRecurs_S. cbv zeta.
    set (mp := IndexField.inter (modified (base node)) (IndexField.compl (leaf node))).
    destruct (IndexField.none mp); [eauto|].
    assert (Hmp : forall i, isIndex i -> IndexField.test mp i = true -> isParentSlot node i).
    { intros i Hi Ht. apply (selected_parent node i Hi Ht). }
    destruct (forChildren_total (propagateModifiedRecurs ap keep max_depth d) mp node)
      as (node1 & Hfc).
    { intros j Hj Ht. pose proof Hn as Hn'. rewrite Inv_S in Hn'.
      destruct (Hn' j Hj (Hmp j Hj Ht)) as (c & Hg & Hc & _). norm_nodes.
      destruct (IH c Hc) as (c' & Hc'). eauto. }
    rewrite Hfc. cbn [mbind option_bind].
    destruct (forChildren_spec _ _ _ _ Hfc) as (Hb & Hl & _ & Hsel & Hrest).
    apply propagateFinish_total.
    + apply (Inv_WF pay (S (S d))).
      apply (Processed_Inv pay (S d) mp node node1); [|exact Hn|].
      * intros j Hj Ht. apply (selected_parent node j Hj Ht).
      * split; [exact Hb|]. split; [exact Hl|]. split.
        -- intros j Hj Ht Hp. destruct (Hsel j Hj Ht) as (c & c' & Hg & Hc' & Hg').
           pose proof Hn as Hn'. rewrite Inv_S in Hn'.
           destruct (Hn' j Hj Hp) as (c0 & Hg0 & Hc0 & _). norm_nodes.
           rewrite Hg in Hg0. injection Hg0 as <-.
           destruct (propagateModifiedRecurs_Inv pay ap keep max_depth HU d c c' Hc0 Hc')
             as [Hi' _].
           exists c'. split; [exact Hg'|exact Hi'].
        -- intros j Hj Ht. apply Hrest; [apply Hj|]. intros _. exact Ht.
    + intros i Hi Ht. unfold isParentSlot. norm_nodes. rewrite Hl. apply Hmp; assumption.
Qed.

Lemma propagateModifiedAt_total pay ap keep max_depth d (node : Inner d) index :
  (pay = true -> UpdateSlotwise) ->
  isIndex index ->
  Inv pay (S d) node ->
  (IndexField.test (modified (base node)) index = true -> isParentSlot node index) ->
  exists node', propagateModifiedAt ap keep max_depth d node index = Some node'.
Proof.
  intros HU Hi Hn Hroot. rewrite propagateModifiedAt_unfold.
  destruct (IndexField.test (modified (base node)) index) eqn:Hm; cbn [negb]; [|eauto].
  specialize (Hroot eq_refl).
  pose proof Hn as Hn'. rewrite Inv_S in Hn'.
  destruct (Hn' index Hi Hroot) as (c & Hg & Hc & _).
  assert (Hch : exists node1, propagateChild ap keep max_depth d node index = Some node1).
  { destruct d as [|d]; cbn [propagateChild].
    - destruct keep; [eauto|]. rewrite Hg. cbn [mbind option_bind]. eauto.
    - norm_nodes. rewrite Hg. cbn [mbind option_bind].
      destruct (propagateModifiedRecurs_total pay ap keep max_depth HU d c Hc) as (c' & ->).
      cbn [mbind option_bind]. eauto. }
  destruct Hch as (node1 & Hch). rewrite Hch. cbn [mbind option_bind].
  destruct (propagateChild_spec pay ap keep max_depth d node node1 index HU Hi Hn Hch)
    as [Hproc _].
  destruct (S d <=? max_depth)%nat; [|eauto].
  destruct (updateNode_total ap d node1 (IndexField.single index)) as (node2 & ->).
  - apply (Inv_WF pay (S d)). eapply Processed_Inv; [|exact Hn|exact Hproc].
    intros j Hj Ht. rewrite test_single in Ht by apply Hi. apply Z.eqb_eq in Ht.
    subst j. exact Hm.
  - intros i Hi' Ht. rewrite test_single in Ht by apply Hi. apply Z.eqb_eq in Ht. subst i.
    destruct Hproc as (_ & Hl & _). unfold isParentSlot. rewrite Hl. exact Hroot.
  - cbn [mbind option_bind]. eauto.
Qed.

(** *** Propagation that keeps the modified bits *)

Lemma SameModified_S d (n n' : Inner d) :
  SameModified (S d) n n' <->
  modified (base n') = modified (base n)
  /\ forall i (c' : NodeAt Data d), isIndex i -> isParentSlot n' i -> getChild n' i = Some c' ->
     isParentSlot n i /\ exists c, getChild n i = Some c /\ SameModified d c c'.
Proof. reflexivity. Qed.

Lemma SameModified_refl : forall d (n : NodeAt Data d), SameModified d n n.
Proof.
  induction d as [|d IH]; intros n; [reflexivity|].
  rewrite SameModified_S. split; [reflexivity|]. intros i c' Hi Hp Hg. eauto.
Qed.

Lemma SameModified_asLeaf d (n n' : NodeAt Data d) :
  SameModified d n n' -> modified (asLeaf d n') = modified (asLeaf d n).
Proof. destruct d; [intros Hs; exact Hs|intros [Hs _]; exact Hs]. Qed.

Lemma slotModified_nil d (n : NodeAt Data d) : slotModified d [] n = None.
Proof. destruct d; reflexivity. Qed.

Lemma slotModified_single d i (n : NodeAt Data d) :
  slotModified d [i] n
  = if (0 <=? i) && (i <? 8) then Some (IndexField.test (modified (asLeaf d n)) i) else None.
Proof. destruct d; reflexivity. Qed.

Lemma slotModified_O i j p (n : Leaf) : slotModified 0 (i :: j :: p) n = None.
Proof. reflexivity. Qed.

Lemma slotModified_cons d i j p (n : Inner d) :
  slotModified (S d) (i :: j :: p) n
  = if (0 <=? i) && (i <? 8) && negb (IndexField.test (leaf n) i)
    then c ← getChild n i; slotModified d (j :: p) c
    else None.
Proof. reflexivity. Qed.

(** A slot reached in the tree: its index path is in range and runs through
    parent slots. *)
Lemma slotModified_cons_inv d i j p (n : Inner d) b :
  slotModified (S d) (i :: j :: p) n = Some b ->
  isIndex i /\ isParentSlot n i
  /\ exists c, getChild n i = Some c /\ slotModified d (j :: p) c = Some b.
Proof.
  rewrite slotModified_cons. intros Hs.
  destruct (Z.leb_spec 0 i); [|discriminate].
  destruct (Z.ltb_spec i 8); [|discriminate].
  cbn [andb] in Hs. unfold isParentSlot.
  destruct (IndexField.test (leaf n) i); [discriminate|]. cbn [negb] in Hs.
  destruct (getChild n i) as [c|]; [|discriminate]. cbn [mbind option_bind] in Hs.
  split; [split; assumption|]. split; [reflexivity|]. eauto.
Qed.

Lemma SameModified_slot : forall d (n n' : NodeAt Data d) path b,
  SameModified d n n' ->
  slotModified d path n' = Some b -> slotModified d path n = Some b.
Proof.
  induction d as [|d IH]; intros n n' path b Hs Hslot;
    destruct path as [|i [|j p]];
    try (rewrite slotModified_nil in Hslot; discriminate).
  - rewrite slotModified_single in *. rewrite <- (SameModified_asLeaf 0 n n' Hs). exact Hslot.
  - discriminate.
  - rewrite slotModified_single in *. rewrite <- (SameModified_asLeaf (S d) n n' Hs).
    exact Hslot.
  - destruct (slotModified_cons_inv d i j p n' b Hslot) as (Hi & Hp & c' & Hg' & Hc').
    rewrite SameModified_S in Hs. destruct Hs as [_ Hs].
    destruct (Hs i c' Hi Hp Hg') as (Hpn & c & Hg & Hsc).
    rewrite slotModified_cons. destruct Hi as [Hi0 Hi8].
    apply Z.leb_le in Hi0. apply Z.ltb_lt in Hi8. rewrite Hi0, Hi8.
    unfold isParentSlot in Hpn. rewrite Hpn. cbn [andb negb]. norm_nodes. rewrite Hg.
    cbn [mbind option_bind]. eapply IH; eassumption.
Qed.

(** [updateNode] on a node whose selected children kept their slots. *)
Lemma SameModified_update ap d (node node1 node2 : Inner d) mp :
  modified (base node1) = modified (base node) ->
  leaf node1 = leaf node ->
  (forall i c', isIndex i -> isParentSlot node i -> getChild node1 i = Some c' ->
     exists c, getChild node i = Some c /\ SameModified d c c') ->
  updateNode ap d node1 mp = Some node2 ->
  SameModified (S d) node node2.
Proof.
  intros Hm Hl Hc Hup. destruct (updateNode_spec ap d node1 node2 mp Hup) as (Hm2 & Hp2 & _).
  rewrite SameModified_S. split; [congruence|].
  intros i c' Hi Hp Hg. destruct (Hp2 i Hi Hp) as [Hp1 Hg1].
  assert (Hpn : isParentSlot node i) by (unfold isParentSlot in *; rewrite <- Hl; exact Hp1).
  split; [exact Hpn|]. apply Hc; [exact Hi|exact Hpn|]. rewrite <- Hg1. exact Hg.
Qed.

Lemma SameModified_children d (node node1 : Inner d) :
  modified (base node1) = modified (base node) ->
  leaf node1 = leaf node ->
  (forall i c', isIndex i -> isParentSlot node i -> getChild node1 i = Some c' ->
     exists c, getChild node i = Some c /\ SameModified d c c') ->
  SameModified (S d) node node1.
Proof.
  intros Hm Hl Hc. rewrite SameModified_S. split; [exact Hm|].
  intros i c' Hi Hp Hg.
  assert (Hpn : isParentSlot node i) by (unfold isParentSlot in *; rewrite <- Hl; exact Hp).
  split; [exact Hpn|]. apply Hc; assumption.
Qed.

Lemma propagateFinish_keep ap max_depth d (node node1 node' : Inner d) mp :
  modified (base node1) = modified (base node) ->
  leaf node1 = leaf node ->
  (forall i c', isIndex i -> isParentSlot node i -> getChild node1 i = Some c' ->
     exists c, getChild node i = Some c /\ SameModified d c c') ->
  propagateFinish ap true max_depth d node1 mp = Some node' ->
  SameModified (S d) node node'.
Proof.
  intros Hm Hl Hc Hrun. unfold propagateFinish in Hrun.
  destruct (S d <=? max_depth)%nat.
  - bind_case Hrun node2 Hup. injection Hrun as <-.
    eapply SameModified_update; eassumption.
  - injection Hrun as <-. apply SameModified_children; assumption.
Qed.

Lemma propagateModifiedRecurs_keep ap max_depth : forall d (node node' : Inner d),
  propagateModifiedRecurs ap true max_depth d node = Some node' ->
  SameModified (S d) node node'.
Proof.
  induction d as [|d IH]; intros node node' Hrun.
  - rewrite propagateModifiedRecurs_O in Hrun. cbv zeta in Hrun.
    destruct (IndexField.none _).
    + injection Hrun as <-. apply SameModified_refl.
    + cbn [mbind option_bind] in Hrun.
      eapply propagateFinish_keep; [reflexivity|reflexivity| |exact Hrun].
      intros i c' _ _ Hg. exists c'. split; [exact Hg|reflexivity].
  - rewrite propagateModifiedRecurs_S in Hrun. cbv zeta in Hrun.
    set (mp := IndexField.inter (modified (base node)) (IndexField.compl (leaf node))) in *.
    destruct (IndexField.none mp).
    + injection Hrun as <-. apply (SameModified_refl (S (S d))).
    + bind_case Hrun node1 Hfc.
      destruct (forChildren_spec _ _ _ _ Hfc) as (Hb & Hl & _ & Hsel & Hrest).
      eapply propagateFinish_keep; [exact (f_equal modified Hb)|exact Hl| |exact Hrun].
      intros i c' Hi Hp Hg'. destruct (IndexField.test mp i) eqn:Ht.
      * destruct (Hsel i Hi Ht) as (c & c1 & Hg & Hc1 & Hg1). norm_nodes.
        rewrite Hg' in Hg1. injection Hg1 as <-.
        exists c. split; [exact Hg|]. apply IH. exact Hc1.
      * rewrite Hrest in Hg' by (try apply Hi; intros _; exact Ht).
        exists c'. split; [exact Hg'|apply (SameModified_refl (S d))].
Qed.

Lemma propagateModifiedAt_keep ap max_depth d (node node' : Inner d) index :
  isIndex index ->
  propagateModifiedAt ap true max_depth d node index = Some node' ->
  SameModified (S d) node node'.
Proof.
  intros Hi Hrun. rewrite propagateModifiedAt_unfold in Hrun.
  destruct (negb _).
  { injection Hrun as <-. apply SameModified_refl. }
  bind_case Hrun node1 Hch.
  assert (H1 : modified (base node1) = modified (base node) /\ leaf node1 = leaf node
               /\ forall i c', isIndex i -> isParentSlot node i -> getChild node1 i = Some c' ->
                  exists c, getChild node i = Some c /\ SameModified d c c').
  { destruct d as [|d]; cbn [propagateChild] in Hch.
    - injection Hch as <-. split; [reflexivity|]. split; [reflexivity|].
      intros i c' _ _ Hg. exists c'. split; [exact Hg|reflexivity].
    - bind_case Hch c Hg. bind_case Hch c1 Hrec. injection Hch as <-.
      split; [reflexivity|]. split; [reflexivity|].
      intros i c' Hi' _ Hg'. destruct (Z.eq_dec i index) as [->|Hne].
      + rewrite (getChild_setChild_eq _ _ _ _ Hg) in Hg'. injection Hg' as <-.
        exists c. split; [exact Hg|]. apply propagateModifiedRecurs_keep in Hrec. exact Hrec.
      + rewrite getChild_setChild_ne in Hg' by (try apply Hi; try apply Hi'; congruence).
        exists c'. split; [exact Hg'|apply (SameModified_refl (S d))]. }
  destruct H1 as (Hm & Hl & Hc).
  destruct (S d <=? max_depth)%nat.
  - bind_case Hrun node2 Hup. injection Hrun as <-.
    eapply SameModified_update; eassumption.
  - injection Hrun as <-. apply SameModified_children; assumption.
Qed.

End KeepFacts.

(** * [setModified], [resetModified] and the reachable states *)

Section ModifiedFacts.

Context {Data : Type} `{Payload Data}.

Local Abbreviation Leaf := (LeafNode Data).
Local Abbreviation Inner d := (InnerNode Data (NodeAt Data d)).

(** *** [setModified] *)

(** A node all of whose slots are modified. *)
Lemma Inv_all_modified pay d (n : Inner d) :
  (forall i, isIndex i -> IndexField.test (modified (base n)) i = true) ->
  (forall i, isIndex i -> isParentSlot n i ->
     exists c, getChild n i = Some c /\ Inv pay d c) ->
  Inv pay (S d) n.
Proof.
  intros Hm Hc. rewrite Inv_S. intros i Hi Hp.
  destruct (Hc i Hi Hp) as (c & Hg & Hic). exists c. split; [exact Hg|].
  split; [exact Hic|]. intros Hu. rewrite Hm in Hu by exact Hi. discriminate.
Qed.

Lemma setModifiedRecurs_O min_depth (node : Inner 0) :
  setModifiedRecurs min_depth 0 node
  = let node := markAllInner node IndexField.full in
    if IndexField.all (leaf node) || (1 =? min_depth)%nat then Some node
    else forChildren IndexField.full
           (fun child : Leaf => Some (setModifiedField child IndexField.full)) node.
Proof. reflexivity. Qed.

Lemma setModifiedRecurs_S min_depth d (node : Inner (S d)) :
  setModifiedRecurs min_depth (S d) node
  = let node := markAllInner node IndexField.full in
    if IndexField.all (leaf node) || (S (S d) =? min_depth)%nat then Some node
    else forChildren (IndexField.compl (leaf node)) (setModifiedRecurs min_depth d) node.
Proof. reflexivity. Qed.

Lemma setModifiedRecurs_Inv pay min_depth : forall d (node node' : Inner d),
  Inv pay (S d) node ->
  setModifiedRecurs min_depth d node = Some node' ->
  Inv pay (S d) node'.
Proof.
  induction d as [|d IH]; intros node node' Hn Hrun.
  - rewrite setModifiedRecurs_O in Hrun. cbv zeta in Hrun.
    destruct (_ || _).
    + injection Hrun as <-. apply Inv_all_modified.
      * intros i Hi. nsimpl. apply test_full_index, Hi.
      * intros i Hi Hp. rewrite Inv_S in Hn. destruct (Hn i Hi Hp) as (c & Hg & _).
        exists c. split; [exact Hg|exact I].
    + destruct (forChildren_spec _ _ _ _ Hrun) as (Hb & Hl & _ & Hsel & _).
      apply Inv_all_modified.
      * intros i Hi. norm_nodes. rewrite Hb. nsimpl. apply test_full_index, Hi.
      * intros i Hi _. destruct (Hsel i Hi (test_full_index i Hi)) as (c & c' & _ & _ & Hg').
        exists c'. split; [exact Hg'|exact I].
  - rewrite setModifiedRecurs_S in Hrun. cbv zeta in Hrun.
    destruct (_ || _).
    + injection Hrun as <-. apply Inv_all_modified.
      * intros i Hi. nsimpl. apply test_full_index, Hi.
      * intros i Hi Hp. rewrite Inv_S in Hn. destruct (Hn i Hi Hp) as (c & Hg & Hc & _).
        exists c. split; [exact Hg|exact Hc].
    + destruct (forChildren_spec _ _ _ _ Hrun) as (Hb & Hl & _ & Hsel & _).
      apply Inv_all_modified.
      * intros i Hi. norm_nodes. rewrite Hb. nsimpl. apply test_full_index, Hi.
      * intros i Hi Hp. unfold isParentSlot in Hp. norm_nodes. rewrite Hl in Hp.
        change (isParentSlot node i) in Hp.
        assert (Ht : IndexField.test (IndexField.compl (leaf (markAllInner node IndexField.full))) i
                     = true).
        { rewrite test_compl by exact Hi. nsimpl. unfold isParentSlot in Hp. rewrite Hp.
          reflexivity. }
        destruct (Hsel i Hi Ht) as (c & c' & Hg & Hc' & Hg').
        rewrite getChild_markAllInner in Hg.
        rewrite Inv_S in Hn. destruct (Hn i Hi Hp) as (c0 & Hg0 & Hc0 & _). norm_nodes.
        rewrite Hg in Hg0. injection Hg0 as <-.
        exists c'. split; [exact Hg'|]. eapply IH; eassumption.
Qed.

Lemma setModifiedAt_Inv pay min_depth d (node node' : Inner d) index :
  isIndex index ->
  Inv pay (S d) node ->
  setModifiedAt min_depth d node index = Some node' ->
  Inv pay (S d) node'.
Proof.
  intros Hi Hn Hrun. unfold setModifiedAt in Hrun. cbv zeta in Hrun.
  destruct (Nat.ltb_spec min_depth (S d)) as [Hlt|Hge].
  - destruct (Nat.leb_spec min_depth (S d)) as [_|?]; [|lia].
    assert (Hn1 : Inv pay (S d) (markModified node index true))
      by (apply Inv_markModified_true; [apply Hi|exact Hn]).
    assert (Hm1 : IndexField.test (modified (base (markModified node index true))) index
                  = true) by (nsimpl; apply test_assign_eq, Hi).
    destruct d as [|d].
    + bind_case Hrun c Hg. injection Hrun as <-.
      apply (Inv_setChild pay 0); [apply Hi| |eauto|exact Hn1].
      intros _. split; [exact I|]. intros Hu. destruct (eq_true_false_abs _ Hm1 Hu).
    + bind_case Hrun c Hg. bind_case Hrun c' Hrec. injection Hrun as <-.
      apply (Inv_setChild pay (S d)); [apply Hi| |eauto|exact Hn1].
      intros Hp. split.
      * pose proof Hn1 as Hn1'. rewrite Inv_S in Hn1'.
        destruct (Hn1' index Hi Hp) as (c0 & Hg0 & Hc0 & _). norm_nodes.
        rewrite Hg in Hg0. injection Hg0 as <-.
        eapply setModifiedRecurs_Inv; eassumption.
      * intros Hu. destruct (eq_true_false_abs _ Hm1 Hu).
  - injection Hrun as <-. destruct (min_depth <=? S d)%nat; [|exact Hn].
    apply Inv_markModified_true; [apply Hi|exact Hn].
Qed.

(** *** [resetModified] *)

(** A node all of whose children are clean. *)
Lemma Inv_clean_children d (n : Inner d) :
  (forall i, isIndex i -> isParentSlot n i ->
     exists c, getChild n i = Some c /\ Inv false d c /\ Clean d c) ->
  Inv false (S d) n.
Proof.
  intros Hc. rewrite Inv_S. intros i Hi Hp.
  destruct (Hc i Hi Hp) as (c & Hg & Hic & Hcl). exists c. split; [exact Hg|].
  split; [exact Hic|]. intros _. split; [exact Hcl|discriminate].
Qed.

Lemma Clean_children d (n : Inner d) :
  (forall i, isIndex i -> IndexField.test (modified (base n)) i = false) ->
  (forall i, isIndex i -> isParentSlot n i ->
     exists c, getChild n i = Some c /\ Clean d c) ->
  Clean (S d) n.
Proof.
  intros Hm Hc. rewrite Clean_S. split; [exact Hm|].
  intros i c Hi Hp Hg. destruct (Hc i Hi Hp) as (c0 & Hg0 & Hcl).
  rewrite Hg in Hg0. injection Hg0 as <-. exact Hcl.
Qed.

Lemma resetModifiedRecurs_O max_depth (node : Inner 0) :
  resetModifiedRecurs max_depth 0 node
  = let modified_parents :=
      IndexField.inter (modified (base node)) (IndexField.compl (leaf node)) in
    if IndexField.none modified_parents then
      Some (if (1 <=? max_depth)%nat then markAllInner node IndexField.empty else node)
    else
      node1 ← forChildren IndexField.full
                (fun child : Leaf => Some (setModifiedField child IndexField.empty)) node;
      Some (if (1 <=? max_depth)%nat then markAllInner node1 IndexField.empty else node1).
Proof. reflexivity. Qed.

Lemma resetModifiedRecurs_S max_depth d (node : Inner (S d)) :
  resetModifiedRecurs max_depth (S d) node
  = let modified_parents :=
      IndexField.inter (modified (base node)) (IndexField.compl (leaf node)) in
    if IndexField.none modified_parents then
      Some (if (S (S d) <=? max_depth)%nat
            then markAllInner node IndexField.empty else node)
    else
      node1 ← forChildren modified_parents (resetModifiedRecurs max_depth d) node;
      Some (if (S (S d) <=? max_depth)%nat
            then markAllInner node1 IndexField.empty else node1).
Proof. reflexivity. Qed.

Lemma resetModifiedRecurs_Inv max_depth : forall d (node node' : Inner d),
  Inv false (S d) node ->
  resetModifiedRecurs max_depth d node = Some node' ->
  Inv false (S d) node' /\ ((S d <= max_depth)%nat -> Clean (S d) node').
Proof.
  induction d as [|d IH]; intros node node' Hn Hrun.
  - rewrite resetModifiedRecurs_O in Hrun. cbv zeta in Hrun.
    set (mp := IndexField.inter (modified (base node)) (IndexField.compl (leaf node))) in *.
    destruct (IndexField.none mp) eqn:Hnone.
    + apply (inj Some) in Hrun; subst node'.
      destruct (propagateNone_Inv false 0 node (1 <=? max_depth)%nat Hn Hnone) as [Hi Hc].
      split; [exact Hi|]. intros Hle. apply Nat.leb_le in Hle. rewrite Hle. apply Hc, Hle.
    + bind_case Hrun node1 Hfc. apply (inj Some) in Hrun; subst node'.
      destruct (forChildren_spec _ _ _ _ Hfc) as (Hb & Hl & _ & Hsel & _).
      assert (Hch : forall i, isIndex i ->
                exists c', getChild node1 i = Some c' /\ Inv false 0 c' /\ Clean 0 c').
      { intros i Hi. destruct (Hsel i Hi (test_full_index i Hi)) as (c & c' & _ & Hc' & Hg').
        exists c'. split; [exact Hg'|]. split; [exact I|]. injection Hc' as <-.
        rewrite Clean_O. intros j Hj. nsimpl. apply test_empty. }
      split.
      * destruct (1 <=? max_depth)%nat; apply Inv_clean_children; intros i Hi _; apply Hch, Hi.
      * intros Hle. apply Nat.leb_le in Hle. rewrite Hle. apply Clean_children.
        -- intros i Hi. nsimpl. apply test_empty.
        -- intros i Hi _. destruct (Hch i Hi) as (c' & Hg' & _ & Hcl). eauto.
  - rewrite resetModifiedRecurs_S in Hrun. cbv zeta in Hrun.
    set (mp := IndexField.inter (modified (base node)) (IndexField.compl (leaf node))) in *.
    destruct (IndexField.none mp) eqn:Hnone.
    + apply (inj Some) in Hrun; subst node'.
      destruct (propagateNone_Inv false (S d) node (S (S d) <=? max_depth)%nat Hn Hnone)
        as [Hi Hc].
      split; [exact Hi|]. intros Hle. apply Nat.leb_le in Hle. rewrite Hle. apply Hc, Hle.
    + bind_case Hrun node1 Hfc. apply (inj Some) in Hrun; subst node'.
      destruct (forChildren_spec _ _ _ _ Hfc) as (Hb & Hl & _ & Hsel & Hrest).
      assert (Hch : forall i, isIndex i -> isParentSlot node i ->
                exists c', getChild node1 i = Some c' /\ Inv false (S d) c'
                  /\ ((S d <= max_depth)%nat
                      \/ IndexField.test (modified (base node)) i = false -> Clean (S d) c')).
      { intros i Hi Hp. pose proof Hn as Hn'. rewrite Inv_S in Hn'.
        destruct (Hn' i Hi Hp) as (c0 & Hg0 & Hc0 & Hu). norm_nodes.
        destruct (IndexField.test mp i) eqn:Ht.
        - destruct (Hsel i Hi Ht) as (c & c' & Hg & Hc' & Hg').
          rewrite Hg in Hg0. injection Hg0 as <-.
          destruct (IH c c' Hc0 Hc') as [Hi' Hcl'].
          exists c'. split; [exact Hg'|]. split; [exact Hi'|].
          intros [Hle|Hm]; [apply Hcl', Hle|].
          destruct (selected_parent node i Hi Ht) as [_ Hm']. congruence.
        - rewrite <- Hrest in Hg0 by (try apply Hi; intros _; exact Ht).
          exists c0. split; [exact Hg0|]. split; [exact Hc0|].
          intros _. apply Hu. unfold mp in Ht.
          rewrite test_inter, test_compl in Ht by exact Hi.
          unfold isParentSlot in Hp. rewrite Hp, andb_true_r in Ht. exact Ht. }
      assert (Hpar : forall i, isParentSlot node1 i -> isParentSlot node i).
      { intros i Hp. unfold isParentSlot in *. norm_nodes. rewrite <- Hl. exact Hp. }
      destruct (Nat.leb_spec (S (S d)) max_depth) as [Hle|Hgt].
      * split.
        -- apply Inv_clean_children. intros i Hi Hp.
           rewrite isParentSlot_markAllInner in Hp.
           destruct (Hch i Hi (Hpar i Hp)) as (c' & Hg' & Hi' & Hcl).
           exists c'. split; [exact Hg'|]. split; [exact Hi'|]. apply Hcl. left. lia.
        -- intros _. apply Clean_children.
           ++ intros i Hi. nsimpl. apply test_empty.
           ++ intros i Hi Hp. rewrite isParentSlot_markAllInner in Hp.
              destruct (Hch i Hi (Hpar i Hp)) as (c' & Hg' & _ & Hcl).
              exists c'. split; [exact Hg'|]. apply Hcl. left. lia.
      * split; [|intros ?; lia]. rewrite Inv_S. intros i Hi Hp.
        destruct (Hch i Hi (Hpar i Hp)) as (c' & Hg' & Hi' & Hcl).
        exists c'. split; [exact Hg'|]. split; [exact Hi'|].
        intros Hu. split; [|discriminate]. apply Hcl. right.
        norm_nodes. rewrite Hb in Hu. exact Hu.
Qed.

(** Clearing the modified bit of a slot whose children are clean. *)
Lemma Inv_clear_bit d (n : Inner d) k :
  isIndex k ->
  Inv false (S d) n ->
  (isParentSlot n k -> forall c, getChild n k = Some c -> Clean d c) ->
  Inv false (S d) (markModified n k false).
Proof.
  intros Hk Hn Hc. rewrite Inv_S in *. intros i Hi Hp.
  change (isParentSlot n i) in Hp.
  destruct (Hn i Hi Hp) as (c & Hg & Hic & Hu). exists c. split; [exact Hg|].
  split; [exact Hic|]. intros Hm. split; [|discriminate].
  nsimpl. destruct (Z.eq_dec k i) as [->|Hne].
  - apply Hc; assumption.
  - rewrite test_assign_ne in Hm by (try apply Hk; exact Hne). apply Hu, Hm.
Qed.

Lemma resetModifiedAt_Inv max_depth d (node node' : Inner d) index :
  isIndex index ->
  Inv false (S d) node ->
  resetModifiedAt max_depth d node index = Some node' ->
  Inv false (S d) node'.
Proof.
  intros Hi Hn Hrun. unfold resetModifiedAt in Hrun.
  destruct (IndexField.test (leaf node) index) eqn:Hl; cbn [orb] in Hrun.
  { apply (inj Some) in Hrun; subst node'. destruct (S d <=? max_depth)%nat; [|exact Hn].
    apply Inv_clear_bit; [exact Hi|exact Hn|].
    intros Hp. unfold isParentSlot in Hp. congruence. }
  destruct (IndexField.test (modified (base node)) index) eqn:Hm; cbn [negb] in Hrun.
  2:{ apply (inj Some) in Hrun; subst node'. destruct (S d <=? max_depth)%nat; [|exact Hn].
      apply Inv_clear_bit; [exact Hi|exact Hn|].
      intros Hp c Hg. rewrite Inv_S in Hn. destruct (Hn index Hi Hp) as (c0 & Hg0 & _ & Hu).
      rewrite Hg in Hg0. injection Hg0 as <-. apply Hu, Hm. }
  pose proof Hn as Hn'. rewrite Inv_S in Hn'.
  destruct (Hn' index Hi Hl) as (c0 & Hg0 & Hc0 & _).
  assert (Hstep : exists c', Inv false d c' /\ ((S d <= max_depth)%nat -> Clean d c')
            /\ node' = if (S d <=? max_depth)%nat
                       then markModified (setChild node index c') index false
                       else setChild node index c').
  { destruct d as [|d]; bind_case Hrun node1 Hch; apply (inj Some) in Hrun; subst node'.
    - bind_case Hch c Hg. injection Hch as <-. eexists. split; [exact I|].
      split; [|reflexivity]. intros _. rewrite Clean_O. intros i _. nsimpl. apply test_empty.
    - bind_case Hch c Hg. bind_case Hch c' Hrec. injection Hch as <-.
      injection Hg0 as <-.
      destruct (resetModifiedRecurs_Inv max_depth d c c' Hc0 Hrec) as [Hi' Hcl'].
      exists c'. split; [exact Hi'|]. split; [|reflexivity]. intros Hle. apply Hcl'. lia. }
  destruct Hstep as (c' & Hic' & Hcl' & ->).
  assert (Hn1 : Inv false (S d) (setChild node index c')).
  { apply Inv_setChild; [apply Hi| |eauto|exact Hn].
    intros _. split; [exact Hic'|]. intros Hu. congruence. }
  destruct (Nat.leb_spec (S d) max_depth) as [Hle|Hgt]; [|exact Hn1].
  apply Inv_clear_bit; [exact Hi|exact Hn1|].
  intros _ c Hg. rewrite (getChild_setChild_eq _ _ _ _ Hg0) in Hg. injection Hg as <-.
  apply Hcl', Hle.
Qed.

(** *** The reachable states *)

Lemma initRoot_Inv pay r rootData (node : Inner r) : Inv pay (S r) (initRoot rootData node).
Proof. apply Inv_all_leaf. intros i Hi. cbn [initRoot leaf]. apply test_full_index, Hi. Qed.

Lemma rootIndex_isIndex : isIndex rootIndex.
Proof. unfold isIndex, rootIndex. lia. Qed.

Lemma propagateModified_Inv pay r keep max_depth (m m' : Map r) :
  (pay = true -> UpdateSlotwise) ->
  Inv pay (S r) (root m) ->
  propagateModified keep max_depth m = Some m' ->
  Inv pay (S r) (root m')
  /\ (keep = false -> (S r <= max_depth)%nat -> CleanSlot r (root m') rootIndex).
Proof.
  intros HU Hn Hrun. unfold propagateModified in Hrun.
  bind_case Hrun root' Hr. injection Hrun as <-. cbn [root].
  eapply propagateModifiedAt_Inv; [exact HU|exact rootIndex_isIndex|exact Hn|exact Hr].
Qed.

Lemma apply_Inv pay r (m m' : Map r) code f f2 propagate node :
  (pay = true -> UpdateSlotwise) ->
  (pay = true -> SlotLocal f) ->
  Inv pay (S r) (root m) ->
  apply m code f f2 propagate = Return (node, m') ->
  Inv pay (S r) (root m').
Proof.
  intros HU Hf Hn Hrun. unfold apply in Hrun.
  destruct (Z.of_nat (rootDepth r) <? Code.depth code).
  { injection Hrun as _ <-. exact Hn. }
  destruct (applyAt f f2 code r (root m)) as [[root' depth]|] eqn:Hat;
    cbn [mbind option_bind lift] in Hrun; [|discriminate].
  assert (Hn1 : Inv pay (S r) root') by (eapply applyAt_Inv; eassumption).
  destruct propagate.
  - destruct (propagateModified false maxDepthLevels (mkMap (automatic_prune m) root'))
      as [m1|] eqn:Hp; cbn [mbind option_bind lift] in Hrun; [|discriminate].
    injection Hrun as _ <-.
    eapply (propagateModified_Inv pay r false maxDepthLevels (mkMap (automatic_prune m) root'));
      eassumption.
  - cbn [mbind option_bind lift] in Hrun. injection Hrun as _ <-. exact Hn1.
Qed.

Lemma reachable_Inv pay r (m : Map r) :
  (pay = true -> UpdateSlotwise) ->
  reachable pay m -> Inv pay (S r) (root m).
Proof.
  intros HU Hreach. induction Hreach as
    [ap rootData
    |m _ IH
    |m _ IH
    |m m' rootData prune _ IH Hrun
    |m m' code f f2 propagate node _ IH Hf Hrun
    |m m' keep max_depth _ IH Hrun
    |m m' min_depth _ IH Hrun
    |m m' max_depth _ IH Hpay Hrun].
  - apply initRoot_Inv.
  - exact IH.
  - exact IH.
  - unfold clear in Hrun. bind_case Hrun root' Hd. injection Hrun as <-. apply initRoot_Inv.
  - eapply apply_Inv; eassumption.
  - eapply propagateModified_Inv; eassumption.
  - unfold setModified in Hrun. destruct (min_depth <=? rootDepth r)%nat.
    + bind_case Hrun root' Hs. injection Hrun as <-. cbn [root].
      eapply setModifiedAt_Inv; [exact rootIndex_isIndex|exact IH|exact Hs].
    + injection Hrun as <-. exact IH.
  - subst pay. unfold resetModified in Hrun. bind_case Hrun root' Hs. injection Hrun as <-.
    cbn [root]. eapply resetModifiedAt_Inv; [exact rootIndex_isIndex|exact IH|exact Hs].
Qed.

End ModifiedFacts.

(** * The modified slots after [apply] *)

Lemma comparable_single i k (q : list Z) : comparable [i] (k :: q) <-> i = k.
Proof.
  unfold comparable. split.
  - intros [[t Ht]|[t Ht]]; simpl in Ht; congruence.
  - intros ->. left. exists q. reflexivity.
Qed.

Lemma comparable_cons i (p : list Z) k q :
  comparable (i :: p) (k :: q) <-> i = k /\ comparable p q.
Proof.
  unfold comparable. split.
  - intros [[t Ht]|[t Ht]]; simpl in Ht; injection Ht as -> ->;
      (split; [reflexivity|]); [left|right]; exists t; reflexivity.
  - intros [-> [[t ->]|[t ->]]]; [left|right]; exists t; reflexivity.
Qed.

Lemma comparable_nil_r (p : list Z) : comparable p [].
Proof. right. exists p. reflexivity. Qed.

Section PathFacts.

Context {Data : Type} `{Payload Data}.

Local Abbreviation Leaf := (LeafNode Data).
Local Abbreviation Inner d := (InnerNode Data (NodeAt Data d)).

Lemma slotModified_single_inv d i (n : NodeAt Data d) b :
  slotModified d [i] n = Some b ->
  isIndex i /\ b = IndexField.test (modified (asLeaf d n)) i.
Proof.
  rewrite slotModified_single. intros Hs.
  destruct (Z.leb_spec 0 i); [|discriminate].
  destruct (Z.ltb_spec i 8); [|discriminate].
  cbn [andb] in Hs. injection Hs as <-. split; [split; assumption|reflexivity].
Qed.

Lemma Clean_asLeaf d (n : NodeAt Data d) i :
  Clean d n -> isIndex i -> IndexField.test (modified (asLeaf d n)) i = false.
Proof. destruct d; [intros Hc; apply Hc|intros [Hc _]; apply Hc]. Qed.

Lemma Clean_slot : forall d (n : NodeAt Data d) path b,
  Clean d n -> slotModified d path n = Some b -> b = false.
Proof.
  induction d as [|d IH]; intros n path b Hc Hs; destruct path as [|i [|j p]];
    try (rewrite slotModified_nil in Hs; discriminate).
  - apply slotModified_single_inv in Hs. destruct Hs as [Hi ->].
    apply (Clean_asLeaf 0); assumption.
  - discriminate.
  - apply slotModified_single_inv in Hs. destruct Hs as [Hi ->].
    apply (Clean_asLeaf (S d)); assumption.
  - destruct (slotModified_cons_inv d i j p n b Hs) as (Hi & Hp & c & Hg & Hsc).
    rewrite Clean_S in Hc. destruct Hc as [_ Hc].
    eapply IH; [eapply Hc; eassumption|exact Hsc].
Qed.

Lemma FullyModified_asLeaf d (n : NodeAt Data d) i :
  FullyModified d n -> isIndex i -> IndexField.test (modified (asLeaf d n)) i = true.
Proof. destruct d; [intros Hc; apply Hc|intros [Hc _]; apply Hc]. Qed.

Lemma FullyModified_slot : forall d (n : NodeAt Data d) path b,
  FullyModified d n -> slotModified d path n = Some b -> b = true.
Proof.
  induction d as [|d IH]; intros n path b Hc Hs; destruct path as [|i [|j p]];
    try (rewrite slotModified_nil in Hs; discriminate).
  - apply slotModified_single_inv in Hs. destruct Hs as [Hi ->].
    apply (FullyModified_asLeaf 0); assumption.
  - discriminate.
  - apply slotModified_single_inv in Hs. destruct Hs as [Hi ->].
    apply (FullyModified_asLeaf (S d)); assumption.
  - destruct (slotModified_cons_inv d i j p n b Hs) as (Hi & Hp & c & Hg & Hsc).
    rewrite FullyModified_S in Hc. destruct Hc as [_ Hc].
    destruct (Hc i Hi Hp) as (c0 & Hg0 & Hc0). norm_nodes.
    rewrite Hg in Hg0. injection Hg0 as <-.
    eapply IH; eassumption.
Qed.

(** A block in which slot [k] alone is modified, over clean children except
    below slot [k]. *)
Lemma marked_slot d (res : Inner d) k tp :
  isIndex k ->
  (forall i, isIndex i -> IndexField.test (modified (base res)) i = (k =? i)) ->
  (forall i c, isIndex i -> i <> k -> isParentSlot res i -> getChild res i = Some c ->
     Clean d c) ->
  (forall c, isParentSlot res k -> getChild res k = Some c ->
     forall j p b, slotModified d (j :: p) c = Some b ->
       (b = true <-> comparable (j :: p) tp)) ->
  forall path b, slotModified (S d) path res = Some b ->
    (b = true <-> comparable path (k :: tp)).
Proof.
  intros Hk Hm Hoth Hsub path b Hs. destruct path as [|i [|j p]].
  - discriminate.
  - apply slotModified_single_inv in Hs. destruct Hs as [Hi ->].
    cbn [asLeaf]. rewrite Hm by exact Hi. rewrite comparable_single.
    rewrite Z.eqb_eq. split; congruence.
  - destruct (slotModified_cons_inv d i j p res b Hs) as (Hi & Hp & c & Hg & Hsc).
    rewrite comparable_cons. destruct (Z.eq_dec i k) as [->|Hne].
    + rewrite (Hsub c Hp Hg j p b Hsc). tauto.
    + rewrite (Clean_slot d c (j :: p) b (Hoth i c Hi Hne Hp Hg) Hsc).
      split; [discriminate|]. intros [? _]. contradiction.
Qed.

(** *** Creating children in a clean tree *)

Lemma createChildren_Clean d (node node1 : Inner d) index :
  isIndex index ->
  WF (S d) node -> Clean (S d) node ->
  createChildren d node index = Some node1 ->
  base node1 = base node
  /\ isParentSlot node1 index
  /\ (exists c, getChild node1 index = Some c /\ WF d c /\ Clean d c)
  /\ (forall i c, isIndex i -> i <> index -> isParentSlot node1 i ->
        getChild node1 i = Some c -> Clean d c).
Proof.
  intros Hi Hwf Hcl Hrun. pose proof Hcl as Hcl'. rewrite Clean_S in Hcl'.
  destruct Hcl' as [Hm Hc]. pose proof Hwf as Hwf'. rewrite WF_S in Hwf'.
  destruct (isParentSlot_dec node index) as [Hp|Hp].
  - rewrite createChildren_parent in Hrun by exact Hp. injection Hrun as <-.
    split; [reflexivity|]. split; [exact Hp|]. split.
    + destruct (Hwf' index Hi Hp) as (c & Hg & Hwc). exists c.
      split; [exact Hg|]. split; [exact Hwc|]. eapply Hc; eassumption.
    + intros i c Hi' _ Hpi Hg. eapply Hc; eassumption.
  - apply not_isParentSlot in Hp.
    destruct (createChildren_leaf d node node1 index Hi Hp Hrun)
      as (Hb & Hl & (c0 & Hc0) & Hoth).
    split; [exact Hb|]. split; [|split].
    + unfold isParentSlot. rewrite Hl. apply test_assign_eq, Hi.
    + eexists. split; [exact Hc0|]. split.
      * apply (Inv_WF false). apply fillAt_Inv.
      * apply fillAt_Clean. apply Hm, Hi.
    + intros i c Hi' Hne Hpi Hg.
      assert (Hpn : isParentSlot node i).
      { unfold isParentSlot in *. rewrite Hl in Hpi.
        rewrite test_assign_ne in Hpi by (try apply Hi; congruence). exact Hpi. }
      destruct (Hwf' i Hi' Hpn) as (c1 & Hg1 & _).
      rewrite (Hoth i c1 (proj1 Hi') Hne Hg1) in Hg. injection Hg as <-.
      eapply Hc; eassumption.
Qed.

(** *** The modified slots after [apply] *)

Section ApplyPath.

Variable f : Data -> Z -> Data.
Variable f2 : Data -> Data.
Variable code : Code.t.

Lemma applyTarget_modified d (cur cur' : Inner d) dd :
  WF (S d) cur -> Clean (S d) cur ->
  applyTarget f f2 code d cur = Some (cur', dd) ->
  forall path b, slotModified (S d) path cur' = Some b ->
    (b = true <-> comparable path [Code.index code (Z.of_nat (S d))]).
Proof.
  intros Hwf Hcl Hrun. unfold applyTarget in Hrun.
  set (index := Code.index code (Z.of_nat (S d))) in *.
  assert (Hi : isIndex index) by apply index_range.
  pose proof Hcl as Hcl'. rewrite Clean_S in Hcl'. destruct Hcl' as [Hm Hc].
  assert (Hstep : exists cur1 : Inner d,
            cur' = markModified cur1 index true
            /\ modified (base cur1) = modified (base cur) /\ leaf cur1 = leaf cur
            /\ (isParentSlot cur index ->
                exists c', getChild cur1 index = Some c' /\ FullyModified d c')
            /\ (forall j, isIndex j -> j <> index -> getChild cur1 j = getChild cur j)).
  { destruct (IndexField.test (leaf cur) index) eqn:Hl; cbn [mbind option_bind] in Hrun.
    - injection Hrun as <- _. exists (callFInner f cur index).
      split; [reflexivity|]. split; [reflexivity|]. split; [reflexivity|].
      split; [|reflexivity]. intros Hp. unfold isParentSlot in Hp. congruence.
    - destruct (applyAllRecurs_spec f f2 d cur (IndexField.single index) Hwf)
        as (cur1 & Hr & Hb & Hlf & Hsel & Hrest).
      { intros i Hi' Ht. rewrite test_single in Ht by apply Hi.
        apply Z.eqb_eq in Ht. subst i. exact Hl. }
      rewrite Hr in Hrun. cbn [mbind option_bind] in Hrun. injection Hrun as <- _.
      exists cur1. split; [reflexivity|]. split; [rewrite Hb; reflexivity|].
      split; [exact Hlf|]. split.
      + intros _. apply Hsel; [exact Hi|]. rewrite test_single by apply Hi. apply Z.eqb_refl.
      + intros j Hj Hne. apply Hrest; [apply Hj|]. intros _.
        rewrite test_single by apply Hi. apply Z.eqb_neq. congruence. }
  destruct Hstep as (cur1 & -> & Hm1 & Hl1 & Hsel & Hrest).
  apply marked_slot; [exact Hi| | |].
  - intros i Hi'. nsimpl. rewrite test_assign by apply Hi. rewrite Hm1.
    destruct (index =? i); [reflexivity|apply Hm, Hi'].
  - intros i c Hi' Hne Hp Hg. rewrite getChild_markModified in Hg.
    rewrite Hrest in Hg by assumption.
    eapply Hc; [exact Hi'| |exact Hg]. unfold isParentSlot in *. nsimpl.
    rewrite <- Hl1. exact Hp.
  - intros c Hp Hg j p b Hs. rewrite getChild_markModified in Hg.
    assert (Hpc : isParentSlot cur index)
      by (unfold isParentSlot in *; nsimpl; rewrite <- Hl1; exact Hp).
    destruct (Hsel Hpc) as (c' & Hg' & Hfm). rewrite Hg in Hg'. injection Hg' as <-.
    rewrite (FullyModified_slot d c (j :: p) b Hfm Hs).
    split; [intros _; apply comparable_nil_r|reflexivity].
Qed.

Lemma min_depth_target n :
  (min_depth code =? S (S n))%nat = (Z.of_nat (S (S n)) =? Code.depth code).
Proof.
  unfold min_depth. pose proof (depth_range code) as Hr.
  destruct (Z.eqb_spec (Z.of_nat (S (S n))) (Code.depth code)) as [He|Hne].
  - apply Nat.eqb_eq. lia.
  - apply Nat.eqb_neq. lia.
Qed.

Lemma applyAt_modified : forall d (cur cur' : Inner d) dd,
  WF (S d) cur -> Clean (S d) cur ->
  applyAt f f2 code d cur = Some (cur', dd) ->
  forall path b, slotModified (S d) path cur' = Some b ->
    (b = true <-> comparable path (targetPath code (S d))).
Proof.
  induction d as [|d IH]; intros cur cur' dd Hwf Hcl Hrun.
  - rewrite applyAt_O in Hrun.
    destruct (Nat.eqb_spec (min_depth code) 1) as [Hmin|]; [|discriminate].
    destruct (Z.eqb_spec (Code.depth code) 0) as [Hd0|Hd0].
    + cbv zeta in Hrun.
      change (targetPath code 1)
        with (Code.index code 1 :: (if 1 =? Code.depth code then [] else [Code.index code 0])).
      rewrite Hd0. cbn [Z.eqb Pos.eqb].
      set (index := Code.index code 1) in *.
      assert (Hi : isIndex index) by apply index_range.
      set (ci := Code.index code 0) in *.
      assert (Hci : isIndex ci) by apply index_range.
      bind_case Hrun cur1 Hc1.
      destruct (createChildren_Clean 0 cur cur1 index Hi Hwf Hcl Hc1)
        as (Hb & Hp1 & (c & Hgc & _ & Hcc) & Hoth).
      rewrite getChild_markModified in Hrun. norm_nodes. rewrite Hgc in Hrun.
      cbn [mbind option_bind] in Hrun. injection Hrun as <- _.
      pose proof Hcl as Hcl'. rewrite Clean_S in Hcl'. destruct Hcl' as [Hm _].
      apply (marked_slot 0); [exact Hi| | |].
      * intros i Hi'. rewrite base_setChild. nsimpl. rewrite test_assign by apply Hi.
        rewrite Hb.
        destruct (index =? i); [reflexivity|apply Hm, Hi'].
      * intros i c' Hi' Hne Hp Hg.
        rewrite getChild_setChild_ne in Hg by (try apply Hi; try apply Hi'; congruence).
        rewrite getChild_markModified in Hg. eapply Hoth; eassumption.
      * intros c' _ Hg j p b Hs.
        rewrite (getChild_setChild_eq _ _ _ c) in Hg
          by (rewrite getChild_markModified; exact Hgc).
        injection Hg as <-. destruct p as [|j' p']; [|discriminate].
        apply slotModified_single_inv in Hs. destruct Hs as [Hj ->].
        cbn [asLeaf]. nsimpl.
        change (Z.setbit (modified c) ci) with (IndexField.assign (modified c) ci true).
        rewrite test_assign by apply Hci.
        rewrite comparable_single. rewrite Clean_O in Hcc.
        destruct (Z.eqb_spec ci j) as [->|Hne].
        -- split; reflexivity.
        -- rewrite Hcc by exact Hj. split; [discriminate|congruence].
    + change (targetPath code 1)
        with (Code.index code (Z.of_nat 1)
              :: (if 1 =? Code.depth code then [] else [Code.index code 0])).
      assert (Hd1 : 1 = Code.depth code).
      { unfold min_depth in Hmin. pose proof (depth_range code). lia. }
      rewrite <- Hd1. cbn [Z.eqb Pos.eqb].
      eapply applyTarget_modified; eassumption.
  - rewrite applyAt_S in Hrun. rewrite min_depth_target in Hrun.
    change (targetPath code (S (S d)))
      with (Code.index code (Z.of_nat (S (S d)))
            :: (if Z.of_nat (S (S d)) =? Code.depth code then []
                else targetPath code (S d))).
    destruct (Z.of_nat (S (S d)) =? Code.depth code).
    + eapply applyTarget_modified; eassumption.
    + cbv zeta in Hrun.
      set (index := Code.index code (Z.of_nat (S (S d)))) in *.
      assert (Hi : isIndex index) by apply index_range.
      bind_case Hrun cur1 Hc1.
      destruct (createChildren_Clean (S d) cur cur1 index Hi Hwf Hcl Hc1)
        as (Hb & Hp1 & (c & Hgc & Hwc & Hcc) & Hoth).
      rewrite getChild_markModified in Hrun. norm_nodes. rewrite Hgc in Hrun.
      cbn [mbind option_bind] in Hrun.
      destruct (applyAt f f2 code d c) as [[c' dd']|] eqn:Hrec;
        cbn [mbind option_bind] in Hrun; [|discriminate].
      injection Hrun as <- _.
      pose proof Hcl as Hcl'. rewrite Clean_S in Hcl'. destruct Hcl' as [Hm _].
      apply (marked_slot (S d)); [exact Hi| | |].
      * intros i Hi'. rewrite base_setChild. nsimpl. rewrite test_assign by apply Hi.
        rewrite Hb.
        destruct (index =? i); [reflexivity|apply Hm, Hi'].
      * intros i c0 Hi' Hne Hp Hg.
        rewrite getChild_setChild_ne in Hg by (try apply Hi; try apply Hi'; congruence).
        rewrite getChild_markModified in Hg. eapply Hoth; eassumption.
      * intros c0 _ Hg j p b Hs.
        rewrite (getChild_setChild_eq _ _ _ c) in Hg
          by (rewrite getChild_markModified; exact Hgc).
        injection Hg as <-. eapply IH; eassumption.
Qed.

End ApplyPath.

End PathFacts.

(** * Whole blocks; [apply] returns *)

Section SizedFacts.

Context {Data : Type} `{Payload Data}.

Local Abbreviation Leaf := (LeafNode Data).
Local Abbreviation Inner d := (InnerNode Data (NodeAt Data d)).

Lemma Sized_S d (n : Inner d) : Sized (S d) n <-> SizedBlock (Sized d) n.
Proof. reflexivity. Qed.

Section Block.

Context {C : Type} (P : C -> Prop).

Lemma SizedBlock_children (n n' : InnerNode Data C) :
  children n' = children n -> SizedBlock P n -> SizedBlock P n'.
Proof. unfold SizedBlock. intros ->. auto. Qed.

Lemma SizedBlock_getChild (n : InnerNode Data C) i c :
  SizedBlock P n -> getChild n i = Some c -> P c.
Proof.
  unfold SizedBlock, getChild. destruct (children n) as [l|]; [|discriminate].
  cbn [mbind option_bind]. intros [_ Hall] Hl.
  rewrite List.Forall_forall in Hall. apply Hall.
  eapply list_elem_of_In, list_elem_of_lookup_2. exact Hl.
Qed.

Lemma SizedBlock_getChild_total (n : InnerNode Data C) i :
  SizedBlock P n -> children n <> None -> isIndex i -> exists c, getChild n i = Some c.
Proof.
  unfold SizedBlock, getChild. destruct (children n) as [l|]; [|congruence].
  cbn [mbind option_bind]. intros [Hlen _] _ Hi.
  destruct (lookup_lt_is_Some_2 l (Z.to_nat i)) as [c Hc]; [unfold isIndex in Hi; lia|].
  eauto.
Qed.

Lemma SizedBlock_setChild (n : InnerNode Data C) i c :
  SizedBlock P n -> P c -> SizedBlock P (setChild n i c).
Proof.
  unfold SizedBlock, setChild. cbn [withChildren children].
  destruct (children n) as [l|]; cbn [fmap option_fmap option_map]; [|auto].
  intros [Hlen Hall] Hc. split; [rewrite length_insert; exact Hlen|].
  apply Forall_insert; assumption.
Qed.

Lemma forChildren_Sized sel (g : C -> option C) (n n' : InnerNode Data C) :
  (forall c c', P c -> g c = Some c' -> P c') ->
  SizedBlock P n -> forChildren sel g n = Some n' -> SizedBlock P n'.
Proof.
  intros Hg Hn Hrun. rewrite forChildren_unfold in Hrun.
  eapply (forIndicesOn_preserve (SizedBlock P)); [|exact Hn|exact Hrun].
  intros i s s1 _ _ Hs Hstep. unfold childStep in Hstep.
  destruct (getChild s i) as [c|] eqn:Hc; cbn [mbind option_bind] in Hstep; [|discriminate].
  destruct (g c) as [c'|] eqn:Hgc; cbn [mbind option_bind] in Hstep; [|discriminate].
  injection Hstep as <-. apply SizedBlock_setChild; [exact Hs|].
  eapply Hg; [|exact Hgc]. eapply SizedBlock_getChild; eassumption.
Qed.

(** A loop over the slots that leaves the children in place. *)
Lemma forIndices_Sized sel (body : Z -> InnerNode Data C -> option (InnerNode Data C))
    (n n' : InnerNode Data C) :
  (forall i s s1, body i s = Some s1 -> children s1 = children s) ->
  SizedBlock P n -> forIndices sel body n = Some n' -> SizedBlock P n'.
Proof.
  intros Hbody Hn Hrun. unfold forIndices in Hrun.
  eapply (forIndicesOn_preserve (SizedBlock P)); [|exact Hn|exact Hrun].
  intros i s s1 _ _ Hs Hstep. eapply SizedBlock_children; [|exact Hs].
  eapply Hbody. exact Hstep.
Qed.

Lemma deleteBody_Sized prune (g : C -> option C) (node node' : InnerNode Data C) indices :
  (forall c c', P c -> g c = Some c' -> P c') ->
  SizedBlock P node -> deleteBody prune g node indices = Some node' -> SizedBlock P node'.
Proof.
  intros Hg Hn Hrun. unfold deleteBody in Hrun.
  destruct (IndexField.none _); [injection Hrun as <-; exact Hn|]. cbv zeta in Hrun.
  bind_case Hrun node1 Hfc. injection Hrun as <-.
  assert (H1 : SizedBlock P node1).
  { eapply forChildren_Sized; [exact Hg| |exact Hfc].
    eapply SizedBlock_children; [|exact Hn]. reflexivity. }
  destruct (IndexField.all (leaf node1)); [|exact H1].
  unfold deallocateChildren. destruct prune; [exact I|exact H1].
Qed.

End Block.

Lemma defaultAt_Sized d : Sized d (defaultAt d).
Proof. destruct d; exact I. Qed.

Lemma fillAt_Sized d (c : NodeAt Data d) parent index : Sized d c -> Sized d (fillAt d c parent index).
Proof. destruct d; [intros _; exact I|]. intros Hc. exact Hc. Qed.

Lemma createChildren_Sized d (node node1 : Inner d) index :
  Sized (S d) node -> createChildren d node index = Some node1 -> Sized (S d) node1.
Proof.
  intros Hn Hrun. unfold createChildren in Hrun.
  destruct (IndexField.test (leaf node) index); [|injection Hrun as <-; exact Hn].
  set (node0 := match children node with
                | Some _ => node
                | None => allocateChildren d node
                end) in *.
  assert (H0 : Sized (S d) node0).
  { subst node0. destruct (children node) eqn:Hc; [exact Hn|].
    rewrite Sized_S. unfold SizedBlock, allocateChildren. cbn [withChildren children].
    split; [reflexivity|]. apply List.Forall_forall. intros x Hx.
    apply list_elem_of_In, elem_of_replicate in Hx. destruct Hx as [-> _].
    apply defaultAt_Sized. }
  cbv zeta in Hrun. bind_case Hrun c Hg. injection Hrun as <-.
  rewrite Sized_S in *. eapply SizedBlock_children; [reflexivity|].
  apply SizedBlock_setChild; [exact H0|]. apply fillAt_Sized.
  eapply SizedBlock_getChild; eassumption.
Qed.

Lemma createChildren_total d (node : Inner d) index :
  isIndex index -> Sized (S d) node ->
  exists node1, createChildren d node index = Some node1.
Proof.
  intros Hi Hn. unfold createChildren.
  destruct (IndexField.test (leaf node) index); [|eauto].
  set (node0 := match children node with
                | Some _ => node
                | None => allocateChildren d node
                end).
  assert (H0 : exists c, getChild node0 index = Some c).
  { subst node0. destruct (children node) eqn:Hc.
    - eapply SizedBlock_getChild_total; [exact Hn|congruence|exact Hi].
    - unfold getChild, allocateChildren. cbn [withChildren children mbind option_bind].
      apply lookup_lt_is_Some_2. rewrite length_replicate. unfold isIndex in Hi. lia. }
  destruct H0 as (c & ->). cbn [mbind option_bind]. eauto.
Qed.

(** *** The operations keep the blocks whole *)

Lemma deleteChildren_Sized prune : forall d (node node' : Inner d) indices,
  Sized (S d) node -> deleteChildren prune d node indices = Some node' -> Sized (S d) node'.
Proof.
  induction d as [|d IH]; intros node node' indices Hn Hrun.
  - rewrite deleteChildren_O in Hrun. eapply deleteBody_Sized; [|exact Hn|exact Hrun].
    intros c c' _ _. exact I.
  - rewrite deleteChildren_S in Hrun.
    eapply (deleteBody_Sized (Sized (S d))); [|exact Hn|exact Hrun].
    intros c c' Hc Hg. unfold deleteChild in Hg. bind_case Hg c1 Hd. injection Hg as <-.
    apply (IH c c1 _ Hc) in Hd. exact Hd.
Qed.

Lemma prune_Sized ap d (node node' : Inner d) indices :
  Sized (S d) node -> prune ap d node indices = Some node' -> Sized (S d) node'.
Proof.
  intros Hn Hrun. unfold prune in Hrun. bind_case Hrun r Hr.
  destruct (IndexField.any r); [|injection Hrun as <-; exact Hn].
  eapply deleteChildren_Sized; eassumption.
Qed.

Lemma updateNode_Sized ap d (node node' : Inner d) indices :
  Sized (S d) node -> updateNode ap d node indices = Some node' -> Sized (S d) node'.
Proof.
  intros Hn Hrun. rewrite updateNode_unfold in Hrun. bind_case Hrun node1 Hloop.
  destruct (updateLoop_spec d node node1 indices Hloop) as (_ & Hc & _).
  eapply prune_Sized; [|exact Hrun]. rewrite Sized_S in *.
  eapply SizedBlock_children; [exact Hc|exact Hn].
Qed.

Lemma propagateFinish_Sized ap keep max_depth d (node node' : Inner d) mp :
  Sized (S d) node -> propagateFinish ap keep max_depth d node mp = Some node' ->
  Sized (S d) node'.
Proof.
  intros Hn Hrun. unfold propagateFinish in Hrun.
  destruct (S d <=? max_depth)%nat; [|injection Hrun as <-; exact Hn].
  bind_case Hrun node2 Hup. injection Hrun as <-.
  apply (updateNode_Sized ap d node node2 mp Hn) in Hup. destruct keep; exact Hup.
Qed.

Lemma propagateModifiedRecurs_Sized ap keep max_depth : forall d (node node' : Inner d),
  Sized (S d) node -> propagateModifiedRecurs ap keep max_depth d node = Some node' ->
  Sized (S d) node'.
Proof.
  induction d as [|d IH]; intros node node' Hn Hrun.
  - rewrite propagateModifiedRecurs_O in Hrun. cbv zeta in Hrun.
    destruct (IndexField.none _).
    + apply (inj Some) in Hrun. subst node'. destruct (_ && _); exact Hn.
    + bind_case Hrun node1 Hfc. eapply propagateFinish_Sized; [|exact Hrun].
      destruct keep; [injection Hfc as <-; exact Hn|].
      rewrite Sized_S in *. eapply forChildren_Sized; [|exact Hn|exact Hfc].
      intros c c' _ _. exact I.
  - rewrite propagateModifiedRecurs_S in Hrun. cbv zeta in Hrun.
    destruct (IndexField.none _).
    + apply (inj Some) in Hrun. subst node'. destruct (_ && _); exact Hn.
    + bind_case Hrun node1 Hfc. eapply propagateFinish_Sized; [|exact Hrun].
      rewrite Sized_S in *. eapply forChildren_Sized; [|exact Hn|exact Hfc].
      intros c c' Hc Hg. eapply IH; eassumption.
Qed.

Lemma propagateModifiedAt_Sized ap keep max_depth d (node node' : Inner d) index :
  Sized (S d) node -> propagateModifiedAt ap keep max_depth d node index = Some node' ->
  Sized (S d) node'.
Proof.
  intros Hn Hrun. rewrite propagateModifiedAt_unfold in Hrun.
  destruct (negb _); [injection Hrun as <-; exact Hn|].
  bind_case Hrun node1 Hch.
  assert (H1 : Sized (S d) node1).
  { destruct d as [|d]; cbn [propagateChild] in Hch.
    - destruct keep; [injection Hch as <-; exact Hn|].
      bind_case Hch c Hg. injection Hch as <-.
      apply SizedBlock_setChild; [exact Hn|exact I].
    - bind_case Hch c Hg. bind_case Hch c' Hrec. injection Hch as <-.
      apply (SizedBlock_setChild (Sized (S d))); [exact Hn|].
      eapply propagateModifiedRecurs_Sized; [|exact Hrec].
      eapply (SizedBlock_getChild (Sized (S d))); eassumption. }
  destruct (S d <=? max_depth)%nat; [|injection Hrun as <-; exact H1].
  bind_case Hrun node2 Hup. apply (inj Some) in Hrun. subst node'.
  apply (updateNode_Sized ap d node1 node2 _ H1) in Hup. destruct keep; exact Hup.
Qed.

Section ApplySized.

Variable f : Data -> Z -> Data.
Variable f2 : Data -> Data.
Variable code : Code.t.

Lemma applyAllRecurs_Sized : forall d (node node' : Inner d) indices,
  Sized (S d) node -> applyAllRecurs f f2 d node indices = Some node' -> Sized (S d) node'.
Proof.
  induction d as [|d IH]; intros node node' indices Hn Hrun.
  - rewrite applyAllRecurs_O in Hrun. rewrite Sized_S in *.
    eapply forChildren_Sized; [|exact Hn|exact Hrun]. intros c c' _ _. exact I.
  - rewrite applyAllRecurs_S in Hrun. rewrite Sized_S in *.
    eapply forChildren_Sized; [|exact Hn|exact Hrun].
    intros c c' Hc Hg. unfold applyAllChild in Hg. bind_case Hg c1 Hc1. injection Hg as <-.
    assert (H1 : Sized (S d) c1).
    { norm_nodes. destruct (IndexField.all (leaf c)); [injection Hc1 as <-; exact Hc|].
      bind_case Hc1 c2 Hc2.
      assert (H2 : Sized (S d) c2).
      { destruct (IndexField.any (leaf c)); [|injection Hc2 as <-; exact Hc].
        rewrite Sized_S in *. eapply forIndices_Sized; [|exact Hc|exact Hc2].
        intros i s s1 Hs. injection Hs as <-. reflexivity. }
      eapply IH; eassumption. }
    exact H1.
Qed.

Lemma applyTarget_Sized d (cur cur' : Inner d) dd :
  Sized (S d) cur -> applyTarget f f2 code d cur = Some (cur', dd) -> Sized (S d) cur'.
Proof.
  intros Hn Hrun. unfold applyTarget in Hrun. cbv zeta in Hrun.
  bind_case Hrun cur1 Hc1. injection Hrun as <- _.
  destruct (IndexField.test (leaf cur) _).
  - injection Hc1 as <-. exact Hn.
  - apply (applyAllRecurs_Sized d cur cur1 _ Hn) in Hc1. exact Hc1.
Qed.

Lemma applyAt_Sized : forall d (cur cur' : Inner d) dd,
  Sized (S d) cur -> applyAt f f2 code d cur = Some (cur', dd) -> Sized (S d) cur'.
Proof.
  induction d as [|d IH]; intros cur cur' dd Hn Hrun.
  - rewrite applyAt_O in Hrun.
    destruct (min_depth code =? 1)%nat; [|discriminate].
    destruct (Code.depth code =? 0); [|eapply applyTarget_Sized; eassumption].
    cbv zeta in Hrun. bind_case Hrun cur1 Hc1.
    apply (createChildren_Sized 0 cur cur1 _ Hn) in Hc1.
    bind_case Hrun c Hg. injection Hrun as <- _.
    apply SizedBlock_setChild; [exact Hc1|exact I].
  - rewrite applyAt_S in Hrun.
    destruct (min_depth code =? S (S d))%nat; [eapply applyTarget_Sized; eassumption|].
    cbv zeta in Hrun. bind_case Hrun cur1 Hc1.
    apply (createChildren_Sized (S d) cur cur1 _ Hn) in Hc1.
    bind_case Hrun c Hg.
    destruct (applyAt f f2 code d c) as [[c' dd']|] eqn:Hrec;
      cbn [mbind option_bind] in Hrun; [|discriminate].
    injection Hrun as <- _.
    apply (SizedBlock_setChild (Sized (S d))); [exact Hc1|].
    eapply IH; [|exact Hrec].
    eapply (SizedBlock_getChild (Sized (S d))); [exact Hc1|exact Hg].
Qed.

(** [apply] below the root returns on a well-formed tree whose blocks are
    whole. *)
Lemma applyTarget_total d (cur : Inner d) :
  WF (S d) cur -> exists r, applyTarget f f2 code d cur = Some r.
Proof.
  intros Hwf. unfold applyTarget. cbv zeta.
  destruct (IndexField.test (leaf cur) (Code.index code (Z.of_nat (S d)))) eqn:Hl.
  - cbn [mbind option_bind]. eauto.
  - destruct (applyAllRecurs_spec f f2 d cur
                (IndexField.single (Code.index code (Z.of_nat (S d)))) Hwf)
      as (cur1 & Hr & _).
    { intros i Hi Ht. rewrite test_single in Ht by apply index_range.
      apply Z.eqb_eq in Ht. subst i. exact Hl. }
    rewrite Hr. cbn [mbind option_bind]. eauto.
Qed.

Lemma applyAt_total pay : forall d (cur : Inner d),
  Inv pay (S d) cur -> Sized (S d) cur -> (min_depth code <= S d)%nat ->
  exists r, applyAt f f2 code d cur = Some r.
Proof.
  induction d as [|d IH]; intros cur Hn Hs Hmin.
  - rewrite applyAt_O.
    assert (Hm1 : min_depth code = 1%nat) by (unfold min_depth in *; lia).
    rewrite Hm1. cbn [Nat.eqb].
    destruct (Code.depth code =? 0); [|apply applyTarget_total, (Inv_WF pay), Hn].
    cbv zeta. set (index := Code.index code 1).
    assert (Hi : isIndex index) by apply index_range.
    destruct (createChildren_total 0 cur index Hi Hs) as (cur1 & Hc1). rewrite Hc1.
    cbn [mbind option_bind].
    destruct (createChildren_Inv pay 0 cur cur1 index Hi Hn Hc1) as (_ & _ & c & Hgc & _).
    rewrite getChild_markModified. norm_nodes. rewrite Hgc. cbn [mbind option_bind]. eauto.
  - rewrite applyAt_S.
    destruct (Nat.eqb_spec (min_depth code) (S (S d))) as [_|Hne];
      [apply applyTarget_total, (Inv_WF pay), Hn|].
    cbv zeta. set (index := Code.index code (Z.of_nat (S (S d)))).
    assert (Hi : isIndex index) by apply index_range.
    destruct (createChildren_total (S d) cur index Hi Hs) as (cur1 & Hc1). rewrite Hc1.
    cbn [mbind option_bind].
    destruct (createChildren_Inv pay (S d) cur cur1 index Hi Hn Hc1)
      as (_ & _ & c & Hgc & Hic).
    rewrite getChild_markModified. norm_nodes. rewrite Hgc. cbn [mbind option_bind].
    destruct (IH c Hic) as ([c' dd'] & Hrec).
    + eapply (SizedBlock_getChild (Sized (S d))); [|exact Hgc].
      eapply createChildren_Sized; eassumption.
    + lia.
    + rewrite Hrec. cbn [mbind option_bind]. eauto.
Qed.

End ApplySized.

Lemma setModifiedRecurs_Sized min_depth : forall d (node node' : Inner d),
  Sized (S d) node -> setModifiedRecurs min_depth d node = Some node' -> Sized (S d) node'.
Proof.
  induction d as [|d IH]; intros node node' Hn Hrun.
  - rewrite setModifiedRecurs_O in Hrun. cbv zeta in Hrun.
    destruct (_ || _); [injection Hrun as <-; exact Hn|].
    rewrite Sized_S in *. eapply forChildren_Sized; [| |exact Hrun]; [|exact Hn].
    intros c c' _ _. exact I.
  - rewrite setModifiedRecurs_S in Hrun. cbv zeta in Hrun.
    destruct (_ || _); [injection Hrun as <-; exact Hn|].
    rewrite Sized_S in *. eapply forChildren_Sized; [| |exact Hrun]; [|exact Hn].
    intros c c' Hc Hg. eapply IH; eassumption.
Qed.

Lemma setModifiedAt_Sized min_depth d (node node' : Inner d) index :
  Sized (S d) node -> setModifiedAt min_depth d node index = Some node' -> Sized (S d) node'.
Proof.
  intros Hn Hrun. unfold setModifiedAt in Hrun. cbv zeta in Hrun.
  set (node0 := if (min_depth <=? S d)%nat then markModified node index true else node) in *.
  assert (H0 : Sized (S d) node0) by (subst node0; destruct (_ <=? _)%nat; exact Hn).
  clearbody node0.
  destruct (min_depth <? S d)%nat; [|injection Hrun as <-; exact H0].
  destruct d as [|d].
  - bind_case Hrun c Hg. injection Hrun as <-.
    apply SizedBlock_setChild; [exact H0|exact I].
  - bind_case Hrun c Hg. bind_case Hrun c' Hrec. injection Hrun as <-.
    apply (SizedBlock_setChild (Sized (S d))); [exact H0|].
    eapply setModifiedRecurs_Sized; [|exact Hrec].
    eapply (SizedBlock_getChild (Sized (S d))); eassumption.
Qed.

Lemma resetModifiedRecurs_Sized max_depth : forall d (node node' : Inner d),
  Sized (S d) node -> resetModifiedRecurs max_depth d node = Some node' -> Sized (S d) node'.
Proof.
  induction d as [|d IH]; intros node node' Hn Hrun.
  - rewrite resetModifiedRecurs_O in Hrun. cbv zeta in Hrun.
    destruct (IndexField.none _).
    + apply (inj Some) in Hrun. subst node'. destruct (_ <=? _)%nat; exact Hn.
    + bind_case Hrun node1 Hfc. apply (inj Some) in Hrun. subst node'.
      assert (H1 : Sized 1 node1).
      { rewrite Sized_S in *. eapply forChildren_Sized; [|exact Hn|exact Hfc].
        intros c c' _ _. exact I. }
      destruct (_ <=? _)%nat; exact H1.
  - rewrite resetModifiedRecurs_S in Hrun. cbv zeta in Hrun.
    destruct (IndexField.none _).
    + apply (inj Some) in Hrun. subst node'. destruct (_ <=? _)%nat; exact Hn.
    + bind_case Hrun node1 Hfc. apply (inj Some) in Hrun. subst node'.
      assert (H1 : Sized (S (S d)) node1).
      { rewrite Sized_S in *. eapply forChildren_Sized; [|exact Hn|exact Hfc].
        intros c c' Hc Hg. eapply IH; eassumption. }
      destruct (_ <=? _)%nat; exact H1.
Qed.

Lemma resetModifiedAt_Sized max_depth d (node node' : Inner d) index :
  Sized (S d) node -> resetModifiedAt max_depth d node index = Some node' ->
  Sized (S d) node'.
Proof.
  intros Hn Hrun. unfold resetModifiedAt in Hrun.
  destruct (_ || _).
  { apply (inj Some) in Hrun. subst node'. destruct (_ <=? _)%nat; exact Hn. }
  bind_case Hrun node1 Hch. apply (inj Some) in Hrun. subst node'.
  assert (H1 : Sized (S d) node1).
  { destruct d as [|d].
    - bind_case Hch c Hg. injection Hch as <-.
      apply SizedBlock_setChild; [exact Hn|exact I].
    - bind_case Hch c Hg. bind_case Hch c' Hrec. injection Hch as <-.
      apply (SizedBlock_setChild (Sized (S d))); [exact Hn|].
      eapply resetModifiedRecurs_Sized; [|exact Hrec].
      eapply (SizedBlock_getChild (Sized (S d))); eassumption. }
  destruct (_ <=? _)%nat; exact H1.
Qed.

Lemma initRoot_Sized r rootData (node : Inner r) :
  Sized (S r) node -> Sized (S r) (initRoot rootData node).
Proof. intros Hn. exact Hn. Qed.

Lemma reachable_Sized pay r (m : Map r) : reachable pay m -> Sized (S r) (root m).
Proof.
  intros Hreach. induction Hreach as
    [ap rootData
    |m _ IH
    |m _ IH
    |m m' rootData prune _ IH Hrun
    |m m' code f f2 propagate node _ IH Hf Hrun
    |m m' keep max_depth _ IH Hrun
    |m m' min_depth _ IH Hrun
    |m m' max_depth _ IH Hpay Hrun].
  - exact I.
  - exact IH.
  - exact IH.
  - unfold clear in Hrun. bind_case Hrun root' Hd. injection Hrun as <-.
    apply initRoot_Sized. eapply deleteChildren_Sized; eassumption.
  - unfold apply in Hrun.
    destruct (Z.of_nat (rootDepth r) <? Code.depth code).
    { injection Hrun as _ <-. exact IH. }
    destruct (applyAt f f2 code r (root m)) as [[root' depth]|] eqn:Hat;
      cbn [mbind option_bind lift] in Hrun; [|discriminate].
    assert (H1 : Sized (S r) root') by (eapply applyAt_Sized; eassumption).
    destruct propagate.
    + destruct (propagateModified false maxDepthLevels (mkMap (automatic_prune m) root'))
        as [m1|] eqn:Hp; cbn [mbind option_bind lift] in Hrun; [|discriminate].
      injection Hrun as _ <-. unfold propagateModified in Hp.
      bind_case Hp root2 Hr. injection Hp as <-. cbn [root] in *.
      eapply propagateModifiedAt_Sized; eassumption.
    + cbn [mbind option_bind lift] in Hrun. injection Hrun as _ <-. exact H1.
  - unfold propagateModified in Hrun. bind_case Hrun root' Hr. injection Hrun as <-.
    eapply propagateModifiedAt_Sized; eassumption.
  - unfold setModified in Hrun. destruct (min_depth <=? rootDepth r)%nat.
    + bind_case Hrun root' Hs. injection Hrun as <-. cbn [root].
      eapply setModifiedAt_Sized; eassumption.
    + injection Hrun as <-. exact IH.
  - unfold resetModified in Hrun. bind_case Hrun root' Hs. injection Hrun as <-.
    cbn [root]. eapply resetModifiedAt_Sized; eassumption.
Qed.

End SizedFacts.

(** * The statements about the tree *)

Section ClaimFacts.

Context {Data : Type} `{Payload Data}.

Local Abbreviation Leaf := (LeafNode Data).
Local Abbreviation Inner d := (InnerNode Data (NodeAt Data d)).

Lemma Cleanb_S d (n : Inner d) :
  Cleanb (S d) n
  = IndexField.none (modified (base n))
    && forallb (fun i => IndexField.test (leaf n) i
                         || match getChild n i with
                            | Some c => Cleanb d c
                            | None => true
                            end) IndexField.indices.
Proof. reflexivity. Qed.

Lemma Cleanb_sound : forall d (n : NodeAt Data d), Cleanb d n = true -> Clean d n.
Proof.
  induction d as [|d IH]; intros n Hb.
  - rewrite Clean_O. apply none_spec. exact Hb.
  - rewrite Cleanb_S in Hb. apply andb_prop in Hb. destruct Hb as [Hm Hc].
    rewrite Clean_S. split; [apply none_spec; exact Hm|].
    intros i c Hi Hp Hg. rewrite forallb_forall in Hc.
    specialize (Hc i (proj2 (In_indices i) Hi)).
    cbv beta in Hc. unfold isParentSlot in Hp. norm_nodes. rewrite Hp, Hg in Hc.
    cbn [orb] in Hc.
    apply IH, Hc.
Qed.

Lemma AllAggregated_S d (n : Inner d) :
  AllAggregated (S d) n <->
  forall i (c : NodeAt Data d), isIndex i -> isParentSlot n i -> getChild n i = Some c ->
  Aggregated d n i c /\ AllAggregated d c.
Proof. reflexivity. Qed.

Lemma Inv_Clean_AllAggregated : forall d (n : NodeAt Data d),
  Inv true d n -> Clean d n -> AllAggregated d n.
Proof.
  induction d as [|d IH]; intros n Hn Hc; [exact I|].
  rewrite Inv_S in Hn. rewrite Clean_S in Hc. destruct Hc as [Hm Hc].
  rewrite AllAggregated_S. intros i c Hi Hp Hg. destruct (Hn i Hi Hp) as (c0 & Hg0 & Hc0 & Hu).
  norm_nodes. rewrite Hg in Hg0. injection Hg0 as <-.
  destruct (Hu (Hm i Hi)) as [Hcl Hag]. split; [apply Hag; reflexivity|].
  apply IH; assumption.
Qed.

Lemma WF_ForallInner (P : forall d, Inner d -> Prop) :
  (forall d (n : Inner d), WF (S d) n -> P d n) ->
  forall d (n : Inner d), WF (S d) n -> ForallInner P d n.
Proof.
  intros HP. induction d as [|d IH]; intros n Hwf.
  - apply HP, Hwf.
  - split; [apply HP, Hwf|]. intros i c Hi Hp Hg.
    pose proof Hwf as Hwf'. rewrite WF_S in Hwf'.
    destruct (Hwf' i Hi Hp) as (c0 & Hg0 & Hc0). norm_nodes.
    rewrite Hg in Hg0. injection Hg0 as <-. apply IH, Hc0.
Qed.

Lemma CleanSlot_slot r (n : Inner r) k :
  isIndex k -> CleanSlot r n k ->
  forall path b, slotModified (S r) (k :: path) n = Some b -> b = false.
Proof.
  intros Hk [Hm Hc] path b Hs. destruct path as [|j p].
  - apply slotModified_single_inv in Hs. destruct Hs as [_ ->]. exact Hm.
  - destruct (slotModified_cons_inv r k j p n b Hs) as (_ & Hp & c & Hg & Hsc).
    eapply Clean_slot; [apply Hc; eassumption|exact Hsc].
Qed.

Lemma newMap_Clean r ap rootData : Clean (S r) (root (newMap r ap rootData)).
Proof.
  rewrite Clean_S. split.
  - intros i _. apply test_empty.
  - intros i c Hi Hp _. unfold isParentSlot in Hp. cbn in Hp.
    rewrite test_full_index in Hp by exact Hi. discriminate.
Qed.

End ClaimFacts.

(** ** The claims on the tree *)

(** Claim C1, amended.  [apply] with a code whose depth exceeds the root
    depth raises no error: it returns the null node [Node()], whatever the
    functions [f] and [f2] are, and the map is unchanged. *)
Theorem apply_out_of_depth_returns_null {Data : Type} `{Payload Data} (r : nat)
    (m : Map r) (code : Code.t) (f : Data -> Z -> Data) (f2 : Data -> Data)
    (propagate : bool) :
  Z.of_nat (rootDepth r) < Code.depth code ->
  apply m code f f2 propagate = Return (nullNode, m).
Proof. intros Hd. unfold apply. apply Z.ltb_lt in Hd. rewrite Hd. reflexivity. Qed.

(** Claim C8, the behaviour of the code.  [siblingChecked] on a node that is
    not the root raises [std::out_of_range("Node has no siblings")], for
    every sibling index: the test on [isRoot] is inverted. *)
Theorem siblingChecked_non_root_raises {Data : Type} `{Payload Data} (r : nat)
    (m : @Map Data r) (node : Node) (sibling_index : Z) :
  isRoot r node = false ->
  siblingChecked m node sibling_index = Raise (out_of_range "Node has no siblings").
Proof. intros Hr. unfold siblingChecked. rewrite Hr. reflexivity. Qed.

(** The root, which has no siblings, passes the check for an index up to 7. *)
Lemma siblingChecked_root_passes {Data : Type} `{Payload Data} (r : nat)
    (m : @Map Data r) (node : Node) (sibling_index : Z) :
  isRoot r node = true -> sibling_index <= 7 ->
  siblingChecked m node sibling_index = lift (sibling m node sibling_index).
Proof.
  intros Hr Hi. unfold siblingChecked. rewrite Hr. cbn [negb].
  destruct (Z.ltb_spec 7 sibling_index); [lia|reflexivity].
Qed.

(** Claim C5, amended.  In every reachable state, a slot of an inner node
    whose leaf bit is cleared has its child node: the child block of the
    node is allocated and holds a node for the slot. *)
Theorem cleared_leaf_bit_has_child {Data : Type} `{Payload Data} (r : nat)
    (m : @Map Data r) :
  reachable false m ->
  ForallInner
    (fun d n => forall i, isIndex i -> IndexField.test (leaf n) i = false ->
                children n <> None /\ exists c, getChild n i = Some c)
    r (root m).
Proof.
  intros Hreach. apply WF_ForallInner.
  - intros d n Hwf i Hi Hl. rewrite WF_S in Hwf. destruct (Hwf i Hi Hl) as (c & Hg & _).
    split; [|eauto]. unfold getChild in Hg. destruct (children n); [discriminate|].
    discriminate.
  - apply (Inv_WF false (S r)). apply reachable_Inv; [discriminate|exact Hreach].
Qed.

(** Claim C3, amended.  On a state reached without [resetModified], through
    calls of [apply] whose function writes one slot, and for a payload hook
    [updateNode] that works slot by slot: [propagateModified(false)] with
    the default [max_depth] returns when the root is not a modified leaf;
    afterwards no modified bit is set at the root nor below it, and the
    payload of every slot with children, from the root down, is the
    aggregate that [updateNode] computes from its children. *)
Theorem propagateModified_clears_and_aggregates {Data : Type} `{Payload Data} (r : nat)
    (m : @Map Data r) :
  UpdateSlotwise ->
  (depthLevels r <= maxDepthLevels)%nat ->
  reachable true m ->
  (IndexField.test (modified (base (root m))) rootIndex = true ->
   isParentSlot (root m) rootIndex) ->
  exists m',
    propagateModified false maxDepthLevels m = Some m'
    /\ (forall path b, slotModified (S r) (rootIndex :: path) (root m') = Some b ->
        b = false)
    /\ (forall c, isParentSlot (root m') rootIndex ->
        getChild (root m') rootIndex = Some c ->
        Aggregated r (root m') rootIndex c /\ AllAggregated r c).
Proof.
  intros HU Hlev Hreach Hroot.
  assert (Hn : Inv true (S r) (root m)) by (apply reachable_Inv; [intros _; exact HU|exact Hreach]).
  destruct (propagateModifiedAt_total true (automatic_prune m) false maxDepthLevels r (root m)
              rootIndex (fun _ => HU) rootIndex_isIndex Hn Hroot) as (root' & Hr).
  exists (mkMap (automatic_prune m) root').
  assert (Hrun : propagateModified false maxDepthLevels m
                 = Some (mkMap (automatic_prune m) root')).
  { unfold propagateModified. rewrite Hr. reflexivity. }
  split; [exact Hrun|].
  destruct (propagateModified_Inv true r false maxDepthLevels m _ (fun _ => HU) Hn Hrun)
    as [Hn' Hcl].
  assert (Hle : (S r <= maxDepthLevels)%nat) by (unfold depthLevels in Hlev; lia).
  specialize (Hcl eq_refl Hle). cbn [root] in *. split.
  - apply CleanSlot_slot; [exact rootIndex_isIndex|exact Hcl].
  - intros c Hp Hg. destruct Hcl as [Hm Hc]. rewrite Inv_S in Hn'.
    destruct (Hn' rootIndex rootIndex_isIndex Hp) as (c0 & Hg0 & Hc0 & Hu).
    rewrite Hg in Hg0. injection Hg0 as <-.
    destruct (Hu Hm) as [Hclean Hag]. split; [apply Hag; reflexivity|].
    apply Inv_Clean_AllAggregated; assumption.
Qed.

(** Claim C4, amended.  From a reachable map of root depth up to 19 (the
    root depths at which the index of a code is defined) in which no
    modified bit is set, [apply(c, f)] without propagation returns, and
    afterwards a slot of the tree is modified exactly when it lies on the
    path from the root to the slot of [c], that slot included, or below the
    slot of [c]. *)
Theorem apply_modified_slots {Data : Type} `{Payload Data} (r : nat) (m : @Map Data r)
    (code : Code.t) (f : Data -> Z -> Data) (f2 : Data -> Data) :
  Z.of_nat (rootDepth r) <= 19 ->
  reachable false m ->
  Clean (S r) (root m) ->
  Code.depth code <= Z.of_nat (rootDepth r) ->
  exists node m',
    apply m code f f2 false = Return (node, m')
    /\ forall path b, slotModified (S r) path (root m') = Some b ->
       (b = true <-> comparable path (targetPath code (S r))).
Proof.
  intros _ Hreach Hcl Hd.
  assert (Hn : Inv false (S r) (root m)) by (apply reachable_Inv; [discriminate|exact Hreach]).
  pose proof (reachable_Sized false r m Hreach) as Hs.
  destruct (applyAt_total f f2 code false r (root m) Hn Hs) as ([root' depth] & Hat).
  { unfold min_depth, rootDepth in *. pose proof (depth_range code). lia. }
  exists (mkNode (Some (blockPath r code depth)) code (Z.of_nat depth)),
         (mkMap (automatic_prune m) root').
  split.
  - unfold apply. destruct (Z.ltb_spec (Z.of_nat (rootDepth r)) (Code.depth code)); [lia|].
    rewrite Hat. reflexivity.
  - cbn [root]. eapply applyAt_modified; [eapply Inv_WF; exact Hn|exact Hcl|exact Hat].
Qed.

(** Claim C10.  [propagateModified] with [keep_modified = true] clears no
    modified bit: a slot that is modified before the call and is still in
    the tree after it is still modified.  The call returns on every
    reachable state of which the root is not a modified leaf. *)
Theorem propagateModified_keep_clears_nothing {Data : Type} `{Payload Data} (r : nat)
    (m : @Map Data r) (max_depth : nat) :
  (forall m' path,
     propagateModified true max_depth m = Some m' ->
     slotModified (S r) path (root m) = Some true ->
     slotModified (S r) path (root m') <> Some false)
  /\ (reachable false m ->
      (IndexField.test (modified (base (root m))) rootIndex = true ->
       isParentSlot (root m) rootIndex) ->
      exists m', propagateModified true max_depth m = Some m').
Proof.
  split.
  - intros m' path Hrun Hbefore Hafter. unfold propagateModified in Hrun.
    bind_case Hrun root' Hr. injection Hrun as <-. cbn [root] in Hafter.
    apply (propagateModifiedAt_keep _ _ _ _ _ _ rootIndex_isIndex) in Hr.
    rewrite (SameModified_slot (S r) (root m) root' path false Hr Hafter) in Hbefore.
    discriminate.
  - intros Hreach Hroot.
    assert (Hn : Inv false (S r) (root m))
      by (apply reachable_Inv; [discriminate|exact Hreach]).
    destruct (propagateModifiedAt_total false (automatic_prune m) true max_depth r (root m)
                rootIndex ltac:(discriminate) rootIndex_isIndex Hn Hroot) as (root' & Hr).
    exists (mkMap (automatic_prune m) root'). unfold propagateModified. rewrite Hr.
    reflexivity.
Qed.

(** ** The claims on an example map *)

Section Examples.

Import Occupancy.

#[local] Existing Instance Occupancy.payload.

Lemma occupancy_UpdateSlotwise : UpdateSlotwise.
Proof.
  split.
  - intros x i c _. cbn [dataUpdate payload]. apply list_insert_insert_eq.
  - intros x i c j c' Hi Hj Hne. cbn [dataUpdate payload].
    apply list_insert_insert_ne. unfold isIndex in *. lia.
Qed.

Lemma hit_SlotLocal : SlotLocal hit.
Proof.
  intros x i j c Hi Hj Hne. cbn [dataUpdate payload]. unfold hit.
  apply list_insert_insert_ne. unfold isIndex in *. lia.
Qed.

Lemma map1_reachable pay : reachable pay map1.
Proof.
  apply (reach_apply pay map0 map1 cell hit hitAll false (mkNode (Some [0; 0]) cell 0)).
  - apply reach_new.
  - intros _. apply hit_SlotLocal.
  - vm_compute. reflexivity.
Qed.

Lemma map2_reachable pay : reachable pay map2.
Proof.
  apply (reach_apply pay map0 map2 cell hit hitAll true (mkNode (Some [0; 0]) cell 0)).
  - apply reach_new.
  - intros _. apply hit_SlotLocal.
  - vm_compute. reflexivity.
Qed.

Lemma mapReset_reachable : reachable false mapReset.
Proof.
  apply (reach_resetModified false map1 mapReset maxDepthLevels).
  - apply map1_reachable.
  - reflexivity.
  - vm_compute. reflexivity.
Qed.

(** A code of depth 3 on a map of root depth 2. *)
Lemma apply_out_of_depth_returns_null_witness :
  Z.of_nat (rootDepth 1) < Code.depth (Code.make 0 3)
  /\ apply Occupancy.map0 (Code.make 0 3) Occupancy.hit Occupancy.hitAll true
     = Return (nullNode, Occupancy.map0).
Proof.
  split; [reflexivity|].
  apply (apply_out_of_depth_returns_null 1 Occupancy.map0 (Code.make 0 3)).
  reflexivity.
Defined.

(** Claim C1 as stated fails: on a map of root depth 2 a code of depth 3
    is out of depth, and [apply] does not end in an error. *)
Lemma apply_out_of_depth_no_error :
  Z.of_nat (rootDepth 1) < Code.depth (Code.make 0 3)
  /\ forall e, apply Occupancy.map0 (Code.make 0 3) Occupancy.hit Occupancy.hitAll true
               <> Raise e.
Proof. split; [reflexivity|]. intros e. vm_compute. discriminate. Qed.

(** The node of the block of depth 1 above [cell], asked for sibling 3. *)
Lemma siblingChecked_non_root_raises_witness :
  isRoot 1 (mkNode (Some [0]) (Code.make 0 1) 1) = false
  /\ siblingChecked Occupancy.map2 (mkNode (Some [0]) (Code.make 0 1) 1) 3
     = Raise (out_of_range "Node has no siblings").
Proof.
  split; [reflexivity|].
  apply (siblingChecked_non_root_raises 1 Occupancy.map2). reflexivity.
Defined.

(** Propagation after a write to [cell]. *)
Lemma propagateModified_clears_and_aggregates_witness :
  UpdateSlotwise
  /\ (depthLevels 1 <= maxDepthLevels)%nat
  /\ reachable true map1
  /\ (IndexField.test (modified (base (root map1))) rootIndex = true ->
      isParentSlot (root map1) rootIndex)
  /\ exists m',
       propagateModified false maxDepthLevels map1 = Some m'
       /\ (forall path b, slotModified 2 (rootIndex :: path) (root m') = Some b ->
           b = false)
       /\ (forall c, isParentSlot (root m') rootIndex ->
           getChild (root m') rootIndex = Some c ->
           Aggregated 1 (root m') rootIndex c /\ AllAggregated 1 c).
Proof.
  assert (H2 : (depthLevels 1 <= maxDepthLevels)%nat) by (vm_compute; lia).
  assert (H4 : IndexField.test (modified (base (root map1))) rootIndex = true ->
               isParentSlot (root map1) rootIndex) by (intros _; reflexivity).
  exact (conj occupancy_UpdateSlotwise (conj H2 (conj (map1_reachable true) (conj H4
           (propagateModified_clears_and_aggregates 1 map1 occupancy_UpdateSlotwise H2
              (map1_reachable true) H4))))).
Defined.

(** Claim C3 as stated fails on a state reached through [resetModified]:
    after the write to [cell] the flags are reset by hand, propagation then
    finds nothing to do, and the block of depth 1 above [cell] keeps a
    payload that is not the aggregate of its children. *)
Lemma propagateModified_after_reset_not_aggregated :
  reachable false mapReset
  /\ propagateModified false maxDepthLevels mapReset = Some mapReset
  /\ exists (c1 : InnerNode (list Z) (LeafNode (list Z))) (c0 : LeafNode (list Z)),
       isParentSlot (root mapReset) rootIndex
       /\ getChild (root mapReset) rootIndex = Some c1
       /\ isParentSlot c1 0 /\ getChild c1 0 = Some c0
       /\ ~ Aggregated 0 c1 0 c0.
Proof.
  split; [exact mapReset_reachable|]. split; [vm_compute; reflexivity|].
  eexists. eexists. split; [reflexivity|]. split; [vm_compute; reflexivity|].
  split; [reflexivity|]. split; [vm_compute; reflexivity|].
  unfold Aggregated. vm_compute. discriminate.
Qed.

(** The first write to a new map. *)
Lemma apply_modified_slots_witness :
  Z.of_nat (rootDepth 1) <= 19
  /\ reachable false map0
  /\ Clean 2 (root map0)
  /\ Code.depth cell <= Z.of_nat (rootDepth 1)
  /\ exists node m',
       apply map0 cell hit hitAll false = Return (node, m')
       /\ forall path b, slotModified 2 path (root m') = Some b ->
          (b = true <-> comparable path (targetPath cell 2)).
Proof.
  assert (H1 : reachable false map0) by apply reach_new.
  assert (H2 : Clean 2 (root map0)) by apply newMap_Clean.
  assert (H3 : Code.depth cell <= Z.of_nat (rootDepth 1)) by (vm_compute; discriminate).
  assert (H0 : Z.of_nat (rootDepth 1) <= 19) by (vm_compute; discriminate).
  exact (conj H0 (conj H1 (conj H2 (conj H3
           (apply_modified_slots 1 map0 cell hit hitAll H0 H1 H2 H3))))).
Defined.

(** Claim C4 as stated fails when the target has children: in the clean map
    left by a propagated write to [cell], a write to the block of depth 1
    above [cell] also marks the slots below the target, here slot 3 of the
    leaf block. *)
Lemma apply_marks_below_target :
  reachable false map2
  /\ Clean 2 (root map2)
  /\ apply map2 (Code.make 0 1) hit hitAll false
     = Return (mkNode (Some [0]) (Code.make 0 1) 1, map3)
  /\ targetPath (Code.make 0 1) 2 = [0; 0]
  /\ slotModified 2 [0; 0; 3] (root map3) = Some true.
Proof.
  split; [apply map2_reachable|]. split; [apply Cleanb_sound; vm_compute; reflexivity|].
  split; [vm_compute; reflexivity|]. split; vm_compute; reflexivity.
Qed.

(** The map after a write to [cell]. *)
Lemma cleared_leaf_bit_has_child_witness :
  reachable false map1
  /\ ForallInner
       (fun d n => forall i, isIndex i -> IndexField.test (leaf n) i = false ->
                   children n <> None /\ exists c, getChild n i = Some c)
       1 (root map1).
Proof.
  exact (conj (map1_reachable false) (cleared_leaf_bit_has_child 1 map1 (map1_reachable false))).
Defined.

(** Claim C5 as stated fails in the other direction: the eight slots of a
    node share one child block, so after a write below slot 0 of the root
    block its slot 1 is still a leaf while the child block is allocated and
    holds a node for slot 1. *)
Lemma leaf_slot_with_allocated_block :
  reachable false map1
  /\ IndexField.test (leaf (root map1)) 1 = true
  /\ children (root map1) <> None
  /\ getChild (root map1) 1 <> None.
Proof.
  split; [apply map1_reachable|]. split; [reflexivity|].
  split; vm_compute; discriminate.
Qed.

(** The lookup of [cell] after it was written. *)
Lemma find_stops_at_or_above_witness :
  WF 2 (root map1)
  /\ Code.depth cell <= Z.of_nat (rootDepth 1)
  /\ exists (ptr : list Z) (blk : LeafNode (list Z)) (depth : nat),
       leafNodeAndDepth map1 cell = Some (ptr, blk, depth)
       /\ find map1 cell = Some (mkNode (Some ptr) cell (Z.of_nat depth))
       /\ Code.depth cell <= Z.of_nat depth <= Z.of_nat (rootDepth 1)
       /\ blockAt 1 ptr (root map1) = Some blk
       /\ (Z.of_nat (rootDepth 1) <= 19 -> ptr = blockPath 1 cell depth).
Proof.
  assert (H1 : WF 2 (root map1)).
  { apply (Inv_WF false 2). apply reachable_Inv; [discriminate|apply map1_reachable]. }
  assert (H2 : Code.depth cell <= Z.of_nat (rootDepth 1)) by (vm_compute; discriminate).
  exact (conj H1 (conj H2 (find_stops_at_or_above 1 map1 cell H1 H2))).
Defined.

(** Propagation that keeps the flags, after a write to [cell]. *)
Lemma propagateModified_keep_clears_nothing_witness :
  reachable false map1
  /\ (IndexField.test (modified (base (root map1))) rootIndex = true ->
      isParentSlot (root map1) rootIndex)
  /\ exists m', propagateModified true maxDepthLevels map1 = Some m'.
Proof.
  assert (H2 : IndexField.test (modified (base (root map1))) rootIndex = true ->
               isParentSlot (root map1) rootIndex) by (intros _; reflexivity).
  exact (conj (map1_reachable false) (conj H2
           (proj2 (propagateModified_keep_clears_nothing 1 map1 maxDepthLevels)
              (map1_reachable false) H2))).
Defined.

End Examples.

(** * Further properties of codes *)

(** ** The BMI2 instructions under the masks of [code.h] *)

Lemma pext_from_low n : forall pos k src mask j,
  0 <= j < k -> Z.testbit (pext_from n pos k src mask) j = false.
Proof.
  induction n as [|n IH]; intros pos k src mask j Hj; simpl.
  - apply Z.bits_0.
  - destruct (Z.testbit mask pos).
    + rewrite Z.lor_spec, IH by lia.
      destruct (Z.testbit src pos); [|rewrite Z.bits_0; reflexivity].
      rewrite Z.pow2_bits_eqb by lia.
      destruct (Z.eqb_spec k j); [lia|reflexivity].
    + apply IH. lia.
Qed.

Lemma pext_from_high n : forall pos k src mask j,
  0 <= k -> k + Z.of_nat n <= j -> Z.testbit (pext_from n pos k src mask) j = false.
Proof.
  induction n as [|n IH]; intros pos k src mask j Hk Hj; simpl.
  - apply Z.bits_0.
  - destruct (Z.testbit mask pos).
    + rewrite Z.lor_spec, IH by lia.
      destruct (Z.testbit src pos); [|rewrite Z.bits_0; reflexivity].
      rewrite Z.pow2_bits_eqb by lia.
      destruct (Z.eqb_spec k j); [lia|reflexivity].
    + apply IH; lia.
Qed.

Lemma pext_from_sym n : forall pos k src mask j,
  0 <= k -> 0 <= j ->
  Z.testbit (pext_from n pos k src mask) j = denote src (pext_sym n pos k mask j).
Proof.
  induction n as [|n IH]; intros pos k src mask j Hk Hj; simpl.
  - apply Z.bits_0.
  - destruct (Z.testbit mask pos).
    + rewrite Z.lor_spec. destruct (Z.eqb_spec k j) as [->|Hne].
      * rewrite pext_from_low by lia. rewrite orb_false_r. simpl.
        destruct (Z.testbit src pos); [|apply Z.bits_0].
        rewrite Z.pow2_bits_eqb by lia. apply Z.eqb_refl.
      * rewrite IH by lia.
        destruct (Z.testbit src pos); [|rewrite Z.bits_0; reflexivity].
        rewrite Z.pow2_bits_eqb by lia.
        destruct (Z.eqb_spec k j); [contradiction|reflexivity].
    + apply IH; lia.
Qed.

(** A mask whose symbolic deposit (extraction) has been checked against a
    specification deposits (extracts) as specified. *)
Lemma pdep_u64_checked mask spec src n :
  forallb (fun m => sym_eqb (Some (pdep_sym 64 0 0 mask m)) (spec m)) (zrange 0 64) = true ->
  0 <= n ->
  Z.testbit (pdep_u64 src mask) n = (n <? 64) && denote src (spec n).
Proof.
  intros Hc Hn. unfold pdep_u64.
  destruct (Z.ltb_spec n 64) as [Hlt|Hge]; cbn [andb].
  - rewrite pdep_from_sym by lia.
    rewrite forallb_forall in Hc.
    specialize (Hc n (zrange_In 0 64 n ltac:(lia))).
    apply sym_eqb_eq in Hc. apply (inj Some) in Hc. rewrite Hc. reflexivity.
  - apply pdep_from_high; lia.
Qed.

Lemma pext_u64_checked mask spec src j :
  forallb (fun m => sym_eqb (Some (pext_sym 64 0 0 mask m)) (spec m)) (zrange 0 64) = true ->
  0 <= j ->
  Z.testbit (pext_u64 src mask) j = (j <? 64) && denote src (spec j).
Proof.
  intros Hc Hj. unfold pext_u64.
  destruct (Z.ltb_spec j 64) as [Hlt|Hge]; cbn [andb].
  - rewrite pext_from_sym by lia.
    rewrite forallb_forall in Hc.
    specialize (Hc j (zrange_In 0 64 j ltac:(lia))).
    apply sym_eqb_eq in Hc. apply (inj Some) in Hc. rewrite Hc. reflexivity.
  - apply pext_from_high; lia.
Qed.

Lemma pdep3_bit src n : 0 <= n ->
  Z.testbit (pdep_u64 src 0x9249249249249249) n
  = (n <? 64) && denote src (pdep3_spec 0 n)
  /\ Z.testbit (pdep_u64 src 0x2492492492492492) n
     = (n <? 64) && denote src (pdep3_spec 1 n)
  /\ Z.testbit (pdep_u64 src 0x4924924924924924) n
     = (n <? 64) && denote src (pdep3_spec 2 n).
Proof.
  intros Hn. repeat split; apply pdep_u64_checked; try exact Hn; vm_compute; reflexivity.
Qed.

Lemma pext3_bit src j : 0 <= j ->
  Z.testbit (pext_u64 src 0x9249249249249249) j = denote src (pext3_spec 22 0 j)
  /\ Z.testbit (pext_u64 src 0x4924924924924920) j = denote src (pext3_spec 20 5 j)
  /\ Z.testbit (pext_u64 src 0x9249249249249240) j = denote src (pext3_spec 20 6 j)
  /\ Z.testbit (pext_u64 src 0x2492492492492480) j = denote src (pext3_spec 19 7 j).
Proof.
  intros Hj.
  assert (Hs : forall len s, len <= 64 ->
            (j <? 64) && denote src (pext3_spec len s j) = denote src (pext3_spec len s j)).
  { intros len s Hlen. unfold pext3_spec.
    destruct (Z.ltb_spec j len); [|apply andb_false_r].
    destruct (Z.ltb_spec j 64); [reflexivity|lia]. }
  repeat split.
  - rewrite <- (Hs 22 0) by lia. apply pext_u64_checked; [vm_compute; reflexivity|exact Hj].
  - rewrite <- (Hs 20 5) by lia. apply pext_u64_checked; [vm_compute; reflexivity|exact Hj].
  - rewrite <- (Hs 20 6) by lia. apply pext_u64_checked; [vm_compute; reflexivity|exact Hj].
  - rewrite <- (Hs 19 7) by lia. apply pext_u64_checked; [vm_compute; reflexivity|exact Hj].
Qed.

(** ** The two compile-time branches of the key conversions *)

(** Extra X1.  On every argument below [2^63] the portable [get3Bits] and
    its BMI2 branch, [_pext_u64] under the mask [0x9249249249249249] cast to
    [key_t], return the same value.  [toKey] calls it on [code_ >> (index +
    5)], which is below [2^59]. *)
Theorem get3Bits_fallback_matches_bmi2 (c : Z) :
  0 <= c < 2 ^ 63 ->
  Code.get3Bits c = get3Bits_bmi2 c.
Proof.
  intros Hc. apply Z.bits_inj'. intros j Hj.
  unfold get3Bits_bmi2. rewrite get3Bits_bit, testbit_wrap by lia.
  destruct (pext3_bit c j Hj) as (-> & _). unfold pext3_spec.
  bit_cases.
  - same_bit.
  - symmetry. apply (testbit_high c 63); lia.
Qed.

Lemma get3Bits_fallback_matches_bmi2_witness :
  0 <= 0x1249249249249249 < 2 ^ 63
  /\ Code.get3Bits 0x1249249249249249 = get3Bits_bmi2 0x1249249249249249.
Proof.
  assert (H : 0 <= 0x1249249249249249 < 2 ^ 63) by (split; [discriminate|reflexivity]).
  exact (conj H (get3Bits_fallback_matches_bmi2 _ H)).
Defined.

Lemma toCode_bit k m : 0 <= m ->
  Z.testbit (Code.toCode k) m
  = (m <? 63) && Z.testbit (Key.get k (m mod 3)) (m / 3).
Proof.
  intros Hm. unfold Code.toCode.
  rewrite !Z.lor_spec, splitBy3_bit, !splitBy3_shifted_bit by lia.
  assert (Hmod : m mod 3 = 0 \/ m mod 3 = 1 \/ m mod 3 = 2)
    by (pose proof (Z.mod_pos_bound m 3); lia).
  destruct Hmod as [Hr|[Hr|Hr]]; rewrite Hr; bit_cases; same_bit.
Qed.

Lemma toCode_bmi2_bit k m : 0 <= m ->
  Z.testbit (toCode_bmi2 k) m
  = (m <? 64) && Z.testbit (Key.get k (m mod 3)) (m / 3).
Proof.
  intros Hm. unfold toCode_bmi2. rewrite !Z.lor_spec.
  destruct (pdep3_bit (Key.get k 0) m Hm) as (-> & _).
  destruct (pdep3_bit (Key.get k 1) m Hm) as (_ & -> & _).
  destruct (pdep3_bit (Key.get k 2) m Hm) as (_ & _ & ->).
  unfold pdep3_spec.
  assert (Hmod : m mod 3 = 0 \/ m mod 3 = 1 \/ m mod 3 = 2)
    by (pose proof (Z.mod_pos_bound m 3); lia).
  destruct Hmod as [Hr|[Hr|Hr]]; rewrite Hr; bit_cases; same_bit.
Qed.

(** Extra X2.  The portable branch of [toCode(Key)] and its BMI2 branch
    return the same interleaved word when the first key component is below
    [2^21] (the BMI2 mask of the first component has 22 positions, the
    portable branch keeps 21 bits); [Code(Key)], which shifts the top five
    bits out, is the same under both branches for every key. *)
Theorem toCode_fallback_matches_bmi2 (k : Key.t) :
  (0 <= Key.get k 0 < 2 ^ 21 -> Code.toCode k = toCode_bmi2 k)
  /\ Code.ofKey k = ofKey_bmi2 k.
Proof.
  split.
  - intros Hk. apply Z.bits_inj'. intros m Hm.
    rewrite toCode_bit, toCode_bmi2_bit by exact Hm.
    bit_cases. replace m with 63 by lia. change (63 mod 3) with 0. change (63 / 3) with 21.
    symmetry. apply (testbit_high (Key.get k 0) 21); lia.
  - apply Z.bits_inj'. intros n Hn. unfold Code.ofKey, ofKey_bmi2.
    rewrite !Z.lor_spec, !testbit_shl64 by exact Hn. f_equal.
    destruct (Z.ltb_spec (n - 5) 0) as [Hneg|Hpos].
    + rewrite !Z.testbit_neg_r by lia. reflexivity.
    + rewrite toCode_bit, toCode_bmi2_bit by lia. bit_cases.
Qed.

Lemma toCode_fallback_matches_bmi2_witness :
  0 <= Key.get (Key.make 0x12345 0xFFFFF 0x7FFFF 0) 0 < 2 ^ 21
  /\ Code.toCode (Key.make 0x12345 0xFFFFF 0x7FFFF 0)
     = toCode_bmi2 (Key.make 0x12345 0xFFFFF 0x7FFFF 0).
Proof.
  assert (H : 0 <= Key.get (Key.make 0x12345 0xFFFFF 0x7FFFF 0) 0 < 2 ^ 21)
    by (vm_compute; split; [discriminate|reflexivity]).
  exact (conj H (proj1 (toCode_fallback_matches_bmi2 _) H)).
Defined.

(** Extra X3.  The portable branch of [operator Key()] and its BMI2 branch,
    three [_pext_u64] under the masks [0x4924924924924920],
    [0x9249249249249240] and [0x2492492492492480], return the same key for
    every 64-bit code. *)
Theorem key_fallback_matches_bmi2 (c : Code.t) :
  0 <= c < 2 ^ 64 ->
  Code.key c = key_bmi2 c.
Proof.
  intros Hc.
  assert (Hhigh : forall n, 64 <= n -> Z.testbit c n = false)
    by (intros n Hn; apply (testbit_high c 64); lia).
  unfold Code.key, key_bmi2. f_equal; apply Z.bits_inj'; intros j Hj;
    rewrite toKey_bit by lia.
  - destruct (pext3_bit c j Hj) as (_ & -> & _). unfold pext3_spec.
    bit_cases; [same_bit|apply Hhigh; lia].
  - destruct (pext3_bit c j Hj) as (_ & _ & -> & _). unfold pext3_spec.
    bit_cases; [same_bit|apply Hhigh; lia].
  - destruct (pext3_bit c j Hj) as (_ & _ & _ & ->). unfold pext3_spec.
    bit_cases; [same_bit|apply Hhigh; lia].
Qed.

Lemma key_fallback_matches_bmi2_witness :
  0 <= Code.make 0x123456789ABCDEF 3 < 2 ^ 64
  /\ Code.key (Code.make 0x123456789ABCDEF 3) = key_bmi2 (Code.make 0x123456789ABCDEF 3).
Proof.
  assert (H : 0 <= Code.make 0x123456789ABCDEF 3 < 2 ^ 64)
    by (vm_compute; split; [discriminate|reflexivity]).
  exact (conj H (key_fallback_matches_bmi2 _ H)).
Defined.

(** ** Constructor and accessors *)

Lemma depth_high d n : 0 <= d < 32 -> 5 <= n -> Z.testbit d n = false.
Proof. intros Hd Hn. apply (testbit_high d 5); [change (2 ^ 5) with 32|]; lia. Qed.

Lemma code_make_bit x d n : 0 <= d < 32 -> 0 <= n ->
  Z.testbit (Code.code (Code.make x d)) n = (n <? 59) && (3 * d <=? n) && Z.testbit x n.
Proof.
  intros Hd Hn. unfold Code.code.
  rewrite Z.shiftr_spec, make_bit by lia.
  rewrite (depth_high d (n + 5)) by lia.
  bit_cases. same_bit.
Qed.

(** Extra X4.  The constructor [Code(code, depth)] with a depth up to 19
    yields a code whose [depth()] is the depth given and whose [code()] is
    the argument with the [3 * depth] low bits cleared, cut to 59 bits; an
    argument that is already of that form is returned by [code()]
    unchanged. *)
Theorem make_depth_code (x d : Z) :
  0 <= d <= 19 ->
  Code.wf (Code.make x d)
  /\ Code.depth (Code.make x d) = d
  /\ Code.code (Code.make x d) = wrap 59 (Z.shiftl (Z.shiftr x (3 * d)) (3 * d))
  /\ (0 <= x < 2 ^ 59 -> Z.land x (Z.ones (3 * d)) = 0 ->
      Code.code (Code.make x d) = x).
Proof.
  intros Hd. split; [apply make_wf; lia|]. split; [apply depth_make; lia|]. split.
  - apply Z.bits_inj'. intros n Hn.
    rewrite code_make_bit, testbit_wrap by lia.
    destruct (Z.leb_spec (3 * d) n) as [Hle|Hlt].
    + rewrite Z.shiftl_spec, Z.shiftr_spec by lia.
      replace (n - 3 * d + 3 * d) with n by lia. rewrite andb_true_r. reflexivity.
    + rewrite Z.shiftl_spec, (Z.testbit_neg_r _ (n - 3 * d)) by lia.
      rewrite !andb_false_r. reflexivity.
  - intros Hx Hlow. apply Z.bits_inj'. intros n Hn.
    rewrite code_make_bit by lia.
    destruct (Z.ltb_spec n 59) as [H59|H59]; cbn [andb].
    + destruct (Z.leb_spec (3 * d) n) as [Hle|Hlt]; [reflexivity|]. cbn [andb].
      assert (Hb : Z.testbit (Z.land x (Z.ones (3 * d))) n = false)
        by (rewrite Hlow; apply Z.bits_0).
      rewrite Z.land_spec, Z.testbit_ones_nonneg in Hb by lia.
      destruct (Z.ltb_spec n (3 * d)); [|lia].
      rewrite andb_true_r in Hb. symmetry. replace (Z.leb 0 n) with true in Hb; [exact Hb|].
      symmetry. apply Z.leb_le. lia.
    + symmetry. apply (testbit_high x 59); lia.
Qed.

Lemma make_depth_code_witness :
  0 <= 2 <= 19
  /\ 0 <= 0x1C0 < 2 ^ 59
  /\ Z.land 0x1C0 (Z.ones (3 * 2)) = 0
  /\ Code.wf (Code.make 0x1C0 2)
  /\ Code.depth (Code.make 0x1C0 2) = 2
  /\ Code.code (Code.make 0x1C0 2) = wrap 59 (Z.shiftl (Z.shiftr 0x1C0 (3 * 2)) (3 * 2))
  /\ Code.code (Code.make 0x1C0 2) = 0x1C0.
Proof.
  assert (H : 0 <= 2 <= 19) by lia.
  assert (Hx : 0 <= 0x1C0 < 2 ^ 59) by (split; [discriminate|reflexivity]).
  assert (Hl : Z.land 0x1C0 (Z.ones (3 * 2)) = 0) by reflexivity.
  destruct (make_depth_code 0x1C0 2 H) as (Hwf & Hd & Hc & Hrt).
  exact (conj H (conj Hx (conj Hl (conj Hwf (conj Hd (conj Hc (Hrt Hx Hl))))))).
Defined.

(** ** Moving a code between depths *)

Lemma toDepth_bit c d n : 0 <= d < 32 -> 0 <= n ->
  Z.testbit (Code.toDepth c d) n
  = (n <? 64) && (3 * d + 5 <=? n) && Z.testbit c n || Z.testbit d n.
Proof.
  intros Hd Hn. unfold Code.toDepth. rewrite make_bit by lia.
  destruct (Z.leb_spec (3 * d + 5) n) as [Hle|Hlt].
  - rewrite Z.shiftr_spec by lia. replace (n - 5 + 5) with n by lia. reflexivity.
  - rewrite !andb_false_r. reflexivity.
Qed.

(** Extra X5.  [toDepth(d)] of a 64-bit code, for a depth up to 19, is a
    code of depth [d] that has the indices of the original at the depths
    from [d] up and index 0 at every depth below [d]. *)
Theorem toDepth_depth_index (c : Code.t) (d : Z) :
  0 <= c < 2 ^ 64 -> 0 <= d <= 19 ->
  Code.wf (Code.toDepth c d)
  /\ Code.depth (Code.toDepth c d) = d
  /\ (forall e, d <= e <= 19 -> Code.index (Code.toDepth c d) e = Code.index c e)
  /\ (forall e, 0 <= e < d -> Code.index (Code.toDepth c d) e = 0).
Proof.
  intros Hc Hd.
  split; [apply make_wf; lia|]. split; [apply depth_make; lia|]. split.
  - intros e He. apply Z.bits_inj'. intros j Hj.
    rewrite !index_bit, toDepth_bit by lia.
    rewrite (depth_high d (j + 3 * e + 5)) by lia.
    bit_cases. symmetry. apply (testbit_high c 64); lia.
  - intros e He. apply Z.bits_inj'. intros j Hj.
    rewrite index_bit, toDepth_bit, Z.bits_0 by lia.
    rewrite (depth_high d (j + 3 * e + 5)) by lia.
    bit_cases.
Qed.

Lemma toDepth_depth_index_witness :
  0 <= Code.make 0x1C0 0 < 2 ^ 64
  /\ 0 <= 2 <= 19
  /\ Code.wf (Code.toDepth (Code.make 0x1C0 0) 2)
  /\ Code.depth (Code.toDepth (Code.make 0x1C0 0) 2) = 2
  /\ (forall e, 2 <= e <= 19 ->
      Code.index (Code.toDepth (Code.make 0x1C0 0) 2) e = Code.index (Code.make 0x1C0 0) e)
  /\ (forall e, 0 <= e < 2 -> Code.index (Code.toDepth (Code.make 0x1C0 0) 2) e = 0).
Proof.
  assert (Hc : 0 <= Code.make 0x1C0 0 < 2 ^ 64)
    by (vm_compute; split; [discriminate|reflexivity]).
  assert (Hd : 0 <= 2 <= 19) by lia.
  exact (conj Hc (conj Hd (toDepth_depth_index _ 2 Hc Hd))).
Defined.

(** Extra X6.  Going up twice is going up once.  For depths [p <= q <= 19]
    and a code of depth at most [p], so that the assertion of [parent] holds
    at each call, [c.parent(p).parent(q)] is [c.parent(q)].  [toDepth],
    which has the same body and no assertion, composes in the same way for
    every code.  Taken to its own depth, a code that holds no index bits
    below its depth is unchanged. *)
Theorem parent_compose (c : Code.t) (p q : Z) :
  0 <= p <= q -> q <= 19 ->
  (Code.parent_assert c p = true ->
   Code.parent_assert (Code.parent c p) q = true
   /\ Code.parent_assert c q = true
   /\ Code.parent (Code.parent c p) q = Code.parent c q)
  /\ Code.toDepth (Code.toDepth c p) q = Code.toDepth c q
  /\ (Code.wf c -> Code.depth c <= 19 ->
      Code.parent_assert c (Code.depth c) = true
      /\ Code.parent c (Code.depth c) = c).
Proof.
  intros Hp Hq.
  assert (Hcomp : Code.toDepth (Code.toDepth c p) q = Code.toDepth c q).
  { apply Z.bits_inj'. intros n Hn. rewrite !toDepth_bit by lia.
    destruct (Z.leb_spec (3 * q + 5) n) as [Hle|Hlt].
    - rewrite (depth_high p n) by lia. bit_cases.
    - rewrite !andb_false_r. reflexivity. }
  split; [|split; [exact Hcomp|]].
  - unfold Code.parent_assert. intros Ha. apply Z.leb_le in Ha.
    split; [|split; [apply Z.leb_le; lia|exact Hcomp]].
    apply Z.leb_le. unfold Code.parent. rewrite depth_make by lia. lia.
  - intros Hwf Hd. split; [apply Z.leb_le; lia|].
    pose proof Hwf as [Hr _]. pose proof (depth_range c) as Hdr.
    apply Z.bits_inj'. intros n Hn.
    change (Code.parent c (Code.depth c)) with (Code.toDepth c (Code.depth c)).
    rewrite toDepth_bit, depth_bit by lia.
    destruct (Z.ltb_spec n 5) as [H5|H5].
    + bit_cases.
    + rewrite orb_false_r. destruct (Z.leb_spec (3 * Code.depth c + 5) n) as [Hle|Hlt].
      * bit_cases. symmetry. apply (testbit_high c 64); lia.
      * rewrite andb_false_r, andb_false_l. symmetry.
        replace n with ((n - 5) + 5) by lia. apply wf_low_bits; [exact Hwf|lia].
Qed.

(** The cell of index 7 at depth 2, taken to depth 1 and then to depth 2. *)
Lemma parent_compose_witness :
  0 <= 1 <= 2 /\ 2 <= 19
  /\ Code.parent_assert (Code.make 0x1C0 0) 1 = true
  /\ Code.wf (Code.make 0x1C0 0) /\ Code.depth (Code.make 0x1C0 0) <= 19
  /\ (Code.parent_assert (Code.parent (Code.make 0x1C0 0) 1) 2 = true
      /\ Code.parent_assert (Code.make 0x1C0 0) 2 = true
      /\ Code.parent (Code.parent (Code.make 0x1C0 0) 1) 2 = Code.parent (Code.make 0x1C0 0) 2)
  /\ Code.toDepth (Code.toDepth (Code.make 0x1C0 0) 1) 2 = Code.toDepth (Code.make 0x1C0 0) 2
  /\ (Code.parent_assert (Code.make 0x1C0 0) (Code.depth (Code.make 0x1C0 0)) = true
      /\ Code.parent (Code.make 0x1C0 0) (Code.depth (Code.make 0x1C0 0)) = Code.make 0x1C0 0).
Proof.
  assert (Hp : 0 <= 1 <= 2) by lia.
  assert (Hq : 2 <= 19) by lia.
  assert (Ha : Code.parent_assert (Code.make 0x1C0 0) 1 = true) by reflexivity.
  pose proof (make_wf 0x1C0 0 ltac:(lia)) as Hwf.
  assert (Hd : Code.depth (Code.make 0x1C0 0) <= 19) by (vm_compute; discriminate).
  destruct (parent_compose (Code.make 0x1C0 0) 1 2 Hp Hq) as (H1 & H2 & H3).
  exact (conj Hp (conj Hq (conj Ha (conj Hwf (conj Hd
           (conj (H1 Ha) (conj H2 (H3 Hwf Hd)))))))).
Defined.

(** ** Siblings *)

Lemma sibling_sum_bit c i m : 0 <= i < 8 -> 0 <= m ->
  let d := Code.depth c in
  Z.testbit (add64 (shl64 (Z.shiftr c (5 + 3 * (d + 1))) (3 * (d + 1))) (shl64 i (3 * d))) m
  = (m <? 64) && ((3 * (d + 1) <=? m) && Z.testbit c (m + 5) || Z.testbit i (m - 3 * d)).
Proof.
  intros Hi Hm d. pose proof (depth_range c) as Hdr. fold d in Hdr.
  assert (Hsc : forall n, 0 <= n ->
            Z.testbit (shl64 (Z.shiftr c (5 + 3 * (d + 1))) (3 * (d + 1))) n
            = (n <? 64) && (3 * (d + 1) <=? n) && Z.testbit c (n + 5)).
  { intros n Hn. rewrite testbit_shl64 by lia.
    destruct (Z.leb_spec (3 * (d + 1)) n) as [Hle|Hlt].
    - rewrite Z.shiftr_spec by lia. rewrite andb_true_r.
      replace (n - 3 * (d + 1) + (5 + 3 * (d + 1))) with (n + 5) by lia. reflexivity.
    - rewrite Z.testbit_neg_r by lia. rewrite !andb_false_r. reflexivity. }
  assert (Hdisj : Z.land (shl64 (Z.shiftr c (5 + 3 * (d + 1))) (3 * (d + 1)))
                         (shl64 i (3 * d)) = 0).
  { apply Z.bits_inj'. intros n Hn.
    rewrite Z.land_spec, Hsc, testbit_shl64, Z.bits_0 by lia.
    destruct (Z.leb_spec (3 * (d + 1)) n) as [Hle|Hlt].
    - rewrite (testbit_high i 3 (n - 3 * d)) by (try (change (2 ^ 3) with 8); lia).
      rewrite !andb_false_r. reflexivity.
    - rewrite !andb_false_r. reflexivity. }
  unfold add64. rewrite Z.add_nocarry_lxor, Z.lxor_lor by exact Hdisj.
  rewrite testbit_wrap, Z.lor_spec, Hsc, testbit_shl64 by lia.
  destruct (m <? 64); reflexivity.
Qed.

Lemma sibling_bit c i n : 0 <= i < 8 -> 0 <= n ->
  let d := Code.depth c in
  Z.testbit (Code.sibling c i) n
  = (n <? 64) && ((3 * (d + 1) + 5 <=? n) && Z.testbit c n
                  || (3 * d + 5 <=? n) && Z.testbit i (n - 5 - 3 * d))
    || Z.testbit d n.
Proof.
  intros Hi Hn d. pose proof (depth_range c) as Hdr. fold d in Hdr.
  unfold Code.sibling. fold d. rewrite make_bit by lia. f_equal.
  destruct (Z.leb_spec (3 * d + 5) n) as [Hle|Hlt].
  - pose proof (sibling_sum_bit c i (n - 5) Hi ltac:(lia)) as Hs. cbv zeta in Hs.
    fold d in Hs. rewrite Hs. replace (n - 5 + 5) with n by lia.
    bit_cases.
  - rewrite !andb_false_r. cbn [andb orb].
    destruct (Z.leb_spec (3 * (d + 1) + 5) n); [lia|]. rewrite andb_false_r. reflexivity.
Qed.

(** Extra X7.  For a code of depth [d <= 18] that holds no index bits below
    its depth, and a slot index [i] in 0..7, [sibling(i)] is the code of the
    same depth with index [i] at that depth and with the same parent; the
    sibling at the code's own index is the code itself. *)
Theorem sibling_same_parent (c : Code.t) (i : Z) :
  Code.wf c -> Code.depth c <= 18 -> 0 <= i < 8 ->
  Code.depth (Code.sibling c i) = Code.depth c
  /\ Code.index (Code.sibling c i) (Code.depth c) = i
  /\ Code.parent (Code.sibling c i) (Code.depth c + 1) = Code.parent c (Code.depth c + 1)
  /\ Code.sibling c (Code.index c (Code.depth c)) = c.
Proof.
  intros Hwf Hd Hi. pose proof Hwf as [Hr _]. pose proof (depth_range c) as Hdr.
  assert (Hhigh : forall n, 64 <= n -> Z.testbit c n = false)
    by (intros n Hn; apply (testbit_high c 64); lia).
  split; [|split; [|split]].
  - unfold Code.sibling. apply depth_make. lia.
  - apply Z.bits_inj'. intros j Hj.
    rewrite index_bit by lia.
    pose proof (sibling_bit c i (j + 3 * Code.depth c + 5) Hi ltac:(lia)) as Hb.
    cbv zeta in Hb. rewrite Hb. clear Hb.
    rewrite (depth_high (Code.depth c)) by lia.
    replace (j + 3 * Code.depth c + 5 - 5 - 3 * Code.depth c) with j by lia.
    bit_cases; symmetry; apply (testbit_high i 3); try (change (2 ^ 3) with 8); lia.
  - apply Z.bits_inj'. intros n Hn.
    change (Code.parent ?x ?p) with (Code.toDepth x p).
    rewrite !toDepth_bit by lia. f_equal.
    destruct (Z.leb_spec (3 * (Code.depth c + 1) + 5) n) as [Hle|Hlt].
    + pose proof (sibling_bit c i n Hi Hn) as Hb. cbv zeta in Hb. rewrite Hb. clear Hb.
      rewrite (depth_high (Code.depth c)) by lia.
      rewrite (testbit_high i 3 (n - 5 - 3 * Code.depth c))
        by (try (change (2 ^ 3) with 8); lia).
      bit_cases.
    + rewrite !andb_false_r. reflexivity.
  - apply Z.bits_inj'. intros n Hn.
    pose proof (index_range c (Code.depth c)) as Hir.
    pose proof (sibling_bit c (Code.index c (Code.depth c)) n Hir Hn) as Hb.
    cbv zeta in Hb. rewrite Hb. clear Hb.
    destruct (Z.ltb_spec n 5) as [H5|H5].
    + pose proof (depth_bit c n Hn) as Hb. rewrite Hb. bit_cases.
    + rewrite (depth_high (Code.depth c)) by lia. rewrite orb_false_r.
      destruct (Z.leb_spec (3 * Code.depth c + 5) n) as [Hle|Hlt].
      * rewrite index_bit by lia.
        replace (n - 5 - 3 * Code.depth c + 3 * Code.depth c + 5) with n by lia.
        bit_cases; try (symmetry; apply Hhigh; lia).
        all: destruct (Z.testbit c n); reflexivity.
      * bit_cases. symmetry.
        replace n with ((n - 5) + 5) by lia. apply wf_low_bits; [exact Hwf|lia].
Qed.

Lemma sibling_same_parent_witness :
  Code.wf (Code.make 0x1C0 2) /\ Code.depth (Code.make 0x1C0 2) <= 18 /\ 0 <= 5 < 8
  /\ Code.depth (Code.sibling (Code.make 0x1C0 2) 5) = Code.depth (Code.make 0x1C0 2)
  /\ Code.index (Code.sibling (Code.make 0x1C0 2) 5) (Code.depth (Code.make 0x1C0 2)) = 5
  /\ Code.parent (Code.sibling (Code.make 0x1C0 2) 5) (Code.depth (Code.make 0x1C0 2) + 1)
     = Code.parent (Code.make 0x1C0 2) (Code.depth (Code.make 0x1C0 2) + 1)
  /\ Code.sibling (Code.make 0x1C0 2)
       (Code.index (Code.make 0x1C0 2) (Code.depth (Code.make 0x1C0 2)))
     = Code.make 0x1C0 2.
Proof.
  pose proof (make_wf 0x1C0 2 ltac:(lia)) as Hwf.
  assert (Hd : Code.depth (Code.make 0x1C0 2) <= 18) by (vm_compute; discriminate).
  assert (Hi : 0 <= 5 < 8) by lia.
  exact (conj Hwf (conj Hd (conj Hi (sibling_same_parent _ 5 Hwf Hd Hi)))).
Defined.

(** ** From a key to a code and back *)

Lemma ofKey_components (k : Key.t) :
  0 <= Key.depth k < 32 ->
  Code.depth (Code.ofKey k) = Key.depth k
  /\ Code.toKey (Code.ofKey k) 0 = wrap 20 (Key.get k 0)
  /\ Code.toKey (Code.ofKey k) 1 = wrap 20 (Key.get k 1)
  /\ Code.toKey (Code.ofKey k) 2 = wrap 19 (Key.get k 2).
Proof.
  intros Hd.
  assert (Hbit : forall n, 5 <= n ->
            Z.testbit (Code.ofKey k) n
            = (n <? 64) && Z.testbit (Key.get k ((n - 5) mod 3)) ((n - 5) / 3)).
  { intros n Hn. unfold Code.ofKey.
    rewrite Z.lor_spec, testbit_shl64, toCode_bit by lia.
    rewrite (depth_high (Key.depth k) n) by lia. bit_cases. }
  split; [|split; [|split]].
  - apply Z.bits_inj'. intros n Hn. rewrite depth_bit by exact Hn.
    unfold Code.ofKey. rewrite Z.lor_spec, testbit_shl64 by exact Hn.
    destruct (Z.ltb_spec n 5) as [H5|H5]; cbn [andb].
    + rewrite Z.testbit_neg_r by lia. rewrite andb_false_r. reflexivity.
    + symmetry. apply depth_high; lia.
  - apply Z.bits_inj'. intros j Hj.
    rewrite toKey_bit, testbit_wrap, Hbit by lia.
    replace ((3 * j + 0 + 5 - 5) mod 3) with 0 by (Z.div_mod_to_equations; lia).
    replace ((3 * j + 0 + 5 - 5) / 3) with j by (Z.div_mod_to_equations; lia).
    bit_cases.
  - apply Z.bits_inj'. intros j Hj.
    rewrite toKey_bit, testbit_wrap, Hbit by lia.
    replace ((3 * j + 1 + 5 - 5) mod 3) with 1 by (Z.div_mod_to_equations; lia).
    replace ((3 * j + 1 + 5 - 5) / 3) with j by (Z.div_mod_to_equations; lia).
    bit_cases.
  - apply Z.bits_inj'. intros j Hj.
    rewrite toKey_bit, testbit_wrap, Hbit by lia.
    replace ((3 * j + 2 + 5 - 5) mod 3) with 2 by (Z.div_mod_to_equations; lia).
    replace ((3 * j + 2 + 5 - 5) / 3) with j by (Z.div_mod_to_equations; lia).
    bit_cases.
Qed.

(** Extra X8.  [Code(key)] keeps the depth of the key, and [toKey(i)] reads
    back from it the component [key[i]] cut to the bits that fit beside the
    five depth bits of the 64-bit word: 20 bits of the first and of the
    second component, 19 bits of the third. *)
Theorem ofKey_toKey (k : Key.t) :
  0 <= Key.depth k < 32 ->
  Code.depth (Code.ofKey k) = Key.depth k
  /\ Code.toKey (Code.ofKey k) 0 = wrap 20 (Key.get k 0)
  /\ Code.toKey (Code.ofKey k) 1 = wrap 20 (Key.get k 1)
  /\ Code.toKey (Code.ofKey k) 2 = wrap 19 (Key.get k 2).
Proof. apply ofKey_components. Qed.

Lemma ofKey_toKey_witness :
  0 <= Key.depth (Key.make 0xFFFFF 0x12345 0x7FFFF 0) < 32
  /\ Code.depth (Code.ofKey (Key.make 0xFFFFF 0x12345 0x7FFFF 0))
     = Key.depth (Key.make 0xFFFFF 0x12345 0x7FFFF 0)
  /\ Code.toKey (Code.ofKey (Key.make 0xFFFFF 0x12345 0x7FFFF 0)) 0
     = wrap 20 (Key.get (Key.make 0xFFFFF 0x12345 0x7FFFF 0) 0)
  /\ Code.toKey (Code.ofKey (Key.make 0xFFFFF 0x12345 0x7FFFF 0)) 1
     = wrap 20 (Key.get (Key.make 0xFFFFF 0x12345 0x7FFFF 0) 1)
  /\ Code.toKey (Code.ofKey (Key.make 0xFFFFF 0x12345 0x7FFFF 0)) 2
     = wrap 19 (Key.get (Key.make 0xFFFFF 0x12345 0x7FFFF 0) 2).
Proof.
  assert (H : 0 <= Key.depth (Key.make 0xFFFFF 0x12345 0x7FFFF 0) < 32)
    by (cbn; lia).
  exact (conj H (ofKey_toKey _ H)).
Defined.

(** ** The indices above a code *)

Lemma sibling_index_above c i e :
  0 <= c < 2 ^ 64 -> 0 <= i < 8 -> Code.depth c < e ->
  Code.index (Code.sibling c i) e = Code.index c e.
Proof.
  intros Hc Hi He. pose proof (depth_range c) as Hdr.
  apply Z.bits_inj'. intros j Hj. rewrite !index_bit by lia.
  pose proof (sibling_bit c i (j + 3 * e + 5) Hi ltac:(lia)) as Hb.
  cbv zeta in Hb. rewrite Hb. clear Hb.
  rewrite (depth_high (Code.depth c)) by lia.
  rewrite (testbit_high i 3 (j + 3 * e + 5 - 5 - 3 * Code.depth c))
    by (try (change (2 ^ 3) with 8); lia).
  bit_cases. symmetry. apply (testbit_high c 64); lia.
Qed.

Lemma sibling_depth c i : 0 <= i < 8 -> Code.depth (Code.sibling c i) = Code.depth c.
Proof.
  intros Hi. pose proof (depth_range c). unfold Code.sibling. apply depth_make. lia.
Qed.

Lemma parent0_depth c : Code.depth c < 31 -> Code.depth (Code.parent0 c) = Code.depth c + 1.
Proof.
  intros Hd. pose proof (depth_range c). unfold Code.parent0, Code.parent.
  apply depth_make. lia.
Qed.

Lemma parent0_index_above c e :
  0 <= c < 2 ^ 64 -> Code.depth c < 31 -> Code.depth c < e ->
  Code.index (Code.parent0 c) e = Code.index c e.
Proof.
  intros Hc Hd He. pose proof (depth_range c) as Hdr.
  apply Z.bits_inj'. intros j Hj. rewrite !index_bit by lia.
  change (Code.parent0 c) with (Code.toDepth c (Code.depth c + 1)).
  rewrite toDepth_bit by lia.
  rewrite (depth_high (Code.depth c + 1)) by lia.
  bit_cases. symmetry. apply (testbit_high c 64); lia.
Qed.

(** ** From a key to a code and back, whole keys *)

Lemma ofKey_bit k n : 0 <= Key.depth k < 32 -> 0 <= n ->
  Z.testbit (Code.ofKey k) n
  = if n <? 5 then Z.testbit (Key.depth k) n
    else (n <? 64) && Z.testbit (Key.get k ((n - 5) mod 3)) ((n - 5) / 3).
Proof.
  intros Hd Hn. unfold Code.ofKey. rewrite Z.lor_spec, testbit_shl64 by exact Hn.
  destruct (Z.ltb_spec n 5) as [H5|H5].
  - rewrite Z.testbit_neg_r by lia. rewrite andb_false_r. reflexivity.
  - rewrite toCode_bit by lia. rewrite (depth_high (Key.depth k) n) by lia. bit_cases.
Qed.

Lemma normalize_small x d b :
  0 <= x < 2 ^ b -> 0 <= b <= 32 -> 0 <= d ->
  0 <= Key.normalize x d < 2 ^ b /\ Key.normalize (Key.normalize x d) d = Key.normalize x d.
Proof.
  intros Hx Hb Hd.
  assert (Hbits : forall j, 0 <= j ->
            Z.testbit (Key.normalize x d) j = (d <=? j) && (j <? b) && Z.testbit x j).
  { intros j Hj. rewrite normalize_bit by lia.
    destruct (Z.ltb_spec j b) as [Hlt|Hge].
    - destruct (Z.ltb_spec j 32); [reflexivity|lia].
    - rewrite (testbit_high x b j) by lia. rewrite !andb_false_r. reflexivity. }
  assert (Hnn : 0 <= Key.normalize x d).
  { unfold Key.normalize, shl32, wrap. apply Z.mod_pos_bound. lia. }
  split.
  - split; [exact Hnn|].
    destruct (Z.eq_dec (Key.normalize x d) 0) as [->|Hne]; [apply Z.pow_pos_nonneg; lia|].
    apply Z.log2_lt_pow2; [lia|].
    destruct (Z.ltb_spec (Z.log2 (Key.normalize x d)) b) as [Hlt|Hge]; [exact Hlt|].
    exfalso. pose proof (Z.bit_log2 (Key.normalize x d) ltac:(lia)) as Hb1.
    rewrite Hbits in Hb1 by (apply Z.log2_nonneg).
    destruct (Z.ltb_spec (Z.log2 (Key.normalize x d)) b); [lia|].
    rewrite andb_false_r in Hb1. discriminate.
  - apply Z.bits_inj'. intros j Hj. rewrite normalize_bit, Hbits by lia.
    bit_cases.
    all: try (destruct (Z.testbit x j); reflexivity).
Qed.

(** Extra X14.  A key survives the round trip through a code when it fits
    the code: for key components [x], [y] below [2^20] and [z] below [2^19]
    and a depth below 32, [Code(Key(x, y, z, depth))] is a well-formed code
    whose conversion back, [operator Key()], is the key. *)
Theorem key_code_roundtrip (x y z d : Z) :
  0 <= x < 2 ^ 20 -> 0 <= y < 2 ^ 20 -> 0 <= z < 2 ^ 19 -> 0 <= d < 32 ->
  Code.wf (Code.ofKey (Key.make x y z d))
  /\ Code.key (Code.ofKey (Key.make x y z d)) = Key.make x y z d.
Proof.
  intros Hx Hy Hz Hd. set (k := Key.make x y z d).
  assert (Hkd : 0 <= Key.depth k < 32) by exact Hd.
  destruct (normalize_small x d 20 Hx ltac:(lia) ltac:(lia)) as [Hnx Hix].
  destruct (normalize_small y d 20 Hy ltac:(lia) ltac:(lia)) as [Hny Hiy].
  destruct (normalize_small z d 19 Hz ltac:(lia) ltac:(lia)) as [Hnz Hiz].
  destruct (ofKey_components k Hkd) as (Hdep & H0 & H1 & H2).
  split.
  - split.
    + apply bits_range64.
      * intros n Hn. rewrite ofKey_bit by lia. bit_cases.
      * unfold Code.ofKey. apply Z.lor_nonneg. split; [|lia].
        unfold shl64, wrap. apply Z.mod_pos_bound. lia.
    + rewrite Hdep. change (Key.depth k) with d.
      apply Z.bits_inj'. intros n Hn.
      rewrite Z.land_spec, Z.shiftr_spec, Z.testbit_ones_nonneg, Z.bits_0 by lia.
      destruct (Z.ltb_spec n (3 * d)) as [Hlt|Hge]; [|apply andb_false_r].
      rewrite andb_true_r, ofKey_bit by lia.
      destruct (Z.ltb_spec (n + 5) 5); [lia|].
      replace (n + 5 - 5) with n by lia.
      assert (Hq : 0 <= n / 3 < d) by (Z.div_mod_to_equations; lia).
      assert (Hmod : n mod 3 = 0 \/ n mod 3 = 1 \/ n mod 3 = 2)
        by (pose proof (Z.mod_pos_bound n 3); lia).
      destruct Hmod as [Hr|[Hr|Hr]]; rewrite Hr;
        [change (Key.get k 0) with (Key.normalize x d)
        |change (Key.get k 1) with (Key.normalize y d)
        |change (Key.get k 2) with (Key.normalize z d)];
        rewrite normalize_bit by lia;
        (destruct (Z.leb_spec d (n / 3)); [lia|]); rewrite !andb_false_r; reflexivity.
  - unfold Code.key. rewrite Hdep, H0, H1, H2.
    change (Key.depth k) with d.
    change (Key.get k 0) with (Key.normalize x d).
    change (Key.get k 1) with (Key.normalize y d).
    change (Key.get k 2) with (Key.normalize z d).
    rewrite !wrap_small by assumption.
    unfold k, Key.make. rewrite Hix, Hiy, Hiz. reflexivity.
Qed.

Lemma key_code_roundtrip_witness :
  0 <= 0xABCDE < 2 ^ 20 /\ 0 <= 0x12345 < 2 ^ 20 /\ 0 <= 0x7FFFF < 2 ^ 19 /\ 0 <= 2 < 32
  /\ Code.wf (Code.ofKey (Key.make 0xABCDE 0x12345 0x7FFFF 2))
  /\ Code.key (Code.ofKey (Key.make 0xABCDE 0x12345 0x7FFFF 2))
     = Key.make 0xABCDE 0x12345 0x7FFFF 2.
Proof.
  assert (Hx : 0 <= 0xABCDE < 2 ^ 20) by (split; [discriminate|reflexivity]).
  assert (Hy : 0 <= 0x12345 < 2 ^ 20) by (split; [discriminate|reflexivity]).
  assert (Hz : 0 <= 0x7FFFF < 2 ^ 19) by (split; [discriminate|reflexivity]).
  assert (Hd : 0 <= 2 < 32) by lia.
  exact (conj Hx (conj Hy (conj Hz (conj Hd (key_code_roundtrip _ _ _ _ Hx Hy Hz Hd))))).
Defined.

(** * Further properties of the tree *)

Section LookupAfterApply.

Context {Data : Type} `{Payload Data}.

Local Abbreviation Leaf := (LeafNode Data).
Local Abbreviation Inner d := (InnerNode Data (NodeAt Data d)).

Variable f : Data -> Z -> Data.
Variable f2 : Data -> Data.
Variable code : Code.t.

Lemma applyTarget_found d (cur cur' : Inner d) dd :
  applyTarget f f2 code d cur = Some (cur', dd) ->
  dd = S d
  /\ IndexField.test (modified (base cur')) (Code.index code (Z.of_nat (S d))) = true.
Proof.
  intros Hrun. unfold applyTarget in Hrun.
  bind_case Hrun cur1 Hc. injection Hrun as <- <-. split; [reflexivity|].
  rewrite modified_markModified. apply test_assign_eq.
  pose proof (index_range code (Z.of_nat (S d))). lia.
Qed.

(** After [apply], the lookup of the same code walks down to the block that
    [apply] wrote: the descent stops at the depth [apply] returned, at a
    block whose modified bit for the code's slot is set. *)
Lemma applyAt_found : forall d (cur cur' : Inner d) dd path,
  applyAt f f2 code d cur = Some (cur', dd) ->
  exists blk,
    findFrom code (min_depth code) d path cur' = Some (path ++ pathFrom d code dd, blk, dd)
    /\ (dd <= S d)%nat
    /\ Z.of_nat dd = Code.depth code
    /\ IndexField.test (modified blk) (Code.index code (Z.of_nat dd)) = true.
Proof.
  pose proof (depth_range code) as Hdr.
  induction d as [|d IH]; intros cur cur' dd path Hrun.
  - rewrite applyAt_O in Hrun.
    destruct (Nat.eqb_spec (min_depth code) 1) as [Hm1|]; [|discriminate].
    destruct (Z.eqb_spec (Code.depth code) 0) as [Hd0|Hd0].
    + cbv zeta in Hrun. bind_case Hrun cur1 Hc. bind_case Hrun child Hg.
      injection Hrun as <- <-.
      set (index := Code.index code 1) in *.
      assert (Hi : isIndex index) by apply index_range.
      rewrite getChild_markModified in Hg.
      assert (Hp : IndexField.test (leaf cur1) index = false).
      { destruct (IndexField.test (leaf cur) index) eqn:Hl.
        - destruct (createChildren_leaf 0 cur cur1 index Hi Hl Hc) as (_ & Hlf & _).
          rewrite Hlf. apply test_assign_eq. apply Hi.
        - rewrite (createChildren_parent 0 cur index Hl) in Hc. injection Hc as <-. exact Hl. }
      eexists. split; [|split; [lia|split]].
      * cbn [findFrom]; norm_nodes. rewrite Hm1. cbn [Nat.eqb negb andb].
        fold index. rewrite leaf_setChild. nsimpl. rewrite Hp.
        replace (Code.depth code =? 0) with true by (symmetry; apply Z.eqb_eq; exact Hd0).
        cbn [negb andb].
        rewrite (getChild_setChild_eq _ index _ child)
          by (rewrite getChild_markModified; exact Hg).
        cbn [mbind option_bind]. reflexivity.
      * lia.
      * cbn [modified setModifiedField]. change (Z.of_nat 0) with 0.
        apply (test_assign_eq (modified child) (Code.index code 0) true).
        pose proof (index_range code 0). lia.
    + destruct (applyTarget_found 0 cur cur' dd Hrun) as [-> Hmod].
      exists (base cur'). split; [|split; [lia|split]].
      * cbn [findFrom]; norm_nodes. rewrite Hm1. cbn [Nat.eqb negb andb].
        replace (Code.depth code =? 0) with false by (symmetry; apply Z.eqb_neq; exact Hd0).
        cbn [andb]. rewrite pathFrom_self, app_nil_r. reflexivity.
      * unfold min_depth in Hm1. lia.
      * exact Hmod.
  - rewrite applyAt_S in Hrun.
    destruct (Nat.eqb_spec (min_depth code) (S (S d))) as [Hm|Hm].
    + destruct (applyTarget_found (S d) cur cur' dd Hrun) as [-> Hmod].
      exists (base cur'). split; [|split; [lia|split]].
      * cbn [findFrom]; norm_nodes. rewrite Hm, Nat.eqb_refl. cbn [negb andb].
        replace (Code.depth code =? 0) with false
          by (symmetry; apply Z.eqb_neq; unfold min_depth in Hm; lia).
        cbn [andb]. rewrite pathFrom_self, app_nil_r. reflexivity.
      * unfold min_depth in Hm. lia.
      * exact Hmod.
    + cbv zeta in Hrun. bind_case Hrun cur1 Hc. bind_case Hrun child Hg.
      destruct (applyAt f f2 code d child) as [[child' depth]|] eqn:Hrec;
        cbn [mbind option_bind] in Hrun; [|discriminate].
      injection Hrun as <- <-.
      set (index := Code.index code (Z.of_nat (S (S d)))) in *.
      assert (Hi : isIndex index) by apply index_range.
      rewrite getChild_markModified in Hg.
      assert (Hp : IndexField.test (leaf cur1) index = false).
      { destruct (IndexField.test (leaf cur) index) eqn:Hl.
        - destruct (createChildren_leaf (S d) cur cur1 index Hi Hl Hc) as (_ & Hlf & _).
          rewrite Hlf. apply test_assign_eq. apply Hi.
        - rewrite (createChildren_parent (S d) cur index Hl) in Hc.
          injection Hc as <-. exact Hl. }
      destruct (IH child child' depth (path ++ [index]) Hrec) as (blk & Hf & Hle & Hdd & Hmod).
      exists blk. split; [|split; [lia|split; [exact Hdd|exact Hmod]]].
      cbn [findFrom]; norm_nodes. fold index.
      replace (min_depth code =? S (S d))%nat with false
        by (symmetry; apply Nat.eqb_neq; exact Hm).
      rewrite leaf_setChild. nsimpl. rewrite Hp. cbn [negb andb].
      rewrite (getChild_setChild_eq _ index _ child)
        by (rewrite getChild_markModified; exact Hg).
      cbn [mbind option_bind]. rewrite Hf.
      rewrite pathFrom_step by exact Hle. rewrite <- app_assoc. reflexivity.
Qed.

Lemma applyAt_root_modified : forall d (cur cur' : Inner d) dd,
  applyAt f f2 code d cur = Some (cur', dd) ->
  IndexField.test (modified (base cur')) (Code.index code (Z.of_nat (S d))) = true.
Proof.
  intros d cur cur' dd Hrun.
  assert (Hmark : forall (cur1 : Inner d) c,
            IndexField.test
              (modified (base (setChild (markModified cur1 (Code.index code (Z.of_nat (S d)))
                                           true) (Code.index code (Z.of_nat (S d))) c)))
              (Code.index code (Z.of_nat (S d))) = true).
  { intros cur1 c. rewrite base_setChild, modified_markModified. apply test_assign_eq.
    pose proof (index_range code (Z.of_nat (S d))). lia. }
  destruct d as [|d].
  - rewrite applyAt_O in Hrun.
    destruct (min_depth code =? 1)%nat; [|discriminate].
    destruct (Code.depth code =? 0).
    + cbv zeta in Hrun. bind_case Hrun cur1 Hc. bind_case Hrun child Hg.
      injection Hrun as <- <-. apply (Hmark cur1).
    + apply (applyTarget_found 0 cur cur' dd Hrun).
  - rewrite applyAt_S in Hrun.
    destruct (min_depth code =? S (S d))%nat.
    + apply (applyTarget_found (S d) cur cur' dd Hrun).
    + cbv zeta in Hrun. bind_case Hrun cur1 Hc. bind_case Hrun child Hg.
      destruct (applyAt f f2 code d child) as [[child' depth]|] eqn:Hrec;
        cbn [mbind option_bind] in Hrun; [|discriminate].
      injection Hrun as <- <-. apply (Hmark cur1).
Qed.

End LookupAfterApply.

(** Extra X9.  A written node is found again: after [apply(code, f, f2)]
    without propagation, for a code within the depth of the tree, the lookup
    [operator()(code)] returns the very handle that [apply] returned, a
    handle to the block of the depth of the code, so that [exists(code)]
    holds and [at(code)] returns that handle. *)
Theorem find_after_apply {Data : Type} `{Payload Data} (r : nat) (m m' : @Map Data r)
    (code : Code.t) (f : Data -> Z -> Data) (f2 : Data -> Data) (node : Node) :
  Code.depth code <= Z.of_nat (rootDepth r) ->
  apply m code f f2 false = Return (node, m') ->
  find m' code = Some node
  /\ at_ m' code = Some (Some node)
  /\ exists_ m' code = Some true
  /\ node_dataDepth node = Code.depth code.
Proof.
  intros Hd Hrun. unfold apply in Hrun.
  destruct (Z.ltb_spec (Z.of_nat (rootDepth r)) (Code.depth code)) as [Hlt|_]; [lia|].
  destruct (applyAt f f2 code r (root m)) as [[root' depth]|] eqn:Hat;
    cbn [mbind option_bind lift] in Hrun; [|discriminate].
  injection Hrun as <- <-.
  destruct (applyAt_found f f2 code r (root m) root' depth [] Hat)
    as (blk & Hf & _ & Hdd & _).
  assert (Hl : leafNodeAndDepth (mkMap (automatic_prune m) root') code
               = Some (pathFrom r code depth, blk, depth)).
  { unfold leafNodeAndDepth. cbn [root]. exact Hf. }
  assert (Hfind : find (mkMap (automatic_prune m) root') code
                  = Some (mkNode (Some (blockPath r code depth)) code (Z.of_nat depth))).
  { unfold find. rewrite Hl. reflexivity. }
  split; [exact Hfind|]. split; [|split].
  - unfold at_. destruct (Z.leb_spec (Code.depth code) (Z.of_nat (rootDepth r))); [|lia].
    rewrite Hfind. reflexivity.
  - unfold exists_. rewrite Hl. cbn [mbind option_bind]. rewrite Hdd, Z.eqb_refl.
    reflexivity.
  - exact Hdd.
Qed.

(** Extra X10.  A written node is modified: after [apply(code, f, f2)]
    without propagation, for a code within the depth of the tree,
    [isModified(code)] holds; on a map of root depth up to 19, where the
    index at the root depth is defined, so does [isModified()] of the whole
    tree when the code lies in the octant of the root (index 0 at the root
    depth). *)
Theorem isModified_after_apply {Data : Type} `{Payload Data} (r : nat)
    (m m' : @Map Data r) (code : Code.t) (f : Data -> Z -> Data) (f2 : Data -> Data)
    (node : Node) :
  Code.depth code <= Z.of_nat (rootDepth r) ->
  apply m code f f2 false = Return (node, m') ->
  isModified m' code = Some true
  /\ (Z.of_nat (rootDepth r) <= 19 ->
      Code.index code (Z.of_nat (rootDepth r)) = rootIndex -> isModifiedRoot m' = true).
Proof.
  intros Hd Hrun. unfold apply in Hrun.
  destruct (Z.ltb_spec (Z.of_nat (rootDepth r)) (Code.depth code)) as [Hlt|_]; [lia|].
  destruct (applyAt f f2 code r (root m)) as [[root' depth]|] eqn:Hat;
    cbn [mbind option_bind lift] in Hrun; [|discriminate].
  injection Hrun as <- <-. split.
  - destruct (applyAt_found f f2 code r (root m) root' depth [] Hat)
      as (blk & Hf & _ & _ & Hmod).
    unfold isModified, leafNodeAndDepth. cbn [root].
    change (Nat.max (Z.to_nat (Code.depth code)) 1) with (min_depth code).
    rewrite Hf. cbn [mbind option_bind]. rewrite Hmod. reflexivity.
  - intros _ Hroot. unfold isModifiedRoot. cbn [root]. rewrite <- Hroot.
    apply (applyAt_root_modified f f2 code r (root m) root' depth Hat).
Qed.

(** ** The empty map *)

Section EmptyMap.

Context {Data : Type} `{Payload Data}.

Local Abbreviation Leaf := (LeafNode Data).
Local Abbreviation Inner d := (InnerNode Data (NodeAt Data d)).

(** On a block of which every slot is a leaf the descent stops at once. *)
Lemma findFrom_all_leaf code min_depth d path (node : Inner d) :
  (forall i, isIndex i -> IndexField.test (leaf node) i = true) ->
  findFrom code min_depth d path node = Some (path, base node, S d).
Proof.
  intros Hleaf. destruct d as [|d]; cbn [findFrom]; norm_nodes.
  - rewrite (Hleaf _ (index_range code 1)). cbn [negb]. rewrite !andb_false_r. reflexivity.
  - rewrite (Hleaf _ (index_range code _)). cbn [negb]. rewrite !andb_false_r. reflexivity.
Qed.

Lemma root_only r (m : @Map Data r) code :
  (forall i, isIndex i -> IndexField.test (leaf (root m)) i = true) ->
  (forall i, isIndex i -> IndexField.test (modified (base (root m))) i = false) ->
  find m code = Some (mkNode (Some []) code (Z.of_nat (rootDepth r)))
  /\ isModified m code = Some false.
Proof.
  intros Hleaf Hmod. unfold find, isModified, leafNodeAndDepth.
  rewrite findFrom_all_leaf by exact Hleaf. cbn [mbind option_bind]. split; [reflexivity|].
  rewrite Hmod by apply index_range. reflexivity.
Qed.

Lemma all_leaf_none_new (lf : IndexField.t) :
  IndexField.none (IndexField.inter (IndexField.compl lf) (IndexField.compl lf))
  = IndexField.all lf.
Proof.
  destruct (IndexField.all lf) eqn:Hall.
  - rewrite all_spec in Hall. apply none_spec. intros i Hi.
    rewrite test_inter, test_compl, Hall by exact Hi. reflexivity.
  - apply all_false in Hall. destruct Hall as (i & Hi & Hl).
    apply none_false. exists i. split; [exact Hi|].
    rewrite test_inter, test_compl, Hl by exact Hi. reflexivity.
Qed.

Lemma deleteChildren_all prune d (node node' : Inner d) :
  deleteChildren prune d node (IndexField.compl (leaf node)) = Some node' ->
  if IndexField.all (leaf node) then node' = node
  else prune = true -> children node' = None.
Proof.
  assert (Hbody : forall g : NodeAt Data d -> option (NodeAt Data d),
            deleteBody prune g node (IndexField.compl (leaf node)) = Some node' ->
            if IndexField.all (leaf node) then node' = node
            else prune = true -> children node' = None).
  { intros g Hrun. unfold deleteBody in Hrun. rewrite all_leaf_none_new in Hrun.
    destruct (IndexField.all (leaf node)) eqn:Hall.
    - injection Hrun as <-. reflexivity.
    - cbv zeta in Hrun.
      destruct (forChildren _ g _) as [node1|] eqn:Hfc; cbn [mbind option_bind] in Hrun;
        [|discriminate].
      destruct (forChildren_spec _ _ _ _ Hfc) as (_ & Hl & _). nsimpl.
      assert (Hfull : IndexField.all (leaf node1) = true).
      { apply all_spec. intros i Hi. rewrite Hl, test_union, test_compl by exact Hi.
        destruct (IndexField.test (leaf node) i); reflexivity. }
      rewrite Hfull in Hrun. injection Hrun as <-. intros ->. reflexivity. }
  destruct d as [|d].
  - rewrite deleteChildren_O. apply Hbody.
  - rewrite deleteChildren_S. apply Hbody.
Qed.

End EmptyMap.

(** Extra X11.  [clear(prune)] returns on every reachable map and leaves a
    map that contains only the root: the lookup of every code stops at the
    root block, no node is modified, and the payload of the root is the one
    [initRoot] sets.  The child block of the root is released when the root
    had children and [prune] or automatic pruning is set; a root without
    children keeps the block it holds. *)
Theorem clear_leaves_root_only {Data : Type} `{Payload Data} (r : nat) (m : @Map Data r)
    (rootData : Data) (prune : bool) :
  reachable false m ->
  exists m',
    clear rootData prune m = Some m'
    /\ automatic_prune m' = automatic_prune m
    /\ data (base (root m')) = rootData
    /\ (forall code,
          find m' code = Some (mkNode (Some []) code (Z.of_nat (rootDepth r)))
          /\ isModified m' code = Some false)
    /\ (if IndexField.all (leaf (root m)) then children (root m') = children (root m)
        else prune || automatic_prune m = true -> children (root m') = None).
Proof.
  intros Hreach.
  assert (Hwf : WF (S r) (root m)).
  { apply (Inv_WF false (S r)). apply reachable_Inv; [discriminate|exact Hreach]. }
  destruct (deleteChildren_total (prune || automatic_prune m) r (root m)
              (IndexField.compl (leaf (root m))) Hwf) as (root' & Hdel).
  exists (mkMap (automatic_prune m) (initRoot rootData root')).
  split; [unfold clear; rewrite Hdel; reflexivity|].
  split; [reflexivity|]. split; [reflexivity|]. split.
  - intros code. apply root_only; intros i Hi; cbn [root initRoot leaf base modified].
    + apply test_full_index, Hi.
    + apply test_empty.
  - pose proof (deleteChildren_all _ _ _ _ Hdel) as Hall. cbn [root initRoot children].
    destruct (IndexField.all (leaf (root m))); [rewrite Hall; reflexivity|exact Hall].
Qed.

(** ** Propagation, composed and at the edge *)

(** Extra X12.  Propagation is idempotent: after [propagateModified(false,
    max_depth)] with [max_depth] at least the root depth, a further
    [propagateModified], with any arguments, returns and changes nothing. *)
Theorem propagateModified_twice {Data : Type} `{Payload Data} (r : nat)
    (m m' : @Map Data r) (max_depth : nat) (keep' : bool) (max_depth' : nat) :
  (rootDepth r <= max_depth)%nat ->
  propagateModified false max_depth m = Some m' ->
  isModifiedRoot m' = false
  /\ propagateModified keep' max_depth' m' = Some m'.
Proof.
  intros Hmax Hrun.
  assert (Hbit : isModifiedRoot m' = false).
  { unfold propagateModified in Hrun. bind_case Hrun root' Hr. injection Hrun as <-.
    unfold isModifiedRoot. cbn [root].
    rewrite propagateModifiedAt_unfold in Hr.
    destruct (IndexField.test (modified (base (root m))) rootIndex) eqn:Hm; cbn [negb] in Hr.
    - bind_case Hr node1 Hc.
      destruct (Nat.leb_spec (S r) max_depth) as [_|Hgt];
        [|unfold rootDepth in Hmax; lia].
      bind_case Hr node2 Hu. injection Hr as <-.
      rewrite modified_markModified. apply test_assign_eq. unfold rootIndex. lia.
    - injection Hr as <-. exact Hm. }
  split; [exact Hbit|].
  unfold isModifiedRoot in Hbit. unfold propagateModified.
  rewrite propagateModifiedAt_unfold, Hbit. cbn [negb mbind option_bind].
  destruct m'. reflexivity.
Qed.

(** Extra X13.  A write to the root node with propagation, on a map whose
    root is a leaf without child block (a new map, for one), is undefined:
    [apply] marks the root as modified, and [propagateModified] then takes
    the child of the root through the null pointer. *)
Theorem apply_root_propagate_undefined {Data : Type} `{Payload Data} (r : nat)
    (m : @Map Data r) (code : Code.t) (f : Data -> Z -> Data) (f2 : Data -> Data) :
  IndexField.test (leaf (root m)) rootIndex = true ->
  children (root m) = None ->
  Code.depth code = Z.of_nat (rootDepth r) ->
  Code.index code (Z.of_nat (rootDepth r)) = rootIndex ->
  apply m code f f2 true = Undefined.
Proof.
  intros Hleaf Hch Hd Hidx. unfold apply.
  destruct (Z.ltb_spec (Z.of_nat (rootDepth r)) (Code.depth code)) as [Hlt|_]; [lia|].
  assert (Hmin : min_depth code = S r).
  { unfold min_depth. rewrite Hd. unfold rootDepth. lia. }
  assert (Hat : applyAt f f2 code r (root m)
                = Some (markModified (callFInner f (root m) rootIndex) rootIndex true, S r)).
  { assert (Ht : applyTarget f f2 code r (root m)
                 = Some (markModified (callFInner f (root m) rootIndex) rootIndex true, S r)).
    { unfold applyTarget. unfold rootDepth in Hidx. rewrite Hidx, Hleaf. reflexivity. }
    destruct r as [|r].
    - rewrite applyAt_O, Hmin. cbn [Nat.eqb].
      destruct (Z.eqb_spec (Code.depth code) 0) as [H0|_]; [unfold rootDepth in Hd; lia|].
      exact Ht.
    - rewrite applyAt_S, Hmin, Nat.eqb_refl. exact Ht. }
  rewrite Hat. cbn [mbind option_bind].
  assert (Hp : propagateModified false maxDepthLevels
                 (mkMap (automatic_prune m)
                    (markModified (callFInner f (root m) rootIndex) rootIndex true))
               = None).
  { unfold propagateModified. cbn [root automatic_prune].
    rewrite propagateModifiedAt_unfold, modified_markModified.
    rewrite test_assign_eq by (unfold rootIndex; lia). cbn [negb].
    assert (Hg : getChild (markModified (callFInner f (root m) rootIndex) rootIndex true)
                   rootIndex = None).
    { unfold getChild. nsimpl. cbn [callFInner withBase children]. rewrite Hch. reflexivity. }
    assert (Hc : propagateChild (automatic_prune m) false maxDepthLevels r
                   (markModified (callFInner f (root m) rootIndex) rootIndex true) rootIndex
                 = None).
    { destruct r as [|r]; unfold propagateChild; norm_nodes; rewrite Hg; reflexivity. }
    rewrite Hc. reflexivity. }
  rewrite Hp. reflexivity.
Qed.

(** ** [resetModified] *)

Section ResetFacts.

Context {Data : Type} `{Payload Data}.

Local Abbreviation Leaf := (LeafNode Data).
Local Abbreviation Inner d := (InnerNode Data (NodeAt Data d)).

Lemma SameData_S d (n n' : Inner d) :
  SameData (S d) n n' <->
  data (base n') = data (base n) /\ leaf n' = leaf n
  /\ (children n' = None <-> children n = None)
  /\ forall i (c : NodeAt Data d), isIndex i -> getChild n i = Some c ->
     exists c', getChild n' i = Some c' /\ SameData d c c'.
Proof. reflexivity. Qed.

Lemma SameData_refl : forall d (n : NodeAt Data d), SameData d n n.
Proof.
  induction d as [|d IH]; intros n; [reflexivity|].
  rewrite SameData_S. repeat split; try tauto.
  intros i c _ Hg. exists c. split; [exact Hg|apply IH].
Qed.

(** The children of the selected slots are replaced by children with the
    same data. *)
Lemma SameData_children d (node node1 : Inner d) sel
    (g : NodeAt Data d -> option (NodeAt Data d)) :
  (forall c c', g c = Some c' -> SameData d c c') ->
  forChildren sel g node = Some node1 ->
  SameData (S d) node node1.
Proof.
  intros Hg Hfc. destruct (forChildren_spec _ _ _ _ Hfc) as (Hb & Hl & Hnone & Hsel & Hrest).
  rewrite SameData_S. split; [rewrite Hb; reflexivity|]. split; [exact Hl|].
  split; [exact Hnone|]. intros i c Hi Hgc.
  destruct (IndexField.test sel i) eqn:Ht.
  - destruct (Hsel i Hi Ht) as (c0 & c' & Hg0 & Hc' & Hg').
    rewrite Hgc in Hg0. injection Hg0 as <-. exists c'. split; [exact Hg'|]. apply Hg, Hc'.
  - exists c. split; [|apply SameData_refl].
    rewrite Hrest; [exact Hgc|apply Hi|intros _; exact Ht].
Qed.

Lemma SameData_markAllInner d (node node1 : Inner d) m :
  SameData (S d) node node1 -> SameData (S d) node (markAllInner node1 m).
Proof. intros Hs. rewrite SameData_S in *. exact Hs. Qed.

Lemma SameData_markModified d (node node1 : Inner d) k b :
  SameData (S d) node node1 -> SameData (S d) node (markModified node1 k b).
Proof. intros Hs. rewrite SameData_S in *. exact Hs. Qed.

Lemma SameData_setChild d (node : Inner d) k (c0 c' : NodeAt Data d) :
  isIndex k -> getChild node k = Some c0 -> SameData d c0 c' ->
  SameData (S d) node (setChild node k c').
Proof.
  intros Hk Hg0 Hs. rewrite SameData_S.
  split; [rewrite base_setChild; reflexivity|]. split; [apply leaf_setChild|].
  split; [apply children_setChild_None|]. intros i c Hi Hg.
  destruct (Z.eq_dec k i) as [<-|Hne].
  - rewrite Hg in Hg0. injection Hg0 as <-. exists c'.
    split; [apply (getChild_setChild_eq _ _ _ _ Hg)|exact Hs].
  - exists c. split; [|apply SameData_refl].
    rewrite getChild_setChild_ne; [exact Hg|apply Hk|apply Hi|exact Hne].
Qed.

Lemma resetModifiedRecurs_SameData max_depth : forall d (node node' : Inner d),
  resetModifiedRecurs max_depth d node = Some node' -> SameData (S d) node node'.
Proof.
  induction d as [|d IH]; intros node node' Hrun.
  - rewrite resetModifiedRecurs_O in Hrun. cbv zeta in Hrun.
    destruct (IndexField.none _).
    + apply (inj Some) in Hrun; subst node'.
      destruct (1 <=? max_depth)%nat; [apply SameData_markAllInner|]; apply SameData_refl.
    + bind_case Hrun node1 Hfc. apply (inj Some) in Hrun; subst node'.
      assert (Hs : SameData 1 node node1).
      { eapply (SameData_children 0); [|exact Hfc]. intros c c' [= <-]. reflexivity. }
      destruct (1 <=? max_depth)%nat; [apply SameData_markAllInner|]; exact Hs.
  - rewrite resetModifiedRecurs_S in Hrun. cbv zeta in Hrun.
    destruct (IndexField.none _).
    + apply (inj Some) in Hrun; subst node'.
      destruct (S (S d) <=? max_depth)%nat; [apply SameData_markAllInner|];
        apply SameData_refl.
    + bind_case Hrun node1 Hfc. apply (inj Some) in Hrun; subst node'.
      assert (Hs : SameData (S (S d)) node node1).
      { eapply (SameData_children (S d)); [|exact Hfc]. exact IH. }
      destruct (S (S d) <=? max_depth)%nat; [apply SameData_markAllInner|]; exact Hs.
Qed.

Lemma resetModifiedRecurs_total max_depth : forall d (node : Inner d),
  WF (S d) node -> Sized (S d) node ->
  exists node', resetModifiedRecurs max_depth d node = Some node'.
Proof.
  induction d as [|d IH]; intros node Hwf Hs.
  - rewrite resetModifiedRecurs_O. cbv zeta.
    destruct (IndexField.none _) eqn:Hnone; [eauto|].
    apply none_false in Hnone. destruct Hnone as (k & Hk & Ht).
    destruct (selected_parent node k Hk Ht) as [Hp _].
    rewrite WF_S in Hwf. destruct (Hwf k Hk Hp) as (ck & Hgk & _).
    assert (Hne : children node <> None).
    { unfold getChild in Hgk. destruct (children node); [discriminate|discriminate]. }
    rewrite Sized_S in Hs.
    destruct (forChildren_total
                (fun child : Leaf => Some (setModifiedField child IndexField.empty))
                IndexField.full node) as (node1 & Hfc).
    { intros j Hj _. destruct (SizedBlock_getChild_total _ node j Hs Hne Hj) as (c & Hc).
      eauto. }
    rewrite Hfc. cbn [mbind option_bind]. eauto.
  - rewrite resetModifiedRecurs_S. cbv zeta.
    destruct (IndexField.none _) eqn:Hnone; [eauto|].
    rewrite Sized_S in Hs. pose proof Hwf as Hwf'. rewrite WF_S in Hwf'.
    destruct (forChildren_total (resetModifiedRecurs max_depth d)
                (IndexField.inter (modified (base node)) (IndexField.compl (leaf node)))
                node) as (node1 & Hfc).
    { intros j Hj Ht. destruct (selected_parent node j Hj Ht) as [Hp _].
      destruct (Hwf' j Hj Hp) as (c & Hc & Hwfc). norm_nodes.
      destruct (IH c Hwfc (SizedBlock_getChild _ node j c Hs Hc)) as (c' & Hc').
      eauto. }
    rewrite Hfc. cbn [mbind option_bind]. eauto.
Qed.

Lemma resetModifiedAt_spec max_depth d (node : Inner d) index :
  isIndex index ->
  Inv false (S d) node -> Sized (S d) node ->
  exists node',
    resetModifiedAt max_depth d node index = Some node'
    /\ SameData (S d) node node'
    /\ ((S d <= max_depth)%nat -> CleanSlot d node' index).
Proof.
  intros Hi Hn Hs. unfold resetModifiedAt.
  assert (Hbit : forall n : Inner d,
            IndexField.test (modified (base (markModified n index false))) index = false).
  { intros n. rewrite modified_markModified. apply test_assign_eq. apply Hi. }
  destruct (IndexField.test (leaf node) index) eqn:Hl; cbn [orb].
  { eexists. split; [reflexivity|]. split.
    - destruct (S d <=? max_depth)%nat; [apply SameData_markModified|]; apply SameData_refl.
    - intros Hle. apply Nat.leb_le in Hle. rewrite Hle. split; [apply Hbit|].
      intros c Hp. unfold isParentSlot in Hp. nsimpl. congruence. }
  pose proof Hn as Hn'. rewrite Inv_S in Hn'.
  destruct (Hn' index Hi Hl) as (c0 & Hg0 & Hc0 & Hu).
  destruct (IndexField.test (modified (base node)) index) eqn:Hm; cbn [negb].
  2:{ eexists. split; [reflexivity|]. split.
      - destruct (S d <=? max_depth)%nat; [apply SameData_markModified|]; apply SameData_refl.
      - intros Hle. apply Nat.leb_le in Hle. rewrite Hle. split; [apply Hbit|].
        intros c _ Hg. rewrite getChild_markModified, Hg0 in Hg. injection Hg as <-.
        apply Hu. reflexivity. }
  assert (Hstep : exists c',
            match d return Inner d -> option (Inner d) with
            | O => fun node =>
                c ← getChild node index;
                Some (setChild node index (setModifiedField c IndexField.empty))
            | S d' => fun node =>
                c ← getChild node index;
                c ← resetModifiedRecurs max_depth d' c;
                Some (setChild node index c)
            end node = Some (setChild node index c')
            /\ SameData d c0 c' /\ ((d <= max_depth)%nat -> Clean d c')).
  { destruct d as [|d]; norm_nodes.
    - rewrite Hg0. cbn [mbind option_bind]. eexists. split; [reflexivity|].
      split; [reflexivity|]. intros _. rewrite Clean_O. intros i _. nsimpl. apply test_empty.
    - rewrite Hg0. cbn [mbind option_bind].
      rewrite Sized_S in Hs.
      destruct (resetModifiedRecurs_total max_depth d c0 (Inv_WF false _ _ Hc0)
                  (SizedBlock_getChild _ node index c0 Hs Hg0)) as (c' & Hrec).
      rewrite Hrec. cbn [mbind option_bind]. exists c'. split; [reflexivity|].
      split; [apply (resetModifiedRecurs_SameData max_depth d c0 c' Hrec)|].
      apply (resetModifiedRecurs_Inv max_depth d c0 c' Hc0 Hrec). }
  destruct Hstep as (c' & -> & Hsd & Hcl). cbn [mbind option_bind].
  eexists. split; [reflexivity|]. split.
  - destruct (S d <=? max_depth)%nat; [apply SameData_markModified|];
      apply (SameData_setChild d node index c0 c' Hi Hg0 Hsd).
  - intros Hle. pose proof Hle as Hle'. apply Nat.leb_le in Hle'. rewrite Hle'.
    split; [apply Hbit|]. intros c _ Hg.
    rewrite getChild_markModified, (getChild_setChild_eq _ _ _ _ Hg0) in Hg.
    injection Hg as <-. apply Hcl. lia.
Qed.

End ResetFacts.

(** Extra X15.  [resetModified(max_depth)] with [max_depth] at least the
    root depth returns on every reachable map; afterwards no node below the
    root is modified, and nothing but modified bits has changed: every block
    has the payload, the leaf bits and the children it had. *)
Theorem resetModified_clears_flags_only {Data : Type} `{Payload Data} (r : nat)
    (m : @Map Data r) (max_depth : nat) :
  reachable false m ->
  (rootDepth r <= max_depth)%nat ->
  exists m',
    resetModified max_depth m = Some m'
    /\ automatic_prune m' = automatic_prune m
    /\ isModifiedRoot m' = false
    /\ (forall path b, slotModified (S r) (rootIndex :: path) (root m') = Some b ->
        b = false)
    /\ SameData (S r) (root m) (root m').
Proof.
  intros Hreach Hmax.
  assert (Hn : Inv false (S r) (root m)) by (apply reachable_Inv; [discriminate|exact Hreach]).
  pose proof (reachable_Sized false r m Hreach) as Hs.
  destruct (resetModifiedAt_spec max_depth r (root m) rootIndex rootIndex_isIndex Hn Hs)
    as (root' & Hrun & Hsd & Hcl).
  exists (mkMap (automatic_prune m) root').
  split; [unfold resetModified; rewrite Hrun; reflexivity|].
  split; [reflexivity|]. specialize (Hcl Hmax). cbn [root]. split; [apply Hcl|]. split.
  - apply CleanSlot_slot; [exact rootIndex_isIndex|exact Hcl].
  - exact Hsd.
Qed.

(** ** The modified flag of the root *)

Section RootFlag.

Context {Data : Type} `{Payload Data}.

Local Abbreviation Leaf := (LeafNode Data).
Local Abbreviation Inner d := (InnerNode Data (NodeAt Data d)).

Lemma findFrom_Clean code min_depth : forall d path (node : Inner d) p blk depth,
  Clean (S d) node ->
  findFrom code min_depth d path node = Some (p, blk, depth) ->
  forall i, isIndex i -> IndexField.test (modified blk) i = false.
Proof.
  induction d as [|d IH]; intros path node p blk depth Hcl Hf i Hi;
    pose proof Hcl as Hcl'; rewrite Clean_S in Hcl'; destruct Hcl' as [Hm Hc];
    cbn [findFrom] in Hf; norm_nodes.
  - destruct (negb (min_depth =? 1)%nat && _); [discriminate|].
    destruct (IndexField.test (leaf node) (Code.index code 1)) eqn:Hl.
    + rewrite andb_false_r in Hf. injection Hf as <- <- <-. apply Hm, Hi.
    + destruct (Code.depth code =? 0); cbn [negb andb] in Hf.
      * bind_case Hf c Hg. injection Hf as <- <- <-.
        specialize (Hc _ c (index_range code 1) Hl Hg). rewrite Clean_O in Hc. apply Hc, Hi.
      * injection Hf as <- <- <-. apply Hm, Hi.
  - destruct (IndexField.test (leaf node) (Code.index code (Z.of_nat (S (S d))))) eqn:Hl.
    + rewrite !andb_false_r in Hf. injection Hf as <- <- <-. apply Hm, Hi.
    + destruct (negb (min_depth =? S (S d))%nat); cbn [negb andb] in Hf.
      * bind_case Hf c Hg.
        apply (IH _ c p blk depth (Hc _ c (index_range code _) Hl Hg) Hf i Hi).
      * destruct (Code.depth code =? 0); cbn [andb] in Hf; [discriminate|].
        injection Hf as <- <- <-. apply Hm, Hi.
Qed.

Lemma findFrom_unmodified code min_depth d path (node : Inner d) p blk depth :
  Inv false (S d) node ->
  IndexField.test (modified (base node)) (Code.index code (Z.of_nat (S d))) = false ->
  findFrom code min_depth d path node = Some (p, blk, depth) ->
  IndexField.test (modified blk) (Code.index code (Z.of_nat depth)) = false.
Proof.
  intros Hn Hm Hf. pose proof Hn as Hn'. rewrite Inv_S in Hn'.
  destruct d as [|d]; cbn [findFrom] in Hf; norm_nodes.
  - destruct (negb (min_depth =? 1)%nat && _); [discriminate|].
    destruct (IndexField.test (leaf node) (Code.index code 1)) eqn:Hl.
    + rewrite andb_false_r in Hf. injection Hf as <- <- <-. exact Hm.
    + destruct (Code.depth code =? 0); cbn [negb andb] in Hf.
      * bind_case Hf c Hg. injection Hf as <- <- <-.
        destruct (Hn' _ (index_range code 1) Hl) as (c0 & Hg0 & _ & Hu).
        rewrite Hg in Hg0. injection Hg0 as <-.
        destruct (Hu Hm) as [Hcl _]. rewrite Clean_O in Hcl. apply Hcl, index_range.
      * injection Hf as <- <- <-. exact Hm.
  - destruct (IndexField.test (leaf node) (Code.index code (Z.of_nat (S (S d))))) eqn:Hl.
    + rewrite !andb_false_r in Hf. injection Hf as <- <- <-. exact Hm.
    + destruct (negb (min_depth =? S (S d))%nat); cbn [negb andb] in Hf.
      * bind_case Hf c Hg.
        destruct (Hn' _ (index_range code _) Hl) as (c0 & Hg0 & _ & Hu).
        norm_nodes. rewrite Hg in Hg0. injection Hg0 as <-.
        destruct (Hu Hm) as [Hcl _].
        apply (findFrom_Clean code min_depth d _ c p blk depth Hcl Hf), index_range.
      * destruct (Code.depth code =? 0); cbn [andb] in Hf; [discriminate|].
        injection Hf as <- <- <-. exact Hm.
Qed.

End RootFlag.

(** Extra X17.  The modified flag of the root covers the tree: on every
    reachable map of root depth up to 19 for which [isModified()] is false,
    [isModified(code)] is false for every code within the depth of the tree
    that lies in the octant of the root. *)
Theorem unmodified_root_nothing_modified {Data : Type} `{Payload Data} (r : nat)
    (m : @Map Data r) (code : Code.t) :
  Z.of_nat (rootDepth r) <= 19 ->
  reachable false m ->
  isModifiedRoot m = false ->
  Code.depth code <= Z.of_nat (rootDepth r) ->
  Code.index code (Z.of_nat (rootDepth r)) = rootIndex ->
  isModified m code = Some false.
Proof.
  intros _ Hreach Hroot Hd Hidx. pose proof (depth_range code) as Hdr.
  assert (Hn : Inv false (S r) (root m)) by (apply reachable_Inv; [discriminate|exact Hreach]).
  destruct (findFrom_spec code (Nat.max (Z.to_nat (Code.depth code)) 1) r [] (root m)
              (Inv_WF false _ _ Hn) eq_refl) as (blk & depth & Hf & _).
  { unfold rootDepth in Hd. lia. }
  unfold isModified, leafNodeAndDepth. rewrite Hf. cbn [mbind option_bind]. f_equal.
  eapply (findFrom_unmodified code _ r [] (root m)); [exact Hn| |exact Hf].
  unfold rootDepth in Hidx. rewrite Hidx. exact Hroot.
Qed.

(** ** Handles: resolving, siblings, parents *)

Section Handles.

Context {Data : Type} `{Payload Data}.

Local Abbreviation Leaf := (LeafNode Data).
Local Abbreviation Inner d := (InnerNode Data (NodeAt Data d)).

(** The pointer a lookup returns leads, from the block the lookup started
    at, to a block at which the lookup stops again. *)
Lemma findFrom_pointer code min_depth : forall d path (node : Inner d) ptr blk depth,
  findFrom code min_depth d path node = Some (ptr, blk, depth) ->
  (depth <= S d)%nat
  /\ (depth = O -> Code.depth code = 0)
  /\ exists rest,
       ptr = path ++ rest /\ length rest = (S d - depth)%nat
       /\ ((1 <= depth)%nat ->
           findFromPointer code min_depth d path rest node = Some (ptr, blk, depth)).
Proof.
  induction d as [|d IH]; intros path node ptr blk depth Hf.
  - pose proof Hf as Hf0. cbn [findFrom] in Hf; norm_nodes.
    destruct (negb (min_depth =? 1)%nat && _); [discriminate|].
    destruct ((Code.depth code =? 0) && _) eqn:Hc.
    + bind_case Hf c Hg. injection Hf as <- <- <-.
      apply andb_prop in Hc. destruct Hc as [Hd0 _]. apply Z.eqb_eq in Hd0.
      split; [lia|]. split; [intros _; exact Hd0|].
      exists [Code.index code 1]. split; [reflexivity|]. split; [reflexivity|]. lia.
    + injection Hf as <- <- <-. split; [lia|]. split; [discriminate|].
      exists []. split; [symmetry; apply app_nil_r|]. split; [reflexivity|].
      intros _. cbn [findFromPointer]. exact Hf0.
  - pose proof Hf as Hf0. cbn [findFrom] in Hf; norm_nodes.
    destruct (negb (min_depth =? S (S d))%nat && _) eqn:Hc1.
    + bind_case Hf c Hg.
      destruct (IH _ c ptr blk depth Hf) as (Hle & H0 & rest & -> & Hlen & Hptr).
      split; [lia|]. split; [exact H0|].
      exists (Code.index code (Z.of_nat (S (S d))) :: rest).
      split; [rewrite <- app_assoc; reflexivity|]. split; [cbn [length]; lia|].
      intros H1. cbn [findFromPointer]; norm_nodes. rewrite Hg. cbn [mbind option_bind].
      apply Hptr, H1.
    + destruct ((Code.depth code =? 0) && _); [discriminate|].
      injection Hf as <- <- <-. split; [lia|]. split; [discriminate|].
      exists []. split; [symmetry; apply app_nil_r|]. split; [cbn [length]; lia|].
      intros _. cbn [findFromPointer]. exact Hf0.
Qed.

(** The lookup never stops below the depth of the code. *)
Lemma findFrom_depth_ge code : forall d path (node : Inner d) ptr blk depth,
  (Nat.max (Z.to_nat (Code.depth code)) 1 <= S d)%nat ->
  findFrom code (Nat.max (Z.to_nat (Code.depth code)) 1) d path node
  = Some (ptr, blk, depth) ->
  Code.depth code <= Z.of_nat depth.
Proof.
  pose proof (depth_range code) as Hdr.
  induction d as [|d IH]; intros path node ptr blk depth Hmin Hf;
    cbn [findFrom] in Hf; norm_nodes.
  - destruct (negb _ && _); [discriminate|].
    destruct ((Code.depth code =? 0) && _) eqn:Hc0.
    + bind_case Hf ch Hg. injection Hf as _ _ <-.
      apply andb_prop in Hc0. destruct Hc0 as [H0 _]. apply Z.eqb_eq in H0. lia.
    + injection Hf as _ _ <-. lia.
  - destruct (negb (_ =? S (S d))%nat && _) eqn:Hc1.
    + bind_case Hf ch Hg. apply andb_prop in Hc1. destruct Hc1 as [Hne1 _].
      apply negb_true_iff, Nat.eqb_neq in Hne1.
      apply (IH _ ch ptr blk depth ltac:(lia) Hf).
    + destruct ((Code.depth code =? 0) && _); [discriminate|].
      injection Hf as _ _ <-. lia.
Qed.

(** The lookup reads a code only through its depth and its indices above
    that depth. *)
Lemma findFrom_ext c1 c2 min_depth : forall d path (node : Inner d),
  min_depth = Nat.max (Z.to_nat (Code.depth c1)) 1 ->
  Code.depth c1 = Code.depth c2 ->
  (min_depth <= S d)%nat ->
  (forall e, Code.depth c1 < e -> Code.index c1 e = Code.index c2 e) ->
  findFrom c1 min_depth d path node = findFrom c2 min_depth d path node.
Proof.
  pose proof (depth_range c1) as Hdr.
  induction d as [|d IH]; intros path node Hmin Hd Hle Hidx; cbn [findFrom]; norm_nodes.
  - assert (Hm1 : min_depth = 1%nat) by lia. rewrite Hm1. cbn [Nat.eqb negb andb].
    rewrite <- Hd. destruct (Z.eqb_spec (Code.depth c1) 0) as [H0|H0]; [|reflexivity].
    rewrite <- (Hidx 1) by lia. reflexivity.
  - destruct (Nat.eqb_spec min_depth (S (S d))) as [Hm|Hm]; cbn [negb andb].
    + rewrite <- Hd.
      destruct (Z.eqb_spec (Code.depth c1) 0) as [H0|H0]; [lia|reflexivity].
    + rewrite <- (Hidx (Z.of_nat (S (S d)))) by lia. rewrite <- Hd.
      destruct (IndexField.test (leaf node) (Code.index c1 (Z.of_nat (S (S d)))));
        cbn [negb andb]; [rewrite andb_false_r; reflexivity|].
      destruct (getChild node (Code.index c1 (Z.of_nat (S (S d))))) as [c|];
        cbn [mbind option_bind]; [|reflexivity].
      apply IH; [exact Hmin|exact Hd|lia|exact Hidx].
Qed.

(** A lookup that stops above the depth of the code stops at the same block
    for the parent code. *)
Lemma findFrom_parent c p : forall d path (node : Inner d) ptr blk depth,
  Code.depth p = Code.depth c + 1 ->
  (forall e, Code.depth c < e -> Code.index p e = Code.index c e) ->
  (Nat.max (Z.to_nat (Code.depth c)) 1 <= S d)%nat ->
  findFrom c (Nat.max (Z.to_nat (Code.depth c)) 1) d path node = Some (ptr, blk, depth) ->
  Code.depth c < Z.of_nat depth ->
  findFrom p (Nat.max (Z.to_nat (Code.depth p)) 1) d path node = Some (ptr, blk, depth).
Proof.
  pose proof (depth_range c) as Hdr.
  set (mc := Nat.max (Z.to_nat (Code.depth c)) 1).
  set (mp := Nat.max (Z.to_nat (Code.depth p)) 1).
  induction d as [|d IH]; intros path node ptr blk depth Hdp Hidx Hle Hf Hgt;
    cbn [findFrom] in Hf |- *; norm_nodes.
  - assert (Hm1 : mc = 1%nat) by lia. rewrite Hm1 in Hf. cbn [Nat.eqb negb andb] in Hf.
    destruct ((Code.depth c =? 0) && _) eqn:Hc.
    + bind_case Hf ch Hg. injection Hf as <- <- <-. lia.
    + injection Hf as <- <- <-.
      assert (Hp1 : mp = 1%nat) by (unfold mp; lia). rewrite Hp1. cbn [Nat.eqb negb andb].
      replace (Code.depth p =? 0) with false by (symmetry; apply Z.eqb_neq; lia).
      reflexivity.
  - destruct (negb (mc =? S (S d))%nat && _) eqn:Hc1.
    + bind_case Hf ch Hg. apply andb_prop in Hc1. destruct Hc1 as [Hne Hl].
      apply negb_true_iff, Nat.eqb_neq in Hne.
      destruct (findFrom_pointer c mc d _ ch ptr blk depth Hf) as (Hdle & _).
      rewrite (Hidx (Z.of_nat (S (S d)))) by lia. rewrite Hl.
      replace (mp =? S (S d))%nat with false by (symmetry; apply Nat.eqb_neq; unfold mp; lia).
      cbn [negb andb]. rewrite Hg. cbn [mbind option_bind].
      apply IH; [exact Hdp|exact Hidx|unfold mc in *; lia|exact Hf|exact Hgt].
    + destruct ((Code.depth c =? 0) && _); [discriminate|].
      injection Hf as <- <- <-.
      assert (Hne : (mc =? S (S d))%nat = false) by (apply Nat.eqb_neq; unfold mc; lia).
      rewrite Hne in Hc1. cbn [negb andb] in Hc1. apply negb_false_iff in Hc1.
      rewrite (Hidx (Z.of_nat (S (S d)))) by lia. rewrite Hc1. cbn [negb].
      rewrite !andb_false_r. reflexivity.
Qed.

Lemma find_findNode r (m : @Map Data r) code n :
  find m code = Some n -> findNode m n = Some n.
Proof.
  intros Hfind. unfold find, leafNodeAndDepth in Hfind.
  destruct (findFrom code _ r [] (root m)) as [[[ptr blk] depth]|] eqn:Hf;
    cbn [mbind option_bind] in Hfind; [|discriminate].
  injection Hfind as <-.
  destruct (findFrom_pointer code _ r [] (root m) ptr blk depth Hf)
    as (Hle & H0 & rest & Hptr & Hlen & Hfp).
  cbn [app] in Hptr. subst rest.
  unfold findNode, isActualData, node_depth. cbn [node_code node_dataDepth node_data].
  destruct (Z.eqb_spec (Code.depth code) (Z.of_nat depth)) as [Heq|Hne]; [reflexivity|].
  cbn [mbind option_bind]. rewrite Hlen.
  replace (Z.of_nat (S r) - Z.of_nat (S r - depth) =? Z.of_nat depth) with true
    by (symmetry; apply Z.eqb_eq; lia).
  cbn [negb]. rewrite Hfp; [reflexivity|].
  destruct depth; [rewrite H0 in Hne by reflexivity; contradiction|lia].
Qed.

End Handles.

(** Extra X18.  A handle returned by a lookup is stable: resolving it again
    with [operator()(Node)] returns the same handle, on every map and for
    every code for which the lookup returns. *)
Theorem findNode_of_find {Data : Type} `{Payload Data} (r : nat) (m : @Map Data r)
    (code : Code.t) (n : Node) :
  find m code = Some n ->
  findNode m n = Some n.
Proof. apply find_findNode. Qed.

(** Extra X19.  Taking a sibling commutes with the lookup: on a map of
    root depth up to 19, for a code of depth at most 18 and within the depth
    of the tree, [sibling(node, i)] of
    the handle that the lookup of the code returns is the handle that the
    lookup of [code.sibling(i)] returns; both point to the same block. *)
Theorem sibling_of_find {Data : Type} `{Payload Data} (r : nat) (m : @Map Data r)
    (code : Code.t) (n : Node) (i : Z) :
  Z.of_nat (rootDepth r) <= 19 ->
  0 <= code < 2 ^ 64 ->
  Code.depth code <= 18 ->
  Code.depth code <= Z.of_nat (rootDepth r) ->
  0 <= i < 8 ->
  find m code = Some n ->
  sibling m n i = find m (Code.sibling code i)
  /\ sibling m n i
     = Some (mkNode (node_data n) (Code.sibling code i) (node_dataDepth n)).
Proof.
  intros _ Hc Hd Hr Hi Hfind. pose proof (depth_range code) as Hdr.
  assert (Hs : sibling m n i
               = Some (mkNode (node_data n) (Code.sibling code i) (node_dataDepth n))).
  { unfold sibling. rewrite (find_findNode r m code n Hfind). cbn [mbind option_bind].
    unfold find in Hfind. destruct (leafNodeAndDepth m code) as [[[ptr blk] depth]|];
      cbn [mbind option_bind] in Hfind; [|discriminate].
    injection Hfind as <-. reflexivity. }
  split; [|exact Hs]. rewrite Hs.
  unfold find, leafNodeAndDepth in *. rewrite (sibling_depth code i Hi).
  rewrite <- (findFrom_ext code (Code.sibling code i) _ r [] (root m) eq_refl).
  - destruct (findFrom code _ r [] (root m)) as [[[ptr blk] depth]|];
      cbn [mbind option_bind] in *; [|discriminate].
    injection Hfind as <-. reflexivity.
  - symmetry. apply sibling_depth, Hi.
  - unfold rootDepth in Hr. lia.
  - intros e He. symmetry. apply sibling_index_above; assumption.
Qed.

(** Extra X20.  Taking the parent commutes with the lookup: on a map of
    root depth at most 19, for a code below the root depth,
    [parentChecked] of the handle that the lookup of the code returns raises
    no error and is the lookup of [code.parent()].  On a handle of the root
    depth or above it raises [std::out_of_range]. *)
Theorem parentChecked_of_find {Data : Type} `{Payload Data} (r : nat) (m : @Map Data r)
    (code : Code.t) (n : Node) :
  (0 <= code < 2 ^ 64 ->
   Z.of_nat (rootDepth r) <= 19 ->
   Code.depth code < Z.of_nat (rootDepth r) ->
   find m code = Some n ->
   parentChecked m n = lift (find m (Code.parent0 code)))
  /\ (Z.of_nat (rootDepth r) <= node_depth n ->
      parentChecked m n = Raise (out_of_range "Node has no parent")).
Proof.
  split.
  - intros Hc Hr Hd Hfind. pose proof (depth_range code) as Hdr.
    unfold find, leafNodeAndDepth in Hfind.
    destruct (findFrom code _ r [] (root m)) as [[[ptr blk] depth]|] eqn:Hf;
      cbn [mbind option_bind] in Hfind; [|discriminate].
    injection Hfind as <-.
    unfold parentChecked, parent, node_depth. cbn [node_code node_dataDepth node_data].
    destruct (Z.leb_spec (Z.of_nat (rootDepth r)) (Code.depth code)) as [Hge|_]; [lia|].
    destruct (Z.eqb_spec (Code.depth code) (Z.of_nat depth)) as [Heq|Hne]; [reflexivity|].
    f_equal. unfold find, leafNodeAndDepth.
    assert (Hgt : Code.depth code < Z.of_nat depth).
    { destruct (findFrom_pointer code _ r [] (root m) ptr blk depth Hf) as (_ & H0 & _).
      pose proof (findFrom_depth_ge code r [] (root m) ptr blk depth
                    ltac:(unfold rootDepth in Hd; lia) Hf) as Hge.
      lia. }
    rewrite (findFrom_parent code (Code.parent0 code) r [] (root m) ptr blk depth);
      [reflexivity| | | |exact Hf|exact Hgt].
    + apply parent0_depth. lia.
    + intros e He. apply parent0_index_above; [exact Hc|lia|exact He].
    + unfold rootDepth in Hd. lia.
  - intros Hge. unfold parentChecked.
    destruct (Z.leb_spec (Z.of_nat (rootDepth r)) (node_depth n)) as [_|Hlt]; [reflexivity|lia].
Qed.

(** ** A write with propagation *)

Section ApplyPropagate.

Context {Data : Type} `{Payload Data}.

Local Abbreviation Leaf := (LeafNode Data).
Local Abbreviation Inner d := (InnerNode Data (NodeAt Data d)).

Variable f : Data -> Z -> Data.
Variable f2 : Data -> Data.
Variable code : Code.t.

(** A write below the depth of a block makes the slot on the way to the
    code a parent. *)
Lemma applyAt_slot_parent d (cur cur' : Inner d) dd :
  Code.depth code < Z.of_nat (S d) ->
  applyAt f f2 code d cur = Some (cur', dd) ->
  isParentSlot cur' (Code.index code (Z.of_nat (S d))).
Proof.
  intros Hd Hrun. pose proof (depth_range code) as Hdr.
  assert (Hcreate : forall (cur1 : Inner d) c,
            createChildren d cur (Code.index code (Z.of_nat (S d))) = Some cur1 ->
            isParentSlot
              (setChild (markModified cur1 (Code.index code (Z.of_nat (S d))) true)
                 (Code.index code (Z.of_nat (S d))) c)
              (Code.index code (Z.of_nat (S d)))).
  { intros cur1 c Hc. unfold isParentSlot. rewrite leaf_setChild. nsimpl.
    pose proof (index_range code (Z.of_nat (S d))) as Hi.
    destruct (IndexField.test (leaf cur) (Code.index code (Z.of_nat (S d)))) eqn:Hl.
    - destruct (createChildren_leaf d cur cur1 _ Hi Hl Hc) as (_ & Hlf & _).
      rewrite Hlf. apply test_assign_eq. apply Hi.
    - rewrite (createChildren_parent d cur _ Hl) in Hc. injection Hc as <-. exact Hl. }
  destruct d as [|d].
  - rewrite applyAt_O in Hrun.
    destruct (min_depth code =? 1)%nat; [|discriminate].
    destruct (Z.eqb_spec (Code.depth code) 0) as [H0|H0]; [|lia].
    cbv zeta in Hrun. bind_case Hrun cur1 Hc. bind_case Hrun child Hg.
    injection Hrun as <- <-.
    first [apply (Hcreate cur1 _ Hc)|apply (Hcreate cur1 _ eq_refl)].
  - rewrite applyAt_S in Hrun.
    destruct (Nat.eqb_spec (min_depth code) (S (S d))) as [Hm|Hm];
      [unfold min_depth in Hm; lia|].
    cbv zeta in Hrun. bind_case Hrun cur1 Hc. bind_case Hrun child Hg.
    destruct (applyAt f f2 code d child) as [[child' depth]|] eqn:Hrec;
      cbn [mbind option_bind] in Hrun; [|discriminate].
    injection Hrun as <- <-.
    first [apply (Hcreate cur1 _ Hc)|apply (Hcreate cur1 _ eq_refl)].
Qed.

End ApplyPropagate.

(** Extra X21.  A write with propagation below the root: on every reachable
    map of root depth up to 19, [apply(code, f, f2, true)] for a code
    below the root depth, in the octant of the root, returns, and afterwards
    no node is modified: [isModified()] is false and so is every modified
    bit below the root. *)
Theorem apply_propagate_leaves_unmodified {Data : Type} `{Payload Data} (r : nat)
    (m : @Map Data r) (code : Code.t) (f : Data -> Z -> Data) (f2 : Data -> Data) :
  Z.of_nat (rootDepth r) <= 19 ->
  reachable false m ->
  Code.depth code < Z.of_nat (rootDepth r) ->
  Code.index code (Z.of_nat (rootDepth r)) = rootIndex ->
  exists node m',
    apply m code f f2 true = Return (node, m')
    /\ node_code node = code
    /\ isModifiedRoot m' = false
    /\ (forall path b, slotModified (S r) (rootIndex :: path) (root m') = Some b ->
        b = false).
Proof.
  intros Hlev Hreach Hd Hidx. pose proof (depth_range code) as Hdr.
  unfold rootDepth in Hlev, Hd, Hidx.
  assert (Hn : Inv false (S r) (root m)) by (apply reachable_Inv; [discriminate|exact Hreach]).
  pose proof (reachable_Sized false r m Hreach) as Hs.
  destruct (applyAt_total f f2 code false r (root m) Hn Hs) as ([root1 depth] & Hat).
  { unfold min_depth. lia. }
  assert (Hn1 : Inv false (S r) root1)
    by (apply (applyAt_Inv f f2 code false r (root m) root1 depth ltac:(discriminate) Hn Hat)).
  pose proof (applyAt_slot_parent f f2 code r (root m) root1 depth Hd Hat) as Hp.
  rewrite Hidx in Hp.
  destruct (propagateModifiedAt_total false (automatic_prune m) false maxDepthLevels r root1
              rootIndex ltac:(discriminate) rootIndex_isIndex Hn1 (fun _ => Hp))
    as (root2 & Hprop).
  assert (Hrun : propagateModified false maxDepthLevels (mkMap (automatic_prune m) root1)
                 = Some (mkMap (automatic_prune m) root2)).
  { unfold propagateModified. cbn [root automatic_prune]. rewrite Hprop. reflexivity. }
  exists (mkNode (Some (blockPath r code depth)) code (Z.of_nat depth)),
         (mkMap (automatic_prune m) root2).
  split.
  - unfold apply, rootDepth.
    destruct (Z.ltb_spec (Z.of_nat (S r)) (Code.depth code)) as [Hlt|_]; [lia|].
    rewrite Hat. cbn [mbind option_bind]. rewrite Hrun. reflexivity.
  - split; [reflexivity|].
    destruct (propagateModified_Inv false r false maxDepthLevels
                (mkMap (automatic_prune m) root1) (mkMap (automatic_prune m) root2)
                ltac:(discriminate) Hn1 Hrun) as [_ Hcl].
    assert (Hle : (S r <= maxDepthLevels)%nat) by (unfold maxDepthLevels; lia).
    specialize (Hcl eq_refl Hle). cbn [root] in Hcl. split.
    + unfold isModifiedRoot. cbn [root]. apply Hcl.
    + cbn [root]. apply CleanSlot_slot; [exact rootIndex_isIndex|exact Hcl].
Qed.

(** ** Pruning *)

Section PruneMore.

Context {Data : Type} `{Payload Data}.

Local Abbreviation Leaf := (LeafNode Data).
Local Abbreviation Inner d := (InnerNode Data (NodeAt Data d)).

Lemma isCollapsible_spec d (node : Inner d) indices res :
  isCollapsible d node indices = Some res ->
  forall i c, isIndex i -> getChild node i = Some c ->
  IndexField.test res i = IndexField.test indices i && collapsibleAt d c.
Proof.
  unfold isCollapsible, forIndices. intros Hrun.
  destruct (forIndicesOn_establish (fun _ : IndexField.t => True)
              (fun j s => forall c, getChild node j = Some c ->
                 IndexField.test s j = IndexField.test indices j && collapsibleAt d c)
              IndexField.indices indices
              (fun i collapsible =>
                 c ← getChild node i;
                 Some (IndexField.assign collapsible i (collapsibleAt d c)))
              NoDup_indices) with (s := IndexField.empty) (s' := res) as [_ Hres].
  - intros i s s1 Hin Ht _ Hbody. apply In_indices in Hin.
    destruct (getChild node i) as [ci|] eqn:Hgi; cbn [mbind option_bind] in Hbody;
      [|discriminate].
    injection Hbody as <-. split; [exact I|]. split.
    + intros c [= <-]. rewrite test_assign_eq by apply Hin. rewrite Ht. reflexivity.
    + intros j Hne Hj c Hgc. rewrite test_assign_ne by (try apply Hin; congruence).
      apply Hj, Hgc.
  - exact I.
  - exact Hrun.
  - intros i c Hi Hg. destruct (IndexField.test indices i) eqn:Ht.
    + rewrite <- Ht. apply Hres; [|exact Hg]. left.
      split; [apply In_indices, Hi|exact Ht].
    + rewrite <- Ht. apply Hres; [|exact Hg]. right.
      intros c' _. rewrite Ht. apply test_empty.
Qed.

Lemma deleteBody_leaf {C} prune (g : C -> option C) (node node' : InnerNode Data C) indices :
  deleteBody prune g node indices = Some node' ->
  (forall i, isIndex i ->
     IndexField.test (leaf node') i
     = IndexField.test (leaf node) i || IndexField.test indices i)
  /\ (prune = false -> (children node' = None <-> children node = None)).
Proof.
  unfold deleteBody. intros Hrun.
  destruct (IndexField.none (IndexField.inter indices (IndexField.compl (leaf node)))) eqn:Hnone.
  - injection Hrun as <-. split; [|tauto].
    intros i Hi. rewrite none_spec in Hnone. specialize (Hnone i Hi).
    rewrite test_inter, test_compl in Hnone by exact Hi.
    destruct (IndexField.test (leaf node) i), (IndexField.test indices i);
      try reflexivity; discriminate.
  - cbv zeta in Hrun.
    destruct (forChildren _ g _) as [node1|] eqn:Hfc; cbn [mbind option_bind] in Hrun;
      [|discriminate].
    destruct (forChildren_spec _ _ _ _ Hfc) as (_ & Hl & Hch & _). nsimpl.
    injection Hrun as <-. split.
    + intros i Hi.
      destruct (IndexField.all (leaf node1)); [destruct prune|]; cbn [deallocateChildren];
        nsimpl; rewrite Hl; apply test_union.
    + intros ->. destruct (IndexField.all (leaf node1)); exact Hch.
Qed.

Lemma deleteChildren_leaf prune d (node node' : Inner d) indices :
  deleteChildren prune d node indices = Some node' ->
  (forall i, isIndex i ->
     IndexField.test (leaf node') i
     = IndexField.test (leaf node) i || IndexField.test indices i)
  /\ (prune = false -> (children node' = None <-> children node = None)).
Proof.
  destruct d as [|d].
  - rewrite deleteChildren_O. apply deleteBody_leaf.
  - rewrite deleteChildren_S. apply deleteBody_leaf.
Qed.

End PruneMore.

(** Extra X22.  [prune(node, indices, depth)] turns into leaves exactly the
    selected slots whose child node is collapsible, and leaves the payload
    and the modified bits of the node alone, whether automatic pruning is on
    or off; the flag decides only whether the child block is released: with
    the flag off, the block stays. *)
Theorem prune_collapses_selected {Data : Type} `{Payload Data} (ap : bool) (d : nat)
    (node node' : InnerNode Data (NodeAt Data d)) (indices : IndexField.t) :
  prune ap d node indices = Some node' ->
  base node' = base node
  /\ (forall i c, isIndex i -> getChild node i = Some c ->
      IndexField.test (leaf node') i
      = IndexField.test (leaf node) i
        || IndexField.test indices i && collapsibleAt d c)
  /\ (ap = false -> (children node' = None <-> children node = None)).
Proof.
  intros Hrun. pose proof (prune_spec ap d node node' indices Hrun) as [Hb _].
  split; [exact Hb|]. unfold prune in Hrun.
  destruct (isCollapsible d node indices) as [res|] eqn:Hcol; cbn [mbind option_bind] in Hrun;
    [|discriminate].
  pose proof (isCollapsible_spec d node indices res Hcol) as Hres.
  destruct (IndexField.any res) eqn:Hany.
  - destruct (deleteChildren_leaf ap d node node' res Hrun) as [Hl Hch].
    split; [|exact Hch]. intros i c Hi Hg. rewrite (Hl i Hi), (Hres i c Hi Hg). reflexivity.
  - injection Hrun as <-. split; [|tauto]. intros i c Hi Hg.
    rewrite <- (Hres i c Hi Hg).
    assert (Hf : IndexField.test res i = false).
    { destruct (IndexField.test res i) eqn:Ht; [|reflexivity].
      assert (Ha : IndexField.any res = true) by (apply any_spec; eauto).
      congruence. }
    rewrite Hf, orb_false_r. reflexivity.
Qed.

(** ** [innerNodeAndDepth] and [isLeaf] *)

Section InnerLookup.

Context {Data : Type} `{Payload Data}.

Local Abbreviation Leaf := (LeafNode Data).
Local Abbreviation Inner d := (InnerNode Data (NodeAt Data d)).

Lemma innerFrom_path min_depth index : forall d path (node : Inner d) ptr blk lf depth,
  innerFrom min_depth index d path node = Some (ptr, (blk, lf), depth) ->
  (depth <= S d)%nat
  /\ ptr = path ++ replicate (S d - depth) index
  /\ blockAt d (replicate (S d - depth) index) node = Some blk.
Proof.
  induction d as [|d IH]; intros path node ptr blk lf depth Hf;
    cbn [innerFrom] in Hf; norm_nodes.
  - destruct (negb _ && _); [discriminate|]. injection Hf as <- <- <- <-.
    split; [lia|]. cbn [Nat.sub replicate]. rewrite app_nil_r.
    split; reflexivity.
  - destruct (negb _ && _).
    + bind_case Hf c Hg.
      destruct (IH _ c ptr blk lf depth Hf) as (Hle & -> & Hb).
      split; [lia|]. replace (S (S d) - depth)%nat with (S (S d - depth)) by lia.
      cbn [replicate]. rewrite <- app_assoc. split; [reflexivity|].
      rewrite blockAt_cons, Hg. exact Hb.
    + injection Hf as <- <- <- <-. split; [lia|].
      replace (S (S d) - S (S d))%nat with O by lia. cbn [replicate].
      rewrite app_nil_r. split; reflexivity.
Qed.

End InnerLookup.

(** Extra X23.  On a map of root depth up to 19, [innerNodeAndDepth(code)]
    walks down from the root with the index of the code at the root depth at
    every level (the index computed
    in the loop body is a new variable that the loop never reads): the block
    it returns is the one reached from the root by taking that slot at every
    step, whatever the indices of the code below the root depth are, and
    [isLeaf(code)] for a code of depth 1 or more reads the leaf bit of the
    code in that block. *)
Theorem innerNodeAndDepth_takes_root_index {Data : Type} `{Payload Data} (r : nat)
    (m : @Map Data r) (code : Code.t) (ptr : list Z) (blk : LeafNode Data)
    (lf : IndexField.t) (depth : nat) :
  Z.of_nat (rootDepth r) <= 19 ->
  innerNodeAndDepth m code = Some (ptr, (blk, lf), depth) ->
  (depth <= rootDepth r)%nat
  /\ ptr = replicate (rootDepth r - depth) (Code.index code (Z.of_nat (rootDepth r)))
  /\ blockAt r ptr (root m) = Some blk
  /\ (isPureLeaf code = false ->
      isLeaf m code = Some (IndexField.test lf (Code.index code (Z.of_nat depth)))).
Proof.
  intros _ Hf. pose proof Hf as Hf0. unfold innerNodeAndDepth in Hf.
  destruct (innerFrom_path _ _ r [] (root m) ptr blk lf depth Hf) as (Hle & Hptr & Hb).
  cbn [app] in Hptr. unfold rootDepth. split; [exact Hle|]. split; [exact Hptr|].
  split; [rewrite Hptr; exact Hb|].
  intros Hpure. unfold isLeaf. rewrite Hpure, Hf0. reflexivity.
Qed.

(** ** What a write stores *)

Section ApplyWrites.

Context {Data : Type} `{Payload Data}.

Local Abbreviation Leaf := (LeafNode Data).
Local Abbreviation Inner d := (InnerNode Data (NodeAt Data d)).

Variable f : Data -> Z -> Data.
Variable f2 : Data -> Data.
Variable code : Code.t.

Lemma applyAt_writes_cell : forall d path (cur cur' : Inner d) ptr blk dd,
  findFrom code (min_depth code) d path cur = Some (ptr, blk, O) ->
  applyAt f f2 code d cur = Some (cur', dd) ->
  findFrom code (min_depth code) d path cur' = Some (ptr, written f code blk, O).
Proof.
  induction d as [|d IH]; intros path cur cur' ptr blk dd Hf Hrun.
  - rewrite applyAt_O in Hrun. cbn [findFrom] in Hf |- *; norm_nodes.
    destruct (Nat.eqb_spec (min_depth code) 1) as [Hm1|]; [|discriminate].
    cbn [negb andb] in Hf |- *.
    destruct (Z.eqb_spec (Code.depth code) 0) as [Hd0|Hd0]; cbn [andb] in Hf;
      [|discriminate].
    destruct (IndexField.test (leaf cur) (Code.index code 1)) eqn:Hl; cbn [negb] in Hf;
      [discriminate|].
    bind_case Hf c Hg. injection Hf as <- <-.
    cbv zeta in Hrun. rewrite (createChildren_parent 0 cur _ Hl) in Hrun.
    cbn [mbind option_bind] in Hrun. rewrite getChild_markModified in Hrun.
    first [rewrite Hg in Hrun|idtac]. cbn [mbind option_bind] in Hrun.
    injection Hrun as <- _.
    rewrite leaf_setChild. nsimpl. rewrite Hl. cbn [negb andb].
    rewrite (getChild_setChild_eq _ _ _ c) by (rewrite getChild_markModified; exact Hg).
    reflexivity.
  - rewrite applyAt_S in Hrun. cbn [findFrom] in Hf |- *; norm_nodes.
    destruct (negb (min_depth code =? S (S d))%nat
              && negb (IndexField.test (leaf cur) (Code.index code (Z.of_nat (S (S d))))))
      eqn:Hc1.
    2:{ destruct ((Code.depth code =? 0) && _); discriminate. }
    apply andb_prop in Hc1. destruct Hc1 as [Hne Hl].
    apply negb_true_iff in Hne, Hl. rewrite Hne in Hrun |- *.
    bind_case Hf c Hg.
    cbv zeta in Hrun. rewrite (createChildren_parent (S d) cur _ Hl) in Hrun.
    cbn [mbind option_bind] in Hrun. rewrite getChild_markModified in Hrun.
    first [rewrite Hg in Hrun|idtac]. cbn [mbind option_bind] in Hrun.
    destruct (applyAt f f2 code d c) as [[c' depth]|] eqn:Hrec;
      cbn [mbind option_bind] in Hrun; [|discriminate].
    injection Hrun as <- _.
    rewrite leaf_setChild. nsimpl. rewrite Hl. cbn [negb andb].
    rewrite (getChild_setChild_eq _ _ _ c) by (rewrite getChild_markModified; exact Hg).
    cbn [mbind option_bind]. apply (IH _ c c' ptr blk depth Hf Hrec).
Qed.

End ApplyWrites.

(** Extra X24.  A write to an existing cell stores the result of [f]: when
    the lookup of a code reaches a leaf node (depth 0), [apply(code, f, f2)]
    without propagation leaves the tree such that the same lookup reaches a
    leaf node in the same place whose payload is [f] applied to the former
    payload at the index of the code, and whose modified bit for that index
    is set, the other modified bits being as before. *)
Theorem apply_writes_cell {Data : Type} `{Payload Data} (r : nat) (m m' : @Map Data r)
    (code : Code.t) (f : Data -> Z -> Data) (f2 : Data -> Data) (node : Node)
    (ptr : list Z) (blk : LeafNode Data) :
  leafNodeAndDepth m code = Some (ptr, blk, O) ->
  apply m code f f2 false = Return (node, m') ->
  exists blk',
    leafNodeAndDepth m' code = Some (ptr, blk', O)
    /\ data blk' = f (data blk) (Code.index code 0)
    /\ modified blk' = IndexField.assign (modified blk) (Code.index code 0) true.
Proof.
  intros Hf Hrun. unfold apply in Hrun.
  destruct (Z.of_nat (rootDepth r) <? Code.depth code) eqn:Hlt.
  - injection Hrun as _ <-. exfalso.
    destruct (findFrom_pointer code _ r [] (root m) ptr blk O Hf) as (_ & H0 & _).
    specialize (H0 eq_refl). apply Z.ltb_lt in Hlt. lia.
  - destruct (applyAt f f2 code r (root m)) as [[root' depth]|] eqn:Hat;
      cbn [mbind option_bind lift] in Hrun; [|discriminate].
    injection Hrun as _ <-. exists (written f code blk).
    split; [|split; reflexivity].
    unfold leafNodeAndDepth. cbn [root].
    apply (applyAt_writes_cell f f2 code r [] (root m) root' ptr blk depth Hf Hat).
Qed.

(** ** [setModifiedParents] *)

Section ParentsFacts.

Context {Data : Type} `{Payload Data}.

Local Abbreviation Leaf := (LeafNode Data).
Local Abbreviation Inner d := (InnerNode Data (NodeAt Data d)).

Variable code : Code.t.

Lemma setModifiedParentsRecurs_O (node : Inner 0) :
  setModifiedParentsRecurs code 0 node = Some (markModified node (Code.index code 1) true).
Proof. reflexivity. Qed.

Lemma setModifiedParentsRecurs_S d (node : Inner (S d)) :
  setModifiedParentsRecurs code (S d) node
  = let index := Code.index code (Z.of_nat (S (S d))) in
    let node1 := markModified node index true in
    if (Code.depth code <? Z.of_nat (S (S d)) - 1)
       && negb (IndexField.test (leaf node1) index)
    then
      c ← getChild node1 index;
      c ← setModifiedParentsRecurs code d c;
      Some (setChild node1 index c)
    else Some node1.
Proof. reflexivity. Qed.

(** Marking one slot of a block as modified. *)
Lemma markModified_slots d (node : Inner d) k :
  isIndex k ->
  forall path b, slotModified (S d) path (markModified node k true) = Some b ->
  (path = [k] -> b = true)
  /\ (path <> [k] -> slotModified (S d) path node = Some b).
Proof.
  intros Hk path b Hslot. destruct path as [|i [|j p]].
  - rewrite slotModified_nil in Hslot. discriminate.
  - pose proof Hslot as Hs. apply slotModified_single_inv in Hs. destruct Hs as [Hi ->].
    cbn [asLeaf]. rewrite modified_markModified. split.
    + intros [= ->]. apply test_assign_eq, Hk.
    + intros Hne. rewrite test_assign_ne by (try apply Hk; congruence).
      rewrite slotModified_single.
      destruct Hi as [Hi0 Hi8]. apply Z.leb_le in Hi0. apply Z.ltb_lt in Hi8.
      rewrite Hi0, Hi8. reflexivity.
  - split; [discriminate|]. intros _.
    rewrite slotModified_cons in Hslot |- *. nsimpl.
    rewrite getChild_markModified in Hslot. exact Hslot.
Qed.

Lemma setModifiedParentsRecurs_spec : forall d (node : Inner d),
  WF (S d) node ->
  exists node',
    setModifiedParentsRecurs code d node = Some node'
    /\ SameData (S d) node node'
    /\ forall path b, slotModified (S d) path node' = Some b ->
       (path `prefix_of` parentsPath code (S d) -> b = true)
       /\ (~ path `prefix_of` parentsPath code (S d) ->
           slotModified (S d) path node = Some b).
Proof.
  induction d as [|d IH]; intros node Hwf.
  - rewrite setModifiedParentsRecurs_O. eexists. split; [reflexivity|].
    split; [apply SameData_markModified, SameData_refl|].
    intros path b Hslot.
    destruct (markModified_slots 0 node (Code.index code 1) (index_range code 1) path b Hslot)
      as [Heq Hne].
    cbn [parentsPath]. change (Z.of_nat 1) with 1.
    replace (Code.depth code <? Z.of_nat 0) with false
      by (symmetry; apply Z.ltb_ge; pose proof (depth_range code); lia).
    split.
    + intros Hpre. destruct path as [|i [|j p]].
      * rewrite slotModified_nil in Hslot. discriminate.
      * apply prefix_cons_inv_1 in Hpre. subst i. apply Heq. reflexivity.
      * apply prefix_cons_inv_2, prefix_nil_inv in Hpre. discriminate.
    + intros Hnp. apply Hne. intros ->. apply Hnp. reflexivity.
  - rewrite setModifiedParentsRecurs_S. cbv zeta.
    set (index := Code.index code (Z.of_nat (S (S d)))) in *.
    assert (Hi : isIndex index) by apply index_range.
    set (node1 := markModified node index true).
    assert (Hmark : forall path b, slotModified (S (S d)) path node1 = Some b ->
              (path = [index] -> b = true)
              /\ (path <> [index] -> slotModified (S (S d)) path node = Some b))
      by (apply markModified_slots; exact Hi).
    assert (Hpp : parentsPath code (S (S d))
                  = index :: if Code.depth code <? Z.of_nat (S d)
                             then parentsPath code (S d) else []) by reflexivity.
    replace (Z.of_nat (S (S d)) - 1) with (Z.of_nat (S d)) by lia.
    destruct ((Code.depth code <? Z.of_nat (S d))
              && negb (IndexField.test (leaf node1) index)) eqn:Hcond.
    + apply andb_prop in Hcond. destruct Hcond as [Hlt Hl]. apply negb_true_iff in Hl.
      rewrite Hlt in Hpp.
      pose proof Hwf as Hwf'. rewrite WF_S in Hwf'.
      destruct (Hwf' index Hi Hl) as (c & Hg & Hwfc). norm_nodes.
      assert (Hg1 : getChild node1 index = Some c)
        by (unfold node1; rewrite getChild_markModified; exact Hg).
      destruct (IH c Hwfc) as (c' & Hrec & Hsd & Hslots).
      rewrite Hg1. cbn [mbind option_bind]. rewrite Hrec. cbn [mbind option_bind].
      eexists. split; [reflexivity|]. split.
      * pose proof (SameData_setChild (S d) node1 index c c' Hi Hg1 Hsd) as Hs.
        rewrite SameData_S in *. exact Hs.
      * intros path b Hslot. rewrite Hpp. destruct path as [|i [|j p]].
        -- rewrite slotModified_nil in Hslot. discriminate.
        -- assert (Hs1 : slotModified (S (S d)) [i] node1 = Some b).
           { rewrite slotModified_single in Hslot |- *. cbn [asLeaf] in *.
             rewrite base_setChild in Hslot. exact Hslot. }
           destruct (Hmark [i] b Hs1) as [Heq Hne]. split.
           ++ intros Hpre. apply prefix_cons_inv_1 in Hpre. subst i. apply Heq. reflexivity.
           ++ intros Hnp. apply Hne. intros [= ->]. apply Hnp.
              apply prefix_cons, prefix_nil.
        -- pose proof Hslot as Hs. apply slotModified_cons_inv in Hs.
           destruct Hs as (Hii & Hp & ci & Hgi & Hsi).
           destruct (Z.eq_dec i index) as [->|Hne].
           ++ rewrite (getChild_setChild_eq _ _ _ _ Hg1) in Hgi. injection Hgi as <-.
              destruct (Hslots (j :: p) b Hsi) as [Ht Hu]. split.
              ** intros Hpre. apply Ht. apply prefix_cons_inv_2 in Hpre. exact Hpre.
              ** intros Hnp. rewrite slotModified_cons.
                 destruct Hi as [Hi0 Hi8]. apply Z.leb_le in Hi0. apply Z.ltb_lt in Hi8.
                 rewrite Hi0, Hi8. unfold node1 in Hl. nsimpl. norm_nodes. rewrite Hl. cbn [negb andb].
                 rewrite Hg. cbn [mbind option_bind]. apply Hu.
                 intros Hpre. apply Hnp. apply prefix_cons, Hpre.
           ++ assert (Hs1 : slotModified (S (S d)) (i :: j :: p) node = Some b).
              { rewrite slotModified_cons in Hslot |- *.
                rewrite leaf_setChild in Hslot. unfold node1 in Hslot. nsimpl.
                rewrite getChild_setChild_ne in Hslot
                  by (try apply Hi; try apply Hii; congruence).
                rewrite getChild_markModified in Hslot. exact Hslot. }
              split; [|intros _; exact Hs1].
              intros Hpre. apply prefix_cons_inv_1 in Hpre. contradiction.
    + eexists. split; [reflexivity|].
      split; [apply SameData_markModified, SameData_refl|].
      intros path b Hslot. destruct (Hmark path b Hslot) as [Heq Hne]. rewrite Hpp.
      split.
      * intros Hpre. destruct path as [|i [|j p]].
        -- rewrite slotModified_nil in Hslot. discriminate.
        -- apply prefix_cons_inv_1 in Hpre. subst i. apply Heq. reflexivity.
        -- exfalso. pose proof Hpre as Hpi. apply prefix_cons_inv_1 in Hpi. subst i.
           apply prefix_cons_inv_2 in Hpre.
           apply slotModified_cons_inv in Hslot. destruct Hslot as (_ & Hp & _).
           unfold isParentSlot in Hp. rewrite Hp in Hcond. cbn [negb] in Hcond.
           rewrite andb_true_r in Hcond. rewrite Hcond in Hpre.
           apply prefix_nil_inv in Hpre. discriminate.
      * intros Hnp. apply Hne. intros ->. apply Hnp. apply prefix_cons, prefix_nil.
Qed.

End ParentsFacts.

(** Extra X16.  On a map of root depth up to 19, [setModifiedParents(code)]
    returns on every tree that holds its children; it sets the modified bit of the slots on the way from the
    root towards the code, from the root depth down to the depth above the
    depth of the code or to the last node in the tree, and changes nothing
    else: every other modified bit, every payload and every leaf bit is as
    before. *)
Theorem setModifiedParents_marks_ancestors {Data : Type} `{Payload Data} (r : nat)
    (m : @Map Data r) (code : Code.t) :
  Z.of_nat (rootDepth r) <= 19 ->
  WF (S r) (root m) ->
  exists m',
    setModifiedParents m code = Some m'
    /\ automatic_prune m' = automatic_prune m
    /\ SameData (S r) (root m) (root m')
    /\ forall path b, slotModified (S r) path (root m') = Some b ->
       (path `prefix_of` parentsPath code (rootDepth r) -> b = true)
       /\ (~ path `prefix_of` parentsPath code (rootDepth r) ->
           slotModified (S r) path (root m) = Some b).
Proof.
  intros _ Hwf.
  destruct (setModifiedParentsRecurs_spec code r (root m) Hwf) as (root' & Hrun & Hsd & Hs).
  exists (mkMap (automatic_prune m) root').
  split; [unfold setModifiedParents; rewrite Hrun; reflexivity|].
  split; [reflexivity|]. split; [exact Hsd|exact Hs].
Qed.

(** * Further examples *)

Section MoreExamples.

Import Occupancy OccupancyMore.

#[local] Existing Instance Occupancy.payload.

Lemma cell_in_depth : Code.depth cell <= Z.of_nat (rootDepth 1).
Proof. vm_compute. discriminate. Qed.

Lemma cell_range : 0 <= cell < 2 ^ 64.
Proof. vm_compute. split; [discriminate|reflexivity]. Qed.

Lemma root_depth_defined : Z.of_nat (rootDepth 1) <= 19.
Proof. vm_compute. discriminate. Qed.

Lemma map0_apply : apply map0 cell hit hitAll false = Return (node1, map1).
Proof. vm_compute. reflexivity. Qed.

Lemma map1_find : find map1 cell = Some node1.
Proof. vm_compute. reflexivity. Qed.

(** The write to [cell] on the new map, looked up again. *)
Lemma find_after_apply_witness :
  Code.depth cell <= Z.of_nat (rootDepth 1)
  /\ apply map0 cell hit hitAll false = Return (node1, map1)
  /\ find map1 cell = Some node1
  /\ at_ map1 cell = Some (Some node1)
  /\ exists_ map1 cell = Some true
  /\ node_dataDepth node1 = Code.depth cell.
Proof.
  exact (conj cell_in_depth (conj map0_apply
           (find_after_apply 1 map0 map1 cell hit hitAll node1 cell_in_depth map0_apply))).
Defined.

Lemma isModified_after_apply_witness :
  Code.depth cell <= Z.of_nat (rootDepth 1)
  /\ apply map0 cell hit hitAll false = Return (node1, map1)
  /\ Z.of_nat (rootDepth 1) <= 19
  /\ Code.index cell (Z.of_nat (rootDepth 1)) = rootIndex
  /\ isModified map1 cell = Some true
  /\ isModifiedRoot map1 = true.
Proof.
  assert (Hi : Code.index cell (Z.of_nat (rootDepth 1)) = rootIndex) by reflexivity.
  destruct (isModified_after_apply 1 map0 map1 cell hit hitAll node1 cell_in_depth map0_apply)
    as [Hm Hr].
  exact (conj cell_in_depth (conj map0_apply (conj root_depth_defined (conj Hi
           (conj Hm (Hr root_depth_defined Hi)))))).
Defined.

(** [clear(true)] on the map that holds [cell]. *)
Lemma clear_leaves_root_only_witness :
  reachable false map1
  /\ exists m',
       clear (replicate 8 0) true map1 = Some m'
       /\ automatic_prune m' = automatic_prune map1
       /\ data (base (root m')) = replicate 8 0
       /\ (forall code,
             find m' code = Some (mkNode (Some []) code (Z.of_nat (rootDepth 1)))
             /\ isModified m' code = Some false)
       /\ (if IndexField.all (leaf (root map1))
           then children (root m') = children (root map1)
           else true || automatic_prune map1 = true -> children (root m') = None).
Proof.
  exact (conj (map1_reachable false)
           (clear_leaves_root_only 1 map1 (replicate 8 0) true (map1_reachable false))).
Defined.

Lemma map1_propagate : propagateModified false maxDepthLevels map1 = Some map2.
Proof. vm_compute. reflexivity. Qed.

Lemma propagateModified_twice_witness :
  (rootDepth 1 <= maxDepthLevels)%nat
  /\ propagateModified false maxDepthLevels map1 = Some map2
  /\ isModifiedRoot map2 = false
  /\ propagateModified true 0 map2 = Some map2.
Proof.
  assert (Hle : (rootDepth 1 <= maxDepthLevels)%nat) by (unfold rootDepth, maxDepthLevels; lia).
  exact (conj Hle (conj map1_propagate
           (propagateModified_twice 1 map1 map2 maxDepthLevels true 0 Hle map1_propagate))).
Defined.

(** A write to the root code of the new map, with propagation. *)
Lemma apply_root_propagate_undefined_witness :
  IndexField.test (leaf (root map0)) rootIndex = true
  /\ children (root map0) = None
  /\ Code.depth (rootCode 1) = Z.of_nat (rootDepth 1)
  /\ Code.index (rootCode 1) (Z.of_nat (rootDepth 1)) = rootIndex
  /\ apply map0 (rootCode 1) hit hitAll true = Undefined.
Proof.
  assert (H1 : IndexField.test (leaf (root map0)) rootIndex = true) by reflexivity.
  assert (H2 : children (root map0) = None) by reflexivity.
  assert (H3 : Code.depth (rootCode 1) = Z.of_nat (rootDepth 1)) by reflexivity.
  assert (H4 : Code.index (rootCode 1) (Z.of_nat (rootDepth 1)) = rootIndex) by reflexivity.
  exact (conj H1 (conj H2 (conj H3 (conj H4
           (apply_root_propagate_undefined 1 map0 (rootCode 1) hit hitAll H1 H2 H3 H4))))).
Defined.

Lemma resetModified_clears_flags_only_witness :
  reachable false map1
  /\ (rootDepth 1 <= maxDepthLevels)%nat
  /\ exists m',
       resetModified maxDepthLevels map1 = Some m'
       /\ automatic_prune m' = automatic_prune map1
       /\ isModifiedRoot m' = false
       /\ (forall path b, slotModified 2 (rootIndex :: path) (root m') = Some b ->
           b = false)
       /\ SameData 2 (root map1) (root m').
Proof.
  assert (Hle : (rootDepth 1 <= maxDepthLevels)%nat) by (unfold rootDepth, maxDepthLevels; lia).
  exact (conj (map1_reachable false) (conj Hle
           (resetModified_clears_flags_only 1 map1 maxDepthLevels (map1_reachable false) Hle))).
Defined.

(** After the write with propagation nothing is modified. *)
Lemma unmodified_root_nothing_modified_witness :
  Z.of_nat (rootDepth 1) <= 19
  /\ reachable false map2
  /\ isModifiedRoot map2 = false
  /\ Code.depth cell <= Z.of_nat (rootDepth 1)
  /\ Code.index cell (Z.of_nat (rootDepth 1)) = rootIndex
  /\ isModified map2 cell = Some false.
Proof.
  assert (H2 : isModifiedRoot map2 = false) by (vm_compute; reflexivity).
  assert (H4 : Code.index cell (Z.of_nat (rootDepth 1)) = rootIndex) by reflexivity.
  exact (conj root_depth_defined (conj (map2_reachable false) (conj H2 (conj cell_in_depth
           (conj H4
              (unmodified_root_nothing_modified 1 map2 cell root_depth_defined
                 (map2_reachable false) H2 cell_in_depth H4)))))).
Defined.

Lemma findNode_of_find_witness :
  find map1 cell = Some node1 /\ findNode map1 node1 = Some node1.
Proof. exact (conj map1_find (findNode_of_find 1 map1 cell node1 map1_find)). Defined.

Lemma sibling_of_find_witness :
  Z.of_nat (rootDepth 1) <= 19
  /\ 0 <= cell < 2 ^ 64
  /\ Code.depth cell <= 18
  /\ Code.depth cell <= Z.of_nat (rootDepth 1)
  /\ 0 <= 3 < 8
  /\ find map1 cell = Some node1
  /\ sibling map1 node1 3 = find map1 (Code.sibling cell 3)
  /\ sibling map1 node1 3
     = Some (mkNode (node_data node1) (Code.sibling cell 3) (node_dataDepth node1)).
Proof.
  assert (Hd : Code.depth cell <= 18) by (vm_compute; discriminate).
  assert (Hi : 0 <= 3 < 8) by lia.
  exact (conj root_depth_defined (conj cell_range (conj Hd (conj cell_in_depth (conj Hi
           (conj map1_find
              (sibling_of_find 1 map1 cell node1 3 root_depth_defined cell_range Hd
                 cell_in_depth Hi map1_find))))))).
Defined.

(** The parent of the handle of [cell], and of the root handle. *)
Lemma parentChecked_of_find_witness :
  0 <= cell < 2 ^ 64
  /\ Z.of_nat (rootDepth 1) <= 19
  /\ Code.depth cell < Z.of_nat (rootDepth 1)
  /\ find map1 cell = Some node1
  /\ Z.of_nat (rootDepth 1) <= node_depth (rootNode 1)
  /\ parentChecked map1 node1 = lift (find map1 (Code.parent0 cell))
  /\ parentChecked map1 (rootNode 1) = Raise (out_of_range "Node has no parent").
Proof.
  assert (Hr : Z.of_nat (rootDepth 1) <= 19) by (vm_compute; discriminate).
  assert (Hd : Code.depth cell < Z.of_nat (rootDepth 1)) by reflexivity.
  assert (Hn : Z.of_nat (rootDepth 1) <= node_depth (rootNode 1)) by (vm_compute; discriminate).
  exact (conj cell_range (conj Hr (conj Hd (conj map1_find (conj Hn (conj
           (proj1 (parentChecked_of_find 1 map1 cell node1) cell_range Hr Hd map1_find)
           (proj2 (parentChecked_of_find 1 map1 cell (rootNode 1)) Hn))))))).
Defined.

Lemma apply_propagate_leaves_unmodified_witness :
  Z.of_nat (rootDepth 1) <= 19
  /\ reachable false map1
  /\ Code.depth cell < Z.of_nat (rootDepth 1)
  /\ Code.index cell (Z.of_nat (rootDepth 1)) = rootIndex
  /\ exists node m',
       apply map1 cell hit hitAll true = Return (node, m')
       /\ node_code node = cell
       /\ isModifiedRoot m' = false
       /\ (forall path b, slotModified 2 (rootIndex :: path) (root m') = Some b ->
           b = false).
Proof.
  assert (Hd : Code.depth cell < Z.of_nat (rootDepth 1)) by reflexivity.
  assert (Hi : Code.index cell (Z.of_nat (rootDepth 1)) = rootIndex) by reflexivity.
  exact (conj root_depth_defined (conj (map1_reachable false) (conj Hd (conj Hi
           (apply_propagate_leaves_unmodified 1 map1 cell hit hitAll
              root_depth_defined (map1_reachable false) Hd Hi))))).
Defined.

Lemma prune_collapses_selected_witness :
  prune false 1 (root map1) (IndexField.single 0) = Some pruned1
  /\ base pruned1 = base (root map1)
  /\ (forall i c, isIndex i -> getChild (root map1) i = Some c ->
      IndexField.test (leaf pruned1) i
      = IndexField.test (leaf (root map1)) i
        || IndexField.test (IndexField.single 0) i && collapsibleAt 1 c)
  /\ (false = false -> (children pruned1 = None <-> children (root map1) = None)).
Proof.
  assert (H1 : prune false 1 (root map1) (IndexField.single 0) = Some pruned1)
    by (vm_compute; reflexivity).
  exact (conj H1 (prune_collapses_selected false 1 (root map1) pruned1
                    (IndexField.single 0) H1)).
Defined.

Lemma innerNodeAndDepth_takes_root_index_witness :
  Z.of_nat (rootDepth 1) <= 19
  /\ innerNodeAndDepth map1 above = Some ([0], (fst inner1, snd inner1), 1%nat)
  /\ (1 <= rootDepth 1)%nat
  /\ [0] = replicate (rootDepth 1 - 1) (Code.index above (Z.of_nat (rootDepth 1)))
  /\ blockAt 1 [0] (root map1) = Some (fst inner1)
  /\ (isPureLeaf above = false ->
      isLeaf map1 above
      = Some (IndexField.test (snd inner1) (Code.index above (Z.of_nat 1)))).
Proof.
  assert (H1 : innerNodeAndDepth map1 above = Some ([0], (fst inner1, snd inner1), 1%nat))
    by (vm_compute; reflexivity).
  exact (conj root_depth_defined (conj H1
           (innerNodeAndDepth_takes_root_index 1 map1 above [0] (fst inner1)
              (snd inner1) 1 root_depth_defined H1))).
Defined.

(** A second write to [cell]. *)
Lemma apply_writes_cell_witness :
  leafNodeAndDepth map1 cell = Some ([0; 0], leaf1, O)
  /\ apply map1 cell hit hitAll false = Return (node1, map4)
  /\ exists blk',
       leafNodeAndDepth map4 cell = Some ([0; 0], blk', O)
       /\ data blk' = hit (data leaf1) (Code.index cell 0)
       /\ modified blk' = IndexField.assign (modified leaf1) (Code.index cell 0) true.
Proof.
  assert (H1 : leafNodeAndDepth map1 cell = Some ([0; 0], leaf1, O))
    by (vm_compute; reflexivity).
  assert (H2 : apply map1 cell hit hitAll false = Return (node1, map4))
    by (vm_compute; reflexivity).
  exact (conj H1 (conj H2 (apply_writes_cell 1 map1 map4 cell hit hitAll node1 [0; 0] leaf1
                             H1 H2))).
Defined.

Lemma setModifiedParents_marks_ancestors_witness :
  Z.of_nat (rootDepth 1) <= 19
  /\ WF 2 (root map2)
  /\ exists m',
       setModifiedParents map2 cell = Some m'
       /\ automatic_prune m' = automatic_prune map2
       /\ SameData 2 (root map2) (root m')
       /\ forall path b, slotModified 2 path (root m') = Some b ->
          (path `prefix_of` parentsPath cell (rootDepth 1) -> b = true)
          /\ (~ path `prefix_of` parentsPath cell (rootDepth 1) ->
              slotModified 2 path (root map2) = Some b).
Proof.
  assert (Hwf : WF 2 (root map2)).
  { apply (Inv_WF false 2). apply reachable_Inv; [discriminate|apply map2_reachable]. }
  exact (conj root_depth_defined (conj Hwf
           (setModifiedParents_marks_ancestors 1 map2 cell root_depth_defined Hwf))).
Defined.

End MoreExamples.
